(** * simplequantnetsim: entanglement distribution over a repeater network

    A shallow embedding of [simplequantnetsim/sim.py], [graph.py] and
    [protocols.py].

    - A networkx [Graph] is a pair of ordered containers: the node
      dictionary (node, attribute record) in insertion order, and the edges
      (endpoint, endpoint, attribute record) in the order they were added.
      The order in which [G.edges()] yields the edges is computed from
      these two, as networkx does from its adjacency dictionaries.
    - Attribute dictionaries are typed records: the graph handed to the
      simulator is attribute-complete.  Python [int]s are [Z]; every other
      number (probabilities, lengths, [Qc], rates) is a rational [Q], on
      which comparisons agree with those of finite floats.
    - Functions that mutate their arguments in place return the new state;
      a raised exception is returned together with the state reached when
      it was raised.
    - [numpy.random.rand] is an explicit source of draws, [nat -> Q]. *)

From Stdlib Require Import List Permutation ZArith QArith Bool Arith Lia Lqa.
Import ListNotations.

Set Implicit Arguments.
Close Scope Q_scope.

(** ** Exceptions *)

Inductive exn : Type :=
| ZeroDivisionError
| ValueError
| IndexError
| KeyError
| UnboundLocalError
| NodeNotFound
| NetworkXNoPath
| NetworkXError
| TypeError
| OverflowError.

Inductive result (A : Type) : Type :=
| Ok (a : A)
| Raise (e : exn).

Arguments Ok {A} a.
Arguments Raise {A} e.

Definition bind {A B : Type} (m : result A) (k : A -> result B) : result B :=
  match m with
  | Ok a => k a
  | Raise e => Raise e
  end.

Declare Scope py_scope.
Delimit Scope py_scope with py.
Notation "x <- m ;; k" := (bind m (fun x => k))
  (at level 61, m at next level, right associativity) : py_scope.
Notation "' p <- m ;; k" := (bind m (fun p => k))
  (at level 61, p pattern, m at next level, right associativity) : py_scope.

(** ** Data model *)

Definition node : Type := nat.

Record EdgeAttr : Type := mkEdgeAttr {
  e_length : Q;
  e_p_edge : Q;
  e_Qc : Q;
  e_entangled : bool;
  e_age : Z
}.

Record NodeAttr : Type := mkNodeAttr {
  n_entangled : bool;
  n_age : Z;
  n_Qc : Q;
  n_usage_count : Z;
  n_usage_fraction : Q
}.

Definition set_e_entangled (b : bool) (e : EdgeAttr) : EdgeAttr :=
  mkEdgeAttr (e_length e) (e_p_edge e) (e_Qc e) b (e_age e).
Definition set_e_age (a : Z) (e : EdgeAttr) : EdgeAttr :=
  mkEdgeAttr (e_length e) (e_p_edge e) (e_Qc e) (e_entangled e) a.
Definition set_n_entangled (b : bool) (n : NodeAttr) : NodeAttr :=
  mkNodeAttr b (n_age n) (n_Qc n) (n_usage_count n) (n_usage_fraction n).
Definition set_n_age (a : Z) (n : NodeAttr) : NodeAttr :=
  mkNodeAttr (n_entangled n) a (n_Qc n) (n_usage_count n) (n_usage_fraction n).
Definition set_n_usage_count (c : Z) (n : NodeAttr) : NodeAttr :=
  mkNodeAttr (n_entangled n) (n_age n) (n_Qc n) c (n_usage_fraction n).
Definition set_n_usage_fraction (f : Q) (n : NodeAttr) : NodeAttr :=
  mkNodeAttr (n_entangled n) (n_age n) (n_Qc n) (n_usage_count n) f.

(** An edge as stored: its two endpoints and its attribute dictionary. *)
Definition Edge (EA : Type) : Type := (node * node * EA)%type.

Definition eu {EA} (e : Edge EA) : node := fst (fst e).
Definition ev {EA} (e : Edge EA) : node := snd (fst e).
Definition eattr {EA} (e : Edge EA) : EA := snd e.
Definition on_attr {EA} (f : EA -> EA) (e : Edge EA) : Edge EA :=
  (eu e, ev e, f (eattr e)).

Record Graph (NA EA : Type) : Type := mkGraph {
  g_nodes : list (node * NA);
  g_edges : list (Edge EA)
}.

(** The topology and the star graph carry node attributes; the entangled
    subgraph has bare nodes. *)
Definition Topology : Type := Graph NodeAttr EdgeAttr.
Definition LinkGraph : Type := Graph unit EdgeAttr.

(** A used-path dictionary.  The shortest-path strategies write all four
    keys, the connected-component strategy only ["nodes"] and
    ["edge_count"]. *)
Record UsedPath : Type := mkUsedPath {
  up_nodes : list node;
  up_edge_count : Z;
  up_age : option Z;
  up_destination_node : option node
}.

(** ** Graph queries *)

Section GraphQueries.
Context {NA EA : Type}.

Definition node_ids (G : Graph NA EA) : list node := map fst (g_nodes G).

Definition mem (n : node) (l : list node) : bool := existsb (Nat.eqb n) l.

Definition has_node (G : Graph NA EA) (n : node) : bool := mem n (node_ids G).

(** [(u, v)] and [(v, u)] name the same undirected edge. *)
Definition same_edge (u v : node) (e : Edge EA) : bool :=
  ((eu e =? u) && (ev e =? v)) || ((eu e =? v) && (ev e =? u)).

Definition has_edge (G : Graph NA EA) (u v : node) : bool :=
  existsb (same_edge u v) (g_edges G).

Definition incident (n : node) (e : Edge EA) : bool :=
  (eu e =? n) || (ev e =? n).

Definition other_end (n : node) (e : Edge EA) : node :=
  if eu e =? n then ev e else eu e.

(** [G.adj[n]]: the neighbours of [n], in the order their edges were
    added. *)
Definition neighbors (G : Graph NA EA) (n : node) : list node :=
  map (other_end n) (filter (incident n) (g_edges G)).

(** Iteration of the edge view: for every node [n] in node order, for
    every neighbour [nbr] of [n] in adjacency order that was not an
    earlier [n], yield [(n, nbr)].  Each yielded edge comes with its
    position in [g_edges], which stands for the identity of its
    attribute dictionary. *)
Fixpoint edge_view_from (ns seen : list node) (es : list (nat * Edge EA))
  : list (nat * Edge EA) :=
  match ns with
  | [] => []
  | n :: ns' =>
      map (fun ie => (fst ie, (n, other_end n (snd ie), eattr (snd ie))))
          (filter (fun ie => incident n (snd ie)
                             && negb (mem (other_end n (snd ie)) seen)) es)
      ++ edge_view_from ns' (n :: seen) es
  end.

Definition indexed (es : list (Edge EA)) : list (nat * Edge EA) :=
  combine (seq 0 (length es)) es.

Definition edge_view (G : Graph NA EA) : list (nat * Edge EA) :=
  edge_view_from (node_ids G) [] (indexed (g_edges G)).

(** The dictionaries visited by [G.edges().values()], by position. *)
Definition edge_order (G : Graph NA EA) : list nat := map fst (edge_view G).

(** [G.edges(data=True)]. *)
Definition edges (G : Graph NA EA) : list (Edge EA) := map snd (edge_view G).

(** [G.number_of_edges()] / [len(G.edges())]. *)
Definition number_of_edges (G : Graph NA EA) : nat := length (g_edges G).

End GraphQueries.

Fixpoint update_nth {A : Type} (i : nat) (f : A -> A) (l : list A) : list A :=
  match l, i with
  | [], _ => []
  | x :: l', O => f x :: l'
  | x :: l', S i' => x :: update_nth i' f l'
  end.

(** ** sim.py *)

(** [numpy.random.rand(n)]: the next [n] draws and the advanced source. *)
Definition RandomSource : Type := nat -> Q.

Definition np_random_rand (n : nat) (rng : RandomSource) : list Q * RandomSource :=
  (map rng (seq 0 n), fun i => rng (n + i)%nat).

Definition Qgt_bool (x y : Q) : bool := negb (Qle_bool x y).

Arguments Qgt_bool : simpl never.

(** Lines 17-24: ageing and decoherence of one edge. *)
Definition edge_decohere (e : EdgeAttr) : EdgeAttr :=
  if e_entangled e then
    let e1 := set_e_age (e_age e + 1)%Z e in
    if Qle_bool (e_Qc e1) (inject_Z (e_age e1))
    then set_e_age 0%Z (set_e_entangled false e1)
    else e1
  else e.

(** Lines 26-30: generation, tested on the state left by lines 17-24. *)
Definition edge_generate (r : Q) (e : EdgeAttr) : EdgeAttr :=
  if negb (e_entangled e) && Qgt_bool (e_p_edge e) r
  then set_e_age 0%Z (set_e_entangled true e)
  else e.

Definition edge_update (r : Q) (e : EdgeAttr) : EdgeAttr :=
  edge_generate r (edge_decohere e).

(** The loop of line 16.  Besides the edges it returns the binding of the
    loop variable [edge] when the loop is left: the position of the last
    dictionary visited, or nothing when the loop body never ran. *)
Fixpoint edge_loop (ks : list (nat * Q)) (es : list (Edge EdgeAttr))
         (edge : option nat) : list (Edge EdgeAttr) * option nat :=
  match ks with
  | [] => (es, edge)
  | (i, r) :: ks' =>
      edge_loop ks' (update_nth i (on_attr (edge_update r)) es) (Some i)
  end.

(** Lines 33-41.  Line 41 assigns through [edge], the variable left over
    from the edge loop. *)
Fixpoint node_loop (edge : option nat) (ns : list (node * NodeAttr))
         (es : list (Edge EdgeAttr))
  : list (node * NodeAttr) * list (Edge EdgeAttr) * option exn :=
  match ns with
  | [] => ([], es, None)
  | (name, nd) :: rest =>
      let nd1 := if n_entangled nd then set_n_age (n_age nd + 1)%Z nd else nd in
      if Qle_bool (n_Qc nd1) (inject_Z (n_age nd1)) then
        let nd2 := set_n_entangled false nd1 in
        match edge with
        | None => ((name, nd2) :: rest, es, Some UnboundLocalError)
        | Some i =>
            let '(rest', es', err) :=
              node_loop edge rest (update_nth i (on_attr (set_e_age 0%Z)) es) in
            ((name, nd2) :: rest', es', err)
        end
      else
        let '(rest', es', err) := node_loop edge rest es in
        ((name, nd1) :: rest', es', err)
  end.

(** Lines 43-44: [path["age"] += 1] for every used path. *)
Fixpoint age_paths (ps : list UsedPath) : list UsedPath * option exn :=
  match ps with
  | [] => ([], None)
  | p :: rest =>
      match up_age p with
      | None => (p :: rest, Some KeyError)
      | Some a =>
          let '(rest', err) := age_paths rest in
          (mkUsedPath (up_nodes p) (up_edge_count p) (Some (a + 1)%Z)
                      (up_destination_node p) :: rest', err)
      end
  end.

Definition lookup_node {NA : Type} (ns : list (node * NA)) (n : node) : option NA :=
  option_map snd (find (fun x => fst x =? n) ns).

(** Lines 46-48: the list comprehension; it is evaluated in full before the
    slice assignment, so a failed lookup leaves [used_nodes] as it was. *)
Fixpoint live_paths (ns : list (node * NodeAttr)) (ps : list UsedPath)
  : result (list UsedPath) :=
  match ps with
  | [] => Ok []
  | p :: rest =>
      match up_age p, up_destination_node p with
      | Some a, Some d =>
          match lookup_node ns d with
          | Some nd =>
              (rest' <- live_paths ns rest ;;
               Ok (if Qgt_bool (n_Qc nd) (inject_Z a) then p :: rest' else rest'))%py
          | None => Raise KeyError
          end
      | _, _ => Raise KeyError
      end
  end.

Record StepOut : Type := mkStepOut {
  so_graph : Topology;
  so_used : list UsedPath;
  so_exn : option exn;
  so_rng : RandomSource
}.

Definition run_entanglement_step (G : Topology) (used_nodes : list UsedPath)
           (nodes : bool) (rng : RandomSource) : StepOut :=
  let '(r_list, rng') := np_random_rand (number_of_edges G) rng in
  let '(es, edge) := edge_loop (combine (edge_order G) r_list) (g_edges G) None in
  if nodes then
    let '(ns, es', err) := node_loop edge (g_nodes G) es in
    let G' := mkGraph ns es' in
    match err with
    | Some x => mkStepOut G' used_nodes (Some x) rng'
    | None =>
        let '(used1, err1) := age_paths used_nodes in
        match err1 with
        | Some x => mkStepOut G' used1 (Some x) rng'
        | None =>
            match live_paths ns used1 with
            | Ok used2 => mkStepOut G' used2 None rng'
            | Raise x => mkStepOut G' used1 (Some x) rng'
            end
        end
    end
  else mkStepOut (mkGraph (g_nodes G) es) used_nodes None rng'.

(** ** networkx: mutation and traversal *)

Section GraphOps.
Context {NA EA : Type}.

(** [G.add_edge(u, v, **attr)] between two nodes of [G]: a new edge goes
    to the end of both adjacency dictionaries; on an existing edge the
    attribute dictionary is updated where it is. *)
Definition add_edge (G : Graph NA EA) (u v : node) (upd : option EA -> EA)
  : Graph NA EA :=
  if has_edge G u v
  then mkGraph (g_nodes G)
               (map (fun e => if same_edge u v e
                              then (eu e, ev e, upd (Some (eattr e))) else e)
                    (g_edges G))
  else mkGraph (g_nodes G) (g_edges G ++ [(u, v, upd None)]).

(** [G.add_edges_from(ebunch)] with data triples: the attribute
    dictionary of each triple is copied into the edge's own. *)
Definition add_edges_from (G : Graph NA EA) (ebunch : list (Edge EA))
  : Graph NA EA :=
  fold_left (fun g e => add_edge g (eu e) (ev e) (fun _ => eattr e)) ebunch G.

(** [G.remove_edge(u, v)]. *)
Definition remove_edge (G : Graph NA EA) (u v : node) : result (Graph NA EA) :=
  if has_edge G u v
  then Ok (mkGraph (g_nodes G)
                   (filter (fun e => negb (same_edge u v e)) (g_edges G)))
  else Raise NetworkXError.

(** [G.edges[u, v]] is the attribute dictionary itself: [find_edge] reads
    it, [set_edge] writes through it. *)
Definition find_edge (G : Graph NA EA) (u v : node) : option EA :=
  option_map (@eattr EA) (find (same_edge u v) (g_edges G)).

Definition set_edge (G : Graph NA EA) (u v : node) (f : EA -> EA)
  : Graph NA EA :=
  mkGraph (g_nodes G)
          (map (fun e => if same_edge u v e then on_attr f e else e)
               (g_edges G)).

Definition set_node (G : Graph NA EA) (n : node) (f : NA -> NA)
  : Graph NA EA :=
  mkGraph (map (fun x => if fst x =? n then (fst x, f (snd x)) else x)
               (g_nodes G))
          (g_edges G).

(** [G.degree(n)]: a self-loop counts twice. *)
Definition degree (G : Graph NA EA) (n : node) : nat :=
  length (filter (fun e => eu e =? n) (g_edges G))
  + length (filter (fun e => ev e =? n) (g_edges G)).

(** [G.subgraph(nbunch)]: the subgraph induced on [nbunch]. *)
Definition subgraph (G : Graph NA EA) (nbunch : list node) : Graph NA EA :=
  mkGraph (filter (fun x => mem (fst x) nbunch) (g_nodes G))
          (filter (fun e => mem (eu e) nbunch && mem (ev e) nbunch)
                  (g_edges G)).

(** *** Breadth-first search

    A frontier entry is a node with the path that reached it, most recent
    node first.  [expand] builds the next level: every neighbour, in
    adjacency order, that has not been seen yet. *)
Definition rpath : Type := (node * list node)%type.

Definition rpath_nodes (p : rpath) : list node := rev (fst p :: snd p).

Fixpoint visit (p : rpath) (nbrs : list node) (visited : list node)
  : list rpath * list node :=
  match nbrs with
  | [] => ([], visited)
  | w :: nbrs' =>
      if mem w visited then visit p nbrs' visited
      else
        let '(fr, vis) := visit p nbrs' (w :: visited) in
        ((w, fst p :: snd p) :: fr, vis)
  end.

Fixpoint expand (G : Graph NA EA) (frontier : list rpath) (visited : list node)
  : list rpath * list node :=
  match frontier with
  | [] => ([], visited)
  | p :: rest =>
      let '(fr1, vis1) := visit p (neighbors G (fst p)) visited in
      let '(fr2, vis2) := expand G rest vis1 in
      (fr1 ++ fr2, vis2)
  end.

Fixpoint bfs (G : Graph NA EA) (target : node) (fuel : nat)
         (frontier : list rpath) (visited : list node) : option (list node) :=
  match fuel with
  | O => None
  | S fuel' =>
      match find (fun p => fst p =? target) frontier with
      | Some p => Some (rpath_nodes p)
      | None =>
          match frontier with
          | [] => None
          | _ :: _ =>
              let '(next, visited') := expand G frontier visited in
              bfs G target fuel' next visited'
          end
      end
  end.

(** Every level but the last adds a node that is an endpoint of some
    edge, so this many levels are never exhausted. *)
Definition bfs_fuel (G : Graph NA EA) : nat := 2 * length (g_edges G) + 2.

(** [nx.shortest_path(G, source, target)] with no [weight]: a path with
    the fewest edges.  Which of several such paths networkx returns is its
    own business; the model returns the first one a breadth-first search
    in adjacency order finds. *)
Definition shortest_path (G : Graph NA EA) (source target : node)
  : result (list node) :=
  if negb (has_node G source) then Raise NodeNotFound
  else if negb (has_node G target) then Raise NodeNotFound
  else match bfs G target (bfs_fuel G) [(source, [])] [source] with
       | Some p => Ok p
       | None => Raise NetworkXNoPath
       end.

(** [nx.has_path]: [shortest_path] with [NetworkXNoPath] caught. *)
Definition has_path (G : Graph NA EA) (source target : node) : result bool :=
  match shortest_path G source target with
  | Ok _ => Ok true
  | Raise NetworkXNoPath => Ok false
  | Raise e => Raise e
  end.

Fixpoint component (G : Graph NA EA) (fuel : nat) (frontier : list rpath)
         (visited : list node) : list node :=
  match fuel with
  | O => visited
  | S fuel' =>
      match frontier with
      | [] => visited
      | _ :: _ =>
          let '(next, visited') := expand G frontier visited in
          component G fuel' next visited'
      end
  end.

(** [nx.node_connected_component(G, n)]. *)
Definition node_connected_component (G : Graph NA EA) (n : node)
  : result (list node) :=
  if has_node G n then Ok (component G (bfs_fuel G) [(n, [])] [n])
  else Raise KeyError.

End GraphOps.

(** ** graph.py *)

Definition map_nodes {NA NB EA : Type} (f : NA -> NB) (G : Graph NA EA)
  : Graph NB EA :=
  mkGraph (map (fun x => (fst x, f (snd x))) (g_nodes G)) (g_edges G).

Definition map_edges {NA EA EB : Type} (f : EA -> EB) (G : Graph NA EA)
  : Graph NA EB :=
  mkGraph (g_nodes G) (map (fun e => (eu e, ev e, f (eattr e))) (g_edges G)).

Definition reset_graph_state (G : Topology) : Topology :=
  map_nodes (fun n => set_n_age 0%Z (set_n_entangled false n))
            (map_edges (fun e => set_e_age 0%Z (set_e_entangled false e)) G).

Definition reset_graph_usage (G : Topology) : Topology :=
  map_nodes (fun n => set_n_usage_fraction 0%Q (set_n_usage_count 0%Z n)) G.

(** [usage_count / reps] on every node, in node order; the division raises
    at the first node when [reps] is zero. *)
Definition update_graph_usage (G : Topology) (reps : Z) : Topology * option exn :=
  match g_nodes G with
  | [] => (G, None)
  | _ :: _ =>
      if (reps =? 0)%Z then (G, Some ZeroDivisionError)
      else (map_nodes (fun n => set_n_usage_fraction
                                  (inject_Z (n_usage_count n) / inject_Z reps)%Q n)
                      G, None)
  end.

Definition get_entangled_subgraph (G : Topology) : LinkGraph :=
  let G_prime : LinkGraph := mkGraph (map (fun x => (fst x, tt)) (g_nodes G)) [] in
  let eligible_edges := filter (fun e => e_entangled (eattr e)) (edges G) in
  add_edges_from G_prime eligible_edges.

(** For every node of [J], in order: copy its usage into [G]; a node that
    [G] lacks raises. *)
Fixpoint copy_usage (js : list (node * NodeAttr)) (G : Topology)
  : Topology * option exn :=
  match js with
  | [] => (G, None)
  | (n, a) :: rest =>
      if has_node G n then
        copy_usage rest
          (set_node G n (fun x => set_n_usage_fraction (n_usage_fraction a)
                                    (set_n_usage_count (n_usage_count a) x)))
      else (G, Some KeyError)
  end.

Definition update_usage_from_subgraph (G J : Topology) : Topology * option exn :=
  copy_usage (g_nodes J) G.

(** [update_graph_params(G, p, Qc)]: [None] leaves an attribute as it
    is. *)
Definition update_graph_params (G : Topology) (p Qc : option Q) : Topology :=
  let G1 :=
    match Qc with
    | Some q =>
        map_nodes (fun n => mkNodeAttr (n_entangled n) (n_age n) q
                                       (n_usage_count n) (n_usage_fraction n))
                  (map_edges (fun e => mkEdgeAttr (e_length e) (e_p_edge e) q
                                                  (e_entangled e) (e_age e)) G)
    | None => G
    end in
  match p with
  | Some q =>
      map_edges (fun e => mkEdgeAttr (e_length e) q (e_Qc e)
                                     (e_entangled e) (e_age e)) G1
  | None => G1
  end.

(** [G.remove_node(n)]: the node goes with the edges at it; a node the
    graph does not have raises. *)
Definition remove_node {NA EA : Type} (G : Graph NA EA) (n : node)
  : result (Graph NA EA) :=
  if has_node G n
  then Ok (mkGraph (filter (fun x => negb (fst x =? n)) (g_nodes G))
                   (filter (fun e => negb (incident n e)) (g_edges G)))
  else Raise NetworkXError.

(** The loop of [remove_nodes] over the items of
    [nx.get_node_attributes(G, "usage_fraction")], a dictionary built
    before the loop starts. *)
Fixpoint remove_loop (items : list (node * Q)) (min_usage : Q)
         (excluded_nodes : list node) (G : Topology) (count : Z)
  : Topology * Z * option exn :=
  match items with
  | [] => (G, count, None)
  | (n, usage) :: rest =>
      if Qgt_bool min_usage usage && negb (mem n excluded_nodes) then
        match remove_node G n with
        | Raise x => (G, count, Some x)
        | Ok G1 => remove_loop rest min_usage excluded_nodes G1 (count + 1)%Z
        end
      else remove_loop rest min_usage excluded_nodes G count
  end.

Definition remove_nodes (G : Topology) (min_usage : Q)
           (excluded_nodes : option (list node)) : Topology * result Z :=
  let excluded_nodes :=
    match excluded_nodes with
    | None => []
    | Some l => l
    end in
  let items := map (fun x => (fst x, n_usage_fraction (snd x))) (g_nodes G) in
  let '(G1, count, err) := remove_loop items min_usage excluded_nodes G 0%Z in
  match err with
  | Some x => (G1, Raise x)
  | None => (G1, Ok count)
  end.

(** *** Loss

    [10 ** x] is the floating-point power function; [set_p_edge] only
    applies it.  On a float exponent it raises [OverflowError] when the
    result is out of range: [pow10 x] is [None] then. *)
Section Loss.
Variable pow10 : Q -> option Q.

Definition set_e_p_edge (p : Q) (e : EdgeAttr) : EdgeAttr :=
  mkEdgeAttr (e_length e) p (e_Qc e) (e_entangled e) (e_age e).

(** The loop of [set_p_edge] over [G.edges]: the edge is looked up by its
    endpoints, for its length and again for the assignment.  When the
    power overflows the loop stops there, with the edges before it
    already written. *)
Fixpoint p_edge_loop (view : list (Edge EdgeAttr)) (G : Topology)
         (p_op loss_dB : Q) : Topology * option exn :=
  match view with
  | [] => (G, None)
  | edge :: rest =>
      match find_edge G (eu edge) (ev edge) with
      | None => (G, Some KeyError)
      | Some a =>
          let length := e_length a in
          match pow10 (- (loss_dB * length / 10))%Q with
          | None => (G, Some OverflowError)
          | Some p_loss =>
              p_edge_loop rest
                          (set_edge G (eu edge) (ev edge)
                                    (set_e_p_edge (p_op * p_loss)%Q))
                          p_op loss_dB
          end
      end
  end.

Definition set_p_edge (G : Topology) (p_op : Q) (loss_dB : option Q)
  : Topology * option exn :=
  match loss_dB with
  | None => (update_graph_params G (Some p_op) None, None)
  | Some l => p_edge_loop (edges G) G p_op l
  end.

Definition set_edge_length (G : Topology) (length p_op : Q)
           (loss_dB : option Q) : Topology * option exn :=
  set_p_edge (map_edges (fun e => mkEdgeAttr length (e_p_edge e) (e_Qc e)
                                             (e_entangled e) (e_age e)) G)
             p_op loss_dB.

End Loss.

(** ** protocols.py *)

(** [zip(path[:-1], path[1:])]: the consecutive pairs of a path. *)
Fixpoint hops (path : list node) : list (node * node) :=
  match path with
  | [] => []
  | u :: rest =>
      match rest with
      | [] => []
      | v :: _ => (u, v) :: hops rest
      end
  end.

(** [path[-1]] and [path[1:-1]]. *)
Definition path_last (path : list node) : option node :=
  match path with
  | [] => None
  | u :: rest => Some (last rest u)
  end.

Definition path_interior (path : list node) : list node := removelast (tl path).

Definition consume (e : EdgeAttr) : EdgeAttr :=
  set_e_age 0%Z (set_e_entangled false e).

(** The loop of [_create_bell_pair]. *)
Fixpoint swap_along (hs : list (node * node)) (G : Topology) (H : LinkGraph)
  : Topology * LinkGraph * option exn :=
  match hs with
  | [] => (G, H, None)
  | (u, v) :: hs' =>
      match remove_edge H u v with
      | Raise x => (G, H, Some x)
      | Ok H1 =>
          match find_edge G u v with
          | None => (G, H1, Some KeyError)
          | Some _ => swap_along hs' (set_edge G u v consume) H1
          end
      end
  end.

Record ProtoOut : Type := mkProtoOut {
  po_graph : Topology;
  po_links : LinkGraph;
  po_used : list UsedPath;
  po_exn : option exn
}.

Definition _create_bell_pair (G : Topology) (H : LinkGraph) (path : list node)
           (used_nodes : list UsedPath) : ProtoOut :=
  let '(G1, H1, err) := swap_along (hops path) G H in
  match err with
  | Some x => mkProtoOut G1 H1 used_nodes (Some x)
  | None =>
      match path_last path with
      | None => mkProtoOut G1 H1 used_nodes (Some IndexError)
      | Some d =>
          if has_node G1 d then
            mkProtoOut
              (set_node G1 d (fun n => set_n_age 0%Z (set_n_entangled true n)))
              H1
              (used_nodes ++ [mkUsedPath (path_interior path)
                                         (Z.of_nat (length path) - 1)%Z
                                         (Some 0%Z) (Some d)])
              None
          else mkProtoOut G1 H1 used_nodes (Some KeyError)
      end
  end.

(** The loop of [_SD_protocol] over the destinations. *)
Fixpoint sd_loop (source_node : node) (destination_nodes : list node)
         (G : Topology) (H : LinkGraph) (used_nodes : list UsedPath) : ProtoOut :=
  match destination_nodes with
  | [] => mkProtoOut G H used_nodes None
  | d :: rest =>
      match lookup_node (g_nodes G) d with
      | None => mkProtoOut G H used_nodes (Some KeyError)
      | Some nd =>
          if n_entangled nd then sd_loop source_node rest G H used_nodes
          else
            match has_path H source_node d with
            | Raise x => mkProtoOut G H used_nodes (Some x)
            | Ok false => sd_loop source_node rest G H used_nodes
            | Ok true =>
                match shortest_path H source_node d with
                | Raise x => mkProtoOut G H used_nodes (Some x)
                | Ok path =>
                    let out := _create_bell_pair G H path used_nodes in
                    match po_exn out with
                    | Some _ => out
                    | None => sd_loop source_node rest (po_graph out)
                                      (po_links out) (po_used out)
                    end
                end
            end
      end
  end.

(** [all([G.nodes[x]["entangled"] for x in destination_nodes])]. *)
Fixpoint all_entangled (G : Topology) (ds : list node) : result bool :=
  match ds with
  | [] => Ok true
  | d :: rest =>
      match lookup_node (g_nodes G) d with
      | None => Raise KeyError
      | Some nd => (b <- all_entangled G rest ;; Ok (n_entangled nd && b))%py
      end
  end.

(** What a routing strategy leaves behind: the topology and the used paths
    it mutated, and whether it succeeded. *)
Definition StrategyOut : Type := (Topology * list UsedPath * result bool)%type.

Definition Strategy : Type :=
  Topology -> LinkGraph -> list node -> list UsedPath -> bool -> StrategyOut.

Definition _SD_protocol : Strategy := fun G H users used_nodes count_fusion =>
  match users with
  | [] => (G, used_nodes, Raise IndexError)
  | source_node :: destination_nodes =>
      let out := sd_loop source_node destination_nodes G H used_nodes in
      match po_exn out with
      | Some x => (po_graph out, po_used out, Raise x)
      | None => (po_graph out, po_used out,
                 all_entangled (po_graph out) destination_nodes)
      end
  end.

Definition _count_node (K : LinkGraph) (n : node) (users : list node)
           (count_fusion : bool) : bool :=
  if degree K n =? 2 then negb (mem n users) || count_fusion
  else if (2 <? degree K n) && count_fusion then true
  else false.

(** [_multipartite_rate].  [gen_times] is a numpy array of floats holding
    integral values.  [sum] over a non-empty numpy selection is a numpy
    float, and dividing by a numpy zero gives [inf] with a warning; [sum]
    over an empty one is the Python integer [0], and dividing by a Python
    zero raises. *)
Inductive pyfloat : Type :=
| Finite (q : Q)
| Inf.

Definition py_sum (l : list Z) : Z := fold_left Z.add l 0%Z.

Definition _multipartite_rate (gen_times : list Z) (max_timesteps : Z)
  : result pyfloat :=
  let successful_attempts := filter (fun t => negb (t =? -1)%Z) gen_times in
  let fail_count :=
    (Z.of_nat (length gen_times) - Z.of_nat (length successful_attempts))%Z in
  let t_total := (py_sum successful_attempts + fail_count * max_timesteps)%Z in
  match successful_attempts with
  | [] =>
      if (t_total =? 0)%Z then Raise ZeroDivisionError
      else Ok (Finite (0 / inject_Z t_total)%Q)
  | _ :: _ =>
      if (t_total =? 0)%Z then Ok Inf
      else Ok (Finite (inject_Z (Z.of_nat (length successful_attempts))
                       / inject_Z t_total)%Q)
  end.

(** Lines 100-103: fold the used paths into the totals. *)
Fixpoint count_nodes (ns : list node) (G : Topology) : Topology * option exn :=
  match ns with
  | [] => (G, None)
  | n :: rest =>
      if has_node G n
      then count_nodes rest
             (set_node G n (fun a => set_n_usage_count (n_usage_count a + 1)%Z a))
      else (G, Some KeyError)
  end.

Fixpoint add_usage (ps : list UsedPath) (G : Topology) (links_used : Z)
  : Topology * Z * option exn :=
  match ps with
  | [] => (G, links_used, None)
  | p :: rest =>
      let links := (links_used + up_edge_count p)%Z in
      let '(G1, err) := count_nodes (up_nodes p) G in
      match err with
      | Some x => (G1, links, Some x)
      | None => add_usage rest G1 links
      end
  end.

Record TrialOut : Type := mkTrialOut {
  to_graph : Topology;
  to_rng : RandomSource;
  to_links : Z;
  to_time : result Z
}.

(** The [while] loop of one trial: [n] timesteps are left, [t] have run. *)
Fixpoint timestep_loop (success_protocol : Strategy) (users : list node)
         (nodes count_fusion : bool) (n : nat) (t : Z) (G : Topology)
         (used_nodes : list UsedPath) (links_used : Z) (rng : RandomSource)
  : TrialOut :=
  match n with
  | O => mkTrialOut G rng links_used (Ok (-1)%Z)
  | S n' =>
      let t1 := (t + 1)%Z in
      let s := run_entanglement_step G used_nodes nodes rng in
      match so_exn s with
      | Some x => mkTrialOut (so_graph s) (so_rng s) links_used (Raise x)
      | None =>
          let H := get_entangled_subgraph (so_graph s) in
          let '(G1, used1, success) :=
            success_protocol (so_graph s) H users (so_used s) count_fusion in
          match success with
          | Raise x => mkTrialOut G1 (so_rng s) links_used (Raise x)
          | Ok false =>
              timestep_loop success_protocol users nodes count_fusion n' t1
                            G1 used1 links_used (so_rng s)
          | Ok true =>
              let '(G2, links, err) := add_usage used1 G1 links_used in
              match err with
              | Some x => mkTrialOut G2 (so_rng s) links (Raise x)
              | None => mkTrialOut G2 (so_rng s) links (Ok t1)
              end
          end
      end
  end.

Record RunOut : Type := mkRunOut {
  ro_graph : Topology;
  ro_rng : RandomSource;
  ro_result : result (pyfloat * list Z * Q)
}.

(** The [for] loop over the repetitions; [times] collects the entries of
    [multipartite_gen_time] written so far. *)
Fixpoint trial_loop (success_protocol : Strategy) (users : list node)
         (timesteps : Z) (nodes count_fusion : bool) (n : nat) (G : Topology)
         (links_used : Z) (times : list Z) (rng : RandomSource)
  : Topology * RandomSource * Z * result (list Z) :=
  match n with
  | O => (G, rng, links_used, Ok times)
  | S n' =>
      let o := timestep_loop success_protocol users nodes count_fusion
                             (Z.to_nat timesteps) 0%Z (reset_graph_state G) []
                             links_used rng in
      match to_time o with
      | Raise x => (to_graph o, to_rng o, to_links o, Raise x)
      | Ok t =>
          trial_loop success_protocol users timesteps nodes count_fusion n'
                     (to_graph o) (to_links o) (times ++ [t]) (to_rng o)
      end
  end.

Definition _run_protocol (G : Topology) (users : list node) (timesteps reps : Z)
           (success_protocol : Strategy) (nodes count_fusion : bool)
           (rng : RandomSource) : RunOut :=
  let G0 := reset_graph_usage G in
  if (reps <? 0)%Z then mkRunOut G0 rng (Raise ValueError)
  else
    let '(G1, rng1, links_used, times) :=
      trial_loop success_protocol users timesteps nodes count_fusion
                 (Z.to_nat reps) G0 0%Z [] rng in
    match times with
    | Raise x => mkRunOut G1 rng1 (Raise x)
    | Ok multipartite_gen_time =>
        match _multipartite_rate multipartite_gen_time timesteps with
        | Raise x => mkRunOut G1 rng1 (Raise x)
        | Ok rate =>
            let '(G2, err) := update_graph_usage G1 reps in
            match err with
            | Some x => mkRunOut G2 rng1 (Raise x)
            | None =>
                if (reps =? 0)%Z then mkRunOut G2 rng1 (Raise ZeroDivisionError)
                else mkRunOut G2 rng1
                       (Ok (rate, multipartite_gen_time,
                            (inject_Z links_used / inject_Z reps)%Q))
            end
        end
    end.

Definition MPG_protocol (G : Topology) (users : list node) (timesteps reps : Z)
           (count_fusion : bool) (rng : RandomSource) : RunOut :=
  _run_protocol G users timesteps reps _SD_protocol true count_fusion rng.

(** *** The star builder *)

(** Lines 239-241: move a path of [T] into [J]. *)
Fixpoint take_path (hs : list (node * node)) (T : Topology)
         (J : Graph NodeAttr unit) : result (Topology * Graph NodeAttr unit) :=
  match hs with
  | [] => Ok (T, J)
  | (u, v) :: hs' =>
      (T1 <- remove_edge T u v ;;
       take_path hs' T1 (add_edge J u v (fun _ => tt)))%py
  end.

(** Lines 245-248: add a path of [G] to [J], taking out of [T] what is left
    of it there. *)
Fixpoint share_path (hs : list (node * node)) (T : Topology)
         (J : Graph NodeAttr unit) : result (Topology * Graph NodeAttr unit) :=
  match hs with
  | [] => Ok (T, J)
  | (u, v) :: hs' =>
      let J1 := add_edge J u v (fun _ => tt) in
      if has_edge T u v
      then (T1 <- remove_edge T u v ;; share_path hs' T1 J1)%py
      else share_path hs' T J1
  end.

Fixpoint star_loop (G : Topology) (source_node : node)
         (destination_nodes : list node) (T : Topology)
         (J : Graph NodeAttr unit) : result (Graph NodeAttr unit) :=
  match destination_nodes with
  | [] => Ok J
  | d :: rest =>
      (reachable <- has_path T source_node d ;;
       if (reachable : bool) then
         path <- shortest_path T source_node d ;;
         ' (T1, J1) <- take_path (hops path) T J ;;
         star_loop G source_node rest T1 J1
       else
         path <- shortest_path G source_node d ;;
         ' (T1, J1) <- share_path (hops path) T J ;;
         star_loop G source_node rest T1 J1)%py
  end.

(** Lines 249-251: [J[u][v].update(G.get_edge_data(u, v))]; updating from
    the [None] of a missing edge is a [TypeError]. *)
Fixpoint copy_edge_data (G : Topology) (es : list (Edge unit))
  : result (list (Edge EdgeAttr)) :=
  match es with
  | [] => Ok []
  | e :: rest =>
      match find_edge G (eu e) (ev e) with
      | None => Raise TypeError
      | Some a => (rest' <- copy_edge_data G rest ;; Ok ((eu e, ev e, a) :: rest'))%py
      end
  end.

Definition _get_star (G : Topology) (users : list node) : result Topology :=
  match users with
  | [] => Raise IndexError
  | source_node :: destination_nodes =>
      let T : Topology := add_edges_from (mkGraph (g_nodes G) []) (edges G) in
      let J : Graph NodeAttr unit := mkGraph (g_nodes G) [] in
      (J1 <- star_loop G source_node destination_nodes T J ;;
       es <- copy_edge_data G (g_edges J1) ;;
       Ok (mkGraph (g_nodes J1) es))%py
  end.

Definition SP_protocol (G : Topology) (users : list node) (timesteps reps : Z)
           (count_fusion : bool) (rng : RandomSource) : RunOut :=
  match _get_star G users with
  | Raise x => mkRunOut G rng (Raise x)
  | Ok J =>
      let o := _run_protocol J users timesteps reps _SD_protocol true
                             count_fusion rng in
      match ro_result o with
      | Raise x => mkRunOut G (ro_rng o) (Raise x)
      | Ok r =>
          let '(G1, err) := update_usage_from_subgraph G (ro_graph o) in
          match err with
          | Some x => mkRunOut G1 (ro_rng o) (Raise x)
          | None => mkRunOut G1 (ro_rng o) (Ok r)
          end
      end
  end.

(** *** The cooperative strategy

    [steiner_tree] is networkx's approximation routine; the strategy only
    reads the node list, the degrees and the edge count of what it
    returns. *)
Section Cooperative.
Variable steiner_tree : LinkGraph -> list node -> LinkGraph.

Definition _CC_protocol : Strategy := fun G H users used_nodes count_fusion =>
  match users with
  | [] => (G, used_nodes, Raise IndexError)
  | u0 :: _ =>
      match node_connected_component H u0 with
      | Raise x => (G, used_nodes, Raise x)
      | Ok CC =>
          if negb (forallb (fun u => mem u CC) users)
          then (G, used_nodes, Ok false)
          else
            let K := steiner_tree (subgraph H CC) users in
            (G,
             used_nodes ++
               [mkUsedPath
                  (filter (fun n => _count_node K n users count_fusion)
                          (node_ids K))
                  (Z.of_nat (number_of_edges K)) None None],
             Ok true)
      end
  end.

Definition MPC_protocol (G : Topology) (users : list node) (timesteps reps : Z)
           (count_fusion : bool) (rng : RandomSource) : RunOut :=
  _run_protocol G users timesteps reps _CC_protocol false count_fusion rng.

End Cooperative.

(** * The entangled subgraph as a Python object

    Whether [get_entangled_subgraph] returns an independent copy is a
    question about object identity, so here graphs and attribute
    dictionaries live in a store.  A graph object holds, for each node and
    each edge, a reference to its attribute dictionary; two graphs share
    a dictionary when they hold the same reference. *)

Fixpoint traverse {A B : Type} (f : A -> option B) (l : list A) : option (list B) :=
  match l with
  | [] => Some []
  | x :: l' =>
      match f x, traverse f l' with
      | Some y, Some ys => Some (y :: ys)
      | _, _ => None
      end
  end.

Module Store.

Definition ref : Type := nat.

Inductive dict : Type :=
| EdgeDict (a : EdgeAttr)
| NodeDict (a : NodeAttr)
| EmptyDict.

(** A graph object: node and edge entries with references in place of
    attribute records. *)
Definition graph_obj : Type := Graph ref ref.

Record heap : Type := mkHeap {
  graphs : list graph_obj;
  dicts : list dict
}.

Definition deref (h : heap) (r : ref) : option dict := nth_error (dicts h) r.

(** Reading a graph out of the store. *)
Definition read_node (h : heap) (x : node * ref) : option (node * NodeAttr) :=
  match deref h (snd x) with
  | Some (NodeDict a) => Some (fst x, a)
  | _ => None
  end.

Definition read_bare_node (h : heap) (x : node * ref) : option (node * unit) :=
  match deref h (snd x) with
  | Some EmptyDict => Some (fst x, tt)
  | _ => None
  end.

Definition read_edge (h : heap) (e : Edge ref) : option (Edge EdgeAttr) :=
  match deref h (eattr e) with
  | Some (EdgeDict a) => Some (eu e, ev e, a)
  | _ => None
  end.

Definition read_topology (g : ref) (h : heap) : option Topology :=
  match nth_error (graphs h) g with
  | None => None
  | Some go =>
      match traverse (read_node h) (g_nodes go),
            traverse (read_edge h) (g_edges go) with
      | Some ns, Some es => Some (mkGraph ns es)
      | _, _ => None
      end
  end.

Definition read_links (g : ref) (h : heap) : option LinkGraph :=
  match nth_error (graphs h) g with
  | None => None
  | Some go =>
      match traverse (read_bare_node h) (g_nodes go),
            traverse (read_edge h) (g_edges go) with
      | Some ns, Some es => Some (mkGraph ns es)
      | _, _ => None
      end
  end.

(** Writing. *)
Definition set_graph (g : ref) (go : graph_obj) (h : heap) : heap :=
  mkHeap (update_nth g (fun _ => go) (graphs h)) (dicts h).

Definition write (r : ref) (d : dict) (h : heap) : heap :=
  mkHeap (graphs h) (update_nth r (fun _ => d) (dicts h)).

Definition alloc (d : dict) (h : heap) : ref * heap :=
  (length (dicts h), mkHeap (graphs h) (dicts h ++ [d])).

(** [G.add_node(n)] for a node [G] does not have yet: a new, empty
    attribute dictionary. *)
Definition new_node (g : ref) (n : node) (h : heap) : heap :=
  match nth_error (graphs h) g with
  | None => h
  | Some go =>
      let '(r, h1) := alloc EmptyDict h in
      set_graph g (mkGraph (g_nodes go ++ [(n, r)]) (g_edges go)) h1
  end.

(** [G.add_edge(u, v, **a)]: an existing edge has its own dictionary
    updated with the entries of [a]; a new edge gets a new dictionary
    holding them. *)
Definition link (g : ref) (u v : node) (a : EdgeAttr) (h : heap) : heap :=
  match nth_error (graphs h) g with
  | None => h
  | Some go =>
      if has_edge go u v then
        fold_left (fun h' r => write r (EdgeDict a) h')
                  (map (@eattr ref) (filter (same_edge u v) (g_edges go))) h
      else
        let '(r, h1) := alloc (EdgeDict a) h in
        set_graph g (mkGraph (g_nodes go) (g_edges go ++ [(u, v, r)])) h1
  end.

(** [G.remove_edge(u, v)]; the store is left as it is when the call
    raises. *)
Definition unlink (g : ref) (u v : node) (h : heap) : heap :=
  match nth_error (graphs h) g with
  | None => h
  | Some go =>
      if has_edge go u v
      then set_graph g (mkGraph (g_nodes go)
                                (filter (fun e => negb (same_edge u v e))
                                        (g_edges go))) h
      else h
  end.

(** [G.edges[u, v][key] = value]: a write through the edge's own
    dictionary. *)
Definition assign (g : ref) (u v : node) (f : EdgeAttr -> EdgeAttr) (h : heap)
  : heap :=
  match nth_error (graphs h) g with
  | None => h
  | Some go =>
      match find (same_edge u v) (g_edges go) with
      | None => h
      | Some e =>
          match deref h (eattr e) with
          | Some (EdgeDict a) => write (eattr e) (EdgeDict (f a)) h
          | _ => h
          end
      end
  end.

(** The mutations of a graph that C8 speaks of. *)
Inductive mutation : Type :=
| AddEdge (u v : node) (a : EdgeAttr)
| RemoveEdge (u v : node)
| SetEdgeAttr (u v : node) (f : EdgeAttr -> EdgeAttr).

Definition mutate1 (g : ref) (h : heap) (m : mutation) : heap :=
  match m with
  | AddEdge u v a => link g u v a h
  | RemoveEdge u v => unlink g u v h
  | SetEdgeAttr u v f => assign g u v f h
  end.

Definition mutate (g : ref) (ms : list mutation) (h : heap) : heap :=
  fold_left (mutate1 g) ms h.

(** [get_entangled_subgraph] on the store: a new graph object, a new empty
    dictionary per node of [G], and the eligible edges of [G] added with
    their data. *)
Definition get_entangled_subgraph (G : ref) (h : heap) : option (ref * heap) :=
  match nth_error (graphs h) G with
  | None => None
  | Some go =>
      let G_prime := length (graphs h) in
      let h0 := mkHeap (graphs h ++ [mkGraph [] []]) (dicts h) in
      let h1 := fold_left (fun h' n => new_node G_prime n h') (node_ids go) h0 in
      match traverse (read_edge h) (edges go) with
      | None => None
      | Some es =>
          let eligible_edges := filter (fun e => e_entangled (eattr e)) es in
          Some (G_prime,
                fold_left (fun h' e => link G_prime (eu e) (ev e) (eattr e) h')
                          eligible_edges h1)
      end
  end.

End Store.

(** * Vocabulary of the statements

    Predicates, measures and sample inputs the theorems are stated with. *)

Unset Implicit Arguments.

(** ** Link evolution *)

(** The age invariant of the data model: an unentangled edge has age 0, an
    entangled one an age in [[0, Qc)]. *)
Definition edge_inv (e : EdgeAttr) : Prop :=
  (e_entangled e = false -> e_age e = 0%Z) /\
  (e_entangled e = true -> (0 <= e_age e)%Z /\ (inject_Z (e_age e) < e_Qc e)%Q).

(** The precondition under which the invariant is an invariant: a threshold
    of at least one timestep. *)
Definition edge_ok (e : EdgeAttr) : Prop := (1 <= e_Qc e)%Q /\ edge_inv e.

(** Sample inputs: a two-node, one-link topology, and a random source that
    always draws 1/2. *)
Definition demo_edge (entangled : bool) (Qc : Q) : EdgeAttr :=
  mkEdgeAttr 1%Q 1%Q Qc entangled 0%Z.

Definition demo_node (entangled : bool) : NodeAttr :=
  mkNodeAttr entangled 0%Z 1%Q 0%Z 0%Q.

Definition demo_pair (link node_b : bool) (Qc : Q) : Topology :=
  mkGraph [(0, demo_node false); (1, demo_node node_b)]
          [(0, 1, demo_edge link Qc)].

Definition half : RandomSource := fun _ => (1 # 2)%Q.

(** Lines 36-41 as they act on the node's own dictionary. *)
Definition node_update (nd : NodeAttr) : NodeAttr :=
  let nd1 := if n_entangled nd then set_n_age (n_age nd + 1)%Z nd else nd in
  if Qle_bool (n_Qc nd1) (inject_Z (n_age nd1))
  then set_n_entangled false nd1 else nd1.

(** Line 41 can only write 0 to the age of an edge. *)
Definition age_reset (e0 e : Edge EdgeAttr) : Prop :=
  e = e0 \/ e = on_attr (set_e_age 0%Z) e0.

(** ** The rate formula *)

(** The quantities of the rate formula, read off the list of per-trial
    times: [-1] marks a trial without success. *)
Definition entry_ok (t : Z) : Prop := (0 < t)%Z \/ t = (-1)%Z.

Definition success_count (times : list Z) : Z :=
  Z.of_nat (length (filter (fun t => negb (t =? -1)%Z) times)).

Definition failure_count (times : list Z) : Z :=
  Z.of_nat (length (filter (fun t => (t =? -1)%Z) times)).

Definition success_sum (times : list Z) : Z :=
  fold_right Z.add 0%Z (filter (fun t => negb (t =? -1)%Z) times).

Definition denominator (times : list Z) (timesteps : Z) : Z :=
  (success_sum times + failure_count times * timesteps)%Z.

(** ** Routing *)

(** Sample input: a chain of two entangled links. *)
Definition demo_links : LinkGraph :=
  mkGraph [(0, tt); (1, tt); (2, tt)]
          [(0, 1, demo_edge true 1%Q); (1, 2, demo_edge true 1%Q)].

(** An edge lies on a path when it joins two consecutive nodes of it. *)
Definition on_hops {EA : Type} (hs : list (node * node)) (e : Edge EA) : bool :=
  existsb (fun h => same_edge (fst h) (snd h) e) hs.

(** What [_create_bell_pair] leaves of an edge of the topology, and of a
    node, when it consumes the hops [hs] towards [d]. *)
Definition consumed (hs : list (node * node)) (e : Edge EdgeAttr) : Edge EdgeAttr :=
  if on_hops hs e then on_attr consume e else e.

Definition marked (d : node) (x : node * NodeAttr) : node * NodeAttr :=
  if fst x =? d then (fst x, set_n_age 0%Z (set_n_entangled true (snd x))) else x.

(** What C10 says of the topology, field by field.  [e'] stands where the
    edge [e] stood: an edge joining the ends of a hop of the path is
    unentangled with age 0 and keeps its ends, length, [p_edge] and [Qc];
    any other edge is as it was.  [x'] stands where the node [x] stood:
    the destination is entangled with age 0 and keeps its [Qc] and its
    usage counters; any other node is as it was. *)
Definition edge_after_swaps (hs : list (node * node)) (e e' : Edge EdgeAttr)
  : Prop :=
  if on_hops hs e
  then e' = (eu e, ev e,
             mkEdgeAttr (e_length (eattr e)) (e_p_edge (eattr e))
                        (e_Qc (eattr e)) false 0%Z)
  else e' = e.

Definition node_after_pair (d : node) (x x' : node * NodeAttr) : Prop :=
  if fst x =? d
  then x' = (fst x,
             mkNodeAttr true 0%Z (n_Qc (snd x)) (n_usage_count (snd x))
                        (n_usage_fraction (snd x)))
  else x' = x.

(** The hops of a path are there to be consumed when they are distinct
    links of [H] that the topology has too. *)
Fixpoint hops_available (hs : list (node * node)) (G : Topology) (H : LinkGraph)
  : Prop :=
  match hs with
  | [] => True
  | (u, v) :: hs' =>
      has_edge H u v = true /\ has_edge G u v = true
      /\ existsb (fun h => ((fst h =? u) && (snd h =? v))
                           || ((fst h =? v) && (snd h =? u))) hs' = false
      /\ hops_available hs' G H
  end.

(** Sample input: the topology under [demo_links]. *)
Definition demo_chain : Topology :=
  mkGraph [(0, demo_node false); (1, demo_node false); (2, demo_node false)]
          [(0, 1, demo_edge true 1%Q); (1, 2, demo_edge true 1%Q)].

(** ** Paths *)

(** A walk follows edges of the graph from node to node. *)
Definition walk {NA EA : Type} (G : Graph NA EA) (p : list node) : Prop :=
  Forall (fun h => has_edge G (fst h) (snd h) = true) (hops p).

Definition path_between {NA EA : Type} (G : Graph NA EA) (s t : node)
           (p : list node) : Prop :=
  hd_error p = Some s /\ path_last p = Some t /\ walk G p.

(** The number of edges of a path, and the sum of their lengths. *)
Definition hop_count (p : list node) : nat := length (hops p).

Definition path_length {NA : Type} (G : Graph NA EdgeAttr) (p : list node) : Q :=
  fold_right (fun h acc =>
                (match find_edge G (fst h) (snd h) with
                 | Some a => e_length a
                 | None => 0
                 end + acc)%Q) 0%Q (hops p).

(** [reach G s k v]: some walk with [k] edges leads from [s] to [v]. *)
Definition reach {NA EA : Type} (G : Graph NA EA) (s : node) (k : nat) (v : node)
  : Prop :=
  exists p, path_between G s v p /\ hop_count p = k.

(** The invariant of the search for [t] from [s], at level [k]. *)
Record bfs_inv {NA EA : Type} (G : Graph NA EA) (s t : node) (k : nat)
       (frontier : list rpath) (visited : list node) : Prop := {
  inv_paths : forall p, In p frontier ->
                        path_between G s (fst p) (rpath_nodes p)
                        /\ hop_count (rpath_nodes p) = k;
  inv_level : forall v, reach G s k v -> In v visited;
  inv_closed : forall v, In v visited ->
                         In v (map fst frontier)
                         \/ (forall w, has_edge G v w = true -> In w visited);
  inv_target : In t visited -> In t (map fst frontier);
  inv_nearer : forall j, j < k -> ~ reach G s j t
}.

(** Termination: the nodes the search from [s] can ever see. *)
Definition universe {NA EA : Type} (G : Graph NA EA) (s : node) : list node :=
  s :: flat_map (fun e => [eu e; ev e]) (g_edges G).

Record bfs_bound {NA EA : Type} (G : Graph NA EA) (s : node) (fuel : nat)
       (frontier : list rpath) (visited : list node) : Prop := {
  bound_source : In s visited;
  bound_nodup : NoDup visited;
  bound_incl : incl visited (universe G s);
  bound_fuel : length (universe G s) + 1 + length frontier <= fuel + length visited
}.

(** A triangle whose direct link from 0 to 1 is five times as long as the
    detour through 2. *)
Definition demo_triangle : Topology :=
  mkGraph [(0, demo_node false); (1, demo_node false); (2, demo_node false)]
          [(0, 2, mkEdgeAttr 1%Q 1%Q 1%Q true 0%Z);
           (2, 1, mkEdgeAttr 1%Q 1%Q 1%Q true 0%Z);
           (0, 1, mkEdgeAttr 10%Q 1%Q 1%Q true 0%Z)].

(** ** Scenario A *)

(** Two nodes [n1], [n2] (in node order) joined by one edge, stored with
    endpoints [(u, v)]. *)
Definition two_nodes (n1 n2 u v : node) (a1 a2 : NodeAttr) (ea : EdgeAttr)
  : Topology :=
  mkGraph [(n1, a1); (n2, a2)] [(u, v, ea)].

(** [(u, v)] is the pair [n1], [n2] of distinct nodes, in either order. *)
Definition joins (n1 n2 u v : node) : Prop :=
  n1 <> n2 /\ ((u = n1 /\ v = n2) \/ (u = n2 /\ v = n1)).

(** Attributes with [Qc = 1] and [p_edge = 1]: an unentangled node, and
    an edge of a given length. *)
Definition idle_node (usage_count : Z) (usage_fraction : Q) : NodeAttr :=
  mkNodeAttr false 0%Z 1%Q usage_count usage_fraction.

Definition unit_edge (length : Q) (entangled : bool) : EdgeAttr :=
  mkEdgeAttr length 1%Q 1%Q entangled 0%Z.

Definition mark_entangled (n : NodeAttr) : NodeAttr :=
  set_n_age 0%Z (set_n_entangled true n).

(** The used-path entries of a one-link Bell pair and of a one-link
    tree. *)
Definition bell_entry (d : node) : UsedPath :=
  mkUsedPath [] 1%Z (Some 0%Z) (Some d).

Definition tree_entry : UsedPath := mkUsedPath [] 1%Z None None.

(** Draws as [numpy.random.rand] makes them: in [[0, 1)]. *)
Definition in_unit_interval (rng : RandomSource) : Prop :=
  forall i, (0 <= rng i)%Q /\ (rng i < 1)%Q.

(** A strategy that wins every trial at its first timestep on the rested
    topology [G0], using one link. *)
Definition wins_at_once (sp : Strategy) (users : list node) (nodes cf : bool)
           (G0 : Topology) : Prop :=
  forall (m : nat) (links : Z) (rng : RandomSource),
    Qlt (rng 0) 1 ->
    exists G',
      timestep_loop sp users nodes cf (S m) 0%Z G0 [] links rng
      = mkTrialOut G' (fun i => rng (S i)) (links + 1)%Z (Ok 1%Z)
      /\ reset_graph_state G' = G0.

(** What the cooperative strategy needs of the Steiner routine: on a simple
    graph whose terminals are connected it returns a simple graph made of
    edges of its input that connects the terminals. *)
Definition simple_graph {NA EA : Type} (G : Graph NA EA) : Prop :=
  ForallOrdPairs (fun e1 e2 => same_edge (eu e1) (ev e1) e2 = false) (g_edges G).

Definition connects {NA EA : Type} (G : Graph NA EA) (terminals : list node)
  : Prop :=
  forall u v, In u terminals -> In v terminals -> exists p, path_between G u v p.

Definition steiner_contract (steiner_tree : LinkGraph -> list node -> LinkGraph)
  : Prop :=
  forall (H : LinkGraph) (terminals : list node),
    simple_graph H -> connects H terminals ->
    simple_graph (steiner_tree H terminals)
    /\ (forall e, In e (g_edges (steiner_tree H terminals)) ->
                  has_edge H (eu e) (ev e) = true)
    /\ connects (steiner_tree H terminals) terminals.

(** The outcome scenario A asks of a run: rate 1, every trial won at
    [t = 1], one link used per trial. *)
Definition scenario_A_outcome (o : RunOut) : Prop :=
  exists rate avg,
    ro_result o = Ok (Finite rate, [1; 1; 1]%Z, avg)
    /\ (rate == 1)%Q /\ (avg == 1)%Q.

(** ** Graphs in the store *)

(** [h] differs from [h0] only in what the graph object [gh] reaches: the
    graph object [g] is the same, the dictionaries [h0] had are the same,
    and the edges of [gh] refer to dictionaries allocated since. *)
Record isolated (g gh : Store.ref) (h0 h : Store.heap) : Prop := {
  iso_graph : nth_error (Store.graphs h) g = nth_error (Store.graphs h0) g;
  iso_dicts : forall r, r < length (Store.dicts h0) ->
                        Store.deref h r = Store.deref h0 r;
  iso_grows : length (Store.dicts h0) <= length (Store.dicts h);
  iso_fresh : forall go, nth_error (Store.graphs h) gh = Some go ->
                         Forall (fun e => length (Store.dicts h0) <= eattr e)
                                (g_edges go)
}.

(** The graph object [gh] of store [h] reads as the link graph [Hv], and
    no two of its entries share a dictionary. *)
Definition repr (gh : Store.ref) (h : Store.heap) (Hv : LinkGraph) : Prop :=
  exists go,
    nth_error (Store.graphs h) gh = Some go
    /\ traverse (Store.read_bare_node h) (g_nodes go) = Some (g_nodes Hv)
    /\ traverse (Store.read_edge h) (g_edges go) = Some (g_edges Hv)
    /\ NoDup (map snd (g_nodes go) ++ map (@eattr Store.ref) (g_edges go)).

(** Reading an indexed edge entry keeps its position. *)
Definition read_indexed (h : Store.heap) (ix : nat * Edge Store.ref)
           (iy : nat * Edge EdgeAttr) : Prop :=
  fst ix = fst iy /\ Store.read_edge h (snd ix) = Some (snd iy).

(** Sample input: a store holding [demo_pair true false 1] as object 0. *)
Definition demo_heap : Store.heap :=
  Store.mkHeap [mkGraph [(0, 0); (1, 1)] [(0, 1, 2)]]
               [Store.NodeDict (demo_node false); Store.NodeDict (demo_node false);
                Store.EdgeDict (demo_edge true 1%Q)].

(** ** Pruning *)

(** The [excluded_nodes] argument of [remove_nodes] as the list it stands
    for. *)
Definition exclusion (excluded_nodes : option (list node)) : list node :=
  match excluded_nodes with
  | None => []
  | Some l => l
  end.

(** A node survives [remove_nodes] when its usage reaches the cut-off or
    it is excluded. *)
Definition spared (min_usage : Q) (excluded : list node) (x : node * NodeAttr)
  : bool :=
  Qle_bool min_usage (n_usage_fraction (snd x)) || mem (fst x) excluded.

(** An edge survives when both its ends do. *)
Definition edge_spared (min_usage : Q) (excluded : list node) (G : Topology)
           (e : Edge EdgeAttr) : bool :=
  forallb (fun x => spared min_usage excluded x || negb (incident (fst x) e))
          (g_nodes G).
(** Sample input: a chain of three nodes with usage 0, 1/2 and 1. *)
Definition demo_usage : Topology :=
  mkGraph [(0, mkNodeAttr false 0%Z 1%Q 0%Z 0%Q);
           (1, mkNodeAttr false 0%Z 1%Q 1%Z (1 # 2)%Q);
           (2, mkNodeAttr false 0%Z 1%Q 2%Z 1%Q)]
          [(0, 1, demo_edge false 1%Q); (1, 2, demo_edge false 1%Q)].
(** ** Frames *)

(** What a link is built from: its ends, its length, its success
    probability and its memory time. *)
Definition same_link (e e' : Edge EdgeAttr) : Prop :=
  eu e' = eu e /\ ev e' = ev e
  /\ e_length (eattr e') = e_length (eattr e)
  /\ e_p_edge (eattr e') = e_p_edge (eattr e)
  /\ e_Qc (eattr e') = e_Qc (eattr e).

Definition same_site (x x' : node * NodeAttr) : Prop :=
  fst x' = fst x /\ n_Qc (snd x') = n_Qc (snd x).

(** Two topologies with the same nodes and links, position by position,
    which differ at most in the link state and the usage counters. *)
Definition same_layout (G G' : Topology) : Prop :=
  Forall2 same_site (g_nodes G) (g_nodes G')
  /\ Forall2 same_link (g_edges G) (g_edges G').

(** What a timestep can do to a node: nothing to its usage, and it cannot
    entangle it. *)
Definition node_settles (x x' : node * NodeAttr) : Prop :=
  same_site x x'
  /\ n_usage_count (snd x') = n_usage_count (snd x)
  /\ n_usage_fraction (snd x') = n_usage_fraction (snd x)
  /\ (n_entangled (snd x') = true -> n_entangled (snd x) = true).

(** A node whose age, after this timestep's increment, has reached its
    memory time. *)
Definition expires (nd : NodeAttr) : Prop :=
  (n_Qc nd <= inject_Z (if n_entangled nd then n_age nd + 1 else n_age nd)%Z)%Q.

(** ** Used paths *)

(** A used path one timestep older. *)
Definition aged (p : UsedPath) : UsedPath :=
  mkUsedPath (up_nodes p) (up_edge_count p)
             (option_map (fun a => (a + 1)%Z) (up_age p))
             (up_destination_node p).

(** A used path is kept while its age is below the memory time of its
    destination. *)
Definition outlives (ns : list (node * NodeAttr)) (p : UsedPath) : bool :=
  match up_age p, up_destination_node p with
  | Some a, Some d =>
      match lookup_node ns d with
      | Some nd => Qgt_bool (n_Qc nd) (inject_Z a)
      | None => false
      end
  | _, _ => false
  end.

(** A used path as the shortest-path strategies write it: with an age and
    with a destination that is a node of the graph. *)
Definition path_ok (G : Topology) (p : UsedPath) : Prop :=
  exists a d, up_age p = Some a /\ up_destination_node p = Some d
              /\ In d (node_ids G).
(** ** Strategies *)

(** A strategy that leaves the layout of the topology alone, and one that
    keeps the precondition of the age invariant on every edge. *)
Definition keeps_layout (sp : Strategy) : Prop :=
  forall G H users used cf, same_layout G (fst (fst (sp G H users used cf))).

Definition links_ok (G : Topology) : Prop :=
  Forall (fun e => edge_ok (eattr e)) (g_edges G).

Definition keeps_links_ok (sp : Strategy) : Prop :=
  forall G H users used cf,
    links_ok G -> links_ok (fst (fst (sp G H users used cf))).

(** The entries a run can write into [multipartite_gen_time]. *)
Definition time_entry (timesteps t : Z) : Prop :=
  t = (-1)%Z \/ (1 <= t <= timesteps)%Z.
(** ** The links under a topology *)

(** [H] holds links of [G]: the two graphs have the same nodes, and every
    edge of [H] is an edge of [G]. *)
Definition links_of (G : Topology) (H : LinkGraph) : Prop :=
  node_ids H = node_ids G
  /\ forall u v, has_edge H u v = true -> has_edge G u v = true.
(** ** The star *)

(** The hops of a path can be taken out of [T] one after the other: each
    is an edge of [T], and none comes twice. *)
Fixpoint hops_fresh {NA EA : Type} (hs : list (node * node)) (T : Graph NA EA)
  : Prop :=
  match hs with
  | [] => True
  | (u, v) :: hs' =>
      has_edge T u v = true
      /\ existsb (fun h => ((fst h =? u) && (snd h =? v))
                           || ((fst h =? v) && (snd h =? u))) hs' = false
      /\ hops_fresh hs' T
  end.

(** What the star builder keeps true of its working copy [T] and of the
    star [J] it grows: both have the nodes of [G] and only edges of [G]. *)
Definition star_inv (G T : Topology) (J : Graph NodeAttr unit) : Prop :=
  node_ids T = node_ids G
  /\ (forall u v, has_edge T u v = true -> has_edge G u v = true)
  /\ g_nodes J = g_nodes G
  /\ (forall u v, has_edge J u v = true -> has_edge G u v = true).

(** [d] can be reached from [s] in [G]. *)
Definition connected {NA EA : Type} (G : Graph NA EA) (s d : node) : Prop :=
  exists p, path_between G s d p.

(** Sample input: a square 0-1-2-3-0. *)
Definition demo_square : Topology :=
  mkGraph [(0, demo_node false); (1, demo_node false);
           (2, demo_node false); (3, demo_node false)]
          [(0, 1, demo_edge false 1%Q); (1, 2, demo_edge false 1%Q);
           (2, 3, demo_edge false 1%Q); (3, 0, demo_edge false 1%Q)].
(** The state of a node apart from its usage counters. *)
Definition same_state (x x' : node * NodeAttr) : Prop :=
  fst x' = fst x
  /\ n_entangled (snd x') = n_entangled (snd x)
  /\ n_age (snd x') = n_age (snd x)
  /\ n_Qc (snd x') = n_Qc (snd x).

(** Sample input: two nodes and no edge. *)
Definition demo_apart : Topology :=
  mkGraph [(0, demo_node false); (1, demo_node false)] [].
(** ** A network that generates no links *)

(** The link state [reset_graph_state] leaves: nothing entangled, every
    age 0. *)
Definition rested (G : Topology) : Prop :=
  Forall (fun e => e_entangled (eattr e) = false /\ e_age (eattr e) = 0%Z)
         (g_edges G)
  /\ Forall (fun x => n_entangled (snd x) = false /\ n_age (snd x) = 0%Z)
            (g_nodes G).

(** No edge can succeed, and every node has a positive memory time. *)
Definition dead (G : Topology) : Prop :=
  Forall (fun e => (e_p_edge (eattr e) <= 0)%Q) (g_edges G)
  /\ Forall (fun x => (0 < n_Qc (snd x))%Q) (g_nodes G).

(** The entangled subgraph of a topology without links. *)
Definition no_links (G : Topology) : LinkGraph :=
  mkGraph (map (fun x => (fst x, tt)) (g_nodes G)) [].

(** A strategy that reports failure, and changes nothing, when there are
    no links and no used paths. *)
Definition gives_up (sp : Strategy) (users : list node) (G : Topology) : Prop :=
  forall cf, sp G (no_links G) users [] cf = (G, [], Ok false).

(** The outcome of a run in which every repetition failed. *)
Definition all_failed (reps : Z) (o : RunOut) : Prop :=
  exists rate avg,
    ro_result o = Ok (Finite rate, repeat (-1)%Z (Z.to_nat reps), avg)
    /\ (rate == 0)%Q /\ (avg == 0)%Q.

(** Sample input: a link that never succeeds. *)
Definition demo_dead : Topology :=
  mkGraph [(0, demo_node false); (1, demo_node false)]
          [(0, 1, mkEdgeAttr 1%Q 0%Q 1%Q false 0%Z)].
(** ** Well-formed inputs *)

(** Every edge joins two nodes of the graph, as in any networkx graph. *)
Definition closed {NA EA : Type} (G : Graph NA EA) : Prop :=
  forall e, In e (g_edges G) ->
            In (eu e) (node_ids G) /\ In (ev e) (node_ids G).

(** A used path whose relays are nodes of the graph too. *)
Definition good_path (G : Topology) (p : UsedPath) : Prop :=
  path_ok G p /\ incl (up_nodes p) (node_ids G).
(** What the runner needs of the Steiner routine to count the relays: the
    tree it returns has no node that its input lacks. *)
Definition steiner_within (steiner_tree : LinkGraph -> list node -> LinkGraph)
  : Prop :=
  forall (H : LinkGraph) (terminals : list node),
    incl (node_ids (steiner_tree H terminals)) (node_ids H).
(** ** Loss *)

(** The success probability [set_p_edge] computes for an edge with
    attributes [a]: [p_op] itself without a loss figure; with one, [p_op]
    damped by the loss over the length of the edge, and nothing when the
    power overflows. *)
Definition price (pow10 : Q -> option Q) (p_op : Q) (loss_dB : option Q)
           (a : EdgeAttr) : option Q :=
  match loss_dB with
  | None => Some p_op
  | Some l => option_map (Qmult p_op) (pow10 (- (l * e_length a / 10))%Q)
  end.

(** [e'] is the edge [e] with its price for [p_edge] and nothing else
    changed. *)
Definition priced (pow10 : Q -> option Q) (p_op : Q) (loss_dB : option Q)
           (e e' : Edge EdgeAttr) : Prop :=
  exists p,
    price pow10 p_op loss_dB (eattr e) = Some p
    /\ e' = (eu e, ev e,
             mkEdgeAttr (e_length (eattr e)) p (e_Qc (eattr e))
                        (e_entangled (eattr e)) (e_age (eattr e))).

(** The power function on non-positive exponents does not overflow and
    gives a factor in [[0, 1]]. *)
Definition damping (pow10 : Q -> option Q) : Prop :=
  forall x, (x <= 0)%Q ->
            exists y, pow10 x = Some y /\ (0 <= y)%Q /\ (y <= 1)%Q.

Definition is_probability (p : Q) : Prop := (0 <= p)%Q /\ (p <= 1)%Q.

(** What the loop of [set_p_edge] writes on an edge it reaches, and
    whether the power is in range for the edge that [w] names in [G]. *)
Definition reprice (pow10 : Q -> option Q) (p_op l : Q) (a : EdgeAttr)
  : EdgeAttr :=
  match pow10 (- (l * e_length a / 10))%Q with
  | Some y => set_e_p_edge (p_op * y)%Q a
  | None => a
  end.

Definition in_range (pow10 : Q -> option Q) (l : Q) (G : Topology)
           (w : Edge EdgeAttr) : bool :=
  match find_edge G (eu w) (ev w) with
  | Some a =>
      match pow10 (- (l * e_length a / 10))%Q with
      | Some _ => true
      | None => false
      end
  | None => false
  end.

(** The graph with every edge given the length [length] and the
    success probability [p] assigns it. *)
Definition relength (length : Q) (p : EdgeAttr -> Q) (G : Topology) : Topology :=
  map_edges (fun a => mkEdgeAttr length (p a) (e_Qc a) (e_entangled a) (e_age a))
            G.

(** Sample power function: 1 on non-positive exponents, out of range
    above them. *)
Definition demo_pow (x : Q) : option Q :=
  if Qle_bool x 0 then Some 1%Q else None.
(** ** Accounting for links *)

(** The number of entangled edges of the topology, and the number of
    links the used paths record. *)
Definition entangled_links (G : Topology) : nat :=
  length (filter (fun e => e_entangled (eattr e)) (g_edges G)).

Definition links_recorded (used : list UsedPath) : Z :=
  fold_right (fun p acc => (up_edge_count p + acc)%Z) 0%Z used.

(** Every link of [H] is an entangled edge of [G]. *)
Definition links_entangled (G : Topology) (H : LinkGraph) : Prop :=
  forall u v, has_edge H u v = true ->
              exists e, In e (g_edges G) /\ same_edge u v e = true
                        /\ e_entangled (eattr e) = true.
(** ** What the shortest-path strategy does *)

(** To a node: nothing, or the mark of a Bell pair on a destination.  To
    an edge: nothing, or the consumption of its link.  To the used paths:
    new entries, of age 0, for destinations. *)
Definition node_marked (ds : list node) (x x' : node * NodeAttr) : Prop :=
  x' = x \/ (In (fst x) ds /\ x' = (fst x, mark_entangled (snd x))).

Definition edge_consumed (e e' : Edge EdgeAttr) : Prop :=
  e' = e \/ e' = on_attr consume e.

Definition bell_record (ds : list node) (p : UsedPath) : Prop :=
  up_age p = Some 0%Z
  /\ (exists d, up_destination_node p = Some d /\ In d ds)
  /\ (0 <= up_edge_count p)%Z.
(** ** Usage counters *)

(** A node whose usage count went up by at most [k]. *)
Definition bumped (k : Z) (x x' : node * NodeAttr) : Prop :=
  (n_usage_count (snd x) <= n_usage_count (snd x')
   <= n_usage_count (snd x) + k)%Z.

(** The Steiner routine returns a graph, whose nodes are distinct. *)
Definition steiner_nodes_distinct
           (steiner_tree : LinkGraph -> list node -> LinkGraph) : Prop :=
  forall (H : LinkGraph) (terminals : list node),
    NoDup (node_ids (steiner_tree H terminals)).
(** A stand-in for the Steiner routine: the whole graph, its node list
    without repetitions. *)
Definition distinct_nodes (H : LinkGraph) : LinkGraph :=
  mkGraph (map (fun n => (n, tt)) (nodup Nat.eq_dec (node_ids H))) (g_edges H).
(** ** Connected components *)

(** The invariant of the search for the component of [s]: what has been
    seen can be reached, and what has been seen and left behind has all
    its neighbours seen. *)
Record comp_inv {NA EA : Type} (G : Graph NA EA) (s : node)
       (frontier : list rpath) (visited : list node) : Prop := {
  comp_frontier : forall p, In p frontier -> connected G s (fst p);
  comp_sound : forall v, In v visited -> connected G s v;
  comp_closed : forall v, In v visited ->
                          In v (map fst frontier)
                          \/ (forall w, has_edge G v w = true -> In w visited)
}.
(** A node that is entangled afterwards was entangled before, or can be
    reached from [s] over links of [H]. *)
Definition reached_or_kept (H : LinkGraph) (s : node) (x x' : node * NodeAttr)
  : Prop :=
  fst x' = fst x
  /\ (n_entangled (snd x') = true ->
      n_entangled (snd x) = true \/ connected H s (fst x)).
(** ** A network whose links always succeed *)

(** Every attempt succeeds: [p_edge] is at least 1 on every edge. *)
Definition perfect (G : Topology) : Prop :=
  Forall (fun e => (1 <= e_p_edge (eattr e))%Q) (g_edges G).

(** The outcome of a run in which every repetition succeeded at its
    first timestep. *)
Definition all_at_once (reps : Z) (o : RunOut) : Prop :=
  exists rate avg,
    ro_result o = Ok (Finite rate, repeat 1%Z (Z.to_nat reps), avg)
    /\ (rate == 1)%Q.

(** * Properties *)

Ltac split_ands := repeat match goal with |- _ /\ _ => split end.

Ltac eqb_simpl :=
  repeat match goal with
         | H : ?a <> ?b |- context [?a =? ?b] =>
             rewrite (proj2 (Nat.eqb_neq a b) H)
         | H : ?a <> ?b |- context [?b =? ?a] =>
             rewrite (proj2 (Nat.eqb_neq b a) (not_eq_sym H))
         | |- context [?a =? ?a] => rewrite (Nat.eqb_refl a)
         end.

Ltac graph_simpl :=
  repeat (progress (cbn;
                    unfold incident, other_end, same_edge, has_edge, has_node,
                      remove_edge, find_edge, set_edge, set_node, lookup_node,
                      node_ids, mem, eu, ev, eattr, on_attr;
                    cbn; eqb_simpl)).

Ltac by_orientation H :=
  let Hne := fresh "Hne" in
  destruct H as [Hne [[-> ->]|[-> ->]]].

(** ** Lists updated by position *)

Lemma update_nth_length {A : Type} (f : A -> A) (l : list A) (i : nat) :
  length (update_nth i f l) = length l.
Proof.
  revert i; induction l as [|x l IH]; intros [|i]; simpl; auto.
Qed.

Lemma nth_error_update_nth_eq {A : Type} (f : A -> A) (l : list A) (i : nat) :
  nth_error (update_nth i f l) i = option_map f (nth_error l i).
Proof.
  revert i; induction l as [|x l IH]; intros [|i]; simpl; auto.
Qed.

Lemma nth_error_update_nth_ne {A : Type} (f : A -> A) (l : list A) (i j : nat) :
  i <> j -> nth_error (update_nth i f l) j = nth_error l j.
Proof.
  revert i j; induction l as [|x l IH]; intros [|i] [|j] Hne; simpl; auto;
    try congruence.
Qed.

Lemma Forall_update_nth {A : Type} (P : A -> Prop) (f : A -> A) (l : list A) (i : nat) :
  (forall x, P x -> P (f x)) -> Forall P l -> Forall P (update_nth i f l).
Proof.
  intros Hf; revert i; induction l as [|x l IH]; intros i Hl.
  - destruct i; constructor.
  - inversion Hl; subst. destruct i; simpl; constructor; auto.
Qed.

Lemma Forall2_update_nth {A : Type} (R : A -> A -> Prop) (f : A -> A)
      (l0 l : list A) (i : nat) :
  (forall x y, R x y -> R x (f y)) ->
  Forall2 R l0 l -> Forall2 R l0 (update_nth i f l).
Proof.
  intros Hf H; revert i; induction H as [|x y l0 l Hxy H IH]; intros i.
  - destruct i; constructor.
  - destruct i; simpl; constructor; auto.
Qed.

(** ** Comparisons *)

Lemma Qgt_bool_iff (x y : Q) : Qgt_bool x y = true <-> (y < x)%Q.
Proof.
  unfold Qgt_bool. rewrite negb_true_iff.
  split; intros H.
  - apply Qnot_le_lt. intros Hle. apply Qle_bool_iff in Hle. congruence.
  - destruct (Qle_bool x y) eqn:E; auto.
    apply Qle_bool_iff in E. exfalso. apply (Qlt_not_le _ _ H E).
Qed.

Lemma Qle_bool_false_iff (x y : Q) : Qle_bool x y = false <-> (y < x)%Q.
Proof.
  rewrite <- Qgt_bool_iff. unfold Qgt_bool. apply iff_sym, negb_true_iff.
Qed.

(** ** The link-evolution step on one edge *)

Lemma edge_decohere_ok (e : EdgeAttr) : edge_ok e -> edge_ok (edge_decohere e).
Proof.
  intros [HQ [Hf Ht]]. unfold edge_decohere.
  destruct (e_entangled e) eqn:E;
    [|unfold edge_ok, edge_inv; rewrite E; repeat split; auto; discriminate].
  destruct (Ht eq_refl) as [H0 _].
  cbn [set_e_age set_e_entangled e_Qc e_age e_entangled].
  destruct (Qle_bool (e_Qc e) (inject_Z (e_age e + 1))) eqn:C.
  - unfold edge_ok, edge_inv; cbn. repeat split; auto; discriminate.
  - apply Qle_bool_false_iff in C.
    unfold edge_ok, edge_inv; cbn. repeat split; auto; try congruence. lia.
Qed.

Lemma edge_generate_ok (r : Q) (e : EdgeAttr) : edge_ok e -> edge_ok (edge_generate r e).
Proof.
  intros [HQ [Hf Ht]]. unfold edge_generate.
  destruct (negb (e_entangled e) && Qgt_bool (e_p_edge e) r);
    [|unfold edge_ok, edge_inv; auto].
  unfold edge_ok, edge_inv; cbn. repeat split; auto; try discriminate; try lia.
  eapply Qlt_le_trans; [|exact HQ]. reflexivity.
Qed.

Lemma edge_update_ok (r : Q) (e : EdgeAttr) : edge_ok e -> edge_ok (edge_update r e).
Proof. intros H. apply edge_generate_ok, edge_decohere_ok, H. Qed.

Lemma edge_stale_reset_ok (e : EdgeAttr) : edge_ok e -> edge_ok (set_e_age 0%Z e).
Proof.
  intros [HQ [Hf Ht]].
  unfold edge_ok, edge_inv; cbn. repeat split; auto; try lia.
  eapply Qlt_le_trans; [|exact HQ]. reflexivity.
Qed.

(** ** The loops of [run_entanglement_step] *)

Lemma edge_loop_Forall (P : Edge EdgeAttr -> Prop) ks :
  (forall r e, P e -> P (on_attr (edge_update r) e)) ->
  forall es edge, Forall P es -> Forall P (fst (edge_loop ks es edge)).
Proof.
  intros HP. induction ks as [|[i r] ks IH]; intros es edge H; simpl; auto.
  apply IH. apply Forall_update_nth; auto.
Qed.

Lemma node_loop_Forall (P : Edge EdgeAttr -> Prop) edge :
  (forall e, P e -> P (on_attr (set_e_age 0%Z) e)) ->
  forall ns es, Forall P es -> Forall P (snd (fst (node_loop edge ns es))).
Proof.
  intros HP. induction ns as [|[name nd] ns IH]; intros es H; simpl; auto.
  destruct (Qle_bool _ _).
  - destruct edge as [i|]; simpl; auto.
    specialize (IH (update_nth i (on_attr (set_e_age 0%Z)) es)
                   (Forall_update_nth P _ es i HP H)).
    destruct (node_loop (Some i) ns _) as [[ns' es'] err]. exact IH.
  - specialize (IH es H). destruct (node_loop edge ns es) as [[ns' es'] err].
    exact IH.
Qed.

Lemma step_edges_Forall (P : Edge EdgeAttr -> Prop) G used nodes rng :
  (forall r e, P e -> P (on_attr (edge_update r) e)) ->
  (forall e, P e -> P (on_attr (set_e_age 0%Z) e)) ->
  Forall P (g_edges G) ->
  Forall P (g_edges (so_graph (run_entanglement_step G used nodes rng))).
Proof.
  intros HU HR H. unfold run_entanglement_step. simpl.
  pose proof (edge_loop_Forall P (combine (edge_order G)
               (map rng (seq 0 (number_of_edges G)))) HU (g_edges G) None H) as H1.
  destruct (edge_loop _ (g_edges G) None) as [es edge]. simpl in H1.
  destruct nodes; [|exact H1].
  pose proof (node_loop_Forall P edge HR (g_nodes G) es H1) as H2.
  destruct (node_loop edge (g_nodes G) es) as [[ns es'] err]. simpl in H2.
  destruct err; [exact H2|].
  destruct (age_paths used) as [used1 [x|]]; [exact H2|].
  destruct (live_paths ns used1); exact H2.
Qed.

(** C2. If every edge has [Qc >= 1] and satisfies the age invariant
    (unentangled implies age 0; entangled implies [0 <= age < Qc]), then
    after one call of [run_entanglement_step] every edge satisfies the age
    invariant again, whatever the random source draws, with or without the
    node pass, and also when the call ends in an exception. *)
Theorem step_preserves_edge_invariant :
  forall (G : Topology) (used_nodes : list UsedPath) (nodes : bool)
         (rng : RandomSource),
    Forall (fun e => (1 <= e_Qc (eattr e))%Q /\ edge_inv (eattr e)) (g_edges G) ->
    Forall (fun e => edge_inv (eattr e))
           (g_edges (so_graph (run_entanglement_step G used_nodes nodes rng))).
Proof.
  intros G used nodes rng H.
  assert (Hok : Forall (fun e => edge_ok (eattr e))
                  (g_edges (so_graph (run_entanglement_step G used nodes rng)))).
  { apply step_edges_Forall.
    - intros r e He. apply edge_update_ok, He.
    - intros e He. apply edge_stale_reset_ok, He.
    - exact H. }
  eapply Forall_impl; [|exact Hok]. intros e [_ He]. exact He.
Qed.

Lemma step_preserves_edge_invariant_witness :
  Forall (fun e => (1 <= e_Qc (eattr e))%Q /\ edge_inv (eattr e))
         (g_edges (demo_pair true false 2%Q)) /\
  Forall (fun e => edge_inv (eattr e))
         (g_edges (so_graph (run_entanglement_step (demo_pair true false 2%Q)
                                                   [] true half))).
Proof.
  assert (H : Forall (fun e => (1 <= e_Qc (eattr e))%Q /\ edge_inv (eattr e))
                     (g_edges (demo_pair true false 2%Q))).
  { constructor; [|constructor].
    unfold edge_inv; cbn. split; [discriminate|].
    split; [discriminate|]. intros _. split; [apply Z.le_refl | reflexivity]. }
  split; [exact H|].
  apply (step_preserves_edge_invariant (demo_pair true false 2%Q) [] true half H).
Defined.

(** ** The node pass *)

Lemma node_loop_bound (i : nat) (ns : list (node * NodeAttr)) :
  forall es,
    fst (fst (node_loop (Some i) ns es))
    = map (fun x => (fst x, node_update (snd x))) ns
    /\ snd (node_loop (Some i) ns es) = None.
Proof.
  induction ns as [|[name nd] ns IH]; intros es; simpl; auto.
  unfold node_update; simpl.
  destruct (Qle_bool _ _).
  - specialize (IH (update_nth i (on_attr (set_e_age 0%Z)) es)).
    destruct (node_loop (Some i) ns _) as [[ns' es'] err]; simpl in *.
    destruct IH as [-> ->]. auto.
  - specialize (IH es).
    destruct (node_loop (Some i) ns es) as [[ns' es'] err]; simpl in *.
    destruct IH as [-> ->]. auto.
Qed.

Lemma edge_loop_bound ks :
  forall es edge, ks <> [] -> exists i, snd (edge_loop ks es edge) = Some i.
Proof.
  induction ks as [|[i r] ks IH]; intros es edge Hne; [congruence|].
  simpl. destruct ks as [|k ks'].
  - exists i. reflexivity.
  - apply IH. discriminate.
Qed.

Lemma edge_view_from_bound {EA : Type} (ns seen : list node)
      (es : list (Edge EA)) (i : nat) :
  In i (map fst (edge_view_from ns seen (indexed es))) -> i < length es.
Proof.
  revert seen; induction ns as [|n ns IH]; intros seen; simpl; [tauto|].
  rewrite map_app, in_app_iff, map_map. cbn [fst].
  intros [H|H]; [|eauto].
  apply in_map_iff in H. destruct H as [[j e] [<- H]].
  apply filter_In in H. destruct H as [H _].
  unfold indexed in H. apply in_combine_l in H. apply in_seq in H. simpl. lia.
Qed.

Lemma step_nodes_updated (G : Topology) used rng :
  edge_order G <> [] ->
  g_nodes (so_graph (run_entanglement_step G used true rng))
  = map (fun x => (fst x, node_update (snd x))) (g_nodes G).
Proof.
  intros Hne. unfold run_entanglement_step. simpl.
  assert (Hks : combine (edge_order G) (map rng (seq 0 (number_of_edges G))) <> []).
  { destruct (edge_order G) as [|i l] eqn:E; [congruence|].
    assert (Hi : i < length (g_edges G)).
    { apply (edge_view_from_bound (node_ids G) [] (g_edges G)).
      unfold edge_order, edge_view in E. rewrite E. left; reflexivity. }
    unfold number_of_edges. destruct (length (g_edges G)); [lia|]. discriminate. }
  destruct (edge_loop_bound _ (g_edges G) None Hks) as [i Hi].
  destruct (edge_loop _ (g_edges G) None) as [es edge]. simpl in Hi. subst edge.
  destruct (node_loop_bound i (g_nodes G) es) as [H1 H2].
  destruct (node_loop (Some i) (g_nodes G) es) as [[ns es'] err].
  simpl in H1, H2. subst.
  destruct (age_paths used) as [used1 [x|]]; [reflexivity|].
  destruct (live_paths _ used1); reflexivity.
Qed.

(** C1 (the code departs from the claim).  In a topology with at least one
    edge, a node that decoheres in the node pass (it is entangled and its
    incremented age reaches its [Qc]) leaves the step unentangled but with
    the incremented age: line 41 writes the age of the dictionary left in
    [edge] by the edge loop, not the node's. *)
Theorem node_decoherence_keeps_age :
  forall (G : Topology) (used_nodes : list UsedPath) (rng : RandomSource)
         (name : node) (nd : NodeAttr),
    edge_order G <> [] ->
    In (name, nd) (g_nodes G) ->
    n_entangled nd = true ->
    (n_Qc nd <= inject_Z (n_age nd + 1))%Q ->
    In (name, set_n_entangled false (set_n_age (n_age nd + 1)%Z nd))
       (g_nodes (so_graph (run_entanglement_step G used_nodes true rng))).
Proof.
  intros G used rng name nd Hne Hin Hent Hage.
  rewrite step_nodes_updated by exact Hne.
  apply in_map_iff. exists (name, nd). split; [|exact Hin].
  simpl. f_equal. unfold node_update. rewrite Hent. simpl.
  apply Qle_bool_iff in Hage. rewrite Hage. reflexivity.
Qed.

Lemma node_decoherence_keeps_age_witness :
  In (1, mkNodeAttr false 1%Z 1%Q 0%Z 0%Q)
     (g_nodes (so_graph (run_entanglement_step (demo_pair false true 1%Q)
                                               [] true half))).
Proof.
  apply (node_decoherence_keeps_age (demo_pair false true 1%Q) [] half
                                    1 (demo_node true)).
  - discriminate.
  - right; left; reflexivity.
  - reflexivity.
  - cbn. unfold Qle; simpl. apply Z.le_refl.
Defined.

(** ** The order of the edge view *)

Lemma nth_error_combine {A B : Type} (l1 : list A) (l2 : list B) (k : nat) a b :
  nth_error l1 k = Some a -> nth_error l2 k = Some b ->
  nth_error (combine l1 l2) k = Some (a, b).
Proof.
  revert l2 k; induction l1 as [|x l1 IH]; intros [|y l2] [|k]; simpl;
    try discriminate; auto.
  intros [= ->] [= ->]. reflexivity.
Qed.

Lemma NoDup_map_fst_combine {A B : Type} (l1 : list A) (l2 : list B) :
  NoDup l1 -> NoDup (map fst (combine l1 l2)).
Proof.
  revert l2; induction l1 as [|x l1 IH]; intros [|y l2] H; simpl;
    try constructor.
  - inversion H; subst. intros Hin. apply in_map_iff in Hin.
    destruct Hin as [[x' y'] [Hx Hin]]. simpl in Hx; subst.
    apply in_combine_l in Hin. contradiction.
  - inversion H; auto.
Qed.

Lemma In_combine_seq {A : Type} (es : list A) (s j : nat) (e : A) :
  In (j, e) (combine (seq s (length es)) es)
  <-> s <= j /\ nth_error es (j - s) = Some e.
Proof.
  revert s; induction es as [|x es IH]; intros s; simpl.
  - split; [tauto|]. intros [_ H]. destruct (j - s); discriminate.
  - rewrite IH. split.
    + intros [[= <- <-]|[Hle H]].
      * rewrite Nat.sub_diag. auto.
      * split; [lia|]. replace (j - s) with (S (j - S s)) by lia. exact H.
    + intros [Hle H]. destruct (j - s) as [|d] eqn:E.
      * left. injection H as ->. f_equal. lia.
      * right. split; [lia|]. replace (j - S s) with d by lia. exact H.
Qed.

Lemma In_indexed {EA : Type} (es : list (Edge EA)) (j : nat) (e : Edge EA) :
  In (j, e) (indexed es) <-> nth_error es j = Some e.
Proof.
  unfold indexed. rewrite In_combine_seq, Nat.sub_0_r.
  split; [tauto | split; [lia | assumption]].
Qed.

Lemma NoDup_map_fst_filter {A B : Type} (f : A * B -> bool) (l : list (A * B)) :
  NoDup (map fst l) -> NoDup (map fst (filter f l)).
Proof.
  induction l as [|x l IH]; simpl; intros H; [constructor|].
  inversion H as [|? ? Hn Hl]; subst.
  destruct (f x); simpl; auto. constructor; auto.
  intros Hin. apply Hn. apply in_map_iff in Hin.
  destruct Hin as [y [Hy Hin]]. apply filter_In in Hin.
  apply in_map_iff. exists y. tauto.
Qed.

Lemma mem_In (n : node) (l : list node) : mem n l = true <-> In n l.
Proof.
  unfold mem. rewrite existsb_exists. split.
  - intros [x [Hin Hx]]. apply Nat.eqb_eq in Hx. subst. exact Hin.
  - intros Hin. exists n. split; [exact Hin | apply Nat.eqb_refl].
Qed.

Lemma edge_view_from_In {EA : Type} (ns : list node) (es : list (nat * Edge EA)) :
  forall seen j,
    In j (map fst (edge_view_from ns seen es)) ->
    exists m e, In m ns /\ In (j, e) es /\ incident m e = true
                /\ ~ In (other_end m e) seen.
Proof.
  induction ns as [|n ns IH]; intros seen j; simpl; [tauto|].
  rewrite map_app, in_app_iff, map_map. cbn [fst].
  intros [H|H].
  - apply in_map_iff in H. destruct H as [[j' e] [<- H]].
    apply filter_In in H. destruct H as [Hin Hf].
    apply andb_true_iff in Hf. destruct Hf as [Hi Hs].
    exists n, e. simpl in *. repeat split; auto.
    intros Hm. apply mem_In in Hm. rewrite Hm in Hs. discriminate.
  - destruct (IH _ _ H) as [m [e [Hm [Hin [Hi Hs]]]]].
    exists m, e. repeat split; auto. intros Hx. apply Hs. right. exact Hx.
Qed.

Lemma other_end_of_two_ends {EA : Type} (n m : node) (e : Edge EA) :
  n <> m -> incident n e = true -> incident m e = true -> other_end m e = n.
Proof.
  unfold incident, other_end. intros Hne Hn Hm.
  apply orb_true_iff in Hn, Hm.
  destruct (eu e =? m) eqn:E.
  - apply Nat.eqb_eq in E.
    destruct Hn as [Hn|Hn]; apply Nat.eqb_eq in Hn; congruence.
  - destruct Hm as [Hm|Hm]; [congruence|]. apply Nat.eqb_eq in Hm.
    destruct Hn as [Hn|Hn]; apply Nat.eqb_eq in Hn; congruence.
Qed.

Lemma In_map_fst_unique {A B : Type} (l : list (A * B)) (a : A) (b b' : B) :
  NoDup (map fst l) -> In (a, b) l -> In (a, b') l -> b = b'.
Proof.
  induction l as [|[x y] l IH]; simpl; intros H H1 H2; [tauto|].
  inversion H as [|? ? Hn Hl]; subst.
  assert (Hfst : forall c, In (a, c) l -> In a (map fst l)).
  { intros c Hc. apply in_map_iff. exists (a, c). auto. }
  destruct H1 as [H1|H1], H2 as [H2|H2].
  - congruence.
  - injection H1 as -> ->. exfalso. eauto.
  - injection H2 as -> ->. exfalso. eauto.
  - auto.
Qed.

Lemma edge_view_from_NoDup {EA : Type} (ns : list node) (es : list (nat * Edge EA)) :
  NoDup ns -> NoDup (map fst es) ->
  forall seen, NoDup (map fst (edge_view_from ns seen es)).
Proof.
  intros Hns Hes. induction ns as [|n ns IH]; intros seen; simpl; [constructor|].
  inversion Hns as [|? ? Hn Hns']; subst.
  rewrite map_app, map_map. cbn [fst].
  apply NoDup_app.
  - apply NoDup_map_fst_filter, Hes.
  - apply IH, Hns'.
  - intros j H1 H2. apply in_map_iff in H1. destruct H1 as [[j' e] [<- H1]].
    apply filter_In in H1. destruct H1 as [Hin Hf].
    apply andb_true_iff in Hf. destruct Hf as [Hi _]. simpl in *.
    destruct (edge_view_from_In _ _ _ _ H2) as [m [e' [Hm [Hin' [Hi' Hs]]]]].
    assert (e' = e) by (eapply In_map_fst_unique; eauto). subst e'.
    apply Hs. left. symmetry. apply other_end_of_two_ends; auto.
    intros ->. contradiction.
Qed.

Lemma map_fst_combine_seq {A : Type} (es : list A) (s : nat) :
  map fst (combine (seq s (length es)) es) = seq s (length es).
Proof.
  revert s; induction es as [|x es IH]; intros s; simpl; auto.
  f_equal. apply IH.
Qed.

Lemma map_fst_indexed {EA : Type} (es : list (Edge EA)) :
  map fst (indexed es) = seq 0 (length es).
Proof. apply map_fst_combine_seq. Qed.

Lemma edge_order_NoDup {NA EA : Type} (G : Graph NA EA) :
  NoDup (node_ids G) -> NoDup (edge_order G).
Proof.
  intros H. unfold edge_order, edge_view.
  apply edge_view_from_NoDup; auto.
  rewrite map_fst_indexed. apply seq_NoDup.
Qed.

Lemma edge_order_length {NA EA : Type} (G : Graph NA EA) :
  NoDup (node_ids G) -> length (edge_order G) <= number_of_edges G.
Proof.
  intros H. unfold number_of_edges.
  assert (Hincl : incl (edge_order G) (seq 0 (length (g_edges G)))).
  { intros i Hi. apply in_seq. split; [lia|]. simpl.
    apply (edge_view_from_bound (node_ids G) [] (g_edges G)). exact Hi. }
  pose proof (NoDup_incl_length (edge_order_NoDup G H) Hincl) as Hlen.
  rewrite length_seq in Hlen. exact Hlen.
Qed.

(** ** What the step does to one edge *)

Lemma edge_loop_untouched ks :
  forall es edge i,
    ~ In i (map fst ks) ->
    nth_error (fst (edge_loop ks es edge)) i = nth_error es i.
Proof.
  induction ks as [|[j r] ks IH]; intros es edge i Hn; simpl; auto.
  simpl in Hn. rewrite IH by tauto.
  apply nth_error_update_nth_ne. tauto.
Qed.

Lemma edge_loop_visited ks :
  NoDup (map fst ks) ->
  forall es edge i r,
    In (i, r) ks ->
    nth_error (fst (edge_loop ks es edge)) i
    = option_map (on_attr (edge_update r)) (nth_error es i).
Proof.
  induction ks as [|[j q] ks IH]; intros Hnd es edge i r Hin; simpl in *; [tauto|].
  inversion Hnd as [|? ? Hn Hnd']; subst.
  destruct Hin as [[= -> ->]|Hin].
  - rewrite edge_loop_untouched by exact Hn.
    apply nth_error_update_nth_eq.
  - rewrite (IH Hnd' _ _ i r Hin).
    rewrite nth_error_update_nth_ne; auto.
    intros ->. apply Hn. apply in_map_iff. exists (i, r). auto.
Qed.

Lemma age_reset_again e0 e : age_reset e0 e -> age_reset e0 (on_attr (set_e_age 0%Z) e).
Proof.
  intros [->| ->]; right; reflexivity.
Qed.

Lemma node_loop_edges edge ns :
  forall es0 es, Forall2 age_reset es0 es ->
                 Forall2 age_reset es0 (snd (fst (node_loop edge ns es))).
Proof.
  induction ns as [|[name nd] ns IH]; intros es0 es H; simpl; auto.
  destruct (Qle_bool _ _).
  - destruct edge as [i|]; simpl; auto.
    specialize (IH es0 (update_nth i (on_attr (set_e_age 0%Z)) es)
                   (Forall2_update_nth _ _ _ _ i age_reset_again H)).
    destruct (node_loop (Some i) ns _) as [[ns' es'] err]. exact IH.
  - specialize (IH es0 es H).
    destruct (node_loop edge ns es) as [[ns' es'] err]. exact IH.
Qed.

Lemma Forall2_refl_on {A : Type} (R : A -> A -> Prop) (l : list A) :
  (forall x, R x x) -> Forall2 R l l.
Proof. intros H. induction l; constructor; auto. Qed.

Lemma Forall2_nth_error {A : Type} (R : A -> A -> Prop) (l0 l : list A) i x :
  Forall2 R l0 l -> nth_error l0 i = Some x ->
  exists y, nth_error l i = Some y /\ R x y.
Proof.
  intros H. revert i. induction H as [|a b l0 l Hab H IH]; intros [|i]; simpl;
    try discriminate.
  - intros [= ->]. eauto.
  - apply IH.
Qed.

(** The edge visited [k]-th by the edge loop leaves the step as
    [edge_update] computes it from the [k]-th draw, up to the age reset of
    line 41. *)
Lemma step_edge_spec (G : Topology) used nodes rng k i e :
  NoDup (node_ids G) ->
  nth_error (edge_order G) k = Some i ->
  nth_error (g_edges G) i = Some e ->
  exists e',
    nth_error (g_edges (so_graph (run_entanglement_step G used nodes rng))) i
    = Some e'
    /\ age_reset (on_attr (edge_update (rng k)) e) e'.
Proof.
  intros Hnd Hk Hi. unfold run_entanglement_step. simpl.
  set (ks := combine (edge_order G) (map rng (seq 0 (number_of_edges G)))).
  assert (Hks : NoDup (map fst ks))
    by (apply NoDup_map_fst_combine, edge_order_NoDup, Hnd).
  assert (Hin : In (i, rng k) ks).
  { apply (nth_error_In _ k). apply nth_error_combine; [exact Hk|].
    rewrite nth_error_map, nth_error_seq.
    assert (k < number_of_edges G) as Hlt.
    { pose proof (edge_order_length G Hnd).
      assert (k < length (edge_order G)) by (apply nth_error_Some; congruence).
      lia. }
    apply Nat.ltb_lt in Hlt. rewrite Hlt. reflexivity. }
  pose proof (edge_loop_visited ks Hks (g_edges G) None i (rng k) Hin) as Hv.
  rewrite Hi in Hv. simpl in Hv.
  destruct (edge_loop ks (g_edges G) None) as [es edge]. simpl in Hv.
  destruct nodes.
  - pose proof (node_loop_edges edge (g_nodes G) es es
                  (Forall2_refl_on _ es (fun x => or_introl eq_refl))) as H2.
    destruct (Forall2_nth_error _ _ _ _ _ H2 Hv) as [e' [He' HR]].
    exists e'. split; [|exact HR].
    destruct (node_loop edge (g_nodes G) es) as [[ns es'] err]. simpl in He'.
    destruct err; [exact He'|].
    destruct (age_paths used) as [used1 [x|]]; [exact He'|].
    destruct (live_paths ns used1); exact He'.
  - exists (on_attr (edge_update (rng k)) e). split; [exact Hv | left; reflexivity].
Qed.

Lemma edge_decohere_p_edge (a : EdgeAttr) : e_p_edge (edge_decohere a) = e_p_edge a.
Proof.
  unfold edge_decohere. destruct (e_entangled a); auto.
  destruct (Qle_bool _ _); reflexivity.
Qed.

Lemma edge_generate_entangled (r : Q) (d : EdgeAttr) :
  e_entangled d = false ->
  (e_entangled (edge_generate r d) = true <-> (r < e_p_edge d)%Q).
Proof.
  intros Hd. unfold edge_generate. rewrite Hd. simpl.
  rewrite <- Qgt_bool_iff.
  destruct (Qgt_bool (e_p_edge d) r); simpl; [tauto|].
  rewrite Hd. split; discriminate.
Qed.

(** C7.  The generation test of an edge reads the state left by its
    decoherence update.  For the edge visited [k]-th by the edge loop, with
    [rng k] its draw: if it enters the step entangled with
    [age + 1 >= Qc] and [p_edge > r], it leaves the step entangled with
    age 0; and generation fires on it (it is unentangled after the
    decoherence update and entangled after the step) exactly when it is
    unentangled after the decoherence update and [p_edge > r]. *)
Theorem generation_reads_decohered_state :
  forall (G : Topology) (used_nodes : list UsedPath) (nodes : bool)
         (rng : RandomSource) (k i : nat) (e : Edge EdgeAttr),
    NoDup (node_ids G) ->
    nth_error (edge_order G) k = Some i ->
    nth_error (g_edges G) i = Some e ->
    exists e',
      nth_error (g_edges (so_graph (run_entanglement_step G used_nodes nodes rng))) i
      = Some e'
      /\ eu e' = eu e /\ ev e' = ev e
      /\ (e_entangled (eattr e) = true ->
          (e_Qc (eattr e) <= inject_Z (e_age (eattr e) + 1))%Q ->
          (rng k < e_p_edge (eattr e))%Q ->
          e_entangled (eattr e') = true /\ e_age (eattr e') = 0%Z)
      /\ ((e_entangled (edge_decohere (eattr e)) = false
           /\ e_entangled (eattr e') = true)
          <-> (e_entangled (edge_decohere (eattr e)) = false
               /\ (rng k < e_p_edge (eattr e))%Q)).
Proof.
  intros G used nodes rng k i e Hnd Hk Hi.
  destruct (step_edge_spec G used nodes rng k i e Hnd Hk Hi) as [e' [He' HR]].
  exists e'. split; [exact He'|].
  assert (Hent : e_entangled (eattr e')
                 = e_entangled (edge_update (rng k) (eattr e)))
    by (destruct HR as [->| ->]; reflexivity).
  split; [destruct HR as [->| ->]; reflexivity|].
  split; [destruct HR as [->| ->]; reflexivity|].
  split.
  - intros Ht HQ Hr.
    assert (Hd : edge_decohere (eattr e)
                 = set_e_age 0%Z (set_e_entangled false
                                    (set_e_age (e_age (eattr e) + 1)%Z (eattr e)))).
    { unfold edge_decohere. rewrite Ht. cbn [set_e_age e_Qc e_age].
      apply Qle_bool_iff in HQ. rewrite HQ. reflexivity. }
    assert (Hg : edge_update (rng k) (eattr e)
                 = set_e_age 0%Z (set_e_entangled true (edge_decohere (eattr e)))).
    { unfold edge_update, edge_generate. rewrite Hd at 1 2.
      cbn [set_e_age set_e_entangled e_entangled e_p_edge negb andb].
      apply Qgt_bool_iff in Hr. rewrite Hr. reflexivity. }
    destruct HR as [->| ->]; cbn [on_attr eattr snd]; rewrite Hg; auto.
  - rewrite Hent. unfold edge_update.
    rewrite <- (edge_decohere_p_edge (eattr e)).
    split; intros [Hd H]; (split; [exact Hd|]);
      apply (edge_generate_entangled (rng k) _ Hd); exact H.
Qed.

Lemma generation_reads_decohered_state_witness :
  exists e',
    nth_error (g_edges (so_graph (run_entanglement_step
                                    (demo_pair true false 1%Q) [] true half))) 0
    = Some e'
    /\ e_entangled (eattr e') = true /\ e_age (eattr e') = 0%Z.
Proof.
  destruct (generation_reads_decohered_state
              (demo_pair true false 1%Q) [] true half 0 0
              (0, 1, demo_edge true 1%Q)) as [e' [He' [_ [_ [H _]]]]].
  - repeat constructor; simpl; intuition discriminate.
  - reflexivity.
  - reflexivity.
  - exists e'. split; [exact He'|]. apply H.
    + reflexivity.
    + unfold Qle; simpl. apply Z.le_refl.
    + reflexivity.
Defined.

(** ** The rate of a run *)

Lemma py_sum_from (l : list Z) (a : Z) :
  fold_left Z.add l a = (a + fold_right Z.add 0 l)%Z.
Proof.
  revert a; induction l as [|x l IH]; intros a; simpl; [lia|].
  rewrite IH. lia.
Qed.

Lemma py_sum_fold_right (l : list Z) : py_sum l = fold_right Z.add 0%Z l.
Proof. unfold py_sum. rewrite py_sum_from. lia. Qed.

Lemma fail_count_spec (times : list Z) :
  (Z.of_nat (length times)
   - Z.of_nat (length (filter (fun t => negb (t =? -1)%Z) times)))%Z
  = failure_count times.
Proof.
  unfold failure_count. induction times as [|t times IH]; [reflexivity|].
  cbn [filter length]. destruct (t =? -1)%Z; cbn [negb length]; lia.
Qed.

Lemma rate_t_total (times : list Z) (timesteps : Z) :
  (py_sum (filter (fun t => negb (t =? -1)%Z) times)
   + (Z.of_nat (length times)
      - Z.of_nat (length (filter (fun t => negb (t =? -1)%Z) times))) * timesteps)%Z
  = denominator times timesteps.
Proof.
  unfold denominator, success_sum. rewrite py_sum_fold_right, fail_count_spec.
  reflexivity.
Qed.

Lemma success_sum_pos (times : list Z) :
  Forall entry_ok times -> (0 < success_count times)%Z -> (0 < success_sum times)%Z.
Proof.
  unfold success_count, success_sum.
  induction 1 as [|t times Ht Hts IH]; simpl; [lia|].
  destruct (t =? -1)%Z eqn:E; simpl; [exact IH|].
  intros _. apply Z.eqb_neq in E. destruct Ht as [Ht|Ht]; [|contradiction].
  destruct (filter _ times) as [|s l] eqn:F; [simpl; lia|].
  assert (0 < fold_right Z.add 0 (s :: l))%Z by (apply IH; simpl; lia). lia.
Qed.

Lemma failure_count_nonneg (times : list Z) : (0 <= failure_count times)%Z.
Proof. unfold failure_count. lia. Qed.

(** What [_multipartite_rate] returns, case by case. *)
Lemma rate_cases (times : list Z) (timesteps : Z) :
  _multipartite_rate times timesteps
  = if (denominator times timesteps =? 0)%Z
    then if (success_count times =? 0)%Z then Raise ZeroDivisionError else Ok Inf
    else Ok (Finite (inject_Z (success_count times)
                     / inject_Z (denominator times timesteps))%Q).
Proof.
  unfold _multipartite_rate. rewrite rate_t_total. unfold success_count.
  destruct (filter _ times) as [|s l]; simpl length.
  - simpl. destruct (denominator times timesteps =? 0)%Z; reflexivity.
  - destruct (denominator times timesteps =? 0)%Z; [|reflexivity].
    destruct (Z.of_nat (S (length l)) =? 0)%Z eqn:E; [|reflexivity].
    apply Z.eqb_eq in E. lia.
Qed.

(** C6 (amended).  For per-trial times that are positive success times or
    the sentinel, and any [timesteps]: when the denominator
    [sum of success times + failure_count * timesteps] is not zero the
    aggregator returns [success_count / denominator]; it fails, with
    [ZeroDivisionError], exactly when the denominator is zero and no trial
    succeeded; for [timesteps >= 0] that is exactly when the denominator is
    zero. *)
Theorem multipartite_rate_spec :
  forall (times : list Z) (timesteps : Z),
    Forall entry_ok times ->
    ((denominator times timesteps <> 0)%Z ->
     _multipartite_rate times timesteps
     = Ok (Finite (inject_Z (success_count times)
                   / inject_Z (denominator times timesteps))%Q))
    /\ ((exists x, _multipartite_rate times timesteps = Raise x)
        <-> (denominator times timesteps = 0 /\ success_count times = 0)%Z)
    /\ (forall x, _multipartite_rate times timesteps = Raise x
                  -> x = ZeroDivisionError)
    /\ ((0 <= timesteps)%Z ->
        ((exists x, _multipartite_rate times timesteps = Raise x)
         <-> denominator times timesteps = 0%Z)).
Proof.
  intros times timesteps Hok. rewrite rate_cases.
  assert (Hraise : (exists x,
             (if (denominator times timesteps =? 0)%Z
              then if (success_count times =? 0)%Z
                   then Raise ZeroDivisionError else Ok Inf
              else Ok (Finite (inject_Z (success_count times)
                               / inject_Z (denominator times timesteps))%Q))
             = Raise x)
          <-> (denominator times timesteps = 0 /\ success_count times = 0)%Z).
  { destruct (denominator times timesteps =? 0)%Z eqn:D.
    - apply Z.eqb_eq in D.
      destruct (success_count times =? 0)%Z eqn:S.
      + apply Z.eqb_eq in S. split; eauto.
      + apply Z.eqb_neq in S. split; [intros [x Hx]; discriminate | tauto].
    - apply Z.eqb_neq in D. split; [intros [x Hx]; discriminate | tauto]. }
  split; [|split; [exact Hraise|split]].
  - intros Hd. apply Z.eqb_neq in Hd. rewrite Hd. reflexivity.
  - intros x. destruct (denominator times timesteps =? 0)%Z;
      [destruct (success_count times =? 0)%Z|]; congruence.
  - intros Hts. rewrite Hraise. split; [tauto|]. intros Hd. split; [exact Hd|].
    assert (0 <= success_count times)%Z by (unfold success_count; lia).
    destruct (Z.eq_dec (success_count times) 0) as [|Hn]; [assumption|].
    pose proof (success_sum_pos times Hok ltac:(lia)).
    pose proof (failure_count_nonneg times).
    unfold denominator in Hd. nia.
Qed.

Lemma multipartite_rate_spec_witness :
  Forall entry_ok [3; -1; 2]%Z
  /\ _multipartite_rate [3; -1; 2]%Z 5
     = Ok (Finite (inject_Z (success_count [3; -1; 2]%Z)
                   / inject_Z (denominator [3; -1; 2]%Z 5))%Q).
Proof.
  assert (H : Forall entry_ok [3; -1; 2]%Z).
  { constructor; [left; reflexivity|].
    constructor; [right; reflexivity|].
    constructor; [left; reflexivity|]. constructor. }
  split; [exact H|].
  apply (multipartite_rate_spec [3; -1; 2]%Z 5 H). discriminate.
Defined.

(** C6 as stated fails for a negative [timesteps]: with one success at
    [t = 1] and one failure the denominator is [1 + 1 * (-1) = 0], and the
    division of a Python integer by a numpy zero is [inf], not an error. *)
Lemma multipartite_rate_zero_denominator_not_raised :
  Forall entry_ok [1; -1]%Z
  /\ denominator [1; -1]%Z (-1) = 0%Z
  /\ _multipartite_rate [1; -1]%Z (-1) = Ok Inf.
Proof.
  split; [|split; reflexivity].
  constructor; [left; reflexivity|].
  constructor; [right; reflexivity|]. constructor.
Qed.

(** ** The cooperative strategy records swap and fusion nodes *)

Lemma count_node_spec (K : LinkGraph) (n : node) (users : list node)
      (count_fusion : bool) :
  _count_node K n users count_fusion = true
  <-> (degree K n = 2 /\ (~ In n users \/ count_fusion = true))
      \/ (2 < degree K n /\ count_fusion = true).
Proof.
  unfold _count_node.
  destruct (degree K n =? 2) eqn:E2.
  - apply Nat.eqb_eq in E2. rewrite orb_true_iff, negb_true_iff.
    assert (Hm : mem n users = false <-> ~ In n users).
    { rewrite <- mem_In. destruct (mem n users); split; congruence. }
    rewrite Hm. split; [intros H; left; tauto|].
    intros [[_ H]|[H _]]; [exact H | lia].
  - apply Nat.eqb_neq in E2.
    destruct (2 <? degree K n) eqn:E3.
    + apply Nat.ltb_lt in E3. destruct count_fusion; simpl.
      * split; auto.
      * split; [discriminate|]. intros [[H _]|[_ H]]; [lia | discriminate].
    + apply Nat.ltb_ge in E3. simpl. split; [discriminate|].
      intros [[H _]|[H _]]; lia.
Qed.

(** C9.  When all users lie in the connected component [CC] of [users[0]]
    in the entangled subgraph, the cooperative strategy succeeds and
    appends one entry built from the Steiner tree [K] of [CC]: a node of
    [K] is in the entry's node list exactly when its degree in [K] is 2
    and it is not a user or [count_fusion] holds, or its degree exceeds 2
    and [count_fusion] holds (so never with a degree below 2); the entry's
    edge count is the number of edges of [K]. *)
Theorem CC_protocol_records_swaps_and_fusions :
  forall (steiner_tree : LinkGraph -> list node -> LinkGraph)
         (G : Topology) (H : LinkGraph) (u0 : node) (others : list node)
         (used_nodes : list UsedPath) (count_fusion : bool) (CC : list node),
    node_connected_component H u0 = Ok CC ->
    forallb (fun u => mem u CC) (u0 :: others) = true ->
    exists entry,
      _CC_protocol steiner_tree G H (u0 :: others) used_nodes count_fusion
      = (G, used_nodes ++ [entry], Ok true)
      /\ up_edge_count entry
         = Z.of_nat (number_of_edges (steiner_tree (subgraph H CC) (u0 :: others)))
      /\ forall n,
          In n (up_nodes entry)
          <-> In n (node_ids (steiner_tree (subgraph H CC) (u0 :: others)))
              /\ ((degree (steiner_tree (subgraph H CC) (u0 :: others)) n = 2
                   /\ (~ In n (u0 :: others) \/ count_fusion = true))
                  \/ (2 < degree (steiner_tree (subgraph H CC) (u0 :: others)) n
                      /\ count_fusion = true)).
Proof.
  intros st G H u0 others used cf CC HCC Hall.
  unfold _CC_protocol. rewrite HCC, Hall. cbn [negb].
  eexists. split; [reflexivity|]. split; [reflexivity|].
  intros n. cbn [up_nodes]. rewrite filter_In, count_node_spec. tauto.
Qed.

Lemma CC_protocol_records_swaps_and_fusions_witness :
  exists entry,
    _CC_protocol (fun H _ => H) (demo_pair true false 1%Q) demo_links [0; 2] []
                 false
    = (demo_pair true false 1%Q, [] ++ [entry], Ok true)
    /\ up_edge_count entry = 2%Z
    /\ (In 1 (up_nodes entry)).
Proof.
  destruct (CC_protocol_records_swaps_and_fusions
              (fun H _ => H) (demo_pair true false 1%Q) demo_links 0 [2] []
              false [2; 1; 0] eq_refl eq_refl) as [entry [H1 [H2 H3]]].
  exists entry. split; [exact H1|]. split; [exact H2|].
  apply H3. split.
  - right; left; reflexivity.
  - left. split; [reflexivity|]. left. simpl. intuition discriminate.
Defined.

(** ** The frame of [_create_bell_pair] *)

Lemma same_edge_on_attr {EA : Type} (u v : node) (f : EA -> EA) (e : Edge EA) :
  same_edge u v (on_attr f e) = same_edge u v e.
Proof. reflexivity. Qed.

Lemma on_hops_on_attr {EA : Type} hs (f : EA -> EA) (e : Edge EA) :
  on_hops hs (on_attr f e) = on_hops hs e.
Proof. reflexivity. Qed.

Lemma on_attr_consume_twice (e : Edge EdgeAttr) :
  on_attr consume (on_attr consume e) = on_attr consume e.
Proof. reflexivity. Qed.

Lemma filter_all {A : Type} (f : A -> bool) (l : list A) :
  (forall x, f x = true) -> filter f l = l.
Proof.
  intros Hf. induction l as [|x l IH]; simpl; [reflexivity|].
  rewrite Hf, IH. reflexivity.
Qed.

Lemma swap_along_effect hs :
  forall (G : Topology) (H : LinkGraph) G' H',
    swap_along hs G H = (G', H', None) ->
    G' = mkGraph (g_nodes G) (map (consumed hs) (g_edges G))
    /\ H' = mkGraph (g_nodes H) (filter (fun e => negb (on_hops hs e)) (g_edges H)).
Proof.
  induction hs as [|[u v] hs IH]; intros G H G' H' Hs; simpl in Hs.
  - injection Hs as <- <-. split.
    + destruct G as [ns es]; simpl. f_equal.
      rewrite <- (map_id es) at 1. reflexivity.
    + destruct H as [ns es]; simpl. f_equal.
      symmetry. apply filter_all. reflexivity.
  - unfold remove_edge in Hs. destruct (has_edge H u v); [|discriminate].
    destruct (find_edge G u v) as [a|]; [clear a|discriminate].
    apply IH in Hs. destruct Hs as [-> ->]. simpl. split; f_equal.
    + rewrite map_map. apply map_ext. intros x. unfold consumed. simpl.
      destruct (same_edge u v x) eqn:E; simpl.
      * rewrite on_hops_on_attr.
        destruct (on_hops hs x); [apply on_attr_consume_twice | reflexivity].
      * reflexivity.
    + induction (g_edges H) as [|x l IHl]; simpl; auto.
      destruct (same_edge u v x); simpl; [exact IHl|].
      destruct (on_hops hs x); simpl; congruence.
Qed.

Lemma has_edge_find_edge {NA EA : Type} (G : Graph NA EA) (u v : node) :
  has_edge G u v = true -> exists a, find_edge G u v = Some a.
Proof.
  unfold has_edge, find_edge. intros H. apply existsb_exists in H.
  destruct H as [e [Hin He]].
  destruct (find (same_edge u v) (g_edges G)) as [e'|] eqn:F; simpl; eauto.
  exfalso. eapply find_none in F; eauto. congruence.
Qed.

Lemma has_edge_set_edge {NA EA : Type} (G : Graph NA EA) (u v x y : node)
      (f : EA -> EA) :
  has_edge (set_edge G u v f) x y = has_edge G x y.
Proof.
  unfold has_edge, set_edge. simpl. induction (g_edges G) as [|e es IH]; simpl; auto.
  rewrite IH. f_equal. destruct (same_edge u v e); reflexivity.
Qed.

Lemma same_edge_iff {EA : Type} (u v : node) (e : Edge EA) :
  same_edge u v e = true <-> (eu e = u /\ ev e = v) \/ (eu e = v /\ ev e = u).
Proof.
  unfold same_edge.
  rewrite orb_true_iff, !andb_true_iff, !Nat.eqb_eq. reflexivity.
Qed.

Lemma same_edge_other {EA : Type} (u v x y : node) (e : Edge EA) :
  same_edge x y e = true ->
  ((x =? u) && (y =? v)) || ((x =? v) && (y =? u)) = false ->
  same_edge u v e = false.
Proof.
  intros H1 H2. apply same_edge_iff in H1.
  destruct (same_edge u v e) eqn:E; [|reflexivity].
  apply same_edge_iff in E. exfalso.
  apply orb_false_iff in H2. destruct H2 as [A B].
  apply andb_false_iff in A, B. rewrite !Nat.eqb_neq in A, B. lia.
Qed.

Lemma hops_available_after (hs : list (node * node)) :
  forall (G : Topology) (H H1 : LinkGraph) u v,
    existsb (fun h => ((fst h =? u) && (snd h =? v))
                      || ((fst h =? v) && (snd h =? u))) hs = false ->
    remove_edge H u v = Ok H1 ->
    hops_available hs G H ->
    hops_available hs (set_edge G u v consume) H1.
Proof.
  induction hs as [|[x y] hs IH]; intros G H H1 u v Hne Hrm Ha; simpl; auto.
  simpl in Hne, Ha. apply orb_false_iff in Hne. destruct Hne as [Hxy Hne].
  destruct Ha as [HH [HG [Hd Ha]]].
  repeat split; auto.
  - unfold remove_edge in Hrm. destruct (has_edge H u v); [|discriminate].
    injection Hrm as <-. unfold has_edge in *. simpl.
    apply existsb_exists in HH. destruct HH as [e [Hin He]].
    apply existsb_exists. exists e. split; [|exact He].
    apply filter_In. split; [exact Hin|].
    rewrite (same_edge_other u v x y e He Hxy). reflexivity.
  - rewrite has_edge_set_edge. exact HG.
  - eapply IH; eauto.
Qed.

Lemma swap_along_succeeds hs :
  forall (G : Topology) (H : LinkGraph),
    hops_available hs G H -> snd (swap_along hs G H) = None.
Proof.
  induction hs as [|[u v] hs IH]; intros G H Ha; simpl; auto.
  destruct Ha as [HH [HG [Hd Ha]]].
  destruct (remove_edge H u v) as [H1|x] eqn:R.
  - destruct (has_edge_find_edge G u v HG) as [a ->].
    apply IH. eapply hops_available_after; eauto.
  - unfold remove_edge in R. rewrite HH in R. discriminate.
Qed.

Lemma consumed_on_path hs (e : Edge EdgeAttr) :
  on_hops hs e = true ->
  eu (consumed hs e) = eu e /\ ev (consumed hs e) = ev e
  /\ e_entangled (eattr (consumed hs e)) = false
  /\ e_age (eattr (consumed hs e)) = 0%Z
  /\ e_length (eattr (consumed hs e)) = e_length (eattr e)
  /\ e_p_edge (eattr (consumed hs e)) = e_p_edge (eattr e)
  /\ e_Qc (eattr (consumed hs e)) = e_Qc (eattr e).
Proof. unfold consumed. intros ->. repeat split. Qed.

Lemma consumed_off_path hs (e : Edge EdgeAttr) :
  on_hops hs e = false -> consumed hs e = e.
Proof. unfold consumed. intros ->. reflexivity. Qed.

Lemma marked_other (d : node) (x : node * NodeAttr) :
  fst x <> d -> marked d x = x.
Proof.
  unfold marked. intros H. apply Nat.eqb_neq in H. rewrite H. reflexivity.
Qed.

Lemma marked_destination (d : node) (a : NodeAttr) :
  marked d (d, a)
  = (d, mkNodeAttr true 0%Z (n_Qc a) (n_usage_count a) (n_usage_fraction a)).
Proof. unfold marked. simpl. rewrite Nat.eqb_refl. reflexivity. Qed.

Lemma has_edge_filtered_out {NA EA : Type} (G : Graph NA EA) hs u v :
  In (u, v) hs ->
  has_edge (mkGraph (g_nodes G)
                    (filter (fun e => negb (on_hops hs e)) (g_edges G))) u v
  = false.
Proof.
  intros Hin. unfold has_edge. simpl.
  destruct (existsb _ _) eqn:E; [|reflexivity].
  apply existsb_exists in E. destruct E as [e [He Hs]].
  apply filter_In in He. destruct He as [_ Hn].
  apply negb_true_iff in Hn. unfold on_hops in Hn.
  assert (existsb (fun h => same_edge (fst h) (snd h) e) hs = true).
  { apply existsb_exists. exists (u, v). auto. }
  congruence.
Qed.

Lemma Forall2_map_graph {A : Type} (R : A -> A -> Prop) (f : A -> A)
      (l : list A) :
  (forall x, R x (f x)) -> Forall2 R l (map f l).
Proof. intros H. induction l; cbn [map]; constructor; auto. Qed.

Lemma consumed_after_swaps hs (e : Edge EdgeAttr) :
  edge_after_swaps hs e (consumed hs e).
Proof.
  unfold edge_after_swaps, consumed. destruct (on_hops hs e); reflexivity.
Qed.

Lemma marked_after_pair d (x : node * NodeAttr) :
  node_after_pair d x (marked d x).
Proof.
  unfold node_after_pair, marked. destruct (fst x =? d); reflexivity.
Qed.

(** C10.  When [_create_bell_pair] consumes a path without raising: every
    hop of the path is gone from the entangled subgraph [H]; in the
    topology [G], position by position, every edge on the path is left
    with [entangled = False] and [age = 0] and its ends, length, [p_edge]
    and [Qc] as they were, and every edge off the path is left as it was;
    every node but the destination [path[-1]] is left as it was, and the
    destination has [entangled = True] and [age = 0] and its [Qc] and
    usage counters as they were; one entry is appended to the used
    paths.  It does not raise when the hops are distinct links of [H]
    that are edges of [G] and the destination is a node of [G]. *)
Theorem create_bell_pair_frame :
  forall (G : Topology) (H : LinkGraph) (path : list node)
         (used_nodes : list UsedPath),
    (po_exn (_create_bell_pair G H path used_nodes) = None ->
     exists d,
       path_last path = Some d
       /\ (forall u v, In (u, v) (hops path) ->
             has_edge (po_links (_create_bell_pair G H path used_nodes)) u v = false)
       /\ Forall2 (edge_after_swaps (hops path)) (g_edges G)
                  (g_edges (po_graph (_create_bell_pair G H path used_nodes)))
       /\ Forall2 (node_after_pair d) (g_nodes G)
                  (g_nodes (po_graph (_create_bell_pair G H path used_nodes)))
       /\ g_nodes (po_links (_create_bell_pair G H path used_nodes)) = g_nodes H
       /\ po_used (_create_bell_pair G H path used_nodes)
          = used_nodes ++ [mkUsedPath (path_interior path)
                                      (Z.of_nat (length path) - 1)%Z
                                      (Some 0%Z) (Some d)])
    /\ (forall d, hops_available (hops path) G H ->
                  path_last path = Some d ->
                  has_node G d = true ->
                  po_exn (_create_bell_pair G H path used_nodes) = None).
Proof.
  intros G H path used. unfold _create_bell_pair. split.
  - destruct (swap_along (hops path) G H) as [[G1 H1] [x|]] eqn:S;
      [simpl; discriminate|].
    apply swap_along_effect in S. destruct S as [-> ->].
    destruct (path_last path) as [d|]; [|simpl; discriminate].
    destruct (has_node _ d); [|simpl; discriminate].
    intros _. exists d. cbn [po_graph po_links po_used set_node g_nodes g_edges].
    split; [reflexivity|]. split.
    { intros u v Hin. apply has_edge_filtered_out, Hin. }
    split; [apply Forall2_map_graph, consumed_after_swaps|].
    split; [apply Forall2_map_graph, marked_after_pair|].
    split; reflexivity.
  - intros d Ha Hd Hn.
    pose proof (swap_along_succeeds (hops path) G H Ha) as S.
    destruct (swap_along (hops path) G H) as [[G1 H1] err] eqn:E.
    simpl in S. subst err. rewrite Hd.
    apply swap_along_effect in E. destruct E as [-> ->].
    unfold has_node, node_ids in *. simpl. rewrite Hn. reflexivity.
Qed.

Lemma create_bell_pair_frame_witness :
  po_exn (_create_bell_pair demo_chain demo_links [0; 1; 2] []) = None
  /\ has_edge (po_links (_create_bell_pair demo_chain demo_links [0; 1; 2] []))
              0 1 = false
  /\ g_edges (po_graph (_create_bell_pair demo_chain demo_links [0; 1; 2] []))
     = [(0, 1, mkEdgeAttr 1%Q 1%Q 1%Q false 0%Z);
        (1, 2, mkEdgeAttr 1%Q 1%Q 1%Q false 0%Z)]
  /\ g_nodes (po_graph (_create_bell_pair demo_chain demo_links [0; 1; 2] []))
     = [(0, mkNodeAttr false 0%Z 1%Q 0%Z 0%Q);
        (1, mkNodeAttr false 0%Z 1%Q 0%Z 0%Q);
        (2, mkNodeAttr true 0%Z 1%Q 0%Z 0%Q)].
Proof.
  destruct (create_bell_pair_frame demo_chain demo_links [0; 1; 2] [])
    as [Heffect Hrun].
  assert (Hok : po_exn (_create_bell_pair demo_chain demo_links [0; 1; 2] [])
                = None).
  { apply (Hrun 2).
    - simpl. repeat split; reflexivity.
    - reflexivity.
    - reflexivity. }
  split; [exact Hok|].
  destruct (Heffect Hok) as [d [Hd [Hgone [Hedges [Hnodes _]]]]].
  split; [apply Hgone; left; reflexivity|].
  inversion Hd; subst d. split.
  - inversion Hedges as [|e0 e0' l0 l0' R0 T0 E0 E0']; subst.
    inversion T0 as [|e1 e1' l1 l1' R1 T1 E1 E1']; subst.
    inversion T1; subst. cbv in R0, R1. subst. reflexivity.
  - inversion Hnodes as [|x0 x0' l0 l0' R0 T0 E0 E0']; subst.
    inversion T0 as [|x1 x1' l1 l1' R1 T1 E1 E1']; subst.
    inversion T1 as [|x2 x2' l2 l2' R2 T2 E2 E2']; subst.
    inversion T2; subst. cbv in R0, R1, R2. subst. reflexivity.
Defined.

(** ** The runner and degenerate arguments *)

Lemma reset_graph_state_idem (G : Topology) :
  reset_graph_state (reset_graph_state G) = reset_graph_state G.
Proof.
  unfold reset_graph_state, map_nodes, map_edges. simpl.
  rewrite !map_map. reflexivity.
Qed.

(** Without timesteps a trial only resets the link state and records the
    sentinel. *)
Lemma trial_loop_no_timesteps (sp : Strategy) users timesteps nodes cf n :
  Z.to_nat timesteps = 0 ->
  forall G links times rng,
    trial_loop sp users timesteps nodes cf n G links times rng
    = (match n with O => G | S _ => reset_graph_state G end,
       rng, links, Ok (times ++ repeat (-1)%Z n)).
Proof.
  intros Hts. induction n as [|n IH]; intros G links times rng; simpl.
  - rewrite app_nil_r. reflexivity.
  - rewrite Hts. simpl. rewrite IH. rewrite <- app_assoc. simpl.
    destruct n; [reflexivity|]. rewrite reset_graph_state_idem. reflexivity.
Qed.

Lemma filter_sentinels (n : nat) :
  filter (fun t => negb (t =? -1)%Z) (repeat (-1)%Z n) = [].
Proof. induction n as [|n IH]; simpl; auto. Qed.

Lemma rate_all_failed (n : nat) (timesteps : Z) :
  _multipartite_rate (repeat (-1)%Z n) timesteps
  = if (Z.of_nat n * timesteps =? 0)%Z then Raise ZeroDivisionError
    else Ok (Finite (0 / inject_Z (Z.of_nat n * timesteps))%Q).
Proof.
  unfold _multipartite_rate. rewrite filter_sentinels, repeat_length. simpl.
  rewrite Z.sub_0_r. reflexivity.
Qed.

(** C4 (amended).  The runner does not validate its arguments; what a
    degenerate call does follows from the code it runs into.  For any
    users, strategy and flags: with [reps < 0] it raises [ValueError] and
    with [reps = 0] it raises [ZeroDivisionError], in both cases without
    running a trial and with only the usage counters reset; with
    [reps > 0] and [timesteps <= 0] it runs no timestep, resets the link
    state, and then raises [ZeroDivisionError] when [timesteps = 0] and
    returns rate 0, all times [-1] and 0 links used when
    [timesteps < 0]. *)
Theorem run_protocol_degenerate_arguments :
  forall (G : Topology) (users : list node) (timesteps reps : Z)
         (success_protocol : Strategy) (nodes count_fusion : bool)
         (rng : RandomSource),
    ((reps < 0)%Z ->
     _run_protocol G users timesteps reps success_protocol nodes count_fusion rng
     = mkRunOut (reset_graph_usage G) rng (Raise ValueError))
    /\ (reps = 0%Z ->
        _run_protocol G users timesteps reps success_protocol nodes count_fusion rng
        = mkRunOut (reset_graph_usage G) rng (Raise ZeroDivisionError))
    /\ ((0 < reps)%Z -> timesteps = 0%Z ->
        _run_protocol G users timesteps reps success_protocol nodes count_fusion rng
        = mkRunOut (reset_graph_state (reset_graph_usage G)) rng
                   (Raise ZeroDivisionError))
    /\ ((0 < reps)%Z -> (timesteps < 0)%Z ->
        exists rate avg,
          _run_protocol G users timesteps reps success_protocol nodes count_fusion rng
          = mkRunOut (fst (update_graph_usage
                             (reset_graph_state (reset_graph_usage G)) reps))
                     rng
                     (Ok (Finite rate, repeat (-1)%Z (Z.to_nat reps), avg))
          /\ (rate == 0)%Q /\ (avg == 0)%Q).
Proof.
  intros G users timesteps reps sp nodes cf rng. unfold _run_protocol.
  split; [|split; [|split]].
  - intros H. apply Z.ltb_lt in H. rewrite H. reflexivity.
  - intros ->. reflexivity.
  - intros Hr ->.
    assert (Hlt : (reps <? 0)%Z = false) by (apply Z.ltb_ge; lia). rewrite Hlt.
    rewrite trial_loop_no_timesteps by reflexivity.
    destruct (Z.to_nat reps) as [|n] eqn:E; [lia|].
    cbn [app]. rewrite rate_all_failed, Z.mul_0_r. reflexivity.
  - intros Hr Hts.
    assert (Hlt : (reps <? 0)%Z = false) by (apply Z.ltb_ge; lia). rewrite Hlt.
    rewrite trial_loop_no_timesteps by lia.
    destruct (Z.to_nat reps) as [|n] eqn:E; [lia|].
    cbn [app]. rewrite rate_all_failed.
    assert (Hz : (Z.of_nat (S n) * timesteps =? 0)%Z = false)
      by (apply Z.eqb_neq; nia).
    rewrite Hz.
    assert (Hr0 : (reps =? 0)%Z = false) by (apply Z.eqb_neq; lia).
    unfold update_graph_usage. destruct (g_nodes _) eqn:N; rewrite Hr0.
    + do 2 eexists. split; [reflexivity|]. split.
      * unfold Qdiv. apply Qmult_0_l.
      * unfold Qdiv. apply Qmult_0_l.
    + do 2 eexists. split; [reflexivity|]. split.
      * unfold Qdiv. apply Qmult_0_l.
      * unfold Qdiv. apply Qmult_0_l.
Qed.

Lemma run_protocol_degenerate_arguments_witness :
  _run_protocol (demo_pair false false 1%Q) [0; 1] 0 2 _SD_protocol true false half
  = mkRunOut (reset_graph_state (reset_graph_usage (demo_pair false false 1%Q)))
             half (Raise ZeroDivisionError).
Proof.
  apply (run_protocol_degenerate_arguments
           (demo_pair false false 1%Q) [0; 1] 0 2 _SD_protocol true false half).
  - reflexivity.
  - reflexivity.
Defined.

(** C4 as stated fails: a call with a single user, or with the same user
    twice, is not rejected.  The shortest-path strategy then has no
    destination to reach, or reaches it by the empty path, succeeds at the
    first timestep, and the run returns rate 1. *)
Lemma run_protocol_accepts_single_user :
  ro_result (_run_protocol (demo_pair false false 1%Q) [0] 1 1
                           _SD_protocol true false half)
  = Ok (Finite 1%Q, [1%Z], 0%Q)
  /\ ro_result (_run_protocol (demo_pair false false 1%Q) [0; 0] 1 1
                              _SD_protocol true false half)
     = Ok (Finite 1%Q, [1%Z], 0%Q).
Proof. split; reflexivity. Qed.

(** ** Breadth-first search finds a path with the fewest edges *)

Lemma neighbors_has_edge {NA EA : Type} (G : Graph NA EA) (u v : node) :
  In v (neighbors G u) <-> has_edge G u v = true.
Proof.
  unfold neighbors, has_edge. rewrite in_map_iff, existsb_exists.
  split.
  - intros [e [Hv He]]. apply filter_In in He. destruct He as [Hin Hi].
    exists e. split; [exact Hin|]. apply same_edge_iff.
    unfold incident in Hi. unfold other_end in Hv.
    apply orb_true_iff in Hi. rewrite !Nat.eqb_eq in Hi.
    destruct (Nat.eqb_spec (eu e) u); lia.
  - intros [e [Hin He]]. apply same_edge_iff in He.
    exists e. split.
    + unfold other_end. destruct (Nat.eqb_spec (eu e) u); lia.
    + apply filter_In. split; [exact Hin|].
      unfold incident. apply orb_true_iff. rewrite !Nat.eqb_eq. lia.
Qed.

Lemma hops_snoc (p : list node) (v w : node) :
  hops (p ++ [v; w]) = hops (p ++ [v]) ++ [(v, w)].
Proof.
  induction p as [|x p IH]; [reflexivity|].
  destruct p as [|y p]; [reflexivity|].
  change (hops ((x :: y :: p) ++ [v; w])) with ((x, y) :: hops ((y :: p) ++ [v; w])).
  change (hops ((x :: y :: p) ++ [v])) with ((x, y) :: hops ((y :: p) ++ [v])).
  rewrite IH. reflexivity.
Qed.

Lemma path_last_snoc (p : list node) (v : node) : path_last (p ++ [v]) = Some v.
Proof.
  destruct p as [|x p]; [reflexivity|]. simpl. f_equal. apply last_last.
Qed.

Lemma hd_error_snoc (p : list node) (v : node) :
  p <> [] -> hd_error (p ++ [v]) = hd_error p.
Proof. destruct p; [congruence | reflexivity]. Qed.

Section BreadthFirst.
Context {NA EA : Type}.
Variable G : Graph NA EA.
Variables s t : node.

Lemma reach_zero : reach G s 0 s.
Proof.
  exists [s]. repeat split. constructor.
Qed.

Lemma reach_step k v w :
  reach G s k v -> has_edge G v w = true -> reach G s (S k) w.
Proof.
  intros [p [[Hhd [Hl Hw]] Hk]] He.
  destruct p as [|x p]; [discriminate|].
  assert (Hsplit : exists q, x :: p = q ++ [v]).
  { exists (removelast (x :: p)).
    rewrite (app_removelast_last x) at 1 by discriminate.
    f_equal. f_equal. simpl in Hl. injection Hl as Hl.
    destruct p as [|y p]; [simpl in *; congruence|].
    simpl in Hl. simpl. exact Hl. }
  destruct Hsplit as [q Hq].
  exists (q ++ [v; w]). unfold path_between, walk, hop_count in *.
  rewrite Hq in *. rewrite hops_snoc.
  repeat split.
  - destruct q as [|y q]; [simpl in *; congruence | exact Hhd].
  - change (q ++ [v; w]) with (q ++ [v] ++ [w]). rewrite app_assoc.
    apply path_last_snoc.
  - apply Forall_app. split; [exact Hw|]. constructor; [exact He | constructor].
  - rewrite length_app. simpl. lia.
Qed.

Lemma reach_inv k w :
  reach G s (S k) w -> exists v, reach G s k v /\ has_edge G v w = true.
Proof.
  intros [p [[Hhd [Hl Hw]] Hk]].
  destruct (rev p) as [|w' rp] eqn:Erev.
  { apply (f_equal (@rev node)) in Erev. rewrite rev_involutive in Erev.
    subst. discriminate. }
  assert (Hp : p = rev rp ++ [w']).
  { rewrite <- (rev_involutive p), Erev. reflexivity. }
  subst p. rewrite path_last_snoc in Hl. injection Hl as ->.
  destruct rp as [|v rp].
  { simpl in Hk. unfold hop_count in Hk. simpl in Hk. discriminate. }
  simpl in *. rewrite <- app_assoc in *. simpl in *.
  unfold walk, hop_count in *. rewrite hops_snoc in *.
  apply Forall_app in Hw. destruct Hw as [Hw1 Hw2].
  inversion Hw2; subst. simpl in *.
  exists v. split; [|assumption].
  exists (rev rp ++ [v]). unfold path_between, walk, hop_count.
  repeat split.
  - destruct (rev rp); [simpl in *; congruence | exact Hhd].
  - apply path_last_snoc.
  - exact Hw1.
  - rewrite length_app in Hk. simpl in Hk. lia.
Qed.

(** One node's neighbours: what [visit] adds. *)
Lemma visit_spec (p : rpath) (nbrs : list node) :
  forall visited fr vis,
    visit p nbrs visited = (fr, vis) ->
    incl visited vis
    /\ (forall p', In p' fr ->
                   snd p' = fst p :: snd p /\ In (fst p') nbrs
                   /\ ~ In (fst p') visited)
    /\ (forall w, In w nbrs -> In w vis)
    /\ (forall w, In w vis -> In w visited \/ (In w nbrs /\ In w (map fst fr)))
    /\ (NoDup visited -> NoDup vis)
    /\ length vis = length visited + length fr.
Proof.
  induction nbrs as [|w nbrs IH]; intros visited fr vis Hv; simpl in Hv.
  - injection Hv as <- <-. split_ands; auto using incl_refl.
    + intros p' [].
    + intros w [].
  - destruct (mem w visited) eqn:M.
    + apply mem_In in M.
      destruct (IH _ _ _ Hv) as [H1 [H2 [H3 [H4 [H5 H6]]]]].
      split_ands; auto.
      * intros p' Hp'. destruct (H2 p' Hp') as [A [B C]]. simpl. auto.
      * intros x [<-|Hx]; auto.
      * intros x Hx. destruct (H4 x Hx) as [A|[A B]]; simpl; auto.
    + assert (Hn : ~ In w visited).
      { intros Hin. apply mem_In in Hin. congruence. }
      destruct (visit p nbrs (w :: visited)) as [fr' vis'] eqn:V.
      injection Hv as <- <-.
      destruct (IH _ _ _ V) as [H1 [H2 [H3 [H4 [H5 H6]]]]].
      split_ands.
      * intros x Hx. apply H1. right. exact Hx.
      * intros p' [<-|Hp']; [simpl; auto|].
        destruct (H2 p' Hp') as [A [B C]]. simpl. split_ands; auto.
        intros Hc. apply C. right. exact Hc.
      * intros x [<-|Hx]; [apply H1; left; reflexivity | auto].
      * intros x Hx. destruct (H4 x Hx) as [[<-|A]|[A B]]; simpl; auto.
      * intros Hnd. apply H5. constructor; assumption.
      * simpl in *. lia.
Qed.

(** One level: what [expand] adds. *)
Lemma expand_spec (frontier : list rpath) :
  forall visited next vis,
    expand G frontier visited = (next, vis) ->
    incl visited vis
    /\ (forall p', In p' next ->
                   exists p, In p frontier /\ snd p' = fst p :: snd p
                             /\ has_edge G (fst p) (fst p') = true
                             /\ ~ In (fst p') visited)
    /\ (forall p w, In p frontier -> has_edge G (fst p) w = true -> In w vis)
    /\ (forall w, In w vis ->
                  In w visited
                  \/ (In w (map fst next)
                      /\ exists u, has_edge G u w = true))
    /\ (NoDup visited -> NoDup vis)
    /\ length vis = length visited + length next.
Proof.
  induction frontier as [|p frontier IH]; intros visited next vis He; simpl in He.
  - injection He as <- <-. split_ands; auto using incl_refl.
    + intros p' [].
    + intros p w [].
  - destruct (visit p (neighbors G (fst p)) visited) as [fr1 vis1] eqn:V.
    destruct (expand G frontier vis1) as [fr2 vis2] eqn:E.
    injection He as <- <-.
    destruct (visit_spec _ _ _ _ _ V) as [V1 [V2 [V3 [V4 [V5 V6]]]]].
    destruct (IH _ _ _ E) as [H1 [H2 [H3 [H4 [H5 H6]]]]].
    split_ands.
    + intros x Hx. auto.
    + intros p' Hp'. apply in_app_iff in Hp'. destruct Hp' as [Hp'|Hp'].
      * destruct (V2 p' Hp') as [A [B C]]. exists p.
        split_ands; simpl; auto. apply neighbors_has_edge. exact B.
      * destruct (H2 p' Hp') as [q [A [B [C D]]]]. exists q.
        split_ands; simpl; auto.
    + intros q w [<-|Hq] Hw.
      * apply H1, V3. apply neighbors_has_edge. exact Hw.
      * eapply H3; eauto.
    + intros w Hw. rewrite map_app. destruct (H4 w Hw) as [A|[A B]].
      * destruct (V4 w A) as [C|[C D]]; auto.
        right. split; [apply in_app_iff; auto|].
        exists (fst p). apply neighbors_has_edge. exact C.
      * right. split; [apply in_app_iff; auto | exact B].
    + auto.
    + rewrite length_app. lia.
Qed.

Lemma bfs_inv_start : bfs_inv G s t 0 [(s, [])] [s].
Proof.
  constructor.
  - intros p [<-|[]]. repeat split. constructor.
  - intros v [p [[Hhd [Hl Hw]] Hk]].
    destruct p as [|x [|y p]]; try discriminate.
    simpl in *. left. congruence.
  - intros v [<-|[]]. left. left. reflexivity.
  - intros [<-|[]]. left. reflexivity.
  - intros j Hj. lia.
Qed.

Lemma rpath_extend (p : rpath) (w : node) k :
  path_between G s (fst p) (rpath_nodes p) ->
  hop_count (rpath_nodes p) = k ->
  has_edge G (fst p) w = true ->
  path_between G s w (rpath_nodes (w, fst p :: snd p))
  /\ hop_count (rpath_nodes (w, fst p :: snd p)) = S k.
Proof.
  intros [Hhd [Hl Hw]] Hk He. unfold rpath_nodes in *. simpl in *.
  rewrite <- app_assoc. simpl.
  unfold path_between, walk, hop_count in *. rewrite hops_snoc.
  repeat split.
  - destruct (rev (snd p)); exact Hhd.
  - change (rev (snd p) ++ [fst p; w]) with (rev (snd p) ++ [fst p] ++ [w]).
    rewrite app_assoc. apply path_last_snoc.
  - apply Forall_app. split; [exact Hw|]. constructor; [exact He|constructor].
  - rewrite length_app. simpl. lia.
Qed.

Lemma bfs_inv_step k frontier visited next vis :
  bfs_inv G s t k frontier visited ->
  find (fun p => fst p =? t) frontier = None ->
  expand G frontier visited = (next, vis) ->
  bfs_inv G s t (S k) next vis.
Proof.
  intros [Ip Il Ic It In'] Hfind He.
  destruct (expand_spec _ _ _ _ He) as [E1 [E2 [E3 [E4 _]]]].
  assert (Hnot : ~ In t (map fst frontier)).
  { intros Hin. apply in_map_iff in Hin. destruct Hin as [p [Hp Hin]].
    eapply find_none in Hfind; eauto. simpl in Hfind.
    apply Nat.eqb_neq in Hfind. contradiction. }
  constructor.
  - intros p' Hp'. destruct (E2 p' Hp') as [p [Hp [Hs [Hedge _]]]].
    destruct (Ip p Hp) as [Hpb Hk]. destruct p' as [w tl]. simpl in *. subst tl.
    apply rpath_extend; assumption.
  - intros w Hr. apply reach_inv in Hr. destruct Hr as [v [Hv Hvw]].
    pose proof (Il v Hv) as Hin. destruct (Ic v Hin) as [Hf|Hcl].
    + apply in_map_iff in Hf. destruct Hf as [p [<- Hp]]. eapply E3; eauto.
    + apply E1. auto.
  - intros v Hv. destruct (E4 v Hv) as [Hold|[Hnew _]]; [|left; exact Hnew].
    right. intros w Hw. destruct (Ic v Hold) as [Hf|Hcl].
    + apply in_map_iff in Hf. destruct Hf as [p [<- Hp]]. eapply E3; eauto.
    + apply E1. auto.
  - intros Hin. destruct (E4 t Hin) as [Hold|[Hnew _]]; [|exact Hnew].
    exfalso. apply Hnot. apply It. exact Hold.
  - intros j Hj Hr. assert (j < k \/ j = k) as [Hlt| ->] by lia.
    + apply (In' j Hlt Hr).
    + apply Hnot. apply It. apply Il. exact Hr.
Qed.

(** Soundness and minimality of the search. *)
Lemma bfs_shortest fuel :
  forall k frontier visited p,
    bfs_inv G s t k frontier visited ->
    bfs G t fuel frontier visited = Some p ->
    path_between G s t p
    /\ forall q, path_between G s t q -> hop_count p <= hop_count q.
Proof.
  induction fuel as [|fuel IH]; intros k frontier visited p Hinv Hb;
    simpl in Hb; [discriminate|].
  destruct (find (fun p => fst p =? t) frontier) as [p0|] eqn:F.
  - injection Hb as <-. apply find_some in F. destruct F as [Hin Ht].
    apply Nat.eqb_eq in Ht. destruct (inv_paths G s t _ _ _ Hinv p0 Hin) as [Hpb Hk].
    split; [rewrite <- Ht; exact Hpb|].
    intros q Hq. rewrite Hk.
    destruct (le_lt_dec k (hop_count q)) as [|Hlt]; [assumption|].
    exfalso. apply (inv_nearer G s t _ _ _ Hinv (hop_count q) Hlt).
    exists q. auto.
  - destruct frontier as [|p0 frontier]; [discriminate|].
    destruct (expand G (p0 :: frontier) visited) as [next vis] eqn:E.
    eapply IH; [|exact Hb]. eapply bfs_inv_step; eauto.
Qed.

Lemma has_edge_in_universe (u w : node) :
  has_edge G u w = true -> In w (universe G s).
Proof.
  unfold has_edge. intros H. apply existsb_exists in H.
  destruct H as [e [Hin He]]. apply same_edge_iff in He.
  right. apply in_flat_map. exists e. split; [exact Hin|]. simpl. lia.
Qed.

Lemma universe_length : length (universe G s) = S (2 * length (g_edges G)).
Proof.
  unfold universe. simpl. f_equal.
  induction (g_edges G) as [|e es IH]; simpl; [reflexivity|]. lia.
Qed.

Lemma closed_reach k visited :
  bfs_inv G s t k [] visited -> In s visited -> forall j v, reach G s j v -> In v visited.
Proof.
  intros Hinv Hs. induction j as [|j IH]; intros v Hr.
  - destruct Hr as [p [[Hhd [Hl Hw]] Hk]].
    destruct p as [|x [|y p]]; try discriminate.
    simpl in *. congruence.
  - apply reach_inv in Hr. destruct Hr as [u [Hu Huv]].
    destruct (inv_closed G s t _ _ _ Hinv u (IH u Hu)) as [[]|Hcl]. auto.
Qed.

Lemma bfs_complete fuel :
  forall k frontier visited j,
    bfs_inv G s t k frontier visited ->
    bfs_bound G s fuel frontier visited ->
    reach G s j t ->
    exists p, bfs G t fuel frontier visited = Some p.
Proof.
  induction fuel as [|fuel IH]; intros k frontier visited j Hinv Hb Hr.
  - exfalso. destruct Hb as [_ Hnd Hincl Hf].
    pose proof (NoDup_incl_length Hnd Hincl). lia.
  - simpl. destruct (find (fun p => fst p =? t) frontier) as [p0|] eqn:F; [eauto|].
    destruct frontier as [|p0 frontier].
    + exfalso.
      pose proof (closed_reach k visited Hinv (bound_source G s _ _ _ Hb) j t Hr) as Ht.
      apply (inv_target G s t _ _ _ Hinv) in Ht. exact Ht.
    + destruct (expand G (p0 :: frontier) visited) as [next vis] eqn:E.
      destruct (expand_spec _ _ _ _ E) as [E1 [_ [_ [E4 [E5 E6]]]]].
      destruct Hb as [Hs Hnd Hincl Hf].
      apply (IH (S k) next vis j); [eapply bfs_inv_step; eauto| |exact Hr].
      constructor.
      * apply E1, Hs.
      * apply E5, Hnd.
      * intros w Hw. destruct (E4 w Hw) as [Hold|[_ [u Hu]]]; auto.
        eapply has_edge_in_universe; eauto.
      * change (length (p0 :: frontier)) with (S (length frontier)) in Hf. lia.
Qed.

Lemma shortest_path_found (q : list node) :
  has_node G s = true -> has_node G t = true ->
  path_between G s t q ->
  exists p, shortest_path G s t = Ok p
            /\ path_between G s t p
            /\ hop_count p <= hop_count q.
Proof.
  intros Hs Ht Hq. unfold shortest_path. rewrite Hs, Ht. simpl.
  destruct (bfs_complete (bfs_fuel G) 0 [(s, [])] [s] (hop_count q))
    as [p Hp].
  - apply bfs_inv_start.
  - constructor.
    + left; reflexivity.
    + constructor; [intros []|constructor].
    + intros x [<-|[]]. left. reflexivity.
    + rewrite universe_length. unfold bfs_fuel. simpl. lia.
  - exists q. auto.
  - rewrite Hp. exists p. split; [reflexivity|].
    destruct (bfs_shortest _ _ _ _ _ bfs_inv_start Hp) as [H1 H2]. auto.
Qed.

End BreadthFirst.

(** The search never reads an edge attribute. *)
Lemma neighbors_map_edges {NA EA EB : Type} (f : EA -> EB) (G : Graph NA EA) u :
  neighbors (map_edges f G) u = neighbors G u.
Proof.
  unfold neighbors, map_edges. simpl.
  induction (g_edges G) as [|e es IH]; simpl; [reflexivity|].
  unfold incident at 1. cbn [eu ev fst snd].
  fold (eu e) (ev e). fold (incident u e).
  destruct (incident u e); simpl; [f_equal|]; exact IH.
Qed.

Lemma expand_map_edges {NA EA EB : Type} (f : EA -> EB) (G : Graph NA EA) frontier :
  forall visited,
    expand (map_edges f G) frontier visited = expand G frontier visited.
Proof.
  induction frontier as [|p frontier IH]; intros visited; simpl; [reflexivity|].
  rewrite neighbors_map_edges.
  destruct (visit p (neighbors G (fst p)) visited) as [fr1 vis1].
  rewrite IH. reflexivity.
Qed.

Lemma bfs_map_edges {NA EA EB : Type} (f : EA -> EB) (G : Graph NA EA) t fuel :
  forall frontier visited,
    bfs (map_edges f G) t fuel frontier visited = bfs G t fuel frontier visited.
Proof.
  induction fuel as [|fuel IH]; intros frontier visited; simpl; [reflexivity|].
  match goal with
  | |- context [find ?g frontier] => destruct (find g frontier)
  end; [reflexivity|].
  destruct frontier as [|p0 frontier]; [reflexivity|].
  rewrite expand_map_edges.
  destruct (expand G (p0 :: frontier) visited). apply IH.
Qed.

Lemma shortest_path_map_edges {NA EA EB : Type} (f : EA -> EB) (G : Graph NA EA) s t :
  shortest_path (map_edges f G) s t = shortest_path G s t.
Proof.
  unfold shortest_path, has_node, node_ids, bfs_fuel.
  rewrite bfs_map_edges. simpl. rewrite length_map. reflexivity.
Qed.

(** C3 (amended).  The shortest-path query used by the routing strategies
    and by the star builder carries no weight: whenever some path joins
    two nodes of the graph, the query returns a path between them with the
    fewest edges, and returns that same path however the edge attributes,
    lengths included, are changed. *)
Theorem shortest_path_fewest_edges :
  forall (NA : Type) (G : Graph NA EdgeAttr) (s t : node) (q : list node),
    has_node G s = true ->
    has_node G t = true ->
    path_between G s t q ->
    exists p,
      shortest_path G s t = Ok p
      /\ path_between G s t p
      /\ hop_count p <= hop_count q
      /\ forall f : EdgeAttr -> EdgeAttr,
          shortest_path (map_edges f G) s t = Ok p.
Proof.
  intros NA G s t q Hs Ht Hq.
  destruct (shortest_path_found G s t q Hs Ht Hq) as [p [Hp [Hpb Hle]]].
  exists p. split_ands; auto.
  intros f. rewrite shortest_path_map_edges. exact Hp.
Qed.

Lemma demo_detour :
  path_between (get_entangled_subgraph demo_triangle) 0 1 [0; 2; 1].
Proof.
  split; [reflexivity|]. split; [reflexivity|].
  constructor; [reflexivity|]. constructor; [reflexivity|]. constructor.
Defined.

Lemma shortest_path_fewest_edges_witness :
  exists p,
    shortest_path (get_entangled_subgraph demo_triangle) 0 1 = Ok p
    /\ hop_count p <= 2.
Proof.
  destruct (shortest_path_fewest_edges unit (get_entangled_subgraph demo_triangle)
              0 1 [0; 2; 1] eq_refl eq_refl demo_detour)
    as [p [Hp [_ [Hle _]]]].
  exists p. split; [exact Hp | exact Hle].
Defined.

(** C3 as stated fails: between 0 and 1 the query returns the direct link
    of length 10 although the detour through 2 has total length 2; the
    shortest-path strategy consumes that one link, and the star builder
    keeps it as the star. *)
Lemma shortest_path_ignores_length :
  shortest_path (get_entangled_subgraph demo_triangle) 0 1 = Ok [0; 1]
  /\ path_between (get_entangled_subgraph demo_triangle) 0 1 [0; 2; 1]
  /\ Qlt (path_length (get_entangled_subgraph demo_triangle) [0; 2; 1])
         (path_length (get_entangled_subgraph demo_triangle) [0; 1])
  /\ snd (fst (_SD_protocol demo_triangle (get_entangled_subgraph demo_triangle)
                            [0; 1] [] false))
     = [mkUsedPath [] 1%Z (Some 0%Z) (Some 1)]
  /\ _get_star demo_triangle [0; 1]
     = Ok (mkGraph (g_nodes demo_triangle)
                   [(0, 1, mkEdgeAttr 10%Q 1%Q 1%Q true 0%Z)]).
Proof.
  split; [reflexivity|]. split; [exact demo_detour|].
  split; [reflexivity|]. split; reflexivity.
Qed.

(** ** Scenario A: two nodes and one link that never fails *)

Lemma two_nodes_edge_view n1 n2 u v a1 a2 ea :
  joins n1 n2 u v ->
  edge_view (two_nodes n1 n2 u v a1 a2 ea) = [(0, (n1, n2, ea))].
Proof.
  intros Hj. by_orientation Hj; unfold edge_view, two_nodes; graph_simpl;
    reflexivity.
Qed.

Lemma two_nodes_step n1 n2 u v uc1 uf1 uc2 uf2 l nodes (rng : RandomSource) :
  joins n1 n2 u v ->
  Qlt (rng 0) 1 ->
  run_entanglement_step
    (two_nodes n1 n2 u v (idle_node uc1 uf1) (idle_node uc2 uf2) (unit_edge l false))
    [] nodes rng
  = mkStepOut
      (two_nodes n1 n2 u v (idle_node uc1 uf1) (idle_node uc2 uf2) (unit_edge l true))
      [] None (fun i => rng (S i)).
Proof.
  intros Hj Hr. unfold run_entanglement_step, edge_order.
  rewrite (two_nodes_edge_view _ _ _ _ _ _ _ Hj).
  apply Qgt_bool_iff in Hr.
  cbn. unfold on_attr, edge_update, edge_generate, edge_decohere, unit_edge.
  cbn. rewrite Hr. destruct nodes; reflexivity.
Qed.

Lemma two_nodes_links n1 n2 u v a1 a2 l :
  joins n1 n2 u v ->
  get_entangled_subgraph (two_nodes n1 n2 u v a1 a2 (unit_edge l true))
  = mkGraph [(n1, tt); (n2, tt)] [(n1, n2, unit_edge l true)].
Proof.
  intros Hj. unfold get_entangled_subgraph, edges.
  rewrite (two_nodes_edge_view _ _ _ _ _ _ _ Hj). reflexivity.
Qed.

Lemma two_nodes_shortest_path {NA EA : Type} n1 n2 u v s d (a1 a2 : NA) (ea : EA) :
  joins n1 n2 u v -> joins n1 n2 s d ->
  shortest_path (mkGraph [(n1, a1); (n2, a2)] [(u, v, ea)]) s d = Ok [s; d].
Proof.
  intros Hj Hs. by_orientation Hj; destruct Hs as [_ [[-> ->]|[-> ->]]];
    unfold shortest_path, neighbors; graph_simpl; reflexivity.
Qed.

Lemma two_nodes_SD n1 n2 u v s d uc1 uf1 uc2 uf2 l cf :
  joins n1 n2 u v -> joins n1 n2 s d ->
  _SD_protocol
    (two_nodes n1 n2 u v (idle_node uc1 uf1) (idle_node uc2 uf2) (unit_edge l true))
    (mkGraph [(n1, tt); (n2, tt)] [(n1, n2, unit_edge l true)])
    [s; d] [] cf
  = (set_node (two_nodes n1 n2 u v (idle_node uc1 uf1) (idle_node uc2 uf2)
                         (unit_edge l false)) d mark_entangled,
     [bell_entry d], Ok true).
Proof.
  intros Hj Hs. unfold _SD_protocol, sd_loop.
  assert (Hl : exists a,
             lookup_node [(n1, idle_node uc1 uf1); (n2, idle_node uc2 uf2)] d
             = Some a /\ n_entangled a = false).
  { destruct Hs as [Hne [[-> ->]|[-> ->]]]; unfold lookup_node; cbn;
      eqb_simpl; cbn; eauto. }
  destruct Hl as [a [Hl Ha]].
  cbn [two_nodes g_nodes]. rewrite Hl, Ha.
  assert (Hn : joins n1 n2 n1 n2) by (destruct Hj; split; auto).
  unfold has_path. rewrite (two_nodes_shortest_path _ _ _ _ _ _ _ _ _ Hn Hs).
  by_orientation Hj; destruct Hs as [_ [[-> ->]|[-> ->]]];
    unfold _create_bell_pair, two_nodes; graph_simpl; reflexivity.
Qed.

Lemma two_nodes_reset_after n1 n2 u v d uc1 uf1 uc2 uf2 l :
  reset_graph_state
    (set_node (two_nodes n1 n2 u v (idle_node uc1 uf1) (idle_node uc2 uf2)
                         (unit_edge l false)) d mark_entangled)
  = two_nodes n1 n2 u v (idle_node uc1 uf1) (idle_node uc2 uf2) (unit_edge l false).
Proof.
  unfold reset_graph_state, set_node, two_nodes, map_nodes, map_edges. cbn.
  destruct (n1 =? d), (n2 =? d); reflexivity.
Qed.

Lemma two_nodes_reset_linked n1 n2 u v uc1 uf1 uc2 uf2 l :
  reset_graph_state
    (two_nodes n1 n2 u v (idle_node uc1 uf1) (idle_node uc2 uf2) (unit_edge l true))
  = two_nodes n1 n2 u v (idle_node uc1 uf1) (idle_node uc2 uf2) (unit_edge l false).
Proof. reflexivity. Qed.

(** One trial of the shortest-path strategies succeeds at [t = 1] with one
    link used. *)
Lemma two_nodes_trial_SD n1 n2 u v s d uc1 uf1 uc2 uf2 l cf n links
      (rng : RandomSource) :
  joins n1 n2 u v -> joins n1 n2 s d -> Qlt (rng 0) 1 ->
  timestep_loop _SD_protocol [s; d] true cf (S n) 0%Z
    (two_nodes n1 n2 u v (idle_node uc1 uf1) (idle_node uc2 uf2) (unit_edge l false))
    [] links rng
  = mkTrialOut
      (set_node (two_nodes n1 n2 u v (idle_node uc1 uf1) (idle_node uc2 uf2)
                           (unit_edge l false)) d mark_entangled)
      (fun i => rng (S i)) (links + 1)%Z (Ok 1%Z).
Proof.
  intros Hj Hs Hr. cbn [timestep_loop].
  rewrite (two_nodes_step _ _ _ _ _ _ _ _ _ true rng Hj Hr).
  cbn [so_exn so_graph so_used so_rng].
  rewrite (two_nodes_links _ _ _ _ _ _ _ Hj).
  rewrite (two_nodes_SD _ _ _ _ _ _ _ _ _ _ _ cf Hj Hs).
  reflexivity.
Qed.

Lemma in_unit_interval_shift (rng : RandomSource) :
  in_unit_interval rng -> in_unit_interval (fun i => rng (S i)).
Proof. intros H i. apply H. Qed.

Lemma reset_graph_state_node_ids (G : Topology) :
  node_ids (reset_graph_state G) = node_ids G.
Proof.
  unfold node_ids, reset_graph_state, map_nodes. simpl.
  rewrite map_map. reflexivity.
Qed.

Lemma trials_win_at_once (sp : Strategy) users nodes cf G0 timesteps n :
  wins_at_once sp users nodes cf G0 ->
  (1 <= timesteps)%Z ->
  forall G links times rng,
    reset_graph_state G = G0 ->
    in_unit_interval rng ->
    exists G' rng',
      trial_loop sp users timesteps nodes cf n G links times rng
      = (G', rng', (links + Z.of_nat n)%Z, Ok (times ++ repeat 1%Z n))
      /\ reset_graph_state G' = G0.
Proof.
  intros Hwin Hts. induction n as [|n IH]; intros G links times rng HG Hr.
  - exists G, rng. simpl. rewrite app_nil_r, Z.add_0_r. auto.
  - cbn [trial_loop]. rewrite HG.
    destruct (Z.to_nat timesteps) as [|m] eqn:E; [lia|].
    destruct (Hwin m links rng (proj2 (Hr 0))) as [G1 [Ht HG1]].
    rewrite Ht. cbn [to_time to_graph to_links to_rng].
    destruct (IH G1 (links + 1)%Z (times ++ [1%Z]) (fun i => rng (S i)) HG1
                 (in_unit_interval_shift rng Hr)) as [G' [rng' [Hl HG']]].
    exists G', rng'. rewrite Hl. split; [|exact HG'].
    rewrite <- app_assoc.
    replace (links + 1 + Z.of_nat n)%Z with (links + Z.of_nat (S n))%Z by lia.
    reflexivity.
Qed.

(** The run of scenario A: three trials of at most five timesteps. *)
Lemma run_wins_at_once (sp : Strategy) users nodes cf (G G0 : Topology)
      (rng : RandomSource) :
  wins_at_once sp users nodes cf G0 ->
  reset_graph_state (reset_graph_usage G) = G0 ->
  in_unit_interval rng ->
  exists G' rng' rate avg,
    _run_protocol G users 5 3 sp nodes cf rng
    = mkRunOut G' rng' (Ok (Finite rate, [1; 1; 1]%Z, avg))
    /\ (rate == 1)%Q /\ (avg == 1)%Q
    /\ node_ids G' = node_ids G.
Proof.
  intros Hwin HG Hr. unfold _run_protocol. cbn [Z.ltb Z.compare].
  destruct (trials_win_at_once sp users nodes cf G0 5 3 Hwin ltac:(lia)
              (reset_graph_usage G) 0%Z [] rng HG Hr) as [G1 [rng1 [Ht HG1]]].
  change (Z.to_nat 3) with 3. rewrite Ht.
  cbn [app repeat Z.of_nat Z.add].
  assert (Hids : node_ids G1 = node_ids G).
  { rewrite <- (reset_graph_state_node_ids G1), HG1, <- HG.
    rewrite reset_graph_state_node_ids.
    unfold node_ids, reset_graph_usage, map_nodes. simpl.
    rewrite map_map. reflexivity. }
  change (_multipartite_rate [1; 1; 1]%Z 5)
    with (Ok (Finite (inject_Z 3 / inject_Z 3)%Q)).
  unfold update_graph_usage. cbn [Z.eqb].
  destruct (g_nodes G1) as [|x ns] eqn:N.
  - do 4 eexists. split; [reflexivity|]. split_ands; try reflexivity.
    rewrite <- Hids. unfold node_ids. rewrite N. reflexivity.
  - do 4 eexists. split; [reflexivity|]. split_ands; try reflexivity.
    rewrite <- Hids. unfold node_ids, map_nodes. cbn [g_nodes].
    rewrite N, map_map. reflexivity.
Qed.

Lemma two_nodes_rested n1 n2 u v a1 a2 ea :
  n_Qc a1 = 1%Q -> n_Qc a2 = 1%Q -> e_Qc ea = 1%Q -> e_p_edge ea = 1%Q ->
  reset_graph_state (reset_graph_usage (two_nodes n1 n2 u v a1 a2 ea))
  = two_nodes n1 n2 u v (idle_node 0%Z 0%Q) (idle_node 0%Z 0%Q)
              (unit_edge (e_length ea) false).
Proof.
  destruct a1, a2, ea. simpl. intros -> -> -> ->. reflexivity.
Qed.

Lemma two_nodes_SD_wins n1 n2 u v s d uc1 uf1 uc2 uf2 l cf :
  joins n1 n2 u v -> joins n1 n2 s d ->
  wins_at_once _SD_protocol [s; d] true cf
    (two_nodes n1 n2 u v (idle_node uc1 uf1) (idle_node uc2 uf2) (unit_edge l false)).
Proof.
  intros Hj Hs m links rng Hr. eexists. split.
  - apply two_nodes_trial_SD; assumption.
  - apply two_nodes_reset_after.
Qed.

Lemma path_first_hop {NA EA : Type} (K : Graph NA EA) s d p :
  s <> d -> path_between K s d p -> exists x, has_edge K s x = true.
Proof.
  intros Hne [Hhd [Hl Hw]]. destruct p as [|a [|b p]]; try discriminate.
  - simpl in *. congruence.
  - simpl in Hhd. injection Hhd as ->. inversion Hw; subst. simpl in *. eauto.
Qed.

Lemma steiner_on_one_link steiner_tree n1 n2 s d (ea : EdgeAttr) :
  steiner_contract steiner_tree ->
  joins n1 n2 s d ->
  exists e,
    g_edges (steiner_tree (mkGraph [(n1, tt); (n2, tt)] [(n1, n2, ea)]) [s; d])
    = [e]
    /\ joins n1 n2 (eu e) (ev e).
Proof.
  intros Hst Hs.
  set (H := mkGraph [(n1, tt); (n2, tt)] [(n1, n2, ea)] : LinkGraph).
  assert (Hne : n1 <> n2) by apply Hs.
  assert (Hsd : s <> d) by (destruct Hs as [? [[-> ->]|[-> ->]]]; auto).
  assert (Hlink : forall a b, joins n1 n2 a b -> has_edge H a b = true).
  { intros a b Hab. by_orientation Hab; unfold H; graph_simpl; reflexivity. }
  assert (Hsimple : simple_graph H).
  { unfold simple_graph, H. simpl. constructor; constructor. }
  assert (Hconn : connects H [s; d]).
  { assert (Hself : forall a, exists p, path_between H a a p).
    { intros a. exists [a]. split; [reflexivity|]. split; [reflexivity|].
      constructor. }
    assert (Hpair : forall a b, joins n1 n2 a b -> exists p, path_between H a b p).
    { intros a b Hab. exists [a; b]. split; [reflexivity|].
      split; [reflexivity|].
      constructor; [apply Hlink, Hab | constructor]. }
    assert (Hds : joins n1 n2 d s)
      by (destruct Hs as [? [[-> ->]|[-> ->]]]; split; auto).
    intros a b [<-|[<-|[]]] [<-|[<-|[]]]; auto. }
  destruct (Hst H [s; d] Hsimple Hconn) as [Ksimple [Ksub Kconn]].
  set (K := steiner_tree H [s; d]) in *.
  assert (Hends : forall e, In e (g_edges K) -> joins n1 n2 (eu e) (ev e)).
  { intros e He. apply Ksub in He. unfold has_edge, H in He. simpl in He.
    rewrite orb_false_r in He. apply same_edge_iff in He. simpl in He.
    split; [exact Hne|]. unfold eu, ev in *. simpl in He. lia. }
  destruct (Kconn s d) as [p Hp]; [left; reflexivity | right; left; reflexivity|].
  destruct (path_first_hop K s d p Hsd Hp) as [x Hx].
  unfold has_edge in Hx. apply existsb_exists in Hx. destruct Hx as [e0 [He0 _]].
  destruct (g_edges K) as [|e [|e' es]] eqn:EK.
  - destruct He0.
  - exists e. split; [reflexivity|]. apply Hends. left; reflexivity.
  - exfalso. unfold simple_graph in Ksimple. rewrite EK in Ksimple.
    inversion Ksimple as [|? ? Hall _]; subst.
    inversion Hall as [|? ? Hee _]; subst.
    assert (He : joins n1 n2 (eu e) (ev e)) by (apply Hends; left; reflexivity).
    assert (He' : joins n1 n2 (eu e') (ev e'))
      by (apply Hends; right; left; reflexivity).
    assert (same_edge (eu e) (ev e) e' = true).
    { apply same_edge_iff. destruct He as [_ He], He' as [_ He']. lia. }
    congruence.
Qed.

Lemma one_link_no_relay (K : LinkGraph) e n1 n2 users cf :
  g_edges K = [e] -> joins n1 n2 (eu e) (ev e) ->
  filter (fun n => _count_node K n users cf) (node_ids K) = []
  /\ number_of_edges K = 1.
Proof.
  intros HK He. split; [|unfold number_of_edges; rewrite HK; reflexivity].
  assert (Hdeg : forall n, degree K n <= 1).
  { intros n. unfold degree. rewrite HK. simpl.
    destruct He as [Hne He].
    destruct (Nat.eqb_spec (eu e) n), (Nat.eqb_spec (ev e) n); simpl; lia. }
  induction (node_ids K) as [|n ns IH]; simpl; [reflexivity|].
  unfold _count_node. specialize (Hdeg n).
  destruct (Nat.eqb_spec (degree K n) 2); [lia|].
  destruct (Nat.ltb_spec 2 (degree K n)); [lia|]. simpl. exact IH.
Qed.

Lemma two_nodes_CC steiner_tree n1 n2 s d (G : Topology) l cf :
  steiner_contract steiner_tree ->
  joins n1 n2 s d ->
  _CC_protocol steiner_tree G
               (mkGraph [(n1, tt); (n2, tt)] [(n1, n2, unit_edge l true)])
               [s; d] [] cf
  = (G, [tree_entry], Ok true).
Proof.
  intros Hst Hs.
  destruct (steiner_on_one_link steiner_tree n1 n2 s d (unit_edge l true) Hst Hs)
    as [e [HK He]].
  destruct (one_link_no_relay _ e n1 n2 [s; d] cf HK He) as [Hnodes Hcount].
  unfold _CC_protocol.
  assert (Hsub : forall CC, In n1 CC -> In n2 CC ->
             subgraph (mkGraph [(n1, tt); (n2, tt)] [(n1, n2, unit_edge l true)]
                       : LinkGraph) CC
             = mkGraph [(n1, tt); (n2, tt)] [(n1, n2, unit_edge l true)]).
  { intros CC H1 H2. apply mem_In in H1, H2. unfold subgraph. cbn.
    unfold eu, ev. cbn. rewrite H1, H2. reflexivity. }
  assert (Hcc : node_connected_component
                  (mkGraph [(n1, tt); (n2, tt)] [(n1, n2, unit_edge l true)]
                   : LinkGraph) s = Ok [d; s]).
  { by_orientation Hs; unfold node_connected_component, neighbors; graph_simpl;
      reflexivity. }
  assert (Hall : forallb (fun x => mem x [d; s]) [s; d] = true).
  { unfold mem. cbn. rewrite !Nat.eqb_refl, !orb_true_r. reflexivity. }
  rewrite Hcc, Hall. cbn [negb].
  rewrite Hsub by (by_orientation Hs; simpl; auto).
  rewrite Hnodes, Hcount. reflexivity.
Qed.

Lemma two_nodes_CC_wins steiner_tree n1 n2 u v s d uc1 uf1 uc2 uf2 l cf :
  steiner_contract steiner_tree ->
  joins n1 n2 u v -> joins n1 n2 s d ->
  wins_at_once (_CC_protocol steiner_tree) [s; d] false cf
    (two_nodes n1 n2 u v (idle_node uc1 uf1) (idle_node uc2 uf2) (unit_edge l false)).
Proof.
  intros Hst Hj Hs m links rng Hr. eexists. split.
  - cbn [timestep_loop].
    rewrite (two_nodes_step _ _ _ _ _ _ _ _ _ false rng Hj Hr).
    cbn [so_exn so_graph so_used so_rng].
    rewrite (two_nodes_links _ _ _ _ _ _ _ Hj).
    rewrite (two_nodes_CC steiner_tree _ _ _ _ _ _ cf Hst Hs).
    reflexivity.
  - apply two_nodes_reset_linked.
Qed.

Lemma two_nodes_star n1 n2 u v s d a1 a2 ea :
  joins n1 n2 u v -> joins n1 n2 s d ->
  _get_star (two_nodes n1 n2 u v a1 a2 ea) [s; d]
  = Ok (two_nodes n1 n2 s d a1 a2 ea).
Proof.
  intros Hj Hs. unfold _get_star, edges.
  rewrite (two_nodes_edge_view _ _ _ _ _ _ _ Hj).
  assert (Hn : joins n1 n2 n1 n2) by (destruct Hj; split; auto).
  cbn. unfold has_path.
  rewrite (two_nodes_shortest_path _ _ _ _ _ _ _ _ _ Hn Hs). cbn.
  by_orientation Hj; destruct Hs as [_ [[-> ->]|[-> ->]]];
    unfold add_edge; graph_simpl; reflexivity.
Qed.

Lemma set_node_node_ids {NA EA : Type} (G : Graph NA EA) n (f : NA -> NA) :
  node_ids (set_node G n f) = node_ids G.
Proof.
  unfold node_ids, set_node. simpl. rewrite map_map.
  apply map_ext. intros y.
  match goal with |- context [if ?c then _ else _] => destruct c end;
    reflexivity.
Qed.

Lemma copy_usage_total (js : list (node * NodeAttr)) :
  forall G : Topology,
    incl (map fst js) (node_ids G) ->
    snd (copy_usage js G) = None.
Proof.
  induction js as [|[n a] js IH]; intros G Hincl; simpl; [reflexivity|].
  assert (Hn : has_node G n = true).
  { apply mem_In. apply Hincl. left. reflexivity. }
  rewrite Hn. apply IH. intros x Hx.
  rewrite set_node_node_ids. apply Hincl. right. exact Hx.
Qed.

(** C5.  On a topology of two distinct nodes joined by one edge, with
    [p_edge = 1] on the edge and [Qc = 1] on the edge and both nodes (the
    other attributes, the node order and the stored orientation of the
    edge are arbitrary), with the two nodes as users in either order,
    [timesteps = 5] and [reps = 3], and draws in [[0, 1)]: [SP_protocol],
    [MPG_protocol] and [MPC_protocol] each return rate 1, times
    [[1, 1, 1]] and 1 link used on average.  For [MPC_protocol] the Steiner
    routine is any routine that returns a simple connecting subgraph. *)
Theorem scenario_A :
  forall (steiner_tree : LinkGraph -> list node -> LinkGraph)
         (n1 n2 u v A B : node) (a1 a2 : NodeAttr) (ea : EdgeAttr)
         (count_fusion : bool) (rng : RandomSource),
    joins n1 n2 u v ->
    joins n1 n2 A B ->
    n_Qc a1 = 1%Q -> n_Qc a2 = 1%Q -> e_Qc ea = 1%Q -> e_p_edge ea = 1%Q ->
    in_unit_interval rng ->
    steiner_contract steiner_tree ->
    scenario_A_outcome
      (SP_protocol (two_nodes n1 n2 u v a1 a2 ea) [A; B] 5 3 count_fusion rng)
    /\ scenario_A_outcome
         (MPG_protocol (two_nodes n1 n2 u v a1 a2 ea) [A; B] 5 3 count_fusion rng)
    /\ scenario_A_outcome
         (MPC_protocol steiner_tree (two_nodes n1 n2 u v a1 a2 ea) [A; B] 5 3
                       count_fusion rng).
Proof.
  intros st n1 n2 u v A B a1 a2 ea cf rng Hj Hs Q1 Q2 Qe Pe Hr Hst.
  split_ands.
  - unfold SP_protocol. rewrite (two_nodes_star _ _ _ _ _ _ _ _ _ Hj Hs).
    destruct (run_wins_at_once _SD_protocol [A; B] true cf
                (two_nodes n1 n2 A B a1 a2 ea) _ rng
                (two_nodes_SD_wins n1 n2 A B A B 0%Z 0%Q 0%Z 0%Q (e_length ea)
                                   cf Hs Hs)
                (two_nodes_rested n1 n2 A B a1 a2 ea Q1 Q2 Qe Pe) Hr)
      as [G' [rng' [rate [avg [Hrun [Hrate [Havg Hids]]]]]]].
    rewrite Hrun. cbn [ro_result ro_graph ro_rng].
    unfold update_usage_from_subgraph.
    pose proof (copy_usage_total (g_nodes G') (two_nodes n1 n2 u v a1 a2 ea))
      as Hcopy.
    destruct (copy_usage (g_nodes G') (two_nodes n1 n2 u v a1 a2 ea))
      as [G1 err].
    simpl in Hcopy. rewrite Hcopy.
    + exists rate, avg. auto.
    + fold (node_ids G'). rewrite Hids. apply incl_refl.
  - unfold MPG_protocol.
    destruct (run_wins_at_once _SD_protocol [A; B] true cf
                (two_nodes n1 n2 u v a1 a2 ea) _ rng
                (two_nodes_SD_wins n1 n2 u v A B 0%Z 0%Q 0%Z 0%Q (e_length ea)
                                   cf Hj Hs)
                (two_nodes_rested n1 n2 u v a1 a2 ea Q1 Q2 Qe Pe) Hr)
      as [G' [rng' [rate [avg [Hrun [Hrate [Havg _]]]]]]].
    rewrite Hrun. exists rate, avg. auto.
  - unfold MPC_protocol.
    destruct (run_wins_at_once (_CC_protocol st) [A; B] false cf
                (two_nodes n1 n2 u v a1 a2 ea) _ rng
                (two_nodes_CC_wins st n1 n2 u v A B 0%Z 0%Q 0%Z 0%Q (e_length ea)
                                   cf Hst Hj Hs)
                (two_nodes_rested n1 n2 u v a1 a2 ea Q1 Q2 Qe Pe) Hr)
      as [G' [rng' [rate [avg [Hrun [Hrate [Havg _]]]]]]].
    rewrite Hrun. exists rate, avg. auto.
Qed.

(** Returning the graph it is given meets the contract. *)
Lemma whole_graph_steiner_contract : steiner_contract (fun H _ => H).
Proof.
  intros H terminals Hsimple Hconn. split; [exact Hsimple|].
  split; [|exact Hconn].
  intros e He. unfold has_edge. apply existsb_exists. exists e.
  split; [exact He|]. apply same_edge_iff. left. split; reflexivity.
Defined.

Lemma half_in_unit_interval : in_unit_interval half.
Proof. intros i. split; [discriminate | reflexivity]. Defined.

Lemma scenario_A_witness :
  scenario_A_outcome
    (SP_protocol (demo_pair false false 1%Q) [0; 1] 5 3 false half)
  /\ scenario_A_outcome
       (MPG_protocol (demo_pair false false 1%Q) [0; 1] 5 3 false half)
  /\ scenario_A_outcome
       (MPC_protocol (fun H _ => H) (demo_pair false false 1%Q) [0; 1] 5 3
                     false half).
Proof.
  assert (Hj : joins 0 1 0 1) by (split; [discriminate | left; split; reflexivity]).
  apply (scenario_A (fun H _ => H) 0 1 0 1 0 1 (demo_node false) (demo_node false)
                    (demo_edge false 1%Q) false half Hj Hj
                    eq_refl eq_refl eq_refl eq_refl
                    half_in_unit_interval whole_graph_steiner_contract).
Defined.

(** ** Reading lists of references *)

Lemma traverse_ext_in {A B : Type} (f g : A -> option B) (l : list A) :
  (forall x, In x l -> f x = g x) -> traverse f l = traverse g l.
Proof.
  induction l as [|x l IH]; intros H; simpl; [reflexivity|].
  rewrite (H x (or_introl eq_refl)), IH; [reflexivity|].
  intros y Hy. apply H. right. exact Hy.
Qed.

Lemma traverse_app {A B : Type} (f : A -> option B) (l1 l2 : list A) :
  traverse f (l1 ++ l2)
  = match traverse f l1, traverse f l2 with
    | Some a, Some b => Some (a ++ b)
    | _, _ => None
    end.
Proof.
  induction l1 as [|x l1 IH]; simpl.
  - destruct (traverse f l2); reflexivity.
  - destruct (f x); [|reflexivity]. rewrite IH.
    destruct (traverse f l1); [|reflexivity].
    destruct (traverse f l2); reflexivity.
Qed.

Lemma traverse_Forall2 {A B : Type} (f : A -> option B) (l : list A) (l' : list B) :
  traverse f l = Some l' <-> Forall2 (fun x y => f x = Some y) l l'.
Proof.
  revert l'; induction l as [|x l IH]; intros l'; simpl.
  - split; [intros [= <-]; constructor | intros H; inversion H; reflexivity].
  - split.
    + destruct (f x) as [y|] eqn:F; [|discriminate].
      destruct (traverse f l) as [ys|] eqn:T; [|discriminate].
      intros [= <-]. constructor; [exact F | apply IH; reflexivity].
    + intros H. inversion H as [|? y ? ys Hxy Hl]; subst.
      rewrite Hxy. apply IH in Hl. rewrite Hl. reflexivity.
Qed.

Lemma traverse_In_defined {A B : Type} (f : A -> option B) (l : list A) l' x :
  traverse f l = Some l' -> In x l -> exists y, f x = Some y.
Proof.
  intros H. apply traverse_Forall2 in H.
  induction H as [|a b l l' Hab H IH]; intros [].
  - subst. eauto.
  - auto.
Qed.

(** ** Only the copy is written *)

Section Isolation.
Import Store.

Lemma deref_lt (h : heap) (r : ref) d : deref h r = Some d -> r < length (dicts h).
Proof. unfold deref. intros H. apply nth_error_Some. congruence. Qed.

Lemma nth_error_update_nth_same {A : Type} (l : list A) i (x y : A) :
  nth_error l i = Some y -> nth_error (update_nth i (fun _ => x) l) i = Some x.
Proof.
  intros H. rewrite nth_error_update_nth_eq, H. reflexivity.
Qed.

Lemma isolated_set_graph g gh h0 h go' :
  g <> gh ->
  isolated g gh h0 h ->
  Forall (fun e => length (dicts h0) <= eattr e) (g_edges go') ->
  isolated g gh h0 (set_graph gh go' h).
Proof.
  intros Hne [I1 I2 I3 I4] Hfresh. constructor; simpl; auto.
  - rewrite nth_error_update_nth_ne by auto. exact I1.
  - intros go Hgo. rewrite nth_error_update_nth_eq in Hgo.
    destruct (nth_error (graphs h) gh); simpl in Hgo; [|discriminate].
    injection Hgo as <-. exact Hfresh.
Qed.

Lemma isolated_write g gh h0 h r d :
  isolated g gh h0 h -> length (dicts h0) <= r -> isolated g gh h0 (write r d h).
Proof.
  intros [I1 I2 I3 I4] Hr. constructor; simpl; auto.
  - intros r' Hr'. unfold deref, write. simpl.
    rewrite nth_error_update_nth_ne by lia. apply I2. exact Hr'.
  - rewrite update_nth_length. exact I3.
Qed.

Lemma isolated_alloc g gh h0 h d :
  isolated g gh h0 h -> isolated g gh h0 (snd (alloc d h)).
Proof.
  intros [I1 I2 I3 I4]. constructor; simpl; auto.
  - intros r Hr. unfold deref. simpl. rewrite nth_error_app1 by lia.
    apply I2. exact Hr.
  - rewrite length_app. simpl. lia.
Qed.

Lemma isolated_writes g gh h0 rs d :
  Forall (fun r => length (dicts h0) <= r) rs ->
  forall h, isolated g gh h0 h ->
            isolated g gh h0 (fold_left (fun h' r => write r d h') rs h).
Proof.
  induction 1 as [|r rs Hr Hrs IH]; intros h Hi; simpl; auto.
  apply IH. apply isolated_write; assumption.
Qed.

Lemma isolated_new_node g gh h0 h n :
  g <> gh -> isolated g gh h0 h -> isolated g gh h0 (new_node gh n h).
Proof.
  intros Hne Hi. unfold new_node.
  destruct (nth_error (graphs h) gh) as [go|] eqn:Hgo; [|exact Hi].
  apply isolated_set_graph; auto.
  - apply (isolated_alloc g gh h0 h EmptyDict Hi).
  - simpl. apply (iso_fresh _ _ _ _ Hi go Hgo).
Qed.

Lemma isolated_link g gh h0 h u v a :
  g <> gh -> isolated g gh h0 h -> isolated g gh h0 (link gh u v a h).
Proof.
  intros Hne Hi. unfold link.
  destruct (nth_error (graphs h) gh) as [go|] eqn:Hgo; [|exact Hi].
  pose proof (iso_fresh _ _ _ _ Hi go Hgo) as Hfresh.
  destruct (has_edge go u v).
  - apply isolated_writes; [|exact Hi].
    apply Forall_map. apply Forall_forall. intros e He.
    apply filter_In in He. destruct He as [He _].
    rewrite Forall_forall in Hfresh. apply Hfresh. exact He.
  - apply isolated_set_graph; auto.
    + apply (isolated_alloc g gh h0 h (EdgeDict a) Hi).
    + simpl. apply Forall_app. split; [exact Hfresh|].
      constructor; [|constructor]. simpl. apply (iso_grows _ _ _ _ Hi).
Qed.

Lemma isolated_unlink g gh h0 h u v :
  g <> gh -> isolated g gh h0 h -> isolated g gh h0 (unlink gh u v h).
Proof.
  intros Hne Hi. unfold unlink.
  destruct (nth_error (graphs h) gh) as [go|] eqn:Hgo; [|exact Hi].
  destruct (has_edge go u v); [|exact Hi].
  apply isolated_set_graph; auto. simpl.
  pose proof (iso_fresh _ _ _ _ Hi go Hgo) as Hfresh.
  rewrite Forall_forall in *. intros e He. apply filter_In in He.
  apply Hfresh. tauto.
Qed.

Lemma isolated_assign g gh h0 h u v f :
  isolated g gh h0 h -> isolated g gh h0 (assign gh u v f h).
Proof.
  intros Hi. unfold assign.
  destruct (nth_error (graphs h) gh) as [go|] eqn:Hgo; [|exact Hi].
  destruct (find (same_edge u v) (g_edges go)) as [e|] eqn:F; [|exact Hi].
  destruct (deref h (eattr e)) as [[a| |]|]; try exact Hi.
  apply isolated_write; [exact Hi|].
  pose proof (iso_fresh _ _ _ _ Hi go Hgo) as Hfresh.
  rewrite Forall_forall in Hfresh. apply Hfresh.
  apply find_some in F. tauto.
Qed.

Lemma isolated_mutate g gh h0 ms :
  g <> gh -> forall h, isolated g gh h0 h -> isolated g gh h0 (mutate gh ms h).
Proof.
  intros Hne. induction ms as [|m ms IH]; intros h Hi; simpl; auto.
  apply IH. destruct m; simpl;
    auto using isolated_link, isolated_unlink, isolated_assign.
Qed.

(** What is read of [g] does not change while [g] stays isolated. *)
Lemma isolated_read g gh h0 h Gv :
  isolated g gh h0 h ->
  read_topology g h0 = Some Gv ->
  read_topology g h = Some Gv.
Proof.
  intros [I1 I2 _ _] Hread. unfold read_topology in *. rewrite I1.
  destruct (nth_error (graphs h0) g) as [go|]; [|discriminate].
  destruct (traverse (read_node h0) (g_nodes go)) as [ns|] eqn:Tn; [|discriminate].
  destruct (traverse (read_edge h0) (g_edges go)) as [es|] eqn:Te; [|discriminate].
  rewrite (traverse_ext_in (read_node h) (read_node h0)), Tn.
  - rewrite (traverse_ext_in (read_edge h) (read_edge h0)), Te; [exact Hread|].
    intros e He. destruct (traverse_In_defined _ _ _ e Te He) as [y Hy].
    unfold read_edge in *. rewrite I2; [reflexivity|].
    destruct (deref h0 (eattr e)) eqn:D; [|discriminate].
    eapply deref_lt; eauto.
  - intros x Hx. destruct (traverse_In_defined _ _ _ x Tn Hx) as [y Hy].
    unfold read_node in *. rewrite I2; [reflexivity|].
    destruct (deref h0 (snd x)) eqn:D; [|discriminate].
    eapply deref_lt; eauto.
Qed.

End Isolation.

(** ** The copy holds what the value-level function computes *)

Lemma NoDup_map_inj {A B : Type} (f : A -> B) (l : list A) x y :
  NoDup (map f l) -> In x l -> In y l -> f x = f y -> x = y.
Proof.
  induction l as [|a l IH]; simpl; intros Hnd Hx Hy Hf; [tauto|].
  inversion Hnd as [|? ? Hn Hl]; subst.
  destruct Hx as [->|Hx], Hy as [->|Hy]; auto.
  - exfalso. apply Hn. rewrite Hf. apply in_map. exact Hy.
  - exfalso. apply Hn. rewrite <- Hf. apply in_map. exact Hx.
Qed.

Lemma Forall2_map_r_in {A B : Type} (R R' : A -> B -> Prop) (g : B -> B)
      (l : list A) (l' : list B) :
  Forall2 R l l' ->
  (forall x y, In x l -> R x y -> R' x (g y)) ->
  Forall2 R' l (map g l').
Proof.
  induction 1 as [|x y l l' Hxy H IH]; intros Hg; simpl; constructor.
  - apply Hg; [left; reflexivity | exact Hxy].
  - apply IH. intros a b Ha. apply Hg. right. exact Ha.
Qed.

Lemma NoDup_snoc {A : Type} (l : list A) (x : A) :
  NoDup l -> ~ In x l -> NoDup (l ++ [x]).
Proof.
  intros Hl Hx. apply NoDup_app; auto.
  - constructor; [intros []|constructor].
  - intros a Ha [<-|[]]. contradiction.
Qed.

Lemma NoDup_insert {A : Type} (l1 l2 : list A) (x : A) :
  NoDup (l1 ++ l2) -> ~ In x (l1 ++ l2) -> NoDup ((l1 ++ [x]) ++ l2).
Proof.
  intros Hl Hx. rewrite <- app_assoc. simpl.
  apply (Permutation_NoDup (Permutation_middle l1 l2 x)).
  constructor; assumption.
Qed.

Lemma NoDup_app_disjoint {A : Type} (l1 l2 : list A) (a : A) :
  NoDup (l1 ++ l2) -> In a l1 -> ~ In a l2.
Proof.
  induction l1 as [|x l1 IH]; simpl; intros Hnd Hin; [tauto|].
  inversion Hnd as [|? ? Hn Hl]; subst.
  destruct Hin as [->|Hin]; [|auto].
  intros Hc. apply Hn. apply in_app_iff. right. exact Hc.
Qed.

Section Refinement.
Import Store.

Lemma repr_read_links gh h Hv : repr gh h Hv -> read_links gh h = Some Hv.
Proof.
  intros [go [Hgo [Hn [He _]]]]. unfold read_links.
  rewrite Hgo, Hn, He. destruct Hv; reflexivity.
Qed.

Lemma read_edge_ends h (x : Edge ref) (y : Edge EdgeAttr) :
  read_edge h x = Some y -> eu y = eu x /\ ev y = ev x.
Proof.
  unfold read_edge. destruct (deref h (eattr x)) as [[a| |]|]; try discriminate.
  intros [= <-]. split; reflexivity.
Qed.

Lemma read_edge_same_edge h u v (x : Edge ref) (y : Edge EdgeAttr) :
  read_edge h x = Some y -> same_edge u v y = same_edge u v x.
Proof.
  intros H. apply read_edge_ends in H. destruct H as [Hu Hv].
  unfold same_edge. rewrite Hu, Hv. reflexivity.
Qed.

Lemma has_edge_read h (es : list (Edge ref)) (es' : list (Edge EdgeAttr)) u v :
  traverse (read_edge h) es = Some es' ->
  existsb (same_edge u v) es = existsb (same_edge u v) es'.
Proof.
  intros H. apply traverse_Forall2 in H.
  induction H as [|x y l l' Hxy H IH]; simpl; [reflexivity|].
  rewrite IH, (read_edge_same_edge h u v x y Hxy). reflexivity.
Qed.

Lemma refs_in_store h (go : graph_obj) ns es :
  traverse (read_bare_node h) (g_nodes go) = Some ns ->
  traverse (read_edge h) (g_edges go) = Some es ->
  forall r, In r (map snd (g_nodes go) ++ map (@eattr ref) (g_edges go)) ->
            r < length (dicts h).
Proof.
  intros Hn He r Hr. apply in_app_iff in Hr. destruct Hr as [Hr|Hr];
    apply in_map_iff in Hr; destruct Hr as [x [<- Hx]].
  - destruct (traverse_In_defined _ _ _ x Hn Hx) as [y Hy].
    unfold read_bare_node in Hy.
    destruct (deref h (snd x)) eqn:D; [|discriminate]. eapply deref_lt; eauto.
  - destruct (traverse_In_defined _ _ _ x He Hx) as [y Hy].
    unfold read_edge in Hy.
    destruct (deref h (eattr x)) eqn:D; [|discriminate]. eapply deref_lt; eauto.
Qed.

Lemma deref_alloc h d r :
  r < length (dicts h) -> deref (snd (alloc d h)) r = deref h r.
Proof. intros Hr. unfold deref. simpl. apply nth_error_app1. exact Hr. Qed.

Lemma deref_alloc_new h d : deref (snd (alloc d h)) (length (dicts h)) = Some d.
Proof.
  unfold deref. simpl. rewrite nth_error_app2, Nat.sub_diag by lia. reflexivity.
Qed.

Lemma writes_effect d rs :
  forall h,
    graphs (fold_left (fun h' r => write r d h') rs h) = graphs h
    /\ length (dicts (fold_left (fun h' r => write r d h') rs h))
       = length (dicts h)
    /\ forall r,
        (In r rs -> r < length (dicts h) ->
         deref (fold_left (fun h' r => write r d h') rs h) r = Some d)
        /\ (~ In r rs ->
            deref (fold_left (fun h' r => write r d h') rs h) r = deref h r).
Proof.
  induction rs as [|r0 rs IH]; intros h; simpl.
  - split_ands; auto. intros r. split; [intros []|reflexivity].
  - destruct (IH (write r0 d h)) as [Hg [Hl Hd]].
    split; [rewrite Hg; reflexivity|].
    split; [rewrite Hl; simpl; apply update_nth_length|].
    intros r. destruct (Hd r) as [Hin Hout]. split.
    + intros Hr Hlt.
      destruct (in_dec Nat.eq_dec r rs) as [Hrs|Hrs].
      * apply Hin; [exact Hrs|]. simpl. rewrite update_nth_length. exact Hlt.
      * rewrite Hout by exact Hrs. destruct Hr as [->|Hr]; [|contradiction].
        unfold deref, write. simpl. rewrite nth_error_update_nth_eq.
        destruct (nth_error (dicts h) r) eqn:E; [reflexivity|].
        apply nth_error_None in E. lia.
    + intros Hr. rewrite Hout by tauto.
      unfold deref, write. simpl. apply nth_error_update_nth_ne. tauto.
Qed.

Lemma read_grow h h' (go : graph_obj) ns es :
  (forall r, r < length (dicts h) -> deref h' r = deref h r) ->
  traverse (read_bare_node h) (g_nodes go) = Some ns ->
  traverse (read_edge h) (g_edges go) = Some es ->
  traverse (read_bare_node h') (g_nodes go) = Some ns
  /\ traverse (read_edge h') (g_edges go) = Some es.
Proof.
  intros Hsame Hn He. pose proof (refs_in_store h go ns es Hn He) as Hin. split.
  - rewrite <- Hn. apply traverse_ext_in. intros x Hx.
    unfold read_bare_node. rewrite Hsame; [reflexivity|].
    apply Hin. apply in_app_iff. left. apply in_map. exact Hx.
  - rewrite <- He. apply traverse_ext_in. intros x Hx.
    unfold read_edge. rewrite Hsame; [reflexivity|].
    apply Hin. apply in_app_iff. right. apply in_map. exact Hx.
Qed.

Lemma get_set_graph gh go go' h :
  nth_error (graphs h) gh = Some go ->
  nth_error (graphs (set_graph gh go' h)) gh = Some go'.
Proof. intros H. simpl. eapply nth_error_update_nth_same; eauto. Qed.

Lemma deref_grown h go' gh d r :
  r < length (dicts h) ->
  deref (set_graph gh go' (mkHeap (graphs h) (dicts h ++ [d]))) r = deref h r.
Proof. intros Hr. unfold deref. simpl. apply nth_error_app1. exact Hr. Qed.

Lemma deref_grown_new h go' gh d :
  deref (set_graph gh go' (mkHeap (graphs h) (dicts h ++ [d]))) (length (dicts h))
  = Some d.
Proof.
  unfold deref. simpl. rewrite nth_error_app2, Nat.sub_diag by lia. reflexivity.
Qed.

Lemma repr_new_node gh h Hv n :
  repr gh h Hv ->
  repr gh (new_node gh n h) (mkGraph (g_nodes Hv ++ [(n, tt)]) (g_edges Hv)).
Proof.
  intros [go [Hgo [Hn [He Hnd]]]]. unfold new_node. rewrite Hgo.
  unfold alloc. cbv beta iota zeta.
  match goal with
  | |- repr _ ?h1 _ =>
      destruct (read_grow h h1 go _ _
                  (fun r Hr => deref_grown h _ gh EmptyDict r Hr) Hn He)
        as [Hn' He']
  end.
  pose proof (refs_in_store h go _ _ Hn He) as Hin.
  eexists. split_ands.
  - apply (get_set_graph gh go _ (mkHeap (graphs h) (dicts h ++ [EmptyDict]))).
    exact Hgo.
  - cbn [g_nodes]. rewrite traverse_app, Hn'.
    cbn [traverse]. unfold read_bare_node at 1. cbn [snd fst].
    rewrite deref_grown_new. reflexivity.
  - exact He'.
  - cbn [g_nodes g_edges]. rewrite map_app. simpl.
    apply NoDup_insert; [exact Hnd|].
    intros Hc. apply Hin in Hc. lia.
Qed.

Lemma repr_link gh h Hv u v a :
  repr gh h Hv ->
  repr gh (link gh u v a h) (add_edge Hv u v (fun _ => a)).
Proof.
  intros [go [Hgo [Hn [He Hnd]]]]. unfold link, add_edge. rewrite Hgo.
  pose proof (refs_in_store h go _ _ Hn He) as Hin.
  unfold has_edge. rewrite (has_edge_read h _ _ u v He).
  destruct (existsb (same_edge u v) (g_edges Hv)) eqn:Hex.
  - set (rs := map (@eattr ref) (filter (same_edge u v) (g_edges go))).
    destruct (writes_effect (EdgeDict a) rs h) as [Hg [Hl Hd]].
    exists go. split_ands.
    + rewrite Hg. exact Hgo.
    + cbn [g_nodes]. rewrite <- Hn. apply traverse_ext_in. intros x Hx.
      unfold read_bare_node. rewrite (proj2 (Hd (snd x))); [reflexivity|].
      intros Hc. unfold rs in Hc. apply in_map_iff in Hc.
      destruct Hc as [e [Hex' Hin']]. apply filter_In in Hin'.
      apply (NoDup_app_disjoint _ _ (snd x) Hnd).
      * apply in_map. exact Hx.
      * rewrite <- Hex'. apply in_map. tauto.
    + cbn [g_edges]. apply traverse_Forall2.
      apply traverse_Forall2 in He.
      eapply Forall2_map_r_in; [exact He|].
      intros x y Hx Hxy. cbn beta.
      rewrite (read_edge_same_edge h u v x y Hxy).
      pose proof Hxy as Hends. apply read_edge_ends in Hends.
      destruct Hends as [Hu Hv'].
      unfold read_edge in *.
      destruct (same_edge u v x) eqn:Hs.
      * rewrite (proj1 (Hd (eattr x))).
        -- rewrite Hu, Hv'. reflexivity.
        -- unfold rs. apply in_map. apply filter_In. auto.
        -- apply Hin. apply in_app_iff. right. apply in_map. exact Hx.
      * rewrite (proj2 (Hd (eattr x))); [exact Hxy|].
        intros Hc. unfold rs in Hc. apply in_map_iff in Hc.
        destruct Hc as [e [Hex' Hin']]. apply filter_In in Hin'.
        destruct Hin' as [Hin' Hse].
        apply NoDup_app_remove_l in Hnd.
        assert (e = x) by (eapply NoDup_map_inj; eauto). subst. congruence.
    + exact Hnd.
  - unfold alloc. cbv beta iota zeta.
    match goal with
    | |- repr _ ?h1 _ =>
        destruct (read_grow h h1 go _ _
                    (fun r Hr => deref_grown h _ gh (EdgeDict a) r Hr) Hn He)
          as [Hn' He']
    end.
    eexists. split_ands.
    + apply (get_set_graph gh go _ (mkHeap (graphs h) (dicts h ++ [EdgeDict a]))).
      exact Hgo.
    + exact Hn'.
    + cbn [g_edges]. rewrite traverse_app, He'.
      cbn [traverse]. unfold read_edge at 1. unfold eattr at 1. cbn [snd fst].
      rewrite deref_grown_new. reflexivity.
    + cbn [g_nodes g_edges]. rewrite map_app, app_assoc. simpl.
      apply NoDup_snoc; [exact Hnd|].
      intros Hc. apply Hin in Hc. lia.
Qed.

Lemma repr_new_nodes gh ids :
  forall h Hv,
    repr gh h Hv ->
    repr gh (fold_left (fun h' n => new_node gh n h') ids h)
         (mkGraph (g_nodes Hv ++ map (fun n => (n, tt)) ids) (g_edges Hv)).
Proof.
  induction ids as [|n ids IH]; intros h Hv Hr; simpl.
  - rewrite app_nil_r. destruct Hv; exact Hr.
  - pose proof (IH _ _ (repr_new_node gh h Hv n Hr)) as Hr'.
    cbn [g_nodes g_edges] in Hr'. rewrite <- app_assoc in Hr'. exact Hr'.
Qed.

Lemma repr_links gh es :
  forall h Hv,
    repr gh h Hv ->
    repr gh (fold_left (fun h' e => link gh (eu e) (ev e) (eattr e) h') es h)
         (add_edges_from Hv es).
Proof.
  induction es as [|e es IH]; intros h Hv Hr; simpl; [exact Hr|].
  apply IH. apply repr_link. exact Hr.
Qed.

Lemma read_indexed_combine h (es : list (Edge ref)) (es' : list (Edge EdgeAttr)) :
  Forall2 (fun x y => read_edge h x = Some y) es es' ->
  forall k, Forall2 (read_indexed h) (combine (seq k (length es)) es)
                    (combine (seq k (length es')) es').
Proof.
  induction 1 as [|x y l l' Hxy H IH]; intros k; simpl; constructor.
  - split; [reflexivity | exact Hxy].
  - apply IH.
Qed.

Lemma Forall2_filter {A B : Type} (R : A -> B -> Prop) (p : A -> bool)
      (q : B -> bool) (l : list A) (l' : list B) :
  (forall x y, R x y -> p x = q y) ->
  Forall2 R l l' -> Forall2 R (filter p l) (filter q l').
Proof.
  intros Hpq. induction 1 as [|x y l l' Hxy H IH]; simpl; [constructor|].
  rewrite (Hpq x y Hxy). destruct (q y); [constructor|]; assumption.
Qed.

Lemma Forall2_map {A B C D : Type} (R : A -> B -> Prop) (R' : C -> D -> Prop)
      (f : A -> C) (g : B -> D) (l : list A) (l' : list B) :
  (forall x y, R x y -> R' (f x) (g y)) ->
  Forall2 R l l' -> Forall2 R' (map f l) (map g l').
Proof.
  intros Hfg. induction 1; simpl; constructor; auto.
Qed.

Lemma read_edge_view_from h ns :
  forall seen (ies : list (nat * Edge ref)) (ies' : list (nat * Edge EdgeAttr)),
    Forall2 (read_indexed h) ies ies' ->
    Forall2 (read_indexed h) (edge_view_from ns seen ies)
            (edge_view_from ns seen ies').
Proof.
  induction ns as [|n ns IH]; intros seen ies ies' H; simpl; [constructor|].
  apply Forall2_app; [|apply IH; exact H].
  eapply Forall2_map; [|eapply Forall2_filter; [|exact H]].
  - intros ix iy [Hi Hr]. split; [exact Hi|]. simpl.
    pose proof (read_edge_ends h _ _ Hr) as [Hu Hv].
    unfold read_edge in *. unfold other_end. rewrite Hu, Hv.
    unfold eattr at 1. simpl.
    destruct (deref h (eattr (snd ix))) as [[a| |]|]; try discriminate.
    injection Hr as <-. reflexivity.
  - intros ix iy [Hi Hr]. simpl.
    pose proof (read_edge_ends h _ _ Hr) as [Hu Hv].
    unfold incident, other_end. rewrite Hu, Hv. reflexivity.
Qed.

Lemma read_node_ids h (ns : list (node * ref)) (ns' : list (node * NodeAttr)) :
  traverse (read_node h) ns = Some ns' -> map fst ns = map fst ns'.
Proof.
  intros H. apply traverse_Forall2 in H.
  induction H as [|x y l l' Hxy H IH]; simpl; [reflexivity|].
  rewrite IH. f_equal. unfold read_node in Hxy.
  destruct (deref h (snd x)) as [[a|a|]|]; try discriminate.
  injection Hxy as <-. reflexivity.
Qed.

Lemma read_edges_view h (go : graph_obj) (Gv : Topology) :
  traverse (read_node h) (g_nodes go) = Some (g_nodes Gv) ->
  traverse (read_edge h) (g_edges go) = Some (g_edges Gv) ->
  traverse (read_edge h) (edges go) = Some (edges Gv).
Proof.
  intros Hn He. apply traverse_Forall2. apply traverse_Forall2 in He.
  unfold edges, edge_view, indexed, node_ids.
  rewrite (read_node_ids h _ _ Hn).
  eapply Forall2_map; [|apply read_edge_view_from, read_indexed_combine, He].
  intros ix iy [_ Hr]. exact Hr.
Qed.

Lemma isolated_new_nodes g gh h0 ids :
  g <> gh ->
  forall h, isolated g gh h0 h ->
            isolated g gh h0 (fold_left (fun h' n => new_node gh n h') ids h).
Proof.
  intros Hne. induction ids as [|n ids IH]; intros h Hi; simpl; auto.
  apply IH. apply isolated_new_node; assumption.
Qed.

Lemma isolated_links g gh h0 (es : list (Edge EdgeAttr)) :
  g <> gh ->
  forall h, isolated g gh h0 h ->
            isolated g gh h0
              (fold_left (fun h' e => link gh (eu e) (ev e) (eattr e) h') es h).
Proof.
  intros Hne. induction es as [|e es IH]; intros h Hi; simpl; auto.
  apply IH. apply isolated_link; assumption.
Qed.

(** The store-level function builds, as a new isolated object, what
    [add_edges_from] builds from the eligible edges read off [G]. *)
Lemma store_copy g h (Gv : Topology) :
  read_topology g h = Some Gv ->
  exists gh h1,
    Store.get_entangled_subgraph g h = Some (gh, h1)
    /\ g <> gh
    /\ repr gh h1
            (add_edges_from
               (mkGraph (map (fun x => (fst x, tt)) (g_nodes Gv)) [])
               (filter (fun e => e_entangled (eattr e)) (edges Gv)))
    /\ isolated g gh h h1.
Proof.
  intros Hread. unfold read_topology in Hread.
  unfold Store.get_entangled_subgraph.
  destruct (nth_error (graphs h) g) as [go|] eqn:Hgo; [|discriminate].
  destruct (traverse (read_node h) (g_nodes go)) as [ns|] eqn:Tn; [|discriminate].
  destruct (traverse (read_edge h) (g_edges go)) as [es|] eqn:Te; [|discriminate].
  injection Hread as <-.
  rewrite (read_edges_view h go (mkGraph ns es) Tn Te).
  assert (Hlt : g < length (graphs h)) by (apply nth_error_Some; congruence).
  set (gh := length (graphs h)).
  set (h0 := mkHeap (graphs h ++ [mkGraph [] []]) (dicts h)).
  assert (Hne : g <> gh) by (unfold gh; lia).
  assert (Hrep0 : repr gh h0 (mkGraph [] [])).
  { exists (mkGraph [] []). split_ands; try reflexivity; [|constructor].
    unfold h0, gh. simpl. rewrite nth_error_app2, Nat.sub_diag by lia.
    reflexivity. }
  assert (Hiso0 : isolated g gh h h0).
  { constructor; unfold h0, gh; simpl; auto.
    - apply nth_error_app1. exact Hlt.
    - intros go'. rewrite nth_error_app2, Nat.sub_diag by lia.
      intros [= <-]. constructor. }
  do 2 eexists. split; [reflexivity|]. split; [exact Hne|]. split.
  - apply repr_links.
    pose proof (repr_new_nodes gh (node_ids go) h0 _ Hrep0) as Hrep1.
    cbn [g_nodes g_edges app] in Hrep1.
    unfold node_ids in Hrep1 at 2. rewrite (read_node_ids h _ _ Tn) in Hrep1.
    rewrite map_map in Hrep1. exact Hrep1.
  - apply isolated_links; [exact Hne|].
    apply isolated_new_nodes; assumption.
Qed.

End Refinement.

(** ** What the entangled subgraph contains *)

Lemma add_edge_nodes {NA EA : Type} (G : Graph NA EA) u v upd :
  g_nodes (add_edge G u v upd) = g_nodes G.
Proof. unfold add_edge. destruct (has_edge G u v); reflexivity. Qed.

Lemma add_edges_from_nodes {NA EA : Type} (l : list (Edge EA)) :
  forall G : Graph NA EA, g_nodes (add_edges_from G l) = g_nodes G.
Proof.
  unfold add_edges_from. induction l as [|e l IH]; intros G; simpl; auto.
  rewrite IH. apply add_edge_nodes.
Qed.

Lemma same_edge_trans {EA EB : Type} u v (e : Edge EA) (e0 : Edge EB) :
  same_edge u v e = true -> same_edge (eu e) (ev e) e0 = true ->
  same_edge u v e0 = true.
Proof.
  rewrite !same_edge_iff. lia.
Qed.

Lemma same_edge_sym {EA EB : Type} (e : Edge EA) (e0 : Edge EB) :
  same_edge (eu e) (ev e) e0 = true -> same_edge (eu e0) (ev e0) e = true.
Proof.
  rewrite !same_edge_iff. lia.
Qed.

Lemma has_edge_add_edge {NA EA : Type} (G : Graph NA EA) x y upd u v :
  has_edge (add_edge G x y upd) u v
  = has_edge G u v || same_edge u v (x, y, upd None).
Proof.
  unfold add_edge. destruct (has_edge G x y) eqn:Hxy.
  - assert (Hkeep : has_edge (mkGraph (g_nodes G)
                       (map (fun e => if same_edge x y e
                                      then (eu e, ev e, upd (Some (eattr e)))
                                      else e) (g_edges G))) u v
                    = has_edge G u v).
    { unfold has_edge. simpl. induction (g_edges G) as [|e es IH]; simpl; auto.
      rewrite IH. f_equal. destruct (same_edge x y e); reflexivity. }
    rewrite Hkeep.
    destruct (same_edge u v (x, y, upd None)) eqn:Hs;
      [|rewrite orb_false_r; reflexivity].
    rewrite orb_true_r. unfold has_edge in *.
    apply existsb_exists in Hxy. destruct Hxy as [e [Hin He]].
    apply existsb_exists. exists e. split; [exact Hin|].
    apply same_edge_iff in Hs, He. apply same_edge_iff.
    unfold eu, ev in *. simpl in *. lia.
  - unfold has_edge. simpl. rewrite existsb_app. simpl.
    rewrite orb_false_r. reflexivity.
Qed.

Lemma has_edge_add_edges_from {NA EA : Type} (l : list (Edge EA)) u v :
  forall G : Graph NA EA,
    has_edge (add_edges_from G l) u v
    = has_edge G u v || existsb (same_edge u v) l.
Proof.
  unfold add_edges_from. induction l as [|e l IH]; intros G; simpl.
  - rewrite orb_false_r. reflexivity.
  - rewrite IH, has_edge_add_edge, <- orb_assoc. reflexivity.
Qed.

Lemma add_edges_from_data {NA EA : Type} (l : list (Edge EA)) :
  forall (G : Graph NA EA) e,
    In e (g_edges (add_edges_from G l)) ->
    In e (g_edges G)
    \/ exists e', In e' l /\ same_edge (eu e) (ev e) e' = true
                  /\ eattr e = eattr e'.
Proof.
  unfold add_edges_from. induction l as [|e' l IH]; intros G e He; simpl in *; auto.
  destruct (IH _ _ He) as [Hold|[e2 [H2 H3]]]; [|right; exists e2; tauto].
  unfold add_edge in Hold. destruct (has_edge G (eu e') (ev e')).
  - simpl in Hold. apply in_map_iff in Hold. destruct Hold as [x [Hx Hin]].
    destruct (same_edge (eu e') (ev e') x) eqn:Hs.
    + right. exists e'. subst e. split; [left; reflexivity|].
      split; [|reflexivity]. apply same_edge_sym in Hs. exact Hs.
    + left. subst. exact Hin.
  - simpl in Hold. apply in_app_iff in Hold. destruct Hold as [Hold|[<-|[]]]; auto.
    right. exists e'. split; [left; reflexivity|]. split; [|reflexivity].
    apply same_edge_iff. left. split; reflexivity.
Qed.

(** Every yielded edge is a stored edge, and every stored edge between
    nodes of the graph is yielded. *)
Lemma edges_sound {NA EA : Type} (G : Graph NA EA) e :
  In e (edges G) ->
  exists e0, In e0 (g_edges G) /\ same_edge (eu e) (ev e) e0 = true
             /\ eattr e = eattr e0.
Proof.
  unfold edges, edge_view. generalize (@nil node) as seen.
  induction (node_ids G) as [|n ns IH]; intros seen He; simpl in He; [tauto|].
  rewrite map_app, in_app_iff in He. destruct He as [He|He]; [|eauto].
  rewrite map_map in He. apply in_map_iff in He. destruct He as [[i e0] [<- Hin]].
  apply filter_In in Hin. destruct Hin as [Hin Hf]. simpl in *.
  apply In_indexed, nth_error_In in Hin.
  exists e0. split; [exact Hin|]. split; [|reflexivity].
  apply andb_true_iff in Hf. destruct Hf as [Hi _].
  unfold incident in Hi. apply orb_true_iff in Hi. rewrite !Nat.eqb_eq in Hi.
  apply same_edge_iff. unfold other_end, eu, ev. simpl.
  fold (eu e0) (ev e0). destruct (Nat.eqb_spec (eu e0) n); lia.
Qed.

Lemma edge_view_from_complete {EA : Type} (ies : list (nat * Edge EA)) i
      (e0 : Edge EA) ns :
  In (i, e0) ies ->
  forall seen,
    In (eu e0) ns \/ In (ev e0) ns ->
    ~ In (eu e0) seen -> ~ In (ev e0) seen ->
    exists e, In e (map snd (edge_view_from ns seen ies))
              /\ same_edge (eu e0) (ev e0) e = true /\ eattr e = eattr e0.
Proof.
  intros Hin. induction ns as [|n ns IH]; intros seen Hns Hu Hv; [simpl in Hns; tauto|].
  simpl. destruct (incident n e0) eqn:Hi.
  - exists (n, other_end n e0, eattr e0). split.
    + rewrite map_app, in_app_iff. left. rewrite map_map.
      apply in_map_iff. exists (i, e0). split; [reflexivity|].
      apply filter_In. split; [exact Hin|]. simpl. rewrite Hi. simpl.
      apply negb_true_iff. destruct (mem (other_end n e0) seen) eqn:M; auto.
      apply mem_In in M. unfold other_end in M.
      destruct (eu e0 =? n); contradiction.
    + split; [|reflexivity].
      unfold incident in Hi. apply orb_true_iff in Hi. rewrite !Nat.eqb_eq in Hi.
      apply same_edge_iff. unfold other_end, eu, ev. simpl.
      fold (eu e0) (ev e0). destruct (Nat.eqb_spec (eu e0) n); lia.
  - unfold incident in Hi. apply orb_false_iff in Hi. rewrite !Nat.eqb_neq in Hi.
    destruct (IH (n :: seen)) as [e [He Hs]].
    + simpl in Hns. destruct Hns as [[H|H]|[H|H]]; auto; lia.
    + simpl. intros [H|H]; [lia | contradiction].
    + simpl. intros [H|H]; [lia | contradiction].
    + exists e. split; [|exact Hs]. rewrite map_app, in_app_iff. right. exact He.
Qed.

Lemma edges_complete {NA EA : Type} (G : Graph NA EA) e0 :
  In e0 (g_edges G) ->
  In (eu e0) (node_ids G) ->
  exists e, In e (edges G) /\ same_edge (eu e0) (ev e0) e = true
            /\ eattr e = eattr e0.
Proof.
  intros Hin Hu. apply In_nth_error in Hin. destruct Hin as [i Hi].
  apply In_indexed in Hi.
  apply (edge_view_from_complete _ i e0 (node_ids G) Hi []); auto.
Qed.

Lemma entangled_subgraph_nodes (G : Topology) :
  node_ids (get_entangled_subgraph G) = node_ids G.
Proof.
  unfold get_entangled_subgraph, node_ids. rewrite add_edges_from_nodes.
  simpl. rewrite map_map. reflexivity.
Qed.

Lemma entangled_subgraph_edges (G : Topology) u v :
  (forall e, In e (g_edges G) -> In (eu e) (node_ids G)) ->
  has_edge (get_entangled_subgraph G) u v = true
  <-> exists e, In e (g_edges G) /\ same_edge u v e = true
                /\ e_entangled (eattr e) = true.
Proof.
  intros Hclosed. unfold get_entangled_subgraph.
  rewrite has_edge_add_edges_from. unfold has_edge at 1. simpl.
  rewrite existsb_exists. split.
  - intros [e [He Hs]]. apply filter_In in He. destruct He as [He Hent].
    destruct (edges_sound G e He) as [e0 [Hin [Hk Ha]]].
    exists e0. split; [exact Hin|]. split; [|congruence].
    eapply same_edge_trans; eauto.
  - intros [e0 [Hin [Hs Hent]]].
    destruct (edges_complete G e0 Hin (Hclosed e0 Hin)) as [e [He [Hk Ha]]].
    exists e. split; [|eapply same_edge_trans; eauto].
    apply filter_In. split; [exact He | congruence].
Qed.

Lemma entangled_subgraph_data (G : Topology) e :
  In e (g_edges (get_entangled_subgraph G)) ->
  exists e0, In e0 (g_edges G) /\ same_edge (eu e) (ev e) e0 = true
             /\ eattr e = eattr e0 /\ e_entangled (eattr e0) = true.
Proof.
  unfold get_entangled_subgraph. intros He.
  apply add_edges_from_data in He. destruct He as [[]|[e' [He' [Hk Ha]]]].
  apply filter_In in He'. destruct He' as [He' Hent].
  destruct (edges_sound G e' He') as [e0 [Hin [Hk0 Ha0]]].
  exists e0. split; [exact Hin|]. split; [eapply same_edge_trans; eauto|].
  split; congruence.
Qed.

(** C8.  Let the graph object [g] of a store read as the topology [Gv],
    whose edges join nodes of [Gv].  Then [get_entangled_subgraph]
    allocates a graph object that reads as the link graph the value-level
    function computes from [Gv]: it has the node set of [Gv]; two nodes
    are joined in it exactly when [Gv] has an entangled edge between them,
    and each of its edges carries the attributes of such an edge.  It is
    an independent copy: after any sequence of edge additions, edge
    removals and edge-attribute writes on the result, [g] still reads as
    [Gv], edge set and attributes. *)
Theorem entangled_subgraph_is_independent_copy :
  forall (h : Store.heap) (g : Store.ref) (Gv : Topology),
    Store.read_topology g h = Some Gv ->
    (forall e, In e (g_edges Gv) -> In (eu e) (node_ids Gv)) ->
    exists gh h1,
      Store.get_entangled_subgraph g h = Some (gh, h1)
      /\ Store.read_links gh h1 = Some (get_entangled_subgraph Gv)
      /\ node_ids (get_entangled_subgraph Gv) = node_ids Gv
      /\ (forall u v,
             has_edge (get_entangled_subgraph Gv) u v = true
             <-> exists e, In e (g_edges Gv) /\ same_edge u v e = true
                           /\ e_entangled (eattr e) = true)
      /\ (forall e,
             In e (g_edges (get_entangled_subgraph Gv)) ->
             exists e0, In e0 (g_edges Gv) /\ same_edge (eu e) (ev e) e0 = true
                        /\ eattr e = eattr e0 /\ e_entangled (eattr e0) = true)
      /\ (forall ms : list Store.mutation,
             Store.read_topology g (Store.mutate gh ms h1) = Some Gv).
Proof.
  intros h g Gv Hread Hclosed.
  destruct (store_copy g h Gv Hread) as [gh [h1 [Hcopy [Hne [Hrepr Hiso]]]]].
  exists gh, h1. split_ands.
  - exact Hcopy.
  - apply repr_read_links. exact Hrepr.
  - apply entangled_subgraph_nodes.
  - intros u v. apply entangled_subgraph_edges. exact Hclosed.
  - apply entangled_subgraph_data.
  - intros ms. eapply isolated_read; [|exact Hread].
    apply isolated_mutate; assumption.
Qed.

Lemma entangled_subgraph_is_independent_copy_witness :
  exists gh h1,
    Store.get_entangled_subgraph 0 demo_heap = Some (gh, h1)
    /\ Store.read_links gh h1
       = Some (get_entangled_subgraph (demo_pair true false 1%Q))
    /\ Store.read_topology
         0 (Store.mutate gh [Store.SetEdgeAttr 0 1 consume; Store.RemoveEdge 0 1] h1)
       = Some (demo_pair true false 1%Q).
Proof.
  destruct (entangled_subgraph_is_independent_copy
              demo_heap 0 (demo_pair true false 1%Q) eq_refl)
    as [gh [h1 [H1 [H2 [_ [_ [_ H3]]]]]]].
  - intros e [<-|[]]. left. reflexivity.
  - exists gh, h1. split; [exact H1|]. split; [exact H2|]. apply H3.
Defined.

(** ** Pruning: [remove_nodes] *)

Lemma filter_filter {A : Type} (f g : A -> bool) (l : list A) :
  filter f (filter g l) = filter (fun x => g x && f x) l.
Proof.
  induction l as [|x l IH]; simpl; auto.
  destruct (g x); simpl; [destruct (f x)|]; rewrite IH; reflexivity.
Qed.

Lemma filter_complement_length {A : Type} (f : A -> bool) (l : list A) :
  length (filter f l) + length (filter (fun x => negb (f x)) l) = length l.
Proof.
  induction l as [|x l IH]; simpl; auto.
  destruct (f x); simpl; lia.
Qed.

Lemma remove_loop_spec (min_usage : Q) (excluded : list node) items :
  forall (G : Topology) (count : Z),
    NoDup (map fst items) ->
    incl (map fst items) (node_ids G) ->
    remove_loop items min_usage excluded G count
    = (let R := map fst (filter (fun x => Qgt_bool min_usage (snd x)
                                          && negb (mem (fst x) excluded)) items) in
       (mkGraph (filter (fun x => negb (mem (fst x) R)) (g_nodes G))
                (filter (fun e => negb (existsb (fun n => incident n e) R))
                        (g_edges G)),
        (count + Z.of_nat (length R))%Z, None)).
Proof.
  induction items as [|[n usage] rest IH]; intros G count Hnd Hin.
  - cbn. rewrite !filter_all by reflexivity. rewrite Z.add_0_r.
    destruct G; reflexivity.
  - cbn [remove_loop map fst snd filter] in *.
    inversion Hnd as [|? ? Hn Hrest]; subst.
    assert (Hin' : incl (map fst rest) (node_ids G))
      by (intros x Hx; apply Hin; right; exact Hx).
    destruct (Qgt_bool min_usage usage && negb (mem n excluded)) eqn:Hc.
    + unfold remove_node, has_node.
      assert (Hm : mem n (node_ids G) = true)
        by (apply mem_In, Hin; left; reflexivity).
      rewrite Hm. rewrite IH; auto.
      * cbn [map fst length g_nodes g_edges]. rewrite !filter_filter.
        apply (f_equal (fun p => (p, @None exn))).
        apply f_equal2; [apply f_equal2|lia].
        -- apply filter_ext. intros x. cbn [mem existsb].
           unfold mem. cbn [existsb]. rewrite negb_orb. reflexivity.
        -- apply filter_ext. intros e. cbn [existsb].
           rewrite negb_orb. reflexivity.
      * intros x Hx. unfold node_ids. cbn [g_nodes].
        specialize (Hin' x Hx). unfold node_ids in Hin'.
        apply in_map_iff in Hin'. destruct Hin' as [y [Hy1 Hy2]].
        apply in_map_iff. exists y. split; auto.
        apply filter_In. split; auto.
        apply negb_true_iff, Nat.eqb_neq. intros E. apply Hn. subst x. rewrite <- E. exact Hx.
    + apply IH; auto.
Qed.

Lemma doomed_is_not_spared (min_usage : Q) (excluded : list node)
      (x : node * NodeAttr) :
  Qgt_bool min_usage (n_usage_fraction (snd x)) && negb (mem (fst x) excluded)
  = negb (spared min_usage excluded x).
Proof.
  unfold spared, Qgt_bool. rewrite negb_orb. reflexivity.
Qed.

Lemma mem_removed (min_usage : Q) (excluded : list node)
      (ns : list (node * NodeAttr)) (x : node * NodeAttr) :
  NoDup (map fst ns) -> In x ns ->
  mem (fst x) (map fst (filter (fun y => negb (spared min_usage excluded y)) ns))
  = negb (spared min_usage excluded x).
Proof.
  intros Hnd Hx.
  destruct (spared min_usage excluded x) eqn:E; cbn [negb].
  - destruct (mem _ _) eqn:M; auto.
    apply mem_In, in_map_iff in M. destruct M as [y [Hy1 Hy2]].
    apply filter_In in Hy2. destruct Hy2 as [Hy2 Hy3].
    assert (y = x).
    { destruct x as [a b], y as [a' b']. cbn in Hy1. subst a'.
      f_equal. apply (In_map_fst_unique ns a b' b Hnd Hy2 Hx). }
    subst y. rewrite E in Hy3. discriminate.
  - apply mem_In, in_map_iff. exists x. split; auto.
    apply filter_In. split; auto. rewrite E. reflexivity.
Qed.

Lemma existsb_removed (min_usage : Q) (excluded : list node) (e : Edge EdgeAttr)
      (ns : list (node * NodeAttr)) :
  negb (existsb (fun n => incident n e)
                (map fst (filter (fun y => negb (spared min_usage excluded y)) ns)))
  = forallb (fun x => spared min_usage excluded x || negb (incident (fst x) e)) ns.
Proof.
  induction ns as [|x ns IH]; cbn [filter map existsb forallb]; auto.
  destruct (spared min_usage excluded x); cbn [negb map existsb orb andb].
  - exact IH.
  - rewrite negb_orb, IH. reflexivity.
Qed.

Lemma remove_nodes_closed_form (G : Topology) (min_usage : Q)
      (excluded_nodes : option (list node)) :
  NoDup (node_ids G) ->
  remove_nodes G min_usage excluded_nodes
  = (mkGraph (filter (spared min_usage (exclusion excluded_nodes)) (g_nodes G))
             (filter (edge_spared min_usage (exclusion excluded_nodes) G)
                     (g_edges G)),
     Ok (Z.of_nat (length (g_nodes G))
         - Z.of_nat (length (filter (spared min_usage (exclusion excluded_nodes))
                                    (g_nodes G))))%Z).
Proof.
  intros Hnd. unfold remove_nodes. fold (exclusion excluded_nodes).
  set (ex := exclusion excluded_nodes).
  rewrite remove_loop_spec.
  - cbv zeta.
    assert (HR : map fst (filter (fun x : node * Q =>
                                    Qgt_bool min_usage (snd x)
                                    && negb (mem (fst x) ex))
                                 (map (fun x : node * NodeAttr =>
                                         (fst x, n_usage_fraction (snd x)))
                                      (g_nodes G)))
                 = map fst (filter (fun y => negb (spared min_usage ex y))
                                   (g_nodes G))).
    { clear Hnd. induction (g_nodes G) as [|x l IH]; cbn [map filter fst snd]; auto.
      rewrite <- doomed_is_not_spared.
      destruct (Qgt_bool _ _ && _); cbn [map fst]; rewrite IH; reflexivity. }
    rewrite HR. apply f_equal2; [apply f_equal2|].
    + apply filter_ext_in. intros x Hx. rewrite mem_removed by assumption.
      apply negb_involutive.
    + apply filter_ext. intros e. apply existsb_removed.
    + f_equal. rewrite length_map.
      pose proof (filter_complement_length (spared min_usage ex) (g_nodes G)).
      lia.
  - rewrite map_map. exact Hnd.
  - rewrite map_map. apply incl_refl.
Qed.
Lemma spared_iff (min_usage : Q) (excluded : list node) (x : node * NodeAttr) :
  spared min_usage excluded x = true
  <-> (min_usage <= n_usage_fraction (snd x))%Q \/ In (fst x) excluded.
Proof.
  unfold spared. rewrite orb_true_iff, Qle_bool_iff, mem_In. reflexivity.
Qed.

(** X1.  On a graph with distinct node ids [remove_nodes] does not raise.
    It keeps, in their order and with their attributes, exactly the nodes
    whose [usage_fraction] is at least [min_usage] or that are excluded,
    and it returns the number of nodes it removed. *)
Theorem remove_nodes_removes_low_usage :
  forall (G : Topology) (min_usage : Q) (excluded_nodes : option (list node)),
    NoDup (node_ids G) ->
    exists G',
      remove_nodes G min_usage excluded_nodes
      = (G', Ok (Z.of_nat (length (g_nodes G)) - Z.of_nat (length (g_nodes G')))%Z)
      /\ g_nodes G'
         = filter (spared min_usage (exclusion excluded_nodes)) (g_nodes G)
      /\ (forall n a,
             In (n, a) (g_nodes G')
             <-> In (n, a) (g_nodes G)
                 /\ ((min_usage <= n_usage_fraction a)%Q
                     \/ In n (exclusion excluded_nodes))).
Proof.
  intros G min_usage excluded_nodes Hnd.
  rewrite (remove_nodes_closed_form G min_usage excluded_nodes Hnd).
  exists (mkGraph (filter (spared min_usage (exclusion excluded_nodes))
                          (g_nodes G))
                  (filter (edge_spared min_usage (exclusion excluded_nodes) G)
                          (g_edges G))).
  cbn [g_nodes]. split; [reflexivity|]. split; [reflexivity|].
  intros n a. rewrite filter_In, spared_iff. reflexivity.
Qed.

Lemma remove_nodes_removes_low_usage_witness :
  exists G',
    remove_nodes demo_usage (1 # 2)%Q None = (G', Ok 1%Z)
    /\ node_ids G' = [1; 2].
Proof.
  destruct (remove_nodes_removes_low_usage demo_usage (1 # 2)%Q None)
    as [G' [H1 [H2 _]]].
  - unfold demo_usage, node_ids. cbn.
    repeat constructor; cbn; intuition congruence.
  - exists G'. split.
    + rewrite H1, H2. reflexivity.
    + unfold node_ids. rewrite H2. reflexivity.
Defined.

(** X2.  [remove_nodes] takes out an edge exactly when it takes out one of
    its ends: the edges left are, in their order and with their data,
    those whose ends among the nodes of the graph were all kept.  A graph
    whose edges join nodes of the graph stays such a graph. *)
Theorem remove_nodes_drops_incident_edges :
  forall (G : Topology) (min_usage : Q) (excluded_nodes : option (list node)),
    NoDup (node_ids G) ->
    g_edges (fst (remove_nodes G min_usage excluded_nodes))
    = filter (edge_spared min_usage (exclusion excluded_nodes) G) (g_edges G)
    /\ (forall e,
           In e (g_edges (fst (remove_nodes G min_usage excluded_nodes)))
           <-> In e (g_edges G)
               /\ forall n a,
                   In (n, a) (g_nodes G) -> incident n e = true ->
                   In (n, a) (g_nodes (fst (remove_nodes G min_usage
                                                         excluded_nodes))))
    /\ ((forall e, In e (g_edges G) ->
                   has_node G (eu e) = true /\ has_node G (ev e) = true) ->
        forall e,
          In e (g_edges (fst (remove_nodes G min_usage excluded_nodes))) ->
          has_node (fst (remove_nodes G min_usage excluded_nodes)) (eu e) = true
          /\ has_node (fst (remove_nodes G min_usage excluded_nodes)) (ev e)
             = true).
Proof.
  intros G min_usage excluded_nodes Hnd.
  rewrite (remove_nodes_closed_form G min_usage excluded_nodes Hnd).
  cbn [fst g_edges g_nodes].
  set (ex := exclusion excluded_nodes).
  assert (Hiff : forall e,
             In e (filter (edge_spared min_usage ex G) (g_edges G))
             <-> In e (g_edges G)
                 /\ forall n a,
                     In (n, a) (g_nodes G) -> incident n e = true ->
                     In (n, a) (filter (spared min_usage ex) (g_nodes G))).
  { intros e. rewrite filter_In. unfold edge_spared. rewrite forallb_forall.
    split; intros [He H]; split; auto.
    - intros n a Hna Hinc. apply filter_In. split; auto.
      specialize (H (n, a) Hna). cbn [fst] in H. rewrite Hinc in H.
      cbn [negb] in H. rewrite orb_false_r in H. exact H.
    - intros [n a] Hna. cbn [fst].
      destruct (incident n e) eqn:Hinc; cbn [negb].
      + rewrite orb_false_r.
        specialize (H n a Hna Hinc). apply filter_In in H. apply H.
      + apply orb_true_r. }
  split; [reflexivity|]. split; [exact Hiff|].
  intros Hclosed e He. apply Hiff in He. destruct He as [He Hkept].
  destruct (Hclosed e He) as [Hu Hv].
  unfold has_node, node_ids in *. cbn [g_nodes].
  split.
  - apply mem_In, in_map_iff in Hu. destruct Hu as [[n a] [E Hna]].
    cbn [fst] in E. subst n.
    apply mem_In, in_map_iff. exists (eu e, a). split; auto.
    apply Hkept; auto. unfold incident. rewrite Nat.eqb_refl. reflexivity.
  - apply mem_In, in_map_iff in Hv. destruct Hv as [[n a] [E Hna]].
    cbn [fst] in E. subst n.
    apply mem_In, in_map_iff. exists (ev e, a). split; auto.
    apply Hkept; auto. unfold incident. rewrite Nat.eqb_refl.
    apply orb_true_r.
Qed.

Lemma remove_nodes_drops_incident_edges_witness :
  g_edges (fst (remove_nodes demo_usage (1 # 2)%Q None))
  = [(1, 2, demo_edge false 1%Q)].
Proof.
  destruct (remove_nodes_drops_incident_edges demo_usage (1 # 2)%Q None)
    as [H _].
  - unfold demo_usage, node_ids. cbn.
    repeat constructor; cbn; intuition congruence.
  - rewrite H. reflexivity.
Defined.

(** X3.  Pruning is idempotent: on a graph with distinct node ids, a
    second [remove_nodes] with the same arguments removes nothing and
    returns 0. *)
Theorem remove_nodes_twice :
  forall (G : Topology) (min_usage : Q) (excluded_nodes : option (list node)),
    NoDup (node_ids G) ->
    remove_nodes (fst (remove_nodes G min_usage excluded_nodes)) min_usage
                 excluded_nodes
    = (fst (remove_nodes G min_usage excluded_nodes), Ok 0%Z).
Proof.
  intros G min_usage excluded_nodes Hnd.
  rewrite (remove_nodes_closed_form G min_usage excluded_nodes Hnd).
  cbn [fst]. set (ex := exclusion excluded_nodes).
  rewrite remove_nodes_closed_form.
  - cbn [g_nodes g_edges].
    assert (Hn : filter (spared min_usage ex)
                        (filter (spared min_usage ex) (g_nodes G))
                 = filter (spared min_usage ex) (g_nodes G)).
    { rewrite filter_filter. apply filter_ext. intros x.
      destruct (spared min_usage ex x); reflexivity. }
    fold ex. rewrite Hn. rewrite Z.sub_diag.
    apply (f_equal (fun g => (g, Ok 0%Z))). apply f_equal2; [reflexivity|].
    rewrite filter_filter. apply filter_ext. intros e.
    destruct (edge_spared min_usage ex G e) eqn:E; cbn [andb]; auto.
    unfold edge_spared in *. cbn [g_nodes].
    rewrite forallb_forall in *. intros x Hx. apply filter_In in Hx.
    apply E, Hx.
  - unfold node_ids. cbn [g_nodes]. apply NoDup_map_fst_filter. exact Hnd.
Qed.

Lemma remove_nodes_twice_witness :
  remove_nodes (fst (remove_nodes demo_usage (1 # 2)%Q None)) (1 # 2)%Q None
  = (fst (remove_nodes demo_usage (1 # 2)%Q None), Ok 0%Z).
Proof.
  apply remove_nodes_twice.
  unfold demo_usage, node_ids. cbn.
  repeat constructor; cbn; intuition congruence.
Defined.
(** ** The timestep: what it leaves alone *)

Lemma edge_loop_Forall2 (R : Edge EdgeAttr -> Edge EdgeAttr -> Prop) ks :
  (forall r x y, R x y -> R x (on_attr (edge_update r) y)) ->
  forall es0 es edge,
    Forall2 R es0 es -> Forall2 R es0 (fst (edge_loop ks es edge)).
Proof.
  intros HR. induction ks as [|[i r] ks IH]; intros es0 es edge H; cbn; auto.
  apply IH. apply Forall2_update_nth; auto.
Qed.

Lemma node_loop_Forall2 (R : Edge EdgeAttr -> Edge EdgeAttr -> Prop) edge ns :
  (forall x y, R x y -> R x (on_attr (set_e_age 0%Z) y)) ->
  forall es0 es,
    Forall2 R es0 es -> Forall2 R es0 (snd (fst (node_loop edge ns es))).
Proof.
  intros HR. induction ns as [|[name nd] ns IH]; intros es0 es H; cbn; auto.
  destruct (Qle_bool _ _).
  - destruct edge as [i|]; cbn; auto.
    specialize (IH es0 (update_nth i (on_attr (set_e_age 0%Z)) es)).
    destruct (node_loop (Some i) ns _) as [[ns' es'] err]. cbn in *.
    apply IH. apply Forall2_update_nth; auto.
  - specialize (IH es0 es).
    destruct (node_loop edge ns es) as [[ns' es'] err]. cbn in *. auto.
Qed.

Lemma node_loop_nodes (R : node * NodeAttr -> node * NodeAttr -> Prop) edge ns :
  (forall x, R x x) ->
  (forall x, R x (fst x, node_update (snd x))) ->
  forall es, Forall2 R ns (fst (fst (node_loop edge ns es))).
Proof.
  intros Hrefl Hupd. induction ns as [|[name nd] ns IH]; intros es; cbn.
  - constructor.
  - pose proof (Hupd (name, nd)) as Hx. unfold node_update in Hx. cbn in Hx.
    destruct (Qle_bool _ _).
    + destruct edge as [i|]; cbn.
      * specialize (IH (update_nth i (on_attr (set_e_age 0%Z)) es)).
        destruct (node_loop (Some i) ns _) as [[ns' es'] err]. cbn in *.
        constructor; auto.
      * constructor; auto. apply Forall2_refl_on. exact Hrefl.
    + specialize (IH es).
      destruct (node_loop edge ns es) as [[ns' es'] err]. cbn in *.
      constructor; auto.
Qed.

Lemma same_link_refl e : same_link e e.
Proof. unfold same_link. auto. Qed.

Lemma same_link_trans e1 e2 e3 : same_link e1 e2 -> same_link e2 e3 -> same_link e1 e3.
Proof. unfold same_link. intuition congruence. Qed.

Lemma same_site_refl x : same_site x x.
Proof. unfold same_site. auto. Qed.

Lemma same_site_trans x1 x2 x3 : same_site x1 x2 -> same_site x2 x3 -> same_site x1 x3.
Proof. unfold same_site. intuition congruence. Qed.

Lemma same_link_edge_update r x y :
  same_link x y -> same_link x (on_attr (edge_update r) y).
Proof.
  intros H. apply (same_link_trans _ _ _ H).
  unfold same_link, on_attr, edge_update, edge_generate, edge_decohere, eu, ev, eattr.
  destruct y as [[u v] a]. cbn.
  destruct (e_entangled a) eqn:E1; cbn.
  - destruct (Qle_bool _ _); cbn;
      repeat match goal with |- context [if ?c then _ else _] => destruct c; cbn end;
      auto.
  - rewrite E1. cbn.
    repeat match goal with |- context [if ?c then _ else _] => destruct c; cbn end;
      auto.
Qed.

Lemma same_link_age_reset x y :
  same_link x y -> same_link x (on_attr (set_e_age 0%Z) y).
Proof.
  intros H. apply (same_link_trans _ _ _ H).
  unfold same_link, on_attr, eu, ev, eattr. destruct y as [[u v] a]. cbn. auto.
Qed.

Lemma node_settles_refl x : node_settles x x.
Proof. unfold node_settles, same_site. auto. Qed.

Lemma node_settles_update x : node_settles x (fst x, node_update (snd x)).
Proof.
  destruct x as [n a]. unfold node_settles, same_site, node_update. cbn.
  destruct (n_entangled a) eqn:E; cbn;
    destruct (Qle_bool _ _); cbn; rewrite ?E; auto 10.
Qed.

Lemma Forall2_impl {A B : Type} (R R' : A -> B -> Prop) (l : list A) (l' : list B) :
  (forall x y, R x y -> R' x y) -> Forall2 R l l' -> Forall2 R' l l'.
Proof. intros H. induction 1; constructor; auto. Qed.

Lemma Forall2_trans {A : Type} (R : A -> A -> Prop) :
  (forall x y z, R x y -> R y z -> R x z) ->
  forall l1 l2 l3, Forall2 R l1 l2 -> Forall2 R l2 l3 -> Forall2 R l1 l3.
Proof.
  intros HR l1 l2 l3 H. revert l3.
  induction H; intros l3 H3; inversion H3; subst; constructor; eauto.
Qed.

Lemma same_layout_refl G : same_layout G G.
Proof.
  split; apply Forall2_refl_on; [apply same_site_refl|apply same_link_refl].
Qed.

Lemma same_layout_trans G1 G2 G3 :
  same_layout G1 G2 -> same_layout G2 G3 -> same_layout G1 G3.
Proof.
  intros [A1 B1] [A2 B2]. split.
  - eapply Forall2_trans; eauto using same_site_trans.
  - eapply Forall2_trans; eauto using same_link_trans.
Qed.

Lemma step_edges_same_link G used nodes rng :
  Forall2 same_link (g_edges G)
          (g_edges (so_graph (run_entanglement_step G used nodes rng))).
Proof.
  unfold run_entanglement_step. cbn [np_random_rand].
  pose proof (edge_loop_Forall2 same_link
                (combine (edge_order G) (map rng (seq 0 (number_of_edges G))))
                same_link_edge_update (g_edges G) (g_edges G) None
                (Forall2_refl_on _ _ same_link_refl)) as He.
  destruct (edge_loop _ (g_edges G) None) as [es edge]. cbn [fst] in He.
  destruct nodes; [|exact He].
  pose proof (node_loop_Forall2 same_link edge (g_nodes G)
                same_link_age_reset (g_edges G) es He) as Hn.
  destruct (node_loop edge (g_nodes G) es) as [[ns es'] err]. cbn [fst snd] in Hn.
  destruct err; cbn; auto.
  destruct (age_paths used) as [used1 [x|]]; cbn; auto.
  destruct (live_paths ns used1); cbn; auto.
Qed.

Lemma step_nodes_settle G used nodes rng :
  Forall2 node_settles (g_nodes G)
          (g_nodes (so_graph (run_entanglement_step G used nodes rng))).
Proof.
  unfold run_entanglement_step. cbn [np_random_rand].
  destruct (edge_loop _ (g_edges G) None) as [es edge].
  destruct nodes; [|apply Forall2_refl_on, node_settles_refl].
  pose proof (node_loop_nodes node_settles edge (g_nodes G)
                node_settles_refl node_settles_update es) as Hn.
  destruct (node_loop edge (g_nodes G) es) as [[ns es'] err]. cbn [fst snd] in Hn.
  destruct err; cbn; auto.
  destruct (age_paths used) as [used1 [x|]]; cbn; auto.
  destruct (live_paths ns used1); cbn; auto.
Qed.

Lemma step_same_layout G used nodes rng :
  same_layout G (so_graph (run_entanglement_step G used nodes rng)).
Proof.
  split.
  - eapply Forall2_impl; [|apply step_nodes_settle].
    intros x y H. apply H.
  - apply step_edges_same_link.
Qed.

(** X4.  A timestep changes nothing but the link state.  Whatever its
    arguments, and also when it raises, the graph it leaves has the same
    nodes and the same edges in the same places, every edge with its
    length, [p_edge] and [Qc], every node with its [Qc] and usage
    counters; no node becomes entangled by it; and it draws one random
    number per edge.  Without the [nodes] flag it leaves nodes and used
    paths alone and does not raise. *)
Theorem step_frame :
  forall (G : Topology) (used_nodes : list UsedPath) (nodes : bool)
         (rng : RandomSource),
    same_layout G (so_graph (run_entanglement_step G used_nodes nodes rng))
    /\ Forall2 node_settles (g_nodes G)
               (g_nodes (so_graph (run_entanglement_step G used_nodes nodes rng)))
    /\ (forall i, so_rng (run_entanglement_step G used_nodes nodes rng) i
                  = rng (number_of_edges G + i))
    /\ (nodes = false ->
        g_nodes (so_graph (run_entanglement_step G used_nodes nodes rng))
        = g_nodes G
        /\ so_used (run_entanglement_step G used_nodes nodes rng) = used_nodes
        /\ so_exn (run_entanglement_step G used_nodes nodes rng) = None).
Proof.
  intros G used nodes rng.
  split; [apply step_same_layout|]. split; [apply step_nodes_settle|]. split.
  - intros i. unfold run_entanglement_step. cbn [np_random_rand].
    destruct (edge_loop _ (g_edges G) None) as [es edge].
    destruct nodes; [|reflexivity].
    destruct (node_loop edge (g_nodes G) es) as [[ns es'] err].
    destruct err; cbn; auto.
    destruct (age_paths used) as [used1 [x|]]; cbn; auto.
    destruct (live_paths ns used1); cbn; auto.
  - intros ->. unfold run_entanglement_step. cbn [np_random_rand].
    destruct (edge_loop _ (g_edges G) None) as [es edge]. cbn. auto.
Qed.
(** ** The timestep: used paths and the unbound loop variable *)

Lemma expires_iff (nd : NodeAttr) :
  Qle_bool (n_Qc (if n_entangled nd then set_n_age (n_age nd + 1)%Z nd else nd))
           (inject_Z (n_age (if n_entangled nd
                             then set_n_age (n_age nd + 1)%Z nd else nd)))
  = true <-> expires nd.
Proof.
  unfold expires. rewrite Qle_bool_iff. destruct (n_entangled nd); cbn; reflexivity.
Qed.

Lemma node_loop_total edge ns :
  edge <> None \/ Forall (fun x => ~ expires (snd x)) ns ->
  forall es,
    fst (fst (node_loop edge ns es))
    = map (fun x => (fst x, node_update (snd x))) ns
    /\ snd (node_loop edge ns es) = None.
Proof.
  intros [Hedge|Hall].
  - destruct edge as [i|]; [|congruence]. intros es. apply node_loop_bound.
  - induction ns as [|[name nd] ns IH]; intros es; cbn; auto.
    inversion Hall as [|? ? Hx Hrest]; subst. cbn [snd] in Hx.
    unfold node_update.
    destruct (Qle_bool _ _) eqn:Q.
    + apply expires_iff in Q. contradiction.
    + specialize (IH Hrest es).
      destruct (node_loop edge ns es) as [[ns' es'] err]. cbn in *.
      destruct IH as [-> ->]. auto.
Qed.

Lemma node_loop_unbound ns :
  Exists (fun x => expires (snd x)) ns ->
  forall es, snd (node_loop None ns es) = Some UnboundLocalError.
Proof.
  induction 1 as [[name nd] ns Hx|[name nd] ns Hex IH]; intros es; cbn.
  - cbn [snd] in Hx. apply expires_iff in Hx. rewrite Hx. reflexivity.
  - destruct (Qle_bool _ _); [reflexivity|].
    specialize (IH es). destruct (node_loop None ns es) as [[ns' es'] err].
    exact IH.
Qed.

Lemma age_paths_raises ps x : snd (age_paths ps) = Some x -> x = KeyError.
Proof.
  induction ps as [|p ps IH]; cbn; [discriminate|].
  destruct (up_age p); cbn; [|congruence].
  destruct (age_paths ps) as [rest err]. cbn in *. exact IH.
Qed.

Lemma live_paths_raises ns ps x : live_paths ns ps = Raise x -> x = KeyError.
Proof.
  induction ps as [|p ps IH]; cbn; [discriminate|].
  destruct (up_age p); [|congruence].
  destruct (up_destination_node p); [|congruence].
  destruct (lookup_node ns n); [|congruence].
  destruct (live_paths ns ps); cbn; [discriminate|].
  intros E. apply IH. congruence.
Qed.

Lemma age_paths_spec ps :
  (Forall (fun p => up_age p <> None) ps -> age_paths ps = (map aged ps, None))
  /\ (~ Forall (fun p => up_age p <> None) ps -> snd (age_paths ps) = Some KeyError).
Proof.
  induction ps as [|p ps [IH1 IH2]]; cbn.
  - split; auto. intros H. exfalso. apply H. constructor.
  - destruct (up_age p) as [a|] eqn:E.
    + split.
      * intros H. inversion H; subst. rewrite IH1 by assumption.
        unfold aged. rewrite E. reflexivity.
      * intros H. destruct (age_paths ps) as [rest err]. cbn in *.
        apply IH2. intros H'. apply H. constructor; [congruence|exact H'].
    + split; auto. intros H. inversion H; subst. congruence.
Qed.

Lemma lookup_node_map {NA : Type} (f : NA -> NA) (ns : list (node * NA)) d :
  lookup_node (map (fun x => (fst x, f (snd x))) ns) d
  = option_map f (lookup_node ns d).
Proof.
  unfold lookup_node. induction ns as [|[n a] ns IH]; cbn; auto.
  destruct (n =? d); cbn; auto.
Qed.

Lemma lookup_node_some {NA : Type} (ns : list (node * NA)) d :
  In d (map fst ns) <-> exists a, lookup_node ns d = Some a.
Proof.
  unfold lookup_node. induction ns as [|[n a] ns IH]; cbn.
  - split; [tauto|]. intros [a H]; discriminate.
  - destruct (n =? d) eqn:E.
    + apply Nat.eqb_eq in E. split; [intros _; cbn; eauto|auto].
    + apply Nat.eqb_neq in E. rewrite <- IH. tauto.
Qed.

Lemma node_update_Qc nd : n_Qc (node_update nd) = n_Qc nd.
Proof.
  unfold node_update. destruct (n_entangled nd); cbn;
    destruct (Qle_bool _ _); reflexivity.
Qed.

Lemma live_paths_spec (G : Topology) qs :
  (Forall (path_ok G) qs ->
   live_paths (map (fun x => (fst x, node_update (snd x))) (g_nodes G)) qs
   = Ok (filter (outlives (g_nodes G)) qs))
  /\ (~ Forall (path_ok G) qs ->
      live_paths (map (fun x => (fst x, node_update (snd x))) (g_nodes G)) qs
      = Raise KeyError).
Proof.
  induction qs as [|p ps [IH1 IH2]]; cbn [map live_paths filter].
  - split; auto. intros H. exfalso. apply H. constructor.
  - split.
    + intros H. inversion H as [|? ? [a [d [Ha [Hd Hin]]]] Hrest]; subst.
      unfold outlives. rewrite Ha, Hd. rewrite lookup_node_map.
      apply lookup_node_some in Hin. destruct Hin as [nd Hnd]. rewrite Hnd.
      cbn [option_map]. rewrite IH1 by assumption. cbn [bind].
      rewrite node_update_Qc. reflexivity.
    + intros Hbad.
      destruct (up_age p) as [a|] eqn:Ha; [|reflexivity].
      destruct (up_destination_node p) as [d|] eqn:Hd; [|reflexivity].
      rewrite lookup_node_map.
      destruct (lookup_node (g_nodes G) d) as [nd|] eqn:Hnd; [|reflexivity].
      cbn [option_map]. rewrite IH2; auto.
      intros Hall. apply Hbad. constructor; auto.
      exists a, d. split; auto. split; auto.
      apply lookup_node_some. eauto.
Qed.

Lemma path_ok_aged G p : path_ok G (aged p) <-> path_ok G p.
Proof.
  unfold path_ok, aged. cbn. split; intros [a [d [Ha H]]].
  - destruct (up_age p) as [a0|]; [|discriminate]. eauto.
  - rewrite Ha. cbn. eauto.
Qed.

Lemma paths_ok_aged G ps : Forall (path_ok G) (map aged ps) <-> Forall (path_ok G) ps.
Proof.
  rewrite Forall_map. split; apply Forall_impl; intros p; apply path_ok_aged.
Qed.

Lemma path_ok_age G ps :
  Forall (path_ok G) ps -> Forall (fun p => up_age p <> None) ps.
Proof.
  apply Forall_impl. intros p [a [d [Ha _]]]. congruence.
Qed.

Lemma Some_not_None {A : Type} (a : A) : Some a <> None.
Proof. discriminate. Qed.

Lemma step_edge_variable (G : Topology) (rng : RandomSource) :
  edge_order G <> [] ->
  snd (edge_loop (combine (edge_order G) (map rng (seq 0 (number_of_edges G))))
                 (g_edges G) None) <> None.
Proof.
  intros Hne.
  assert (Hks : combine (edge_order G) (map rng (seq 0 (number_of_edges G))) <> []).
  { destruct (edge_order G) as [|i l] eqn:E; [congruence|].
    assert (Hi : i < length (g_edges G)).
    { apply (edge_view_from_bound (node_ids G) [] (g_edges G)).
      unfold edge_order, edge_view in E. rewrite E. left; reflexivity. }
    unfold number_of_edges. destruct (length (g_edges G)); [lia|]. discriminate. }
  destruct (edge_loop_bound _ (g_edges G) None Hks) as [i Hi].
  rewrite Hi. discriminate.
Qed.

Lemma step_used_paths_cases (G : Topology) (used_nodes : list UsedPath)
      (rng : RandomSource) :
  edge_order G <> [] \/ Forall (fun x => ~ expires (snd x)) (g_nodes G) ->
  (Forall (path_ok G) used_nodes ->
   so_exn (run_entanglement_step G used_nodes true rng) = None
   /\ so_used (run_entanglement_step G used_nodes true rng)
      = filter (outlives (g_nodes G)) (map aged used_nodes))
  /\ (~ Forall (path_ok G) used_nodes ->
      so_exn (run_entanglement_step G used_nodes true rng) = Some KeyError).
Proof.
  revert G used_nodes rng. intros G used rng Hpre.
  unfold run_entanglement_step. cbn [np_random_rand].
  assert (Hedge : snd (edge_loop (combine (edge_order G)
                                          (map rng (seq 0 (number_of_edges G))))
                                 (g_edges G) None) <> None
                  \/ Forall (fun x => ~ expires (snd x)) (g_nodes G)).
  { destruct Hpre as [H|H]; [left; apply step_edge_variable; exact H|right; exact H]. }
  destruct (edge_loop _ (g_edges G) None) as [es edge]. cbn [snd] in Hedge.
  destruct (node_loop_total edge (g_nodes G) Hedge es) as [Hns Herr].
  destruct (node_loop edge (g_nodes G) es) as [[ns es'] err]. cbn [fst snd] in *.
  subst ns err.
  destruct (age_paths_spec used) as [A1 A2].
  split.
  - intros Hok. rewrite (A1 (path_ok_age G used Hok)).
    destruct (live_paths_spec G (map aged used)) as [L1 _].
    rewrite L1 by (apply paths_ok_aged; exact Hok). cbn. auto.
  - intros Hbad.
    destruct (age_paths used) as [used1 [x|]] eqn:Eage.
    + cbn. f_equal. apply (age_paths_raises used). rewrite Eage. reflexivity.
    + assert (Hage : Forall (fun p => up_age p <> None) used).
      { destruct (Forall_Exists_dec (fun p => up_age p <> None)
                    (fun p => match up_age p as o
                                    return {o <> None} + {~ o <> None} with
                              | Some a => left (@Some_not_None Z a)
                              | None => right (fun H => H eq_refl)
                              end) used) as [H|H]; auto.
        exfalso. apply Exists_Forall_neg in H.
        - specialize (A2 H). cbn in A2. discriminate.
        - intros p. destruct (up_age p); [left; discriminate|right; tauto]. }
      specialize (A1 Hage). inversion A1; subst used1.
      destruct (live_paths_spec G (map aged used)) as [_ L2].
      rewrite L2; [reflexivity|].
      intros H. apply Hbad, paths_ok_aged, H.
Qed.
Lemma outlives_young (ns : list (node * NodeAttr)) (p : UsedPath) :
  outlives ns p = true ->
  exists a d nd,
    up_age p = Some a /\ up_destination_node p = Some d
    /\ lookup_node ns d = Some nd /\ (inject_Z a < n_Qc nd)%Q.
Proof.
  unfold outlives.
  destruct (up_age p) as [a|]; [|discriminate].
  destruct (up_destination_node p) as [d|]; [|discriminate].
  destruct (lookup_node ns d) as [nd|] eqn:E; [|discriminate].
  intros H. apply Qgt_bool_iff in H. exists a, d, nd. auto.
Qed.

(** X5.  With the [nodes] flag, and unless the node loop fails on the
    unbound [edge], the timestep ages every used path by one and keeps,
    in order, those whose new age is below the [Qc] of their destination;
    every path it keeps is younger than the [Qc] of its destination.
    That holds when every path has an age and a destination in the graph;
    otherwise the step raises [KeyError]. *)
Theorem step_ages_used_paths :
  forall (G : Topology) (used_nodes : list UsedPath) (rng : RandomSource),
    edge_order G <> [] \/ Forall (fun x => ~ expires (snd x)) (g_nodes G) ->
    (Forall (path_ok G) used_nodes ->
     so_exn (run_entanglement_step G used_nodes true rng) = None
     /\ so_used (run_entanglement_step G used_nodes true rng)
        = filter (outlives (g_nodes G)) (map aged used_nodes)
     /\ Forall (fun p => exists a d nd,
                    up_age p = Some a /\ up_destination_node p = Some d
                    /\ lookup_node (g_nodes G) d = Some nd
                    /\ (inject_Z a < n_Qc nd)%Q)
               (so_used (run_entanglement_step G used_nodes true rng)))
    /\ (~ Forall (path_ok G) used_nodes ->
        so_exn (run_entanglement_step G used_nodes true rng) = Some KeyError).
Proof.
  intros G used rng Hpre.
  destruct (step_used_paths_cases G used rng Hpre) as [A B].
  split; [|exact B].
  intros Hok. destruct (A Hok) as [A1 A2].
  split; [exact A1|]. split; [exact A2|].
  rewrite A2. apply Forall_forall. intros p Hp.
  apply filter_In in Hp. destruct Hp as [_ Hp].
  apply outlives_young. exact Hp.
Qed.

Lemma step_ages_used_paths_witness :
  so_exn (run_entanglement_step (demo_pair true false 2%Q)
                                [mkUsedPath [] 1%Z (Some 0%Z) (Some 1)] true half)
  = None
  /\ so_used (run_entanglement_step (demo_pair true false 2%Q)
                                    [mkUsedPath [] 1%Z (Some 0%Z) (Some 1)]
                                    true half)
     = [].
Proof.
  destruct (step_ages_used_paths (demo_pair true false 2%Q)
              [mkUsedPath [] 1%Z (Some 0%Z) (Some 1)] half) as [H _].
  - left. vm_compute. discriminate.
  - destruct H as [H1 [H2 _]].
    + constructor; [|constructor]. exists 0%Z, 1. cbn. auto.
    + split; [exact H1|]. rewrite H2. reflexivity.
Defined.

Lemma expires_dec (nd : NodeAttr) : {expires nd} + {~ expires nd}.
Proof.
  unfold expires.
  destruct (Qlt_le_dec
              (inject_Z (if n_entangled nd then n_age nd + 1 else n_age nd)%Z)
              (n_Qc nd)) as [H|H]; [right|left; exact H].
  intros H'. apply (Qlt_not_le _ _ H H').
Qed.

(** X6.  The timestep raises [UnboundLocalError] exactly when it is run
    with the [nodes] flag on a graph whose edge view is empty and some
    node reaches its [Qc]: line 41 then assigns through the loop variable
    [edge], which the empty edge loop never bound.  The used paths are as
    they were when that happens. *)
Theorem step_unbound_edge_variable :
  forall (G : Topology) (used_nodes : list UsedPath) (nodes : bool)
         (rng : RandomSource),
    (so_exn (run_entanglement_step G used_nodes nodes rng)
     = Some UnboundLocalError
     <-> nodes = true /\ edge_order G = []
         /\ Exists (fun x => expires (snd x)) (g_nodes G))
    /\ (so_exn (run_entanglement_step G used_nodes nodes rng)
        = Some UnboundLocalError ->
        so_used (run_entanglement_step G used_nodes nodes rng) = used_nodes).
Proof.
  intros G used_nodes nodes rng.
  assert (Hback : nodes = true -> edge_order G = [] ->
                  Exists (fun x => expires (snd x)) (g_nodes G) ->
                  so_exn (run_entanglement_step G used_nodes nodes rng)
                  = Some UnboundLocalError
                  /\ so_used (run_entanglement_step G used_nodes nodes rng)
                     = used_nodes).
  { intros -> He Hex. unfold run_entanglement_step. cbn [np_random_rand].
    rewrite He. cbn [combine edge_loop].
    pose proof (node_loop_unbound (g_nodes G) Hex (g_edges G)) as Hn.
    destruct (node_loop None (g_nodes G) (g_edges G)) as [[ns es'] err].
    cbn [snd] in Hn. subst err. cbn. auto. }
  assert (Hforth : so_exn (run_entanglement_step G used_nodes nodes rng)
                   = Some UnboundLocalError ->
                   nodes = true /\ edge_order G = []
                   /\ Exists (fun x => expires (snd x)) (g_nodes G)).
  { intros H. destruct nodes.
    - assert (Hpre : ~ (edge_order G <> []
                        \/ Forall (fun x => ~ expires (snd x)) (g_nodes G))).
      { intros Hpre.
        destruct (step_used_paths_cases G used_nodes rng Hpre) as [A B].
        assert (Hnn : ~ ~ Forall (path_ok G) used_nodes).
        { intros Hbad. rewrite (B Hbad) in H. discriminate. }
        apply Hnn. intros Hok. destruct (A Hok) as [A1 _].
        rewrite A1 in H. discriminate. }
      split; [reflexivity|]. split.
      + destruct (edge_order G); [reflexivity|].
        exfalso. apply Hpre. left. discriminate.
      + destruct (Forall_Exists_dec (fun x : node * NodeAttr => ~ expires (snd x))
                    (fun x => match expires_dec (snd x) with
                              | left H => right (fun H' => H' H)
                              | right H => left H
                              end) (g_nodes G)) as [Hall|Hex].
        * exfalso. apply Hpre. right. exact Hall.
        * eapply Exists_impl; [|exact Hex]. intros x Hx. cbn in Hx.
          destruct (expires_dec (snd x)); tauto.
    - unfold run_entanglement_step in H. cbn [np_random_rand] in H.
      destruct (edge_loop _ (g_edges G) None) as [es edge]. discriminate. }
  split.
  - split; [exact Hforth|]. intros [H1 [H2 H3]]. apply Hback; auto.
  - intros H. destruct (Hforth H) as [H1 [H2 H3]]. apply Hback; auto.
Qed.

Lemma step_unbound_edge_variable_witness :
  so_exn (run_entanglement_step (mkGraph [(0, demo_node true)] []) [] true half)
  = Some UnboundLocalError.
Proof.
  apply (step_unbound_edge_variable (mkGraph [(0, demo_node true)] []) [] true half).
  split; [reflexivity|]. split; [reflexivity|].
  constructor. unfold expires. cbn. unfold Qle. cbn. lia.
Defined.
(** ** Runs: the shape of the result *)

Lemma timestep_loop_time (sp : Strategy) users nodes cf n :
  forall t G used links rng t',
    to_time (timestep_loop sp users nodes cf n t G used links rng) = Ok t' ->
    t' = (-1)%Z \/ (t + 1 <= t' <= t + Z.of_nat n)%Z.
Proof.
  induction n as [|n IH]; intros t G used links rng t'; cbn [timestep_loop].
  - cbn. intros E. left. congruence.
  - destruct (so_exn _); [discriminate|].
    destruct (sp _ _ _ _ _) as [[G1 used1] [[|]|x]]; [| |discriminate].
    + destruct (add_usage used1 G1 links) as [[G2 links'] [x|]]; cbn;
        [discriminate|].
      intros E. right. inversion E. lia.
    + intros E. apply IH in E. destruct E as [E|E]; [left; exact E|right; lia].
Qed.

Lemma trial_loop_times (sp : Strategy) users timesteps nodes cf n :
  forall G links times rng times',
    snd (trial_loop sp users timesteps nodes cf n G links times rng) = Ok times' ->
    exists new, times' = times ++ new /\ length new = n
                /\ Forall (time_entry timesteps) new.
Proof.
  induction n as [|n IH]; intros G links times rng times'; cbn [trial_loop].
  - cbn. intros E. exists []. rewrite app_nil_r. split; [congruence|]. auto.
  - destruct (to_time _) as [t|x] eqn:Et; [|discriminate].
    intros E. apply IH in E. destruct E as [new [E1 [E2 E3]]].
    exists (t :: new). rewrite <- app_assoc in E1. cbn in E1.
    split; [exact E1|]. split; [cbn; lia|]. constructor; auto.
    apply timestep_loop_time in Et. unfold time_entry.
    destruct Et as [Et|Et]; [left; exact Et|right]. lia.
Qed.

Lemma time_entries_count (timesteps : Z) (times : list Z) :
  Forall (time_entry timesteps) times ->
  (0 <= success_count times <= success_sum times)%Z
  /\ ((timesteps <= 0)%Z -> success_count times = 0%Z).
Proof.
  unfold success_count, success_sum.
  induction 1 as [|t l Ht Hl [IH1 IH2]]; cbn [filter length fold_right].
  - split; [cbn; lia|reflexivity].
  - destruct Ht as [->|Ht].
    + cbn. auto.
    + assert (E : (t =? -1)%Z = false) by (apply Z.eqb_neq; lia).
      rewrite E. cbn [negb length fold_right]. split; [lia|]. intros. lia.
Qed.

Lemma rate_in_unit_interval (timesteps : Z) (times : list Z) rate :
  Forall (time_entry timesteps) times ->
  _multipartite_rate times timesteps = Ok rate ->
  exists q, rate = Finite q /\ (0 <= q)%Q /\ (q <= 1)%Q.
Proof.
  intros Hall. rewrite rate_cases.
  destruct (time_entries_count timesteps times Hall) as [[H0 H1] H2].
  pose proof (failure_count_nonneg times) as Hf.
  destruct (denominator times timesteps =? 0)%Z eqn:Ed.
  - apply Z.eqb_eq in Ed. unfold denominator in Ed.
    destruct (success_count times =? 0)%Z eqn:Es; [discriminate|].
    apply Z.eqb_neq in Es. exfalso.
    destruct (Z_le_gt_dec timesteps 0) as [Hts|Hts]; [apply Es, H2, Hts|].
    assert (0 <= failure_count times * timesteps)%Z by nia. lia.
  - apply Z.eqb_neq in Ed. intros E. inversion E; subst rate. eexists.
    split; [reflexivity|].
    destruct (Z_le_gt_dec timesteps 0) as [Hts|Hts].
    + rewrite (H2 Hts). unfold Qdiv. rewrite Qmult_0_l. split; [apply Qle_refl|].
      unfold Qle. cbn. lia.
    + assert (Hd : (success_count times <= denominator times timesteps)%Z).
      { unfold denominator.
        assert (0 <= failure_count times * timesteps)%Z by nia. lia. }
      assert (Hpos : (0 < denominator times timesteps)%Z) by lia.
      assert (HposQ : (0 < inject_Z (denominator times timesteps))%Q).
      { rewrite <- (Zlt_Qlt 0). exact Hpos. }
      split.
      * apply Qle_shift_div_l; [exact HposQ|]. rewrite Qmult_0_l.
        rewrite <- (Zle_Qle 0). exact H0.
      * apply Qle_shift_div_r; [exact HposQ|]. rewrite Qmult_1_l.
        rewrite <- Zle_Qle. exact Hd.
Qed.

(** X7.  What a run returns, for any strategy and any arguments: there is
    one time per repetition, each either [-1] or a timestep number between
    1 and [timesteps]; the rate is a finite number between 0 and 1 (never
    [inf]); and a positive number of repetitions was asked for. *)
Theorem run_protocol_result_shape :
  forall (G : Topology) (users : list node) (timesteps reps : Z)
         (success_protocol : Strategy) (nodes count_fusion : bool)
         (rng : RandomSource) (rate : pyfloat) (times : list Z) (avg : Q),
    ro_result (_run_protocol G users timesteps reps success_protocol nodes
                             count_fusion rng)
    = Ok (rate, times, avg) ->
    (0 < reps)%Z
    /\ Z.of_nat (length times) = reps
    /\ Forall (time_entry timesteps) times
    /\ exists q, rate = Finite q /\ (0 <= q)%Q /\ (q <= 1)%Q.
Proof.
  intros G users timesteps reps sp nodes cf rng rate times avg.
  unfold _run_protocol.
  destruct (reps <? 0)%Z eqn:Eneg; [discriminate|]. apply Z.ltb_ge in Eneg.
  pose proof (trial_loop_times sp users timesteps nodes cf (Z.to_nat reps)
                (reset_graph_usage G) 0%Z [] rng) as Ht.
  destruct (trial_loop _ _ _ _ _ _ _ _ _ _) as [[[G1 rng1] links] [ts|x]];
    [|discriminate].
  cbn [snd] in Ht. destruct (Ht ts eq_refl) as [new [E1 [E2 E3]]].
  cbn [app] in E1. subst new.
  destruct (_multipartite_rate ts timesteps) as [r|x] eqn:Er; [|discriminate].
  destruct (update_graph_usage G1 reps) as [G2 [x|]]; [discriminate|].
  destruct (reps =? 0)%Z eqn:E0; [discriminate|]. apply Z.eqb_neq in E0.
  cbn. intros E. inversion E; subst.
  split; [lia|]. split; [rewrite E2; lia|]. split; [exact E3|].
  apply (rate_in_unit_interval timesteps times); auto.
Qed.

Lemma run_protocol_result_shape_witness :
  Forall (time_entry 1) [1%Z]
  /\ exists q, Finite 1%Q = Finite q /\ (0 <= q)%Q /\ (q <= 1)%Q.
Proof.
  destruct (run_protocol_result_shape (demo_pair false false 1%Q) [0; 1] 1 1
              _SD_protocol true false half (Finite 1%Q) [1%Z] 1%Q)
    as [_ [_ [H1 H2]]].
  - vm_compute. reflexivity.
  - split; [exact H1|exact H2].
Defined.
(** ** Runs: what they leave alone *)

Lemma Forall2_map_same {A : Type} (R : A -> A -> Prop) (f : A -> A) (l : list A) :
  (forall x, R x (f x)) -> Forall2 R l (map f l).
Proof. intros H. induction l; cbn; constructor; auto. Qed.

Lemma same_layout_nodes (G : Topology) ns :
  Forall2 same_site (g_nodes G) ns -> same_layout G (mkGraph ns (g_edges G)).
Proof.
  intros H. split; [exact H|]. apply Forall2_refl_on, same_link_refl.
Qed.

Lemma same_layout_edges (G : Topology) es :
  Forall2 same_link (g_edges G) es -> same_layout G (mkGraph (g_nodes G) es).
Proof.
  intros H. split; [|exact H]. apply Forall2_refl_on, same_site_refl.
Qed.

Lemma same_layout_set_node (G : Topology) n (f : NodeAttr -> NodeAttr) :
  (forall a, n_Qc (f a) = n_Qc a) -> same_layout G (set_node G n f).
Proof.
  intros Hf. apply same_layout_nodes. apply Forall2_map_same.
  intros [m a]. cbn. destruct (m =? n); [|apply same_site_refl].
  split; cbn; auto.
Qed.

Lemma same_layout_set_edge (G : Topology) u v (f : EdgeAttr -> EdgeAttr) :
  (forall e, same_link e (on_attr f e)) -> same_layout G (set_edge G u v f).
Proof.
  intros Hf. apply same_layout_edges. apply Forall2_map_same.
  intros e. destruct (same_edge u v e); [apply Hf|apply same_link_refl].
Qed.

Lemma same_link_consume e : same_link e (on_attr consume e).
Proof.
  destruct e as [[u v] a]. unfold same_link, on_attr, consume, eu, ev, eattr.
  cbn. auto.
Qed.

Lemma same_layout_reset_state (G : Topology) : same_layout G (reset_graph_state G).
Proof.
  unfold reset_graph_state, map_nodes, map_edges. cbn. split; cbn.
  - apply Forall2_map_same. intros [n a]. split; reflexivity.
  - apply Forall2_map_same. intros [[u v] a]. unfold same_link, eu, ev, eattr.
    cbn. auto.
Qed.

Lemma same_layout_reset_usage (G : Topology) : same_layout G (reset_graph_usage G).
Proof.
  unfold reset_graph_usage, map_nodes. apply same_layout_nodes.
  apply Forall2_map_same. intros [n a]. split; reflexivity.
Qed.

Lemma same_layout_update_usage (G : Topology) reps :
  same_layout G (fst (update_graph_usage G reps)).
Proof.
  unfold update_graph_usage.
  destruct (g_nodes G) eqn:E; [apply same_layout_refl|].
  destruct (reps =? 0)%Z; [apply same_layout_refl|]. cbn [fst].
  unfold map_nodes. apply same_layout_nodes.
  apply Forall2_map_same. intros [n a]. split; reflexivity.
Qed.

Lemma same_layout_count_nodes ns :
  forall G : Topology, same_layout G (fst (count_nodes ns G)).
Proof.
  induction ns as [|n ns IH]; intros G; cbn; [apply same_layout_refl|].
  destruct (has_node G n); [|apply same_layout_refl].
  eapply same_layout_trans; [|apply IH].
  apply same_layout_set_node. reflexivity.
Qed.

Lemma same_layout_add_usage ps :
  forall (G : Topology) links, same_layout G (fst (fst (add_usage ps G links))).
Proof.
  induction ps as [|p ps IH]; intros G links; cbn; [apply same_layout_refl|].
  pose proof (same_layout_count_nodes (up_nodes p) G) as Hc.
  destruct (count_nodes (up_nodes p) G) as [G1 [x|]]; cbn in *; auto.
  eapply same_layout_trans; [exact Hc|apply IH].
Qed.

Lemma same_layout_timestep_loop (sp : Strategy) users nodes cf n :
  keeps_layout sp ->
  forall t G used links rng,
    same_layout G (to_graph (timestep_loop sp users nodes cf n t G used links rng)).
Proof.
  intros Hsp. induction n as [|n IH]; intros t G used links rng;
    cbn [timestep_loop]; [apply same_layout_refl|].
  pose proof (step_same_layout G used nodes rng) as Hs.
  destruct (so_exn _); [exact Hs|].
  pose proof (Hsp (so_graph (run_entanglement_step G used nodes rng))
                  (get_entangled_subgraph
                     (so_graph (run_entanglement_step G used nodes rng)))
                  users (so_used (run_entanglement_step G used nodes rng)) cf)
    as Hp.
  destruct (sp _ _ _ _ _) as [[G1 used1] [[|]|x]]; cbn [fst] in Hp.
  - pose proof (same_layout_add_usage used1 G1 links) as Ha.
    destruct (add_usage used1 G1 links) as [[G2 links'] [x|]]; cbn in *;
      eapply same_layout_trans; eauto; eapply same_layout_trans; eauto.
  - eapply same_layout_trans; [exact Hs|].
    eapply same_layout_trans; [exact Hp|apply IH].
  - cbn. eapply same_layout_trans; eauto.
Qed.

Lemma same_layout_trial_loop (sp : Strategy) users timesteps nodes cf n :
  keeps_layout sp ->
  forall G links times rng,
    same_layout G (fst (fst (fst (trial_loop sp users timesteps nodes cf n G
                                             links times rng)))).
Proof.
  intros Hsp. induction n as [|n IH]; intros G links times rng;
    cbn [trial_loop]; [apply same_layout_refl|].
  pose proof (same_layout_timestep_loop sp users nodes cf (Z.to_nat timesteps)
                Hsp 0%Z (reset_graph_state G) [] links rng) as Ht.
  assert (Ht' : same_layout G
                  (to_graph (timestep_loop sp users nodes cf (Z.to_nat timesteps)
                               0%Z (reset_graph_state G) [] links rng))).
  { eapply same_layout_trans; [apply same_layout_reset_state|exact Ht]. }
  destruct (to_time _) as [t|x]; cbn [fst]; [|exact Ht'].
  eapply same_layout_trans; [exact Ht'|apply IH].
Qed.

Lemma same_layout_run (sp : Strategy) G users timesteps reps nodes cf rng :
  keeps_layout sp ->
  same_layout G (ro_graph (_run_protocol G users timesteps reps sp nodes cf rng)).
Proof.
  intros Hsp. unfold _run_protocol.
  pose proof (same_layout_reset_usage G) as H0.
  destruct (reps <? 0)%Z; [exact H0|].
  pose proof (same_layout_trial_loop sp users timesteps nodes cf (Z.to_nat reps)
                Hsp (reset_graph_usage G) 0%Z [] rng) as H1.
  destruct (trial_loop _ _ _ _ _ _ _ _ _ _) as [[[G1 rng1] links] [ts|x]];
    cbn [fst] in H1; [|cbn; eapply same_layout_trans; eauto].
  assert (H01 : same_layout G G1) by (eapply same_layout_trans; eauto).
  destruct (_multipartite_rate ts timesteps) as [r|x]; [|exact H01].
  pose proof (same_layout_update_usage G1 reps) as H2.
  destruct (update_graph_usage G1 reps) as [G2 [x|]]; cbn [fst] in H2;
    [cbn; eapply same_layout_trans; eauto|].
  destruct (reps =? 0)%Z; cbn; eapply same_layout_trans; eauto.
Qed.

Lemma same_layout_swap_along hs :
  forall (G : Topology) (H : LinkGraph),
    same_layout G (fst (fst (swap_along hs G H))).
Proof.
  induction hs as [|[u v] hs IH]; intros G H; cbn; [apply same_layout_refl|].
  destruct (remove_edge H u v) as [H1|x]; [|apply same_layout_refl].
  destruct (find_edge G u v); [|apply same_layout_refl].
  eapply same_layout_trans; [|apply IH].
  apply same_layout_set_edge. apply same_link_consume.
Qed.

Lemma same_layout_create_bell_pair G H path used :
  same_layout G (po_graph (_create_bell_pair G H path used)).
Proof.
  unfold _create_bell_pair.
  pose proof (same_layout_swap_along (hops path) G H) as Hs.
  destruct (swap_along (hops path) G H) as [[G1 H1] [x|]]; cbn [fst] in Hs;
    [exact Hs|].
  destruct (path_last path) as [d|]; [|exact Hs].
  destruct (has_node G1 d); [|exact Hs]. cbn.
  eapply same_layout_trans; [exact Hs|].
  apply same_layout_set_node. reflexivity.
Qed.

Lemma same_layout_sd_loop s ds :
  forall G H used, same_layout G (po_graph (sd_loop s ds G H used)).
Proof.
  induction ds as [|d ds IH]; intros G H used; cbn [sd_loop];
    [apply same_layout_refl|].
  destruct (lookup_node (g_nodes G) d) as [nd|]; [|apply same_layout_refl].
  destruct (n_entangled nd); [apply IH|].
  destruct (has_path H s d) as [[|]|x]; [|apply IH|apply same_layout_refl].
  destruct (shortest_path H s d) as [path|x]; [|apply same_layout_refl].
  pose proof (same_layout_create_bell_pair G H path used) as Hc.
  destruct (po_exn (_create_bell_pair G H path used)); [exact Hc|].
  eapply same_layout_trans; [exact Hc|apply IH].
Qed.

Lemma SD_keeps_layout : keeps_layout _SD_protocol.
Proof.
  intros G H users used cf. unfold _SD_protocol.
  destruct users as [|s ds]; [apply same_layout_refl|].
  pose proof (same_layout_sd_loop s ds G H used) as Hl.
  destruct (po_exn _); exact Hl.
Qed.

Lemma CC_keeps_layout steiner_tree : keeps_layout (_CC_protocol steiner_tree).
Proof.
  intros G H users used cf. unfold _CC_protocol.
  destruct users as [|u0 rest]; [apply same_layout_refl|].
  destruct (node_connected_component H u0) as [CC|x]; [|apply same_layout_refl].
  destruct (negb _); apply same_layout_refl.
Qed.

(** X8.  A run of the greedy or of the cooperative protocol never changes
    the network it is given, only its state: whatever the arguments, and
    also when the run raises, the graph it leaves has the same nodes and
    edges in the same places, every edge with its length, [p_edge] and
    [Qc] and every node with its [Qc]. *)
Theorem protocols_keep_the_layout :
  forall (steiner_tree : LinkGraph -> list node -> LinkGraph)
         (G : Topology) (users : list node) (timesteps reps : Z)
         (count_fusion : bool) (rng : RandomSource),
    same_layout G (ro_graph (MPG_protocol G users timesteps reps count_fusion rng))
    /\ same_layout G (ro_graph (MPC_protocol steiner_tree G users timesteps reps
                                             count_fusion rng)).
Proof.
  intros st G users timesteps reps cf rng. split.
  - apply same_layout_run, SD_keeps_layout.
  - apply same_layout_run, CC_keeps_layout.
Qed.
(** ** Runs: the age invariant *)

Lemma links_ok_step G used nodes rng :
  links_ok G -> links_ok (so_graph (run_entanglement_step G used nodes rng)).
Proof.
  unfold links_ok. apply step_edges_Forall.
  - intros r [[u v] a]. unfold on_attr, eattr. cbn. apply edge_update_ok.
  - intros [[u v] a]. unfold on_attr, eattr. cbn. apply edge_stale_reset_ok.
Qed.

Lemma edge_ok_rested (a : EdgeAttr) :
  (1 <= e_Qc a)%Q -> edge_ok (set_e_age 0%Z (set_e_entangled false a)).
Proof.
  intros H. split; [exact H|]. split; cbn; [reflexivity|discriminate].
Qed.

Lemma links_ok_reset_state (G : Topology) :
  Forall (fun e => (1 <= e_Qc (eattr e))%Q) (g_edges G) ->
  links_ok (reset_graph_state G).
Proof.
  unfold links_ok, reset_graph_state, map_nodes, map_edges. cbn.
  intros H. apply Forall_map. eapply Forall_impl; [|exact H].
  intros [[u v] a]. unfold eattr. cbn. apply edge_ok_rested.
Qed.

Lemma links_ok_Qc (G : Topology) :
  links_ok G -> Forall (fun e => (1 <= e_Qc (eattr e))%Q) (g_edges G).
Proof. apply Forall_impl. intros e H. apply H. Qed.

Lemma count_nodes_edges ns :
  forall G : Topology, g_edges (fst (count_nodes ns G)) = g_edges G.
Proof.
  induction ns as [|n ns IH]; intros G; cbn; auto.
  destruct (has_node G n); cbn; auto. rewrite IH. reflexivity.
Qed.

Lemma add_usage_edges ps :
  forall (G : Topology) links,
    g_edges (fst (fst (add_usage ps G links))) = g_edges G.
Proof.
  induction ps as [|p ps IH]; intros G links; cbn; auto.
  pose proof (count_nodes_edges (up_nodes p) G) as Hc.
  destruct (count_nodes (up_nodes p) G) as [G1 [x|]]; cbn in *; auto.
  rewrite IH. exact Hc.
Qed.

Lemma update_graph_usage_edges (G : Topology) reps :
  g_edges (fst (update_graph_usage G reps)) = g_edges G.
Proof.
  unfold update_graph_usage. destruct (g_nodes G); auto.
  destruct (reps =? 0)%Z; auto.
Qed.

Lemma links_ok_timestep_loop (sp : Strategy) users nodes cf n :
  keeps_links_ok sp ->
  forall t G used links rng,
    links_ok G ->
    links_ok (to_graph (timestep_loop sp users nodes cf n t G used links rng)).
Proof.
  intros Hsp. induction n as [|n IH]; intros t G used links rng HG;
    cbn [timestep_loop]; [exact HG|].
  pose proof (links_ok_step G used nodes rng HG) as Hs.
  destruct (so_exn _); [exact Hs|].
  pose proof (Hsp (so_graph (run_entanglement_step G used nodes rng))
                  (get_entangled_subgraph
                     (so_graph (run_entanglement_step G used nodes rng)))
                  users (so_used (run_entanglement_step G used nodes rng)) cf Hs)
    as Hp.
  destruct (sp _ _ _ _ _) as [[G1 used1] [[|]|x]]; cbn [fst] in Hp.
  - pose proof (add_usage_edges used1 G1 links) as Ha.
    destruct (add_usage used1 G1 links) as [[G2 links'] [x|]]; cbn in *;
      unfold links_ok; rewrite Ha; exact Hp.
  - apply IH. exact Hp.
  - exact Hp.
Qed.

Lemma links_ok_trial_loop (sp : Strategy) users timesteps nodes cf n :
  keeps_links_ok sp ->
  forall G links times rng,
    Forall (fun e => (1 <= e_Qc (eattr e))%Q) (g_edges G) ->
    n <> 0 ->
    links_ok (fst (fst (fst (trial_loop sp users timesteps nodes cf n G
                                        links times rng)))).
Proof.
  intros Hsp. induction n as [|n IH]; intros G links times rng HG Hn;
    [congruence|]. cbn [trial_loop].
  pose proof (links_ok_timestep_loop sp users nodes cf (Z.to_nat timesteps)
                Hsp 0%Z (reset_graph_state G) [] links rng
                (links_ok_reset_state G HG)) as Ht.
  destruct (to_time _) as [t|x]; cbn [fst]; [|exact Ht].
  destruct n as [|n']; [exact Ht|].
  apply IH; [|discriminate]. apply links_ok_Qc. exact Ht.
Qed.

Lemma links_ok_run (sp : Strategy) G users timesteps reps nodes cf rng :
  keeps_links_ok sp ->
  (0 < reps)%Z ->
  Forall (fun e => (1 <= e_Qc (eattr e))%Q) (g_edges G) ->
  links_ok (ro_graph (_run_protocol G users timesteps reps sp nodes cf rng)).
Proof.
  intros Hsp Hreps HG. unfold _run_protocol.
  destruct (reps <? 0)%Z eqn:E; [apply Z.ltb_lt in E; lia|].
  assert (Hn : Z.to_nat reps <> 0) by lia.
  pose proof (links_ok_trial_loop sp users timesteps nodes cf (Z.to_nat reps)
                Hsp (reset_graph_usage G) 0%Z [] rng HG Hn) as H1.
  destruct (trial_loop _ _ _ _ _ _ _ _ _ _) as [[[G1 rng1] links] [ts|x]];
    cbn [fst] in H1; [|exact H1].
  destruct (_multipartite_rate ts timesteps) as [r|x]; [|exact H1].
  pose proof (update_graph_usage_edges G1 reps) as H2.
  destruct (update_graph_usage G1 reps) as [G2 [x|]]; cbn [fst] in H2.
  - cbn. unfold links_ok. rewrite H2. exact H1.
  - destruct (reps =? 0)%Z; cbn; unfold links_ok; rewrite H2; exact H1.
Qed.

Lemma edge_ok_consume (a : EdgeAttr) : edge_ok a -> edge_ok (consume a).
Proof. intros [H _]. apply edge_ok_rested. exact H. Qed.

Lemma links_ok_set_edge (G : Topology) u v :
  links_ok G -> links_ok (set_edge G u v consume).
Proof.
  unfold links_ok, set_edge. cbn. intros H. apply Forall_map.
  eapply Forall_impl; [|exact H]. intros [[x y] a] Ha.
  destruct (same_edge u v (x, y, a)); [|exact Ha].
  unfold on_attr, eattr in *. cbn in *. apply edge_ok_consume. exact Ha.
Qed.

Lemma links_ok_swap_along hs :
  forall (G : Topology) (H : LinkGraph),
    links_ok G -> links_ok (fst (fst (swap_along hs G H))).
Proof.
  induction hs as [|[u v] hs IH]; intros G H HG; cbn; [exact HG|].
  destruct (remove_edge H u v) as [H1|x]; [|exact HG].
  destruct (find_edge G u v); [|exact HG].
  apply IH. apply links_ok_set_edge. exact HG.
Qed.

Lemma links_ok_create_bell_pair G H path used :
  links_ok G -> links_ok (po_graph (_create_bell_pair G H path used)).
Proof.
  intros HG. unfold _create_bell_pair.
  pose proof (links_ok_swap_along (hops path) G H HG) as Hs.
  destruct (swap_along (hops path) G H) as [[G1 H1] [x|]]; cbn [fst] in Hs;
    [exact Hs|].
  destruct (path_last path) as [d|]; [|exact Hs].
  destruct (has_node G1 d); exact Hs.
Qed.

Lemma links_ok_sd_loop s ds :
  forall G H used, links_ok G -> links_ok (po_graph (sd_loop s ds G H used)).
Proof.
  induction ds as [|d ds IH]; intros G H used HG; cbn [sd_loop]; [exact HG|].
  destruct (lookup_node (g_nodes G) d) as [nd|]; [|exact HG].
  destruct (n_entangled nd); [apply IH; exact HG|].
  destruct (has_path H s d) as [[|]|x]; [|apply IH; exact HG|exact HG].
  destruct (shortest_path H s d) as [path|x]; [|exact HG].
  pose proof (links_ok_create_bell_pair G H path used HG) as Hc.
  destruct (po_exn (_create_bell_pair G H path used)); [exact Hc|].
  apply IH. exact Hc.
Qed.

Lemma SD_keeps_links_ok : keeps_links_ok _SD_protocol.
Proof.
  intros G H users used cf HG. unfold _SD_protocol.
  destruct users as [|s ds]; [exact HG|].
  pose proof (links_ok_sd_loop s ds G H used HG) as Hl.
  destruct (po_exn _); exact Hl.
Qed.

Lemma CC_keeps_links_ok steiner_tree : keeps_links_ok (_CC_protocol steiner_tree).
Proof.
  intros G H users used cf HG. unfold _CC_protocol.
  destruct users as [|u0 rest]; [exact HG|].
  destruct (node_connected_component H u0) as [CC|x]; [|exact HG].
  destruct (negb _); exact HG.
Qed.

(** X9.  The age invariant holds after every run.  If every edge has a
    [Qc] of at least one timestep and at least one repetition is asked
    for, then in the graph a run of the greedy or of the cooperative
    protocol leaves (also one that raised) every unentangled edge has age
    0 and every entangled edge an age in [[0, Qc)], whatever state the
    edges were in before. *)
Theorem protocols_keep_the_age_invariant :
  forall (steiner_tree : LinkGraph -> list node -> LinkGraph)
         (G : Topology) (users : list node) (timesteps reps : Z)
         (count_fusion : bool) (rng : RandomSource),
    (0 < reps)%Z ->
    Forall (fun e => (1 <= e_Qc (eattr e))%Q) (g_edges G) ->
    Forall (fun e => edge_inv (eattr e))
           (g_edges (ro_graph (MPG_protocol G users timesteps reps count_fusion
                                            rng)))
    /\ Forall (fun e => edge_inv (eattr e))
              (g_edges (ro_graph (MPC_protocol steiner_tree G users timesteps reps
                                               count_fusion rng))).
Proof.
  intros st G users timesteps reps cf rng Hreps HG. split.
  - pose proof (links_ok_run _SD_protocol G users timesteps reps true cf rng
                  SD_keeps_links_ok Hreps HG) as H.
    eapply Forall_impl; [|exact H]. intros e He. apply He.
  - pose proof (links_ok_run (_CC_protocol st) G users timesteps reps false cf rng
                  (CC_keeps_links_ok st) Hreps HG) as H.
    eapply Forall_impl; [|exact H]. intros e He. apply He.
Qed.

Lemma protocols_keep_the_age_invariant_witness :
  Forall (fun e => edge_inv (eattr e))
         (g_edges (ro_graph (MPG_protocol
                               (mkGraph [(0, demo_node false); (1, demo_node false)]
                                        [(0, 1, mkEdgeAttr 1%Q 1%Q 2%Q true 7%Z)])
                               [0; 1] 3 2 false half))).
Proof.
  apply (protocols_keep_the_age_invariant (fun H _ => H)
           (mkGraph [(0, demo_node false); (1, demo_node false)]
                    [(0, 1, mkEdgeAttr 1%Q 1%Q 2%Q true 7%Z)])
           [0; 1] 3 2 false half).
  - lia.
  - constructor; [|constructor]. unfold eattr. cbn. unfold Qle. cbn. lia.
Defined.
(** ** Shortest paths are simple *)

Lemma shortest_path_sound {NA EA : Type} (G : Graph NA EA) s t p :
  shortest_path G s t = Ok p ->
  has_node G s = true /\ has_node G t = true
  /\ path_between G s t p
  /\ forall q, path_between G s t q -> hop_count p <= hop_count q.
Proof.
  unfold shortest_path.
  destruct (has_node G s); cbn [negb]; [|discriminate].
  destruct (has_node G t); cbn [negb]; [|discriminate].
  destruct (bfs G t (bfs_fuel G) [(s, [])] [s]) as [p0|] eqn:E; [|discriminate].
  intros H. inversion H; subst p0.
  split; [reflexivity|]. split; [reflexivity|].
  apply (bfs_shortest G s t (bfs_fuel G) 0 [(s, [])] [s] p (bfs_inv_start G s t) E).
Qed.

Lemma hops_app (l : list node) (a : node) (r : list node) :
  hops (l ++ a :: r) = hops (l ++ [a]) ++ hops (a :: r).
Proof.
  induction l as [|x l IH]; [reflexivity|].
  destruct l as [|y l]; [reflexivity|].
  change (hops ((x :: y :: l) ++ a :: r))
    with ((x, y) :: hops ((y :: l) ++ a :: r)).
  rewrite IH. reflexivity.
Qed.

Lemma hops_length (p : list node) : length (hops p) = pred (length p).
Proof.
  induction p as [|x p IH]; [reflexivity|].
  destruct p as [|y p]; [reflexivity|].
  change (hops (x :: y :: p)) with ((x, y) :: hops (y :: p)).
  cbn [length] in *. rewrite IH. reflexivity.
Qed.

Lemma last_cons (r : list node) :
  forall a x : node, last (a :: r) x = last r a.
Proof.
  induction r as [|b r IH]; intros a x; [reflexivity|].
  change (last (a :: b :: r) x) with (last (b :: r) x).
  rewrite IH. symmetry. apply IH.
Qed.

Lemma path_last_app (l : list node) (a : node) (r : list node) :
  path_last (l ++ a :: r) = path_last (a :: r).
Proof.
  induction l as [|x l IH]; [reflexivity|].
  rewrite <- IH. cbn [app path_last].
  destruct (l ++ a :: r) as [|y m] eqn:E; [destruct l; discriminate|].
  cbn [path_last]. f_equal. apply last_cons.
Qed.

Lemma hops_In (p : list node) x y : In (x, y) (hops p) -> In x p /\ In y p.
Proof.
  induction p as [|a p IH]; [intros []|].
  destruct p as [|b p]; [intros []|].
  change (hops (a :: b :: p)) with ((a, b) :: hops (b :: p)).
  intros [E|H].
  - inversion E; subst. split; [left; reflexivity|right; left; reflexivity].
  - destruct (IH H). split; right; assumption.
Qed.

Lemma NoDup_or_repeat (l : list node) :
  NoDup l \/ exists a l1 l2 l3, l = l1 ++ a :: l2 ++ a :: l3.
Proof.
  induction l as [|x l [IH|[a [l1 [l2 [l3 E]]]]]].
  - left. constructor.
  - destruct (in_dec Nat.eq_dec x l) as [Hin|Hout].
    + right. apply in_split in Hin. destruct Hin as [l2 [l3 E]].
      exists x, [], l2, l3. rewrite E. reflexivity.
    + left. constructor; assumption.
  - right. exists a, (x :: l1), l2, l3. rewrite E. reflexivity.
Qed.

Lemma shortcut {NA EA : Type} (G : Graph NA EA) s t a l1 l2 l3 :
  path_between G s t (l1 ++ a :: l2 ++ a :: l3) ->
  path_between G s t (l1 ++ a :: l3)
  /\ hop_count (l1 ++ a :: l3) < hop_count (l1 ++ a :: l2 ++ a :: l3).
Proof.
  intros [Hh [Hl Hw]]. split; [split; [|split]|].
  - destruct l1; exact Hh.
  - rewrite path_last_app. rewrite path_last_app in Hl.
    change (a :: l2 ++ a :: l3) with ((a :: l2) ++ a :: l3) in Hl.
    rewrite path_last_app in Hl. exact Hl.
  - unfold walk in *. rewrite hops_app. rewrite hops_app in Hw.
    change (a :: l2 ++ a :: l3) with ((a :: l2) ++ a :: l3) in Hw.
    rewrite (hops_app (a :: l2)) in Hw.
    apply Forall_app in Hw. destruct Hw as [H1 H2].
    apply Forall_app in H2. destruct H2 as [_ H3].
    apply Forall_app. split; assumption.
  - unfold hop_count. rewrite !hops_length, !length_app. cbn [length].
    rewrite length_app. cbn [length]. lia.
Qed.

Lemma shortest_path_simple {NA EA : Type} (G : Graph NA EA) s t p :
  shortest_path G s t = Ok p -> NoDup p.
Proof.
  intros H. apply shortest_path_sound in H. destruct H as [_ [_ [Hp Hmin]]].
  destruct (NoDup_or_repeat p) as [Hn|[a [l1 [l2 [l3 E]]]]]; [exact Hn|].
  subst p. destruct (shortcut G s t a l1 l2 l3 Hp) as [Hq Hlt].
  specialize (Hmin _ Hq). lia.
Qed.

Lemma hops_available_simple (p : list node) (G : Topology) (H : LinkGraph) :
  NoDup p -> walk H p ->
  (forall u v, has_edge H u v = true -> has_edge G u v = true) ->
  hops_available (hops p) G H.
Proof.
  intros Hnd Hw Hsub. unfold walk in Hw.
  induction p as [|u p IH]; [exact I|].
  destruct p as [|v p]; [exact I|].
  change (hops (u :: v :: p)) with ((u, v) :: hops (v :: p)) in *.
  inversion Hw as [|? ? Huv Hrest]; subst. cbn [fst snd] in Huv.
  inversion Hnd as [|? ? Hu Hnd']; subst.
  cbn [hops_available]. split; [exact Huv|]. split; [apply Hsub, Huv|].
  split; [|apply IH; assumption].
  match goal with |- ?b = false => destruct b eqn:E end; [|reflexivity].
  exfalso. apply existsb_exists in E. destruct E as [[x y] [Hin Hxy]].
  apply hops_In in Hin. destruct Hin as [Hx Hy]. cbn [fst snd] in Hxy.
  apply orb_true_iff in Hxy.
  destruct Hxy as [Hxy|Hxy]; apply andb_true_iff in Hxy; destruct Hxy as [A B];
    apply Nat.eqb_eq in A, B; subst; contradiction.
Qed.
(** ** The shortest-path strategy cannot fail *)

Lemma create_bell_pair_succeeds (G : Topology) (H : LinkGraph) path used d :
  hops_available (hops path) G H ->
  path_last path = Some d ->
  has_node G d = true ->
  _create_bell_pair G H path used
  = mkProtoOut
      (mkGraph (map (marked d) (g_nodes G))
               (map (consumed (hops path)) (g_edges G)))
      (mkGraph (g_nodes H)
               (filter (fun e => negb (on_hops (hops path) e)) (g_edges H)))
      (used ++ [mkUsedPath (path_interior path) (Z.of_nat (length path) - 1)%Z
                           (Some 0%Z) (Some d)])
      None.
Proof.
  intros Hav Hlast Hd. unfold _create_bell_pair.
  pose proof (swap_along_succeeds (hops path) G H Hav) as Hs.
  destruct (swap_along (hops path) G H) as [[G1 H1] err] eqn:E.
  cbn [snd] in Hs. subst err.
  destruct (swap_along_effect (hops path) G H G1 H1 E) as [-> ->].
  rewrite Hlast.
  assert (Hd' : has_node (mkGraph (g_nodes G)
                                  (map (consumed (hops path)) (g_edges G))) d
                = true) by exact Hd.
  rewrite Hd'. reflexivity.
Qed.

Lemma has_edge_consumed {NA NB : Type} (ns : list (node * NA))
      (ns' : list (node * NB)) hs (es : list (Edge EdgeAttr)) u v :
  has_edge (mkGraph ns (map (consumed hs) es)) u v
  = has_edge (mkGraph ns' es) u v.
Proof.
  unfold has_edge. cbn [g_edges]. induction es as [|e es IH]; [reflexivity|].
  cbn [map existsb]. rewrite IH. f_equal.
  unfold consumed. destruct (on_hops hs e); [apply same_edge_on_attr|reflexivity].
Qed.

Lemma has_edge_filter {NA EA : Type} (ns : list (node * NA)) (f : Edge EA -> bool)
      (es : list (Edge EA)) u v :
  has_edge (mkGraph ns (filter f es)) u v = true ->
  has_edge (mkGraph ns es) u v = true.
Proof.
  unfold has_edge. cbn [g_edges]. rewrite !existsb_exists.
  intros [e [He Hs]]. apply filter_In in He. exists e. tauto.
Qed.

Lemma has_edge_filtered {NA EA : Type} (G : Graph NA EA) (f : Edge EA -> bool) u v :
  has_edge (mkGraph (g_nodes G) (filter f (g_edges G))) u v = true ->
  has_edge G u v = true.
Proof.
  unfold has_edge. cbn [g_edges]. rewrite !existsb_exists.
  intros [e [He Hs]]. apply filter_In in He. exists e. tauto.
Qed.

Lemma map_fst_marked d (ns : list (node * NodeAttr)) :
  map fst (map (marked d) ns) = map fst ns.
Proof.
  rewrite map_map. apply map_ext. intros [n a]. unfold marked. cbn.
  destruct (n =? d); reflexivity.
Qed.

Lemma shortest_path_raises {NA EA : Type} (G : Graph NA EA) s t x :
  has_node G s = true -> has_node G t = true ->
  shortest_path G s t = Raise x -> x = NetworkXNoPath.
Proof.
  intros Hs Ht. unfold shortest_path. rewrite Hs, Ht. cbn [negb].
  destruct (bfs _ _ _ _ _); [discriminate|]. intros E. inversion E. reflexivity.
Qed.

Lemma sd_loop_total s ds :
  forall (G : Topology) (H : LinkGraph) used,
    links_of G H ->
    In s (node_ids G) ->
    incl ds (node_ids G) ->
    po_exn (sd_loop s ds G H used) = None
    /\ links_of (po_graph (sd_loop s ds G H used))
                (po_links (sd_loop s ds G H used))
    /\ node_ids (po_graph (sd_loop s ds G H used)) = node_ids G.
Proof.
  induction ds as [|d ds IH]; intros G H used Hlinks Hs Hds; cbn [sd_loop].
  - cbn. auto.
  - assert (Hd : In d (node_ids G)) by (apply Hds; left; reflexivity).
    assert (Hds' : incl ds (node_ids G))
      by (intros x Hx; apply Hds; right; exact Hx).
    destruct (proj1 (lookup_node_some (g_nodes G) d) Hd) as [nd Hnd].
    rewrite Hnd.
    destruct (n_entangled nd); [apply IH; assumption|].
    destruct Hlinks as [Hids Hsub].
    assert (HsH : has_node H s = true)
      by (unfold has_node; rewrite Hids; apply mem_In; exact Hs).
    assert (HdH : has_node H d = true)
      by (unfold has_node; rewrite Hids; apply mem_In; exact Hd).
    unfold has_path.
    destruct (shortest_path H s d) as [p|x] eqn:Esp.
    + pose proof (shortest_path_simple H s d p Esp) as Hnodup.
      destruct (shortest_path_sound H s d p Esp) as [_ [_ [[Hhd [Hlast Hwalk]] _]]].
      rewrite (create_bell_pair_succeeds G H p used d).
      * cbn [po_exn po_graph po_links po_used].
        destruct (IH (mkGraph (map (marked d) (g_nodes G))
                              (map (consumed (hops p)) (g_edges G)))
                     (mkGraph (g_nodes H)
                              (filter (fun e => negb (on_hops (hops p) e))
                                      (g_edges H)))
                     (used ++ [mkUsedPath (path_interior p)
                                          (Z.of_nat (length p) - 1)%Z
                                          (Some 0%Z) (Some d)]))
          as [I1 [I2 I3]].
        -- split.
           ++ unfold node_ids. cbn [g_nodes]. rewrite map_fst_marked. exact Hids.
           ++ intros u v Huv. apply has_edge_filter in Huv.
              rewrite has_edge_consumed with (ns' := g_nodes H).
              apply Hsub in Huv. unfold has_edge in *. exact Huv.
        -- unfold node_ids. cbn [g_nodes]. rewrite map_fst_marked. exact Hs.
        -- unfold node_ids. cbn [g_nodes]. rewrite map_fst_marked. exact Hds'.
        -- split; [exact I1|]. split; [exact I2|]. rewrite I3.
           unfold node_ids. cbn [g_nodes]. apply map_fst_marked.
      * apply hops_available_simple; assumption.
      * exact Hlast.
      * unfold has_node. apply mem_In. exact Hd.
    + rewrite (shortest_path_raises H s d x HsH HdH Esp).
      apply IH; [split|..]; assumption.
Qed.

Lemma all_entangled_total (G : Topology) ds :
  incl ds (node_ids G) -> exists b, all_entangled G ds = Ok b.
Proof.
  induction ds as [|d ds IH]; intros Hds; cbn; [eauto|].
  assert (Hd : In d (node_ids G)) by (apply Hds; left; reflexivity).
  destruct (proj1 (lookup_node_some (g_nodes G) d) Hd) as [nd Hnd]. rewrite Hnd.
  destruct IH as [b Hb]; [intros x Hx; apply Hds; right; exact Hx|].
  rewrite Hb. cbn. eauto.
Qed.

Lemma SD_protocol_total (G : Topology) (H : LinkGraph) s ds used cf :
  links_of G H ->
  incl (s :: ds) (node_ids G) ->
  exists b,
    snd (_SD_protocol G H (s :: ds) used cf) = Ok b
    /\ links_of (fst (fst (_SD_protocol G H (s :: ds) used cf)))
                (po_links (sd_loop s ds G H used))
    /\ node_ids (fst (fst (_SD_protocol G H (s :: ds) used cf))) = node_ids G.
Proof.
  intros Hlinks Hus. unfold _SD_protocol.
  destruct (sd_loop_total s ds G H used Hlinks) as [E [L N]].
  - apply Hus. left. reflexivity.
  - intros x Hx. apply Hus. right. exact Hx.
  - rewrite E. cbn [fst snd].
    destruct (all_entangled_total (po_graph (sd_loop s ds G H used)) ds) as [b Hb].
    + rewrite N. intros x Hx. apply Hus. right. exact Hx.
    + exists b. auto.
Qed.

Lemma links_of_entangled_subgraph (G : Topology) :
  links_of G (get_entangled_subgraph G).
Proof.
  split; [apply entangled_subgraph_nodes|].
  intros u v Huv. unfold has_edge in Huv. apply existsb_exists in Huv.
  destruct Huv as [e [He Hs]].
  destruct (entangled_subgraph_data G e He) as [e0 [He0 [Hs0 _]]].
  unfold has_edge. apply existsb_exists. exists e0. split; [exact He0|].
  apply (same_edge_trans u v e e0 Hs Hs0).
Qed.

(** X10.  The shortest-path strategy cannot fail where the runner calls
    it.  Given the entangled subgraph of the topology and a non-empty
    list of users that are nodes of the topology, [_SD_protocol] raises
    nothing and returns a boolean: every path it consumes is there to be
    consumed, link by link.  It leaves the node set as it was. *)
Theorem SD_protocol_never_raises :
  forall (G : Topology) (source_node : node) (destination_nodes : list node)
         (used_nodes : list UsedPath) (count_fusion : bool),
    (forall u, In u (source_node :: destination_nodes) -> In u (node_ids G)) ->
    exists b,
      snd (_SD_protocol G (get_entangled_subgraph G)
                        (source_node :: destination_nodes) used_nodes
                        count_fusion)
      = Ok b
      /\ node_ids (fst (fst (_SD_protocol G (get_entangled_subgraph G)
                                          (source_node :: destination_nodes)
                                          used_nodes count_fusion)))
         = node_ids G.
Proof.
  intros G s ds used cf Hus.
  destruct (SD_protocol_total G (get_entangled_subgraph G) s ds used cf
              (links_of_entangled_subgraph G) Hus) as [b [H1 [_ H3]]].
  exists b. auto.
Qed.

Lemma SD_protocol_never_raises_witness :
  exists b,
    snd (_SD_protocol demo_chain (get_entangled_subgraph demo_chain) [0; 2] []
                      false)
    = Ok b.
Proof.
  destruct (SD_protocol_never_raises demo_chain 0 [2] [] false) as [b [H _]].
  - intros u [<-|[<-|[]]]; cbn; auto.
  - exists b. exact H.
Defined.
(** ** The star builder *)

Lemma has_edge_swap {NA EA : Type} (G : Graph NA EA) u v :
  has_edge G u v = has_edge G v u.
Proof.
  unfold has_edge. induction (g_edges G) as [|e es IH]; [reflexivity|].
  cbn [existsb]. rewrite IH. f_equal. unfold same_edge. apply orb_comm.
Qed.

Lemma has_edge_same {NA EA EB : Type} (G : Graph NA EA) u v (e : Edge EB) :
  same_edge u v e = true -> has_edge G u v = has_edge G (eu e) (ev e).
Proof.
  intros H. apply same_edge_iff in H.
  destruct H as [[-> ->]|[-> ->]]; [reflexivity|apply has_edge_swap].
Qed.

Lemma hops_fresh_simple {NA EA : Type} (p : list node) (T : Graph NA EA) :
  NoDup p -> walk T p -> hops_fresh (hops p) T.
Proof.
  intros Hnd Hw. unfold walk in Hw.
  induction p as [|u p IH]; [exact I|].
  destruct p as [|v p]; [exact I|].
  change (hops (u :: v :: p)) with ((u, v) :: hops (v :: p)) in *.
  inversion Hw as [|? ? Huv Hrest]; subst. cbn [fst snd] in Huv.
  inversion Hnd as [|? ? Hu Hnd']; subst.
  cbn [hops_fresh]. split; [exact Huv|].
  split; [|apply IH; assumption].
  match goal with |- ?b = false => destruct b eqn:E end; [|reflexivity].
  exfalso. apply existsb_exists in E. destruct E as [[x y] [Hin Hxy]].
  apply hops_In in Hin. destruct Hin as [Hx Hy]. cbn [fst snd] in Hxy.
  apply orb_true_iff in Hxy.
  destruct Hxy as [Hxy|Hxy]; apply andb_true_iff in Hxy; destruct Hxy as [A B];
    apply Nat.eqb_eq in A, B; subst; contradiction.
Qed.

Lemma hops_fresh_after {NA EA : Type} (hs : list (node * node)) (T : Graph NA EA)
      u v :
  existsb (fun h => ((fst h =? u) && (snd h =? v))
                    || ((fst h =? v) && (snd h =? u))) hs = false ->
  hops_fresh hs T ->
  hops_fresh hs (mkGraph (g_nodes T)
                         (filter (fun e => negb (same_edge u v e)) (g_edges T))).
Proof.
  induction hs as [|[x y] hs IH]; intros Hnot Hf; [exact I|].
  cbn [existsb fst snd] in Hnot. apply orb_false_iff in Hnot.
  destruct Hnot as [Hxy Hnot]. destruct Hf as [Hxy' [Hrest Hf]].
  cbn [hops_fresh]. split; [|split; [exact Hrest|apply IH; assumption]].
  unfold has_edge in *. cbn [g_edges]. apply existsb_exists in Hxy'.
  destruct Hxy' as [e [He Hs]]. apply existsb_exists. exists e.
  split; [|exact Hs]. apply filter_In. split; [exact He|].
  apply negb_true_iff. apply (same_edge_other u v x y e Hs Hxy).
Qed.

Lemma take_path_spec (G : Topology) hs :
  forall (T : Topology) (J : Graph NodeAttr unit),
    hops_fresh hs T ->
    (forall u v, has_edge T u v = true -> has_edge G u v = true) ->
    (forall u v, has_edge J u v = true -> has_edge G u v = true) ->
    exists T1 J1,
      take_path hs T J = Ok (T1, J1)
      /\ g_nodes T1 = g_nodes T
      /\ (forall u v, has_edge T1 u v = true -> has_edge T u v = true)
      /\ g_nodes J1 = g_nodes J
      /\ (forall u v, has_edge J u v = true -> has_edge J1 u v = true)
      /\ (forall h, In h hs -> has_edge J1 (fst h) (snd h) = true)
      /\ (forall u v, has_edge J1 u v = true -> has_edge G u v = true).
Proof.
  induction hs as [|[x y] hs IH]; intros T J Hf HT HJ; cbn [take_path].
  - exists T, J. split_ands; auto; intros h [].
  - destruct Hf as [Hxy [Hnot Hf]]. unfold remove_edge. rewrite Hxy. cbn [bind].
    destruct (IH (mkGraph (g_nodes T)
                          (filter (fun e => negb (same_edge x y e)) (g_edges T)))
                 (add_edge J x y (fun _ => tt)))
      as [T1 [J1 [E [A1 [A2 [A3 [A4 [A5 A6]]]]]]]].
    + apply hops_fresh_after; assumption.
    + intros u v Huv. apply HT. apply (has_edge_filtered T _ u v Huv).
    + intros u v. rewrite has_edge_add_edge. intros Huv.
      apply orb_true_iff in Huv. destruct Huv as [Huv|Huv]; [apply HJ, Huv|].
      rewrite (has_edge_same G u v _ Huv). cbn. apply HT, Hxy.
    + exists T1, J1. split_ands; auto.
      * intros u v Huv. apply A2 in Huv.
        apply (has_edge_filtered T _ u v Huv).
      * rewrite A3. apply add_edge_nodes.
      * intros u v Huv. apply A4. rewrite has_edge_add_edge, Huv. reflexivity.
      * intros h [<-|Hh]; [|apply A5, Hh]. cbn [fst snd]. apply A4.
        rewrite has_edge_add_edge. apply orb_true_iff. right.
        unfold same_edge, eu, ev. cbn. rewrite !Nat.eqb_refl. reflexivity.
Qed.

Lemma share_path_spec (G : Topology) hs :
  forall (T : Topology) (J : Graph NodeAttr unit),
    (forall h, In h hs -> has_edge G (fst h) (snd h) = true) ->
    (forall u v, has_edge T u v = true -> has_edge G u v = true) ->
    (forall u v, has_edge J u v = true -> has_edge G u v = true) ->
    exists T1 J1,
      share_path hs T J = Ok (T1, J1)
      /\ g_nodes T1 = g_nodes T
      /\ (forall u v, has_edge T1 u v = true -> has_edge T u v = true)
      /\ g_nodes J1 = g_nodes J
      /\ (forall u v, has_edge J u v = true -> has_edge J1 u v = true)
      /\ (forall h, In h hs -> has_edge J1 (fst h) (snd h) = true)
      /\ (forall u v, has_edge J1 u v = true -> has_edge G u v = true).
Proof.
  induction hs as [|[x y] hs IH]; intros T J Hhs HT HJ; cbn [share_path].
  - exists T, J. split_ands; auto; intros h [].
  - assert (HJ' : forall u v,
               has_edge (add_edge J x y (fun _ => tt)) u v = true ->
               has_edge G u v = true).
    { intros u v. rewrite has_edge_add_edge. intros Huv.
      apply orb_true_iff in Huv. destruct Huv as [Huv|Huv]; [apply HJ, Huv|].
      rewrite (has_edge_same G u v _ Huv). cbn.
      apply (Hhs (x, y)). left. reflexivity. }
    assert (Hhs' : forall h, In h hs -> has_edge G (fst h) (snd h) = true)
      by (intros h Hh; apply Hhs; right; exact Hh).
    assert (Hnew : has_edge (add_edge J x y (fun _ => tt)) x y = true).
    { rewrite has_edge_add_edge. apply orb_true_iff. right.
      unfold same_edge, eu, ev. cbn. rewrite !Nat.eqb_refl. reflexivity. }
    destruct (has_edge T x y) eqn:Hxy.
    + unfold remove_edge. rewrite Hxy. cbn [bind].
      destruct (IH (mkGraph (g_nodes T)
                            (filter (fun e => negb (same_edge x y e)) (g_edges T)))
                   (add_edge J x y (fun _ => tt)) Hhs')
        as [T1 [J1 [E [A1 [A2 [A3 [A4 [A5 A6]]]]]]]]; auto.
      * intros u v Huv. apply HT. apply (has_edge_filtered T _ u v Huv).
      * exists T1, J1. split_ands; auto.
        -- intros u v Huv. apply A2 in Huv.
           apply (has_edge_filtered T _ u v Huv).
        -- rewrite A3. apply add_edge_nodes.
        -- intros u v Huv. apply A4. rewrite has_edge_add_edge, Huv. reflexivity.
        -- intros h [<-|Hh]; [|apply A5, Hh]. cbn [fst snd]. apply A4, Hnew.
    + destruct (IH T (add_edge J x y (fun _ => tt)) Hhs' HT HJ')
        as [T1 [J1 [E [A1 [A2 [A3 [A4 [A5 A6]]]]]]]].
      exists T1, J1. split_ands; auto.
      * rewrite A3. apply add_edge_nodes.
      * intros u v Huv. apply A4. rewrite has_edge_add_edge, Huv. reflexivity.
      * intros h [<-|Hh]; [|apply A5, Hh]. cbn [fst snd]. apply A4, Hnew.
Qed.

Lemma walk_mono {NA EA NB EB : Type} (G : Graph NA EA) (G' : Graph NB EB) p :
  (forall u v, has_edge G u v = true -> has_edge G' u v = true) ->
  walk G p -> walk G' p.
Proof.
  intros H. unfold walk. apply Forall_impl. intros h. apply H.
Qed.

Lemma connected_mono {NA EA NB EB : Type} (G : Graph NA EA) (G' : Graph NB EB) s d :
  (forall u v, has_edge G u v = true -> has_edge G' u v = true) ->
  connected G s d -> connected G' s d.
Proof.
  intros H [p [Hh [Hl Hw]]]. exists p. split; [exact Hh|]. split; [exact Hl|].
  apply (walk_mono G G' p H Hw).
Qed.

Lemma star_loop_cases (G : Topology) s ds :
  forall (T : Topology) (J : Graph NodeAttr unit),
    star_inv G T J ->
    In s (node_ids G) -> incl ds (node_ids G) ->
    (exists J1,
        star_loop G s ds T J = Ok J1
        /\ g_nodes J1 = g_nodes G
        /\ (forall u v, has_edge J u v = true -> has_edge J1 u v = true)
        /\ (forall u v, has_edge J1 u v = true -> has_edge G u v = true)
        /\ (forall d, In d ds -> connected J1 s d))
    \/ (star_loop G s ds T J = Raise NetworkXNoPath
        /\ exists d, In d ds /\ ~ connected G s d).
Proof.
  induction ds as [|d ds IH]; intros T J [I1 [I2 [I3 I4]]] Hs Hds;
    cbn [star_loop].
  - left. exists J. split_ands; auto; intros d [].
  - assert (Hd : In d (node_ids G)) by (apply Hds; left; reflexivity).
    assert (Hds' : incl ds (node_ids G))
      by (intros x Hx; apply Hds; right; exact Hx).
    assert (HsT : has_node T s = true)
      by (unfold has_node; rewrite I1; apply mem_In; exact Hs).
    assert (HdT : has_node T d = true)
      by (unfold has_node; rewrite I1; apply mem_In; exact Hd).
    assert (Hnext : forall (p : list node) T1 J1,
               path_between G s d p ->
               g_nodes T1 = g_nodes T ->
               (forall u v, has_edge T1 u v = true -> has_edge T u v = true) ->
               g_nodes J1 = g_nodes J ->
               (forall u v, has_edge J u v = true -> has_edge J1 u v = true) ->
               (forall h, In h (hops p) -> has_edge J1 (fst h) (snd h) = true) ->
               (forall u v, has_edge J1 u v = true -> has_edge G u v = true) ->
               (exists J2,
                   star_loop G s ds T1 J1 = Ok J2
                   /\ g_nodes J2 = g_nodes G
                   /\ (forall u v, has_edge J u v = true -> has_edge J2 u v = true)
                   /\ (forall u v, has_edge J2 u v = true -> has_edge G u v = true)
                   /\ (forall d', In d' (d :: ds) -> connected J2 s d'))
               \/ (star_loop G s ds T1 J1 = Raise NetworkXNoPath
                   /\ exists d', In d' (d :: ds) /\ ~ connected G s d')).
    { intros p T1 J1 [Hh [Hl Hw]] A1 A2 A3 A4 A5 A6.
      destruct (IH T1 J1) as [[J2 [E [B1 [B2 [B3 B4]]]]]|[E [d' [B1 B2]]]]; auto.
      - unfold star_inv. split_ands; auto.
        + unfold node_ids. rewrite A1. exact I1.
        + congruence.
      - left. exists J2. split_ands; auto.
        intros d' [<-|Hd']; [|apply B4, Hd'].
        exists p. split; [exact Hh|]. split; [exact Hl|].
        unfold walk. apply Forall_forall. intros h Hin. apply B2, A5, Hin.
      - right. split; [exact E|]. exists d'. split; [right; exact B1|exact B2]. }
    unfold has_path.
    destruct (shortest_path T s d) as [p|x] eqn:Esp; cbn [bind].
    + pose proof (shortest_path_simple T s d p Esp) as Hnodup.
      destruct (shortest_path_sound T s d p Esp) as [_ [_ [[Hh [Hl Hw]] _]]].
      destruct (take_path_spec G (hops p) T J (hops_fresh_simple p T Hnodup Hw)
                               I2 I4)
        as [T1 [J1 [E [A1 [A2 [A3 [A4 [A5 A6]]]]]]]].
      rewrite E. cbn [bind]. apply (Hnext p T1 J1); auto.
      split; [exact Hh|]. split; [exact Hl|]. apply (walk_mono T G p I2 Hw).
    + rewrite (shortest_path_raises T s d x HsT HdT Esp). cbn [bind].
      destruct (shortest_path G s d) as [p|y] eqn:EG; cbn [bind].
      * destruct (shortest_path_sound G s d p EG) as [_ [_ [[Hh [Hl Hw]] _]]].
        destruct (share_path_spec G (hops p) T J)
          as [T1 [J1 [E [A1 [A2 [A3 [A4 [A5 A6]]]]]]]]; auto.
        { intros h Hin. unfold walk in Hw.
          apply (proj1 (Forall_forall _ _) Hw h Hin). }
        rewrite E. cbn [bind]. apply (Hnext p T1 J1); auto.
        split; [exact Hh|]. split; [exact Hl|]. exact Hw.
      * right.
        assert (HsG : has_node G s = true) by (apply mem_In; exact Hs).
        assert (HdG : has_node G d = true) by (apply mem_In; exact Hd).
        rewrite (shortest_path_raises G s d y HsG HdG EG).
        split; [reflexivity|]. exists d. split; [left; reflexivity|].
        intros [q Hq].
        destruct (shortest_path_found G s d q HsG HdG Hq) as [p [Hp _]].
        congruence.
Qed.
Lemma has_edge_self {NA EA : Type} (G : Graph NA EA) e :
  In e (g_edges G) -> has_edge G (eu e) (ev e) = true.
Proof.
  intros He. unfold has_edge. apply existsb_exists. exists e. split; [exact He|].
  unfold same_edge. rewrite !Nat.eqb_refl. reflexivity.
Qed.

Lemma copy_edge_data_spec (G : Topology) (es : list (Edge unit)) :
  (forall e, In e es -> has_edge G (eu e) (ev e) = true) ->
  exists es',
    copy_edge_data G es = Ok es'
    /\ Forall2 (fun (e : Edge unit) (e' : Edge EdgeAttr) =>
                  eu e' = eu e /\ ev e' = ev e
                  /\ find_edge G (eu e') (ev e') = Some (eattr e')) es es'.
Proof.
  induction es as [|e es IH]; intros H; cbn [copy_edge_data].
  - exists []. split; [reflexivity|constructor].
  - destruct (has_edge_find_edge G (eu e) (ev e) (H e (or_introl eq_refl)))
      as [a Ha].
    rewrite Ha. destruct IH as [es' [E F]];
      [intros e' He'; apply H; right; exact He'|].
    rewrite E. cbn [bind]. eexists. split; [reflexivity|].
    constructor; [|exact F]. unfold eu, ev, eattr. cbn. auto.
Qed.

Lemma has_edge_same_ends {NA NB EA EB : Type} (ns : list (node * NA))
      (ns' : list (node * NB)) (es : list (Edge EA)) (es' : list (Edge EB)) u v :
  Forall2 (fun e e' => eu e' = eu e /\ ev e' = ev e) es es' ->
  has_edge (mkGraph ns es) u v = has_edge (mkGraph ns' es') u v.
Proof.
  unfold has_edge. cbn [g_edges]. induction 1 as [|e e' es es' [H1 H2] _ IH];
    [reflexivity|].
  cbn [existsb]. rewrite IH. f_equal. unfold same_edge. rewrite H1, H2.
  reflexivity.
Qed.

Lemma star_start (G : Topology) :
  star_inv G (add_edges_from (mkGraph (g_nodes G) []) (edges G))
           (mkGraph (g_nodes G) []).
Proof.
  unfold star_inv. split_ands.
  - unfold node_ids. rewrite add_edges_from_nodes. reflexivity.
  - intros u v. rewrite has_edge_add_edges_from. cbn [orb].
    unfold has_edge at 1. cbn [g_edges existsb orb].
    intros H. apply existsb_exists in H. destruct H as [e [He Hs]].
    destruct (edges_sound G e He) as [e0 [He0 [Hs0 _]]].
    unfold has_edge. apply existsb_exists. exists e0. split; [exact He0|].
    apply (same_edge_trans u v e e0 Hs Hs0).
  - reflexivity.
  - intros u v H. discriminate.
Qed.

Lemma get_star_cases (G : Topology) s ds :
  In s (node_ids G) -> incl ds (node_ids G) ->
  (exists J,
      _get_star G (s :: ds) = Ok J
      /\ g_nodes J = g_nodes G
      /\ (forall e, In e (g_edges J) ->
                    find_edge G (eu e) (ev e) = Some (eattr e))
      /\ (forall d, In d ds -> connected J s d))
  \/ (_get_star G (s :: ds) = Raise NetworkXNoPath
      /\ exists d, In d ds /\ ~ connected G s d).
Proof.
  intros Hs Hds. unfold _get_star.
  destruct (star_loop_cases G s ds _ _ (star_start G) Hs Hds)
    as [[J1 [E [A1 [A2 [A3 A4]]]]]|[E B]].
  - left. rewrite E. cbn [bind].
    destruct (copy_edge_data_spec G (g_edges J1)) as [es [Ec F]].
    { intros e He. apply A3. apply has_edge_self. exact He. }
    rewrite Ec. cbn [bind]. eexists. split; [reflexivity|].
    cbn [g_nodes g_edges]. split; [exact A1|]. split.
    + intros e' He'. apply Forall2_flip in F.
      apply In_nth_error in He'. destruct He' as [k Hk].
      clear - F Hk. revert k Hk.
      induction F as [|x y l l' Hxy _ IH]; intros k Hk.
      * destruct k; discriminate.
      * destruct k as [|k]; cbn in Hk.
        -- inversion Hk; subst. apply Hxy.
        -- apply (IH k Hk).
    + intros d Hd. apply (connected_mono J1 _ s d); [|apply A4, Hd].
      intros u v Huv.
      rewrite <- (has_edge_same_ends (g_nodes J1) (g_nodes J1) (g_edges J1) es u v).
      * destruct J1. exact Huv.
      * eapply Forall2_impl; [|exact F]. cbn. intros x y H. tauto.
  - right. rewrite E. cbn [bind]. split; [reflexivity|exact B].
Qed.
(** X11.  The star builder connects the users.  If the users are nodes
    of the topology and every destination can be reached from the source,
    [_get_star] returns a graph with the nodes of the topology, whose
    edges are edges of the topology carrying the topology's data, and in
    which the source is joined to every destination by a path. *)
Theorem get_star_connects_users :
  forall (G : Topology) (source_node : node) (destination_nodes : list node),
    (forall u, In u (source_node :: destination_nodes) -> In u (node_ids G)) ->
    (forall d, In d destination_nodes -> connected G source_node d) ->
    exists J,
      _get_star G (source_node :: destination_nodes) = Ok J
      /\ g_nodes J = g_nodes G
      /\ (forall e, In e (g_edges J) ->
                    find_edge G (eu e) (ev e) = Some (eattr e))
      /\ (forall d, In d destination_nodes -> connected J source_node d).
Proof.
  intros G s ds Hus Hconn.
  destruct (get_star_cases G s ds) as [H|[_ [d [Hd Hbad]]]].
  - apply Hus. left. reflexivity.
  - intros x Hx. apply Hus. right. exact Hx.
  - exact H.
  - exfalso. apply Hbad, Hconn, Hd.
Qed.

Lemma get_star_connects_users_witness :
  exists J,
    _get_star demo_square [0; 2] = Ok J
    /\ g_nodes J = g_nodes demo_square
    /\ connected J 0 2.
Proof.
  destruct (get_star_connects_users demo_square 0 [2]) as [J [H1 [H2 [_ H4]]]].
  - intros u [<-|[<-|[]]]; cbn; auto.
  - intros d [<-|[]]. exists [0; 1; 2].
    split; [reflexivity|]. split; [reflexivity|].
    repeat constructor.
  - exists J. split; [exact H1|]. split; [exact H2|].
    apply H4. left. reflexivity.
Defined.

Lemma no_edges_not_connected {NA EA : Type} (G : Graph NA EA) s d :
  g_edges G = [] -> s <> d -> ~ connected G s d.
Proof.
  intros He Hsd [p [Hh [Hl Hw]]]. unfold walk in Hw.
  destruct p as [|a p]; [discriminate|].
  destruct p as [|b p].
  - cbn in Hh, Hl. congruence.
  - change (hops (a :: b :: p)) with ((a, b) :: hops (b :: p)) in Hw.
    inversion Hw as [|? ? Hab _]; subst. unfold has_edge in Hab.
    rewrite He in Hab. discriminate.
Qed.

(** X12.  How the star builder fails.  Without users it raises
    [IndexError].  With a single user it returns the topology's nodes and
    no edge, whether or not the user is a node.  With users that are nodes
    of the topology, it raises [NetworkXNoPath] when some destination
    cannot be reached from the source, and nothing else can go wrong: it
    returns a star exactly when every destination can be reached. *)
Theorem get_star_failures :
  forall (G : Topology),
    _get_star G [] = Raise IndexError
    /\ (forall s, _get_star G [s] = Ok (mkGraph (g_nodes G) []))
    /\ (forall s ds,
           (forall u, In u (s :: ds) -> In u (node_ids G)) ->
           ((exists d, In d ds /\ ~ connected G s d) ->
            _get_star G (s :: ds) = Raise NetworkXNoPath)
           /\ ((exists J, _get_star G (s :: ds) = Ok J)
               <-> forall d, In d ds -> connected G s d)).
Proof.
  intros G. split; [reflexivity|]. split; [reflexivity|].
  intros s ds Hus.
  assert (Hs : In s (node_ids G)) by (apply Hus; left; reflexivity).
  assert (Hds : incl ds (node_ids G))
    by (intros x Hx; apply Hus; right; exact Hx).
  destruct (get_star_cases G s ds Hs Hds)
    as [[J [E [A1 [A2 A3]]]]|[E [d [Hd Hbad]]]].
  - assert (Hall : forall d, In d ds -> connected G s d).
    { intros d Hd. apply (connected_mono J G s d); [|apply A3, Hd].
      intros u v Huv. unfold has_edge in Huv. apply existsb_exists in Huv.
      destruct Huv as [e [He Hse]]. specialize (A2 e He).
      rewrite (has_edge_same G u v e Hse).
      unfold find_edge in A2.
      destruct (find (same_edge (eu e) (ev e)) (g_edges G)) as [e0|] eqn:F;
        [|discriminate].
      apply find_some in F. unfold has_edge. apply existsb_exists.
      exists e0. exact F. }
    split.
    + intros [d [Hd Hbad]]. exfalso. apply Hbad, Hall, Hd.
    + split; [intros _; exact Hall|intros _; exists J; exact E].
  - split.
    + intros _. exact E.
    + split.
      * intros [J EJ]. rewrite E in EJ. discriminate.
      * intros Hall. exfalso. apply Hbad, Hall, Hd.
Qed.

Lemma get_star_failures_witness :
  _get_star demo_apart [0; 1] = Raise NetworkXNoPath.
Proof.
  destruct (get_star_failures demo_apart) as [_ [_ H]].
  destruct (H 0 [1]) as [H1 _].
  - intros u [<-|[<-|[]]]; cbn; auto.
  - apply H1. exists 1. split; [left; reflexivity|].
    apply no_edges_not_connected; [reflexivity|discriminate].
Defined.
(** ** The shortest-path protocol and the caller's graph *)

Lemma take_path_nodes hs :
  forall (T : Topology) (J : Graph NodeAttr unit) T1 J1,
    take_path hs T J = Ok (T1, J1) -> g_nodes J1 = g_nodes J.
Proof.
  induction hs as [|[x y] hs IH]; intros T J T1 J1; cbn [take_path].
  - intros E. inversion E. reflexivity.
  - destruct (remove_edge T x y) as [T0|e]; cbn [bind]; [|discriminate].
    intros E. apply IH in E. rewrite E. apply add_edge_nodes.
Qed.

Lemma share_path_nodes hs :
  forall (T : Topology) (J : Graph NodeAttr unit) T1 J1,
    share_path hs T J = Ok (T1, J1) -> g_nodes J1 = g_nodes J.
Proof.
  induction hs as [|[x y] hs IH]; intros T J T1 J1; cbn [share_path].
  - intros E. inversion E. reflexivity.
  - destruct (has_edge T x y).
    + destruct (remove_edge T x y) as [T0|e]; cbn [bind]; [|discriminate].
      intros E. apply IH in E. rewrite E. apply add_edge_nodes.
    + intros E. apply IH in E. rewrite E. apply add_edge_nodes.
Qed.

Lemma star_loop_nodes (G : Topology) s ds :
  forall (T : Topology) (J J1 : Graph NodeAttr unit),
    star_loop G s ds T J = Ok J1 -> g_nodes J1 = g_nodes J.
Proof.
  induction ds as [|d ds IH]; intros T J J1; cbn [star_loop].
  - intros E. inversion E. reflexivity.
  - destruct (has_path T s d) as [[|]|x]; cbn [bind]; [| |discriminate].
    + destruct (shortest_path T s d) as [p|x]; cbn [bind]; [|discriminate].
      destruct (take_path (hops p) T J) as [[T1 J0]|x] eqn:E0; cbn [bind];
        [|discriminate].
      intros E. apply IH in E. rewrite E. apply (take_path_nodes _ _ _ _ _ E0).
    + destruct (shortest_path G s d) as [p|x]; cbn [bind]; [|discriminate].
      destruct (share_path (hops p) T J) as [[T1 J0]|x] eqn:E0; cbn [bind];
        [|discriminate].
      intros E. apply IH in E. rewrite E. apply (share_path_nodes _ _ _ _ _ E0).
Qed.

Lemma get_star_nodes (G : Topology) users J :
  _get_star G users = Ok J -> g_nodes J = g_nodes G.
Proof.
  unfold _get_star. destruct users as [|s ds]; [discriminate|].
  destruct (star_loop G s ds _ _) as [J1|x] eqn:E; cbn [bind]; [|discriminate].
  destruct (copy_edge_data G (g_edges J1)) as [es|x]; cbn [bind]; [|discriminate].
  intros H. inversion H. cbn [g_nodes].
  apply (star_loop_nodes _ _ _ _ _ _ E).
Qed.

Lemma same_state_refl x : same_state x x.
Proof. unfold same_state. auto. Qed.

Lemma same_state_trans x1 x2 x3 :
  same_state x1 x2 -> same_state x2 x3 -> same_state x1 x3.
Proof. unfold same_state. intuition congruence. Qed.

Lemma copy_usage_frame js :
  forall G : Topology,
    g_edges (fst (copy_usage js G)) = g_edges G
    /\ Forall2 same_state (g_nodes G) (g_nodes (fst (copy_usage js G))).
Proof.
  induction js as [|[n a] js IH]; intros G; cbn [copy_usage].
  - split; [reflexivity|]. apply Forall2_refl_on, same_state_refl.
  - destruct (has_node G n).
    + destruct (IH (set_node G n
                      (fun x => set_n_usage_fraction (n_usage_fraction a)
                                  (set_n_usage_count (n_usage_count a) x))))
        as [H1 H2].
      split; [rewrite H1; reflexivity|].
      eapply Forall2_trans; [apply same_state_trans| |exact H2].
      cbn [set_node g_nodes]. apply Forall2_map_same.
      intros [m b]. cbn. destruct (m =? n); [|apply same_state_refl].
      unfold same_state. cbn. auto.
    + split; [reflexivity|]. apply Forall2_refl_on, same_state_refl.
Qed.

Lemma copy_usage_untouched js :
  forall (G : Topology) n x,
    ~ In n (map fst js) ->
    (In (n, x) (g_nodes (fst (copy_usage js G))) <-> In (n, x) (g_nodes G)).
Proof.
  induction js as [|[m a] js IH]; intros G n x Hn; cbn [copy_usage].
  - reflexivity.
  - cbn [map fst] in Hn.
    assert (Hm : m <> n) by (intros E; apply Hn; left; exact E).
    assert (Hn' : ~ In n (map fst js)) by (intros H; apply Hn; right; exact H).
    destruct (has_node G m); [|reflexivity].
    rewrite IH by exact Hn'. cbn [set_node g_nodes]. rewrite in_map_iff. split.
    + intros [[k b] [E Hin]]. cbn [fst snd] in E.
      destruct (k =? m) eqn:Ek.
      * apply Nat.eqb_eq in Ek. inversion E; subst. congruence.
      * inversion E; subst. exact Hin.
    + intros Hin. exists (n, x). split; [|exact Hin]. cbn [fst snd].
      destruct (n =? m) eqn:Ek; [|reflexivity].
      apply Nat.eqb_eq in Ek. congruence.
Qed.

Lemma copy_usage_copies js :
  NoDup (map fst js) ->
  forall (G : Topology) n a x,
    In (n, a) js ->
    In (n, x) (g_nodes (fst (copy_usage js G))) ->
    snd (copy_usage js G) = None ->
    n_usage_count x = n_usage_count a
    /\ n_usage_fraction x = n_usage_fraction a.
Proof.
  induction js as [|[m b] js IH]; intros Hnd G n a x Hin Hx Herr; [destruct Hin|].
  cbn [map fst] in Hnd. inversion Hnd as [|? ? Hm Hnd']; subst.
  cbn [copy_usage] in Hx, Herr.
  destruct (has_node G m); [|discriminate].
  destruct Hin as [E|Hin].
  - inversion E; subst.
    apply (proj1 (copy_usage_untouched js _ n x Hm)) in Hx.
    cbn [set_node g_nodes] in Hx. apply in_map_iff in Hx.
    destruct Hx as [[k c] [E' _]]. cbn [fst snd] in E'.
    destruct (k =? n) eqn:Ek.
    + inversion E'; subst. cbn. auto.
    + inversion E'; subst. rewrite Nat.eqb_refl in Ek. discriminate.
  - apply (IH Hnd' _ n a x Hin Hx Herr).
Qed.

Lemma same_layout_node_ids G G' : same_layout G G' -> node_ids G' = node_ids G.
Proof.
  intros [H _]. unfold node_ids.
  induction H as [|x y l l' [E _] _ IH]; cbn; [reflexivity|].
  rewrite E, IH. reflexivity.
Qed.

Lemma SP_protocol_cases (G : Topology) users timesteps reps cf rng :
  g_edges (ro_graph (SP_protocol G users timesteps reps cf rng)) = g_edges G
  /\ Forall2 same_state (g_nodes G)
             (g_nodes (ro_graph (SP_protocol G users timesteps reps cf rng)))
  /\ (forall x, _get_star G users = Raise x ->
                ro_result (SP_protocol G users timesteps reps cf rng) = Raise x)
  /\ (forall J,
         _get_star G users = Ok J ->
         ro_result (SP_protocol G users timesteps reps cf rng)
         = ro_result (_run_protocol J users timesteps reps _SD_protocol true cf rng)
         /\ (NoDup (node_ids G) ->
             forall r n a x,
               ro_result (SP_protocol G users timesteps reps cf rng) = Ok r ->
               In (n, a) (g_nodes (ro_graph (_run_protocol J users timesteps reps
                                               _SD_protocol true cf rng))) ->
               In (n, x) (g_nodes (ro_graph (SP_protocol G users timesteps reps
                                                         cf rng))) ->
               n_usage_count x = n_usage_count a
               /\ n_usage_fraction x = n_usage_fraction a)).
Proof.
  unfold SP_protocol.
  destruct (_get_star G users) as [J|x] eqn:EJ.
  - pose proof (get_star_nodes G users J EJ) as HJ.
    pose proof (same_layout_node_ids _ _
                  (same_layout_run _SD_protocol J users timesteps reps true cf rng
                     SD_keeps_layout)) as Hids.
    set (o := _run_protocol J users timesteps reps _SD_protocol true cf rng) in *.
    assert (Hincl : incl (map fst (g_nodes (ro_graph o))) (node_ids G)).
    { fold (node_ids (ro_graph o)). rewrite Hids. unfold node_ids.
      rewrite HJ. apply incl_refl. }
    destruct (ro_result o) as [r|x] eqn:Er.
    + unfold update_usage_from_subgraph.
      pose proof (copy_usage_total (g_nodes (ro_graph o)) G Hincl) as Ht.
      destruct (copy_usage_frame (g_nodes (ro_graph o)) G) as [F1 F2].
      pose proof (copy_usage_copies (g_nodes (ro_graph o))) as Hc.
      destruct (copy_usage (g_nodes (ro_graph o)) G) as [G1 err] eqn:Ec.
      cbn [fst snd] in *. subst err. cbn [ro_graph ro_result].
      split; [exact F1|]. split; [exact F2|]. split; [discriminate|].
      intros J' E'. inversion E'; subst J'. fold o. rewrite Er.
      split; [reflexivity|].
      intros Hnd r' n a x _ Ha Hx.
      assert (Hnd' : NoDup (map fst (g_nodes (ro_graph o)))).
      { fold (node_ids (ro_graph o)). rewrite Hids. unfold node_ids.
        rewrite HJ. exact Hnd. }
      apply (Hc Hnd' G n a x Ha); rewrite Ec; [exact Hx|reflexivity].
    + cbn [ro_graph ro_result].
      split; [reflexivity|]. split; [apply Forall2_refl_on, same_state_refl|].
      split; [discriminate|].
      intros J' E'. inversion E'; subst J'. fold o. rewrite Er.
      split; [reflexivity|]. intros; discriminate.
  - cbn [ro_graph ro_result].
    split; [reflexivity|]. split; [apply Forall2_refl_on, same_state_refl|].
    split; [intros y E; inversion E; reflexivity|]. intros J E. discriminate.
Qed.

(** X14.  [SP_protocol] returns what the runner returns on the star, and
    hands the star's usage back.  If [_get_star] fails, the protocol
    fails with the same exception.  If it returns [J], the result is that
    of [_run_protocol] on [J] with the shortest-path strategy and the
    [nodes] flag (copying the usage back never raises), and on a graph
    with distinct node ids every node ends with the [usage_count] and
    [usage_fraction] the run left on its copy in the star. *)
Theorem SP_protocol_runs_on_the_star :
  forall (G : Topology) (users : list node) (timesteps reps : Z)
         (count_fusion : bool) (rng : RandomSource),
    (forall x, _get_star G users = Raise x ->
               ro_result (SP_protocol G users timesteps reps count_fusion rng)
               = Raise x)
    /\ (forall J,
           _get_star G users = Ok J ->
           ro_result (SP_protocol G users timesteps reps count_fusion rng)
           = ro_result (_run_protocol J users timesteps reps _SD_protocol true
                                      count_fusion rng)
           /\ (NoDup (node_ids G) ->
               forall r n a x,
                 ro_result (SP_protocol G users timesteps reps count_fusion rng)
                 = Ok r ->
                 In (n, a) (g_nodes (ro_graph (_run_protocol
                                                 J users timesteps reps
                                                 _SD_protocol true count_fusion
                                                 rng))) ->
                 In (n, x) (g_nodes (ro_graph (SP_protocol G users timesteps reps
                                                           count_fusion rng))) ->
                 n_usage_count x = n_usage_count a
                 /\ n_usage_fraction x = n_usage_fraction a)).
Proof.
  intros G users timesteps reps cf rng.
  destruct (SP_protocol_cases G users timesteps reps cf rng) as [_ [_ [H3 H4]]].
  auto.
Qed.

Lemma SP_protocol_runs_on_the_star_witness :
  ro_result (SP_protocol (demo_pair false false 1%Q) [0; 1] 5 3 false half)
  = ro_result (_run_protocol (demo_pair false false 1%Q) [0; 1] 5 3
                             _SD_protocol true false half).
Proof.
  destruct (SP_protocol_runs_on_the_star (demo_pair false false 1%Q) [0; 1] 5 3
              false half) as [_ H].
  destruct (H (demo_pair false false 1%Q)) as [H1 _].
  - vm_compute. reflexivity.
  - exact H1.
Defined.

(** ** A network that generates no links *)

Lemma update_nth_id {A : Type} (f : A -> A) (l : list A) (i : nat) :
  (forall x, nth_error l i = Some x -> f x = x) -> update_nth i f l = l.
Proof.
  revert i. induction l as [|y l IH]; intros i H; [destruct i; reflexivity|].
  destruct i as [|i]; cbn.
  - rewrite (H y eq_refl). reflexivity.
  - rewrite IH; [reflexivity|]. intros x Hx. apply H. exact Hx.
Qed.

Lemma dead_edge_update (r : Q) (e : Edge EdgeAttr) :
  e_entangled (eattr e) = false -> (e_p_edge (eattr e) <= 0)%Q -> (0 <= r)%Q ->
  on_attr (edge_update r) e = e.
Proof.
  destruct e as [[u v] a]. unfold on_attr, eu, ev, eattr. cbn.
  intros He Hp Hr. unfold edge_update, edge_decohere. rewrite He.
  unfold edge_generate. rewrite He. cbn [negb andb].
  assert (Hq : Qgt_bool (e_p_edge a) r = false).
  { destruct (Qgt_bool (e_p_edge a) r) eqn:E; [|reflexivity].
    apply Qgt_bool_iff in E. exfalso.
    apply (Qlt_irrefl r). eapply Qlt_le_trans; [exact E|].
    eapply Qle_trans; [exact Hp|exact Hr]. }
  rewrite Hq. reflexivity.
Qed.

Lemma dead_edge_loop ks :
  forall es edge,
    Forall (fun e => e_entangled (eattr e) = false
                     /\ (e_p_edge (eattr e) <= 0)%Q) es ->
    Forall (fun k : nat * Q => (0 <= snd k)%Q) ks ->
    fst (edge_loop ks es edge) = es.
Proof.
  induction ks as [|[i r] ks IH]; intros es edge Hes Hks; cbn [edge_loop];
    [reflexivity|].
  inversion Hks as [|? ? Hr Hks']; subst. cbn [snd] in Hr.
  rewrite update_nth_id.
  - apply IH; assumption.
  - intros e He. apply nth_error_In in He.
    destruct (proj1 (Forall_forall _ _) Hes e He) as [H1 H2].
    apply dead_edge_update; assumption.
Qed.

Lemma dead_node_loop edge ns :
  Forall (fun x : node * NodeAttr =>
            n_entangled (snd x) = false /\ n_age (snd x) = 0%Z
            /\ (0 < n_Qc (snd x))%Q) ns ->
  forall es, node_loop edge ns es = (ns, es, None).
Proof.
  induction 1 as [|[name nd] ns [H1 [H2 H3]] _ IH]; intros es; cbn [node_loop];
    [reflexivity|].
  cbn [snd] in H1, H2, H3. rewrite H1.
  assert (Hq : Qle_bool (n_Qc nd) (inject_Z (n_age nd)) = false).
  { apply Qle_bool_false_iff. rewrite H2. exact H3. }
  rewrite Hq, IH. reflexivity.
Qed.

Lemma dead_step (G : Topology) nodes (rng : RandomSource) :
  rested G -> dead G -> (forall i, (0 <= rng i)%Q) ->
  run_entanglement_step G [] nodes rng
  = mkStepOut G [] None (fun i => rng (number_of_edges G + i)).
Proof.
  intros [Re Rn] [De Dn] Hrng. unfold run_entanglement_step.
  cbn [np_random_rand].
  assert (Hes : Forall (fun e => e_entangled (eattr e) = false
                                 /\ (e_p_edge (eattr e) <= 0)%Q) (g_edges G)).
  { apply Forall_forall. intros e He. split.
    - apply (proj1 (Forall_forall _ _) Re e He).
    - apply (proj1 (Forall_forall _ _) De e He). }
  assert (Hks : Forall (fun k : nat * Q => (0 <= snd k)%Q)
                       (combine (edge_order G)
                                (map rng (seq 0 (number_of_edges G))))).
  { apply Forall_forall. intros [i r] Hin. apply in_combine_r in Hin.
    apply in_map_iff in Hin. destruct Hin as [j [<- _]]. apply Hrng. }
  pose proof (dead_edge_loop _ (g_edges G) None Hes Hks) as He.
  destruct (edge_loop _ (g_edges G) None) as [es edge]. cbn [fst] in He. subst es.
  destruct nodes.
  - rewrite dead_node_loop.
    + cbn. destruct G; reflexivity.
    + apply Forall_forall. intros x Hx.
      destruct (proj1 (Forall_forall _ _) Rn x Hx) as [H1 H2].
      split; [exact H1|]. split; [exact H2|].
      apply (proj1 (Forall_forall _ _) Dn x Hx).
  - destruct G; reflexivity.
Qed.

Lemma no_links_subgraph (G : Topology) :
  rested G -> get_entangled_subgraph G = no_links G.
Proof.
  intros [Re _]. unfold get_entangled_subgraph, no_links.
  assert (E : filter (fun e : Edge EdgeAttr => e_entangled (eattr e)) (edges G) = []).
  { destruct (filter _ (edges G)) as [|e l] eqn:F; [reflexivity|].
    assert (He : In e (filter (fun e => e_entangled (eattr e)) (edges G)))
      by (rewrite F; left; reflexivity).
    apply filter_In in He. destruct He as [He Hent].
    destruct (edges_sound G e He) as [e0 [He0 [_ Ha]]].
    destruct (proj1 (Forall_forall _ _) Re e0 He0) as [H1 _].
    rewrite Ha, H1 in Hent. discriminate. }
  rewrite E. reflexivity.
Qed.

Lemma dead_timestep_loop (sp : Strategy) users nodes cf (G : Topology) n :
  rested G -> dead G -> gives_up sp users G ->
  forall t links (rng : RandomSource),
    (forall i, (0 <= rng i)%Q) ->
    exists rng' : RandomSource,
      timestep_loop sp users nodes cf n t G [] links rng
      = mkTrialOut G rng' links (Ok (-1)%Z)
      /\ forall i, (0 <= rng' i)%Q.
Proof.
  intros HR HD Hsp. induction n as [|n IH]; intros t links rng Hrng;
    cbn [timestep_loop].
  - exists rng. auto.
  - rewrite (dead_step G nodes rng HR HD Hrng).
    cbn [so_exn so_graph so_used so_rng].
    rewrite (no_links_subgraph G HR), (Hsp cf).
    apply IH. intros i. apply Hrng.
Qed.

Lemma rested_reset (G : Topology) : rested (reset_graph_state G).
Proof.
  unfold rested, reset_graph_state, map_nodes, map_edges. cbn. split.
  - apply Forall_map. apply Forall_forall. intros e _. cbn. auto.
  - apply Forall_map. apply Forall_forall. intros x _. cbn. auto.
Qed.

Lemma rested_fixed (G : Topology) : rested G -> reset_graph_state G = G.
Proof.
  intros [Re Rn]. destruct G as [ns es].
  unfold reset_graph_state, map_nodes, map_edges. cbn in *. f_equal.
  - rewrite <- (map_id ns) at 2. apply map_ext_in. intros [n a] Hin.
    destruct (proj1 (Forall_forall _ _) Rn _ Hin) as [H1 H2]. cbn in *.
    destruct a. cbn in *. subst. reflexivity.
  - rewrite <- (map_id es) at 2. apply map_ext_in. intros [[u v] a] Hin.
    destruct (proj1 (Forall_forall _ _) Re _ Hin) as [H1 H2].
    unfold eattr, eu, ev in *. cbn in *.
    destruct a. cbn in *. subst. reflexivity.
Qed.

Lemma dead_trial_loop (sp : Strategy) users timesteps nodes cf (G : Topology) n :
  rested G -> dead G -> gives_up sp users G ->
  forall links times (rng : RandomSource),
    (forall i, (0 <= rng i)%Q) ->
    exists rng' : RandomSource,
      trial_loop sp users timesteps nodes cf n G links times rng
      = (G, rng', links, Ok (times ++ repeat (-1)%Z n)).
Proof.
  intros HR HD Hsp. induction n as [|n IH]; intros links times rng Hrng;
    cbn [trial_loop].
  - exists rng. rewrite app_nil_r. reflexivity.
  - rewrite (rested_fixed G HR).
    destruct (dead_timestep_loop sp users nodes cf G (Z.to_nat timesteps)
                HR HD Hsp 0%Z links rng Hrng) as [rng1 [E Hrng1]].
    rewrite E. cbn [to_time to_graph to_links to_rng].
    destruct (IH links (times ++ [(-1)%Z]) rng1 Hrng1) as [rng2 E2].
    exists rng2. rewrite E2. rewrite <- app_assoc. reflexivity.
Qed.
Lemma dead_reset_state (G : Topology) : dead G -> dead (reset_graph_state G).
Proof.
  intros [De Dn]. unfold dead, reset_graph_state, map_nodes, map_edges. cbn.
  split; apply Forall_map.
  - eapply Forall_impl; [|exact De]. intros [[u v] a]. unfold eattr. cbn. auto.
  - eapply Forall_impl; [|exact Dn]. intros [n a]. cbn. auto.
Qed.

Lemma dead_reset_usage (G : Topology) : dead G -> dead (reset_graph_usage G).
Proof.
  intros [De Dn]. unfold dead, reset_graph_usage, map_nodes. cbn.
  split; [exact De|]. apply Forall_map.
  eapply Forall_impl; [|exact Dn]. intros [n a]. cbn. auto.
Qed.

Lemma dead_trial_loop_from (sp : Strategy) users timesteps nodes cf
      (G : Topology) n :
  dead G -> gives_up sp users (reset_graph_state G) ->
  forall links times (rng : RandomSource),
    (forall i, (0 <= rng i)%Q) ->
    exists rng' : RandomSource,
      trial_loop sp users timesteps nodes cf n G links times rng
      = (match n with O => G | S _ => reset_graph_state G end,
         rng', links, Ok (times ++ repeat (-1)%Z n)).
Proof.
  intros HD Hsp links times rng Hrng. destruct n as [|n].
  - exists rng. cbn. rewrite app_nil_r. reflexivity.
  - cbn [trial_loop].
    destruct (dead_timestep_loop sp users nodes cf (reset_graph_state G)
                (Z.to_nat timesteps) (rested_reset G) (dead_reset_state G HD)
                Hsp 0%Z links rng Hrng) as [rng1 [E Hrng1]].
    rewrite E. cbn [to_time to_graph to_links to_rng].
    destruct (dead_trial_loop sp users timesteps nodes cf (reset_graph_state G) n
                (rested_reset G) (dead_reset_state G HD) Hsp links
                (times ++ [(-1)%Z]) rng1 Hrng1) as [rng2 E2].
    exists rng2. rewrite E2. rewrite <- app_assoc. reflexivity.
Qed.

Lemma update_graph_usage_ok (G : Topology) reps :
  reps <> 0%Z -> snd (update_graph_usage G reps) = None.
Proof.
  intros H. unfold update_graph_usage. destruct (g_nodes G); [reflexivity|].
  apply Z.eqb_neq in H. rewrite H. reflexivity.
Qed.

Lemma dead_run (sp : Strategy) (G : Topology) users timesteps reps nodes cf
      (rng : RandomSource) :
  (0 < reps)%Z -> (0 < timesteps)%Z ->
  dead G ->
  (forall i, (0 <= rng i)%Q) ->
  gives_up sp users (reset_graph_state (reset_graph_usage G)) ->
  all_failed reps (_run_protocol G users timesteps reps sp nodes cf rng).
Proof.
  intros Hreps Hts HD Hrng Hsp. unfold all_failed, _run_protocol.
  destruct (reps <? 0)%Z eqn:E; [apply Z.ltb_lt in E; lia|].
  destruct (dead_trial_loop_from sp users timesteps nodes cf (reset_graph_usage G)
              (Z.to_nat reps) (dead_reset_usage G HD) Hsp 0%Z [] rng Hrng)
    as [rng1 E1].
  rewrite E1. cbn [app]. rewrite rate_all_failed.
  assert (Hnz : (Z.of_nat (Z.to_nat reps) * timesteps =? 0)%Z = false)
    by (apply Z.eqb_neq; nia).
  rewrite Hnz.
  match goal with
  | |- context [update_graph_usage ?g reps] =>
      pose proof (update_graph_usage_ok g reps) as Hu;
      destruct (update_graph_usage g reps) as [G2 err]
  end.
  cbn [snd] in Hu. rewrite Hu by lia.
  assert (Hr : (reps =? 0)%Z = false) by (apply Z.eqb_neq; lia).
  rewrite Hr. cbn [ro_result]. eexists. eexists. split; [reflexivity|].
  split; unfold Qdiv; apply Qmult_0_l.
Qed.

Lemma node_ids_no_links (G : Topology) : node_ids (no_links G) = node_ids G.
Proof.
  unfold node_ids, no_links. cbn. rewrite map_map. reflexivity.
Qed.

Lemma no_links_no_path (G : Topology) s d :
  In s (node_ids G) -> In d (node_ids G) -> s <> d ->
  shortest_path (no_links G) s d = Raise NetworkXNoPath.
Proof.
  intros Hs Hd Hsd. unfold shortest_path, has_node.
  rewrite node_ids_no_links.
  rewrite (proj2 (mem_In s (node_ids G)) Hs), (proj2 (mem_In d (node_ids G)) Hd).
  cbn. rewrite (proj2 (Nat.eqb_neq s d) Hsd). reflexivity.
Qed.

Lemma lookup_node_In {NA : Type} (ns : list (node * NA)) d a :
  lookup_node ns d = Some a -> In (d, a) ns.
Proof.
  unfold lookup_node.
  destruct (find (fun x : nat * NA => fst x =? d) ns) as [[n b]|] eqn:F;
    [|cbn; discriminate].
  apply find_some in F. destruct F as [Hin E]. cbn in E.
  apply Nat.eqb_eq in E. subst n. intros H. inversion H; subst. exact Hin.
Qed.

Lemma rested_lookup (G : Topology) d :
  rested G -> In d (node_ids G) ->
  exists nd, lookup_node (g_nodes G) d = Some nd /\ n_entangled nd = false.
Proof.
  intros [_ Rn] Hd.
  destruct (proj1 (lookup_node_some (g_nodes G) d) Hd) as [nd Hnd].
  exists nd. split; [exact Hnd|].
  apply lookup_node_In in Hnd.
  apply (proj1 (Forall_forall _ _) Rn (d, nd) Hnd).
Qed.

Lemma sd_loop_no_links (G : Topology) s ds used :
  rested G -> In s (node_ids G) -> incl ds (node_ids G) -> ~ In s ds ->
  sd_loop s ds G (no_links G) used = mkProtoOut G (no_links G) used None.
Proof.
  intros HR Hs. induction ds as [|d ds IH]; intros Hds Hout; cbn [sd_loop];
    [reflexivity|].
  assert (Hd : In d (node_ids G)) by (apply Hds; left; reflexivity).
  destruct (rested_lookup G d HR Hd) as [nd [E1 E2]]. rewrite E1, E2.
  unfold has_path. rewrite no_links_no_path; auto.
  - apply IH.
    + intros x Hx. apply Hds. right. exact Hx.
    + intros H. apply Hout. right. exact H.
  - intros E. apply Hout. left. symmetry. exact E.
Qed.

Lemma SD_gives_up (G : Topology) s ds :
  rested G -> ds <> [] -> ~ In s ds ->
  (forall u, In u (s :: ds) -> In u (node_ids G)) ->
  gives_up _SD_protocol (s :: ds) G.
Proof.
  intros HR Hne Hout Hus cf. unfold _SD_protocol.
  rewrite sd_loop_no_links; auto.
  - cbn [po_exn po_graph po_used].
    destruct ds as [|d ds]; [congruence|]. cbn [all_entangled].
    destruct (rested_lookup G d HR) as [nd [E1 E2]];
      [apply Hus; right; left; reflexivity|].
    rewrite E1, E2.
    destruct (all_entangled_total G ds) as [b Hb].
    + intros x Hx. apply Hus. right. right. exact Hx.
    + rewrite Hb. reflexivity.
  - apply Hus. left. reflexivity.
  - intros x Hx. apply Hus. right. exact Hx.
Qed.

Lemma no_links_component (G : Topology) s :
  In s (node_ids G) -> node_connected_component (no_links G) s = Ok [s].
Proof.
  intros Hs. unfold node_connected_component, has_node.
  rewrite node_ids_no_links, (proj2 (mem_In s (node_ids G)) Hs).
  reflexivity.
Qed.

Lemma CC_gives_up steiner_tree (G : Topology) s ds :
  ds <> [] -> ~ In s ds ->
  (forall u, In u (s :: ds) -> In u (node_ids G)) ->
  gives_up (_CC_protocol steiner_tree) (s :: ds) G.
Proof.
  intros Hne Hout Hus cf. unfold _CC_protocol.
  rewrite (no_links_component G s (Hus s (or_introl eq_refl))).
  destruct ds as [|d ds]; [congruence|].
  assert (Hsd : d <> s) by (intros E; apply Hout; left; exact E).
  unfold mem. cbn [forallb existsb]. rewrite Nat.eqb_refl.
  rewrite (proj2 (Nat.eqb_neq d s) Hsd). reflexivity.
Qed.

(** X15.  A network that cannot generate links never succeeds.  If no
    edge has a positive [p_edge], every node has a positive [Qc], the
    draws are not negative, and the users are the source and at least one
    destination, all nodes of the graph and the source not among the
    destinations, then with positive [reps] and [timesteps] the greedy and
    the cooperative protocol both return rate 0, a time of [-1] for every
    repetition, and 0 links used. *)
Theorem dead_network_never_succeeds :
  forall (steiner_tree : LinkGraph -> list node -> LinkGraph)
         (G : Topology) (s : node) (ds : list node) (timesteps reps : Z)
         (count_fusion : bool) (rng : RandomSource),
    (0 < reps)%Z -> (0 < timesteps)%Z ->
    dead G ->
    (forall i, (0 <= rng i)%Q) ->
    ds <> [] -> ~ In s ds ->
    (forall u, In u (s :: ds) -> In u (node_ids G)) ->
    all_failed reps (MPG_protocol G (s :: ds) timesteps reps count_fusion rng)
    /\ all_failed reps (MPC_protocol steiner_tree G (s :: ds) timesteps reps
                                     count_fusion rng).
Proof.
  intros st G s ds timesteps reps cf rng Hreps Hts HD Hrng Hne Hout Hus.
  assert (Hus' : forall u, In u (s :: ds) ->
                           In u (node_ids (reset_graph_state (reset_graph_usage G)))).
  { intros u Hu. rewrite reset_graph_state_node_ids.
    unfold node_ids, reset_graph_usage, map_nodes. cbn [g_nodes].
    rewrite map_map. cbn [fst]. apply Hus, Hu. }
  split.
  - apply dead_run; auto. apply SD_gives_up; auto. apply rested_reset.
  - apply dead_run; auto. apply CC_gives_up; auto.
Qed.

Lemma dead_network_never_succeeds_witness :
  all_failed 2 (MPG_protocol demo_dead [0; 1] 3 2 false half)
  /\ all_failed 2 (MPC_protocol (fun H _ => H) demo_dead [0; 1] 3 2 false half).
Proof.
  apply (dead_network_never_succeeds (fun H _ => H) demo_dead 0 [1] 3 2 false half).
  - lia.
  - lia.
  - split; repeat constructor; cbn; unfold Qle, Qlt; cbn; lia.
  - intros i. unfold half, Qle. cbn. lia.
  - discriminate.
  - intros [E|[]]. discriminate.
  - intros u [<-|[<-|[]]]; cbn; auto.
Defined.
(** ** The greedy protocol returns *)

Lemma Forall2_In_r {A B : Type} (R : A -> B -> Prop) (l : list A) (l' : list B) y :
  Forall2 R l l' -> In y l' -> exists x, In x l /\ R x y.
Proof.
  induction 1 as [|a b l l' Hab _ IH]; intros Hy; [destruct Hy|].
  destruct Hy as [<-|Hy].
  - exists a. split; [left; reflexivity|exact Hab].
  - destruct (IH Hy) as [x [Hx Hr]]. exists x. split; [right; exact Hx|exact Hr].
Qed.

Lemma same_layout_closed (G G' : Topology) :
  same_layout G G' -> closed G -> closed G'.
Proof.
  intros HL HC e' He'. rewrite (same_layout_node_ids G G' HL).
  destruct HL as [_ HE].
  destruct (Forall2_In_r _ _ _ e' HE He') as [e [He [E1 [E2 _]]]].
  rewrite E1, E2. apply HC, He.
Qed.

Lemma same_layout_has_edges (G G' : Topology) :
  same_layout G G' -> g_edges G <> [] -> g_edges G' <> [].
Proof.
  intros [_ HE] Hne E. rewrite E in HE. inversion HE. congruence.
Qed.

Lemma edge_order_nonempty {NA EA : Type} (G : Graph NA EA) :
  closed G -> g_edges G <> [] -> edge_order G <> [].
Proof.
  intros HC Hne. destruct (g_edges G) as [|e0 es] eqn:E; [congruence|].
  assert (He0 : In e0 (g_edges G)) by (rewrite E; left; reflexivity).
  destruct (edges_complete G e0 He0 (proj1 (HC e0 He0))) as [e [He _]].
  unfold edges in He. unfold edge_order. intros Hnil.
  apply map_eq_nil in Hnil. rewrite Hnil in He. destruct He.
Qed.

Lemma closed_entangled_subgraph (G : Topology) u v :
  closed G ->
  has_edge (get_entangled_subgraph G) u v = true ->
  In u (node_ids G) /\ In v (node_ids G).
Proof.
  intros HC Huv. unfold has_edge in Huv. apply existsb_exists in Huv.
  destruct Huv as [e [He Hs]].
  destruct (entangled_subgraph_data G e He) as [e0 [He0 [Hs0 _]]].
  pose proof (same_edge_trans u v e e0 Hs Hs0) as H.
  apply same_edge_iff in H. destruct (HC e0 He0) as [H1 H2].
  destruct H as [[<- <-]|[<- <-]]; auto.
Qed.

Lemma hops_reach (p : list node) y :
  In y (tl p) -> exists x, In (x, y) (hops p).
Proof.
  induction p as [|a p IH]; [intros []|].
  destruct p as [|b p]; [intros []|].
  change (hops (a :: b :: p)) with ((a, b) :: hops (b :: p)).
  cbn [tl]. intros [<-|Hy].
  - exists a. left. reflexivity.
  - destruct (IH Hy) as [x Hx]. exists x. right. exact Hx.
Qed.

Lemma In_removelast {A : Type} (l : list A) x : In x (removelast l) -> In x l.
Proof.
  induction l as [|a l IH]; [intros []|].
  destruct l as [|b l]; [intros []|].
  change (removelast (a :: b :: l)) with (a :: removelast (b :: l)).
  intros [<-|H]; [left; reflexivity|right; apply IH, H].
Qed.

Lemma path_interior_nodes {NA EA : Type} (H : Graph NA EA) s d p (ids : list node) :
  path_between H s d p ->
  (forall u v, has_edge H u v = true -> In v ids) ->
  incl (path_interior p) ids.
Proof.
  intros [_ [_ Hw]] Hcl x Hx. unfold path_interior in Hx.
  apply In_removelast in Hx. apply hops_reach in Hx. destruct Hx as [y Hy].
  unfold walk in Hw. apply (Hcl y x).
  apply (proj1 (Forall_forall _ _) Hw (y, x) Hy).
Qed.
Lemma good_path_ids (G G' : Topology) p :
  node_ids G' = node_ids G -> good_path G p -> good_path G' p.
Proof.
  intros E [[a [d [H1 [H2 H3]]]] H4]. unfold good_path, path_ok. rewrite E.
  split; [exists a, d; auto|exact H4].
Qed.

Lemma sd_loop_good s ds :
  forall (G : Topology) (H : LinkGraph) used,
    links_of G H ->
    (forall u v, has_edge H u v = true -> In v (node_ids G)) ->
    In s (node_ids G) ->
    incl ds (node_ids G) ->
    Forall (good_path G) used ->
    Forall (good_path G) (po_used (sd_loop s ds G H used)).
Proof.
  induction ds as [|d ds IH]; intros G H used Hlinks Hcl Hs Hds Hgood;
    cbn [sd_loop]; [exact Hgood|].
  assert (Hd : In d (node_ids G)) by (apply Hds; left; reflexivity).
  assert (Hds' : incl ds (node_ids G))
    by (intros x Hx; apply Hds; right; exact Hx).
  destruct (proj1 (lookup_node_some (g_nodes G) d) Hd) as [nd Hnd].
  rewrite Hnd.
  destruct (n_entangled nd); [apply IH; assumption|].
  destruct Hlinks as [Hids Hsub].
  assert (HsH : has_node H s = true)
    by (unfold has_node; rewrite Hids; apply mem_In; exact Hs).
  assert (HdH : has_node H d = true)
    by (unfold has_node; rewrite Hids; apply mem_In; exact Hd).
  unfold has_path.
  destruct (shortest_path H s d) as [p|x] eqn:Esp.
  - pose proof (shortest_path_simple H s d p Esp) as Hnodup.
    destruct (shortest_path_sound H s d p Esp) as [_ [_ [Hpb _]]].
    pose proof Hpb as [Hhd [Hlast Hwalk]].
    rewrite (create_bell_pair_succeeds G H p used d).
    + cbn [po_exn po_graph po_links po_used].
      set (G' := mkGraph (map (marked d) (g_nodes G))
                         (map (consumed (hops p)) (g_edges G))).
      assert (Hids' : node_ids G' = node_ids G)
        by (unfold node_ids, G'; cbn [g_nodes]; apply map_fst_marked).
      assert (HG : Forall (good_path G')
                     (po_used (sd_loop s ds G'
                                 (mkGraph (g_nodes H)
                                    (filter (fun e => negb (on_hops (hops p) e))
                                            (g_edges H)))
                                 (used ++ [mkUsedPath (path_interior p)
                                             (Z.of_nat (length p) - 1)%Z
                                             (Some 0%Z) (Some d)])))).
      { apply IH.
        - split.
          + rewrite Hids'. exact Hids.
          + intros u v Huv. apply has_edge_filtered in Huv.
            unfold G'. rewrite has_edge_consumed with (ns' := g_nodes G).
            apply Hsub in Huv. destruct G. exact Huv.
        - intros u v Huv. apply has_edge_filtered in Huv. rewrite Hids'.
          apply (Hcl u v Huv).
        - rewrite Hids'. exact Hs.
        - rewrite Hids'. exact Hds'.
        - apply Forall_app. split.
          + eapply Forall_impl; [|exact Hgood].
            intros q Hq. apply (good_path_ids G G' q Hids' Hq).
          + constructor; [|constructor].
            apply (good_path_ids G G' _ Hids'). split.
            * exists 0%Z, d. cbn. auto.
            * cbn [up_nodes]. apply (path_interior_nodes H s d p _ Hpb Hcl). }
      eapply Forall_impl; [|exact HG].
      intros q Hq. apply (good_path_ids G' G q (eq_sym Hids') Hq).
    + apply hops_available_simple; assumption.
    + exact Hlast.
    + unfold has_node. apply mem_In. exact Hd.
  - rewrite (shortest_path_raises H s d x HsH HdH Esp).
    apply IH; [split|..]; assumption.
Qed.

Lemma SD_call (G : Topology) s ds used cf :
  closed G ->
  incl (s :: ds) (node_ids G) ->
  Forall (good_path G) used ->
  exists G1 used1 b,
    _SD_protocol G (get_entangled_subgraph G) (s :: ds) used cf
    = (G1, used1, Ok b)
    /\ same_layout G G1
    /\ Forall (good_path G1) used1.
Proof.
  intros HC Hus Hgood.
  destruct (SD_protocol_total G (get_entangled_subgraph G) s ds used cf
              (links_of_entangled_subgraph G) Hus) as [b [H1 [_ H3]]].
  pose proof (SD_keeps_layout G (get_entangled_subgraph G) (s :: ds) used cf)
    as HL.
  assert (Hused : snd (fst (_SD_protocol G (get_entangled_subgraph G) (s :: ds)
                                         used cf))
                  = po_used (sd_loop s ds G (get_entangled_subgraph G) used)).
  { unfold _SD_protocol. destruct (po_exn _); reflexivity. }
  pose proof (sd_loop_good s ds G (get_entangled_subgraph G) used
                (links_of_entangled_subgraph G)
                (fun u v Huv => proj2 (closed_entangled_subgraph G u v HC Huv))
                (Hus s (or_introl eq_refl))
                (fun x Hx => Hus x (or_intror Hx)) Hgood) as HG.
  destruct (_SD_protocol G (get_entangled_subgraph G) (s :: ds) used cf)
    as [[G1 used1] res].
  cbn [fst snd] in *. subst res used1.
  exists G1, (po_used (sd_loop s ds G (get_entangled_subgraph G) used)), b.
  split; [reflexivity|]. split; [exact HL|].
  eapply Forall_impl; [|exact HG].
  intros q Hq. apply (good_path_ids G G1 q H3 Hq).
Qed.

Lemma count_nodes_total ns :
  forall G : Topology,
    incl ns (node_ids G) ->
    snd (count_nodes ns G) = None
    /\ node_ids (fst (count_nodes ns G)) = node_ids G.
Proof.
  induction ns as [|n ns IH]; intros G Hin; cbn [count_nodes]; [auto|].
  assert (Hn : has_node G n = true)
    by (apply mem_In, Hin; left; reflexivity).
  rewrite Hn.
  destruct (IH (set_node G n (fun a => set_n_usage_count (n_usage_count a + 1)%Z a)))
    as [H1 H2].
  - rewrite set_node_node_ids. intros x Hx. apply Hin. right. exact Hx.
  - split; [exact H1|]. rewrite H2. apply set_node_node_ids.
Qed.

Lemma add_usage_total ps :
  forall (G : Topology) links,
    Forall (fun p => incl (up_nodes p) (node_ids G)) ps ->
    snd (add_usage ps G links) = None.
Proof.
  induction ps as [|p ps IH]; intros G links Hall; cbn [add_usage];
    [reflexivity|].
  inversion Hall as [|? ? Hp Hps]; subst.
  destruct (count_nodes_total (up_nodes p) G Hp) as [H1 H2].
  destruct (count_nodes (up_nodes p) G) as [G1 err]. cbn [fst snd] in *.
  subst err. apply IH. rewrite H2. exact Hps.
Qed.

Lemma step_good_paths (G : Topology) used (rng : RandomSource) :
  closed G -> g_edges G <> [] ->
  Forall (good_path G) used ->
  so_exn (run_entanglement_step G used true rng) = None
  /\ Forall (good_path (so_graph (run_entanglement_step G used true rng)))
            (so_used (run_entanglement_step G used true rng)).
Proof.
  intros HC Hne Hgood.
  destruct (step_used_paths_cases G used rng
              (or_introl (edge_order_nonempty G HC Hne))) as [H _].
  destruct H as [H1 H2].
  { eapply Forall_impl; [|exact Hgood]. intros p Hp. apply Hp. }
  split; [exact H1|]. rewrite H2.
  pose proof (same_layout_node_ids _ _ (step_same_layout G used true rng)) as Hids.
  apply Forall_forall. intros q Hq. apply filter_In in Hq. destruct Hq as [Hq _].
  apply in_map_iff in Hq. destruct Hq as [p [<- Hp]].
  apply (good_path_ids G _ _ Hids).
  destruct (proj1 (Forall_forall _ _) Hgood p Hp) as [Hok Hin].
  split; [apply path_ok_aged; exact Hok|exact Hin].
Qed.

Lemma MPG_timestep_total s ds cf n :
  forall t (G : Topology) used links rng,
    closed G -> g_edges G <> [] ->
    incl (s :: ds) (node_ids G) ->
    Forall (good_path G) used ->
    exists t',
      to_time (timestep_loop _SD_protocol (s :: ds) true cf n t G used links rng)
      = Ok t'.
Proof.
  induction n as [|n IH]; intros t G used links rng HC Hne Hus Hgood;
    cbn [timestep_loop]; [eexists; reflexivity|].
  destruct (step_good_paths G used rng HC Hne Hgood) as [Hexn Hgood'].
  pose proof (step_same_layout G used true rng) as HL.
  rewrite Hexn.
  set (G' := so_graph (run_entanglement_step G used true rng)) in *.
  set (used' := so_used (run_entanglement_step G used true rng)) in *.
  assert (HC' : closed G') by (apply (same_layout_closed G G' HL HC)).
  assert (Hus' : incl (s :: ds) (node_ids G'))
    by (rewrite (same_layout_node_ids G G' HL); exact Hus).
  destruct (SD_call G' s ds used' cf HC' Hus' Hgood')
    as [G1 [used1 [b [E [HL1 Hgood1]]]]].
  rewrite E. destruct b.
  - pose proof (add_usage_total used1 G1 links) as Ha.
    destruct (add_usage used1 G1 links) as [[G2 links'] err]. cbn [snd] in Ha.
    rewrite Ha.
    + eexists. reflexivity.
    + eapply Forall_impl; [|exact Hgood1]. intros p Hp. apply Hp.
  - apply IH; auto.
    + apply (same_layout_closed G' G1 HL1 HC').
    + apply (same_layout_has_edges G' G1 HL1).
      apply (same_layout_has_edges G G' HL Hne).
    + rewrite (same_layout_node_ids G' G1 HL1). exact Hus'.
Qed.

Lemma MPG_trial_total s ds timesteps cf n :
  forall (G : Topology) links times rng,
    closed G -> g_edges G <> [] ->
    incl (s :: ds) (node_ids G) ->
    exists times',
      snd (trial_loop _SD_protocol (s :: ds) timesteps true cf n G links times rng)
      = Ok times'.
Proof.
  induction n as [|n IH]; intros G links times rng HC Hne Hus;
    cbn [trial_loop]; [eexists; reflexivity|].
  pose proof (same_layout_reset_state G) as HL0.
  destruct (MPG_timestep_total s ds cf (Z.to_nat timesteps) 0%Z
              (reset_graph_state G) [] links rng) as [t Ht].
  - apply (same_layout_closed G _ HL0 HC).
  - apply (same_layout_has_edges G _ HL0 Hne).
  - rewrite (same_layout_node_ids G _ HL0). exact Hus.
  - constructor.
  - pose proof (same_layout_timestep_loop _SD_protocol (s :: ds) true cf
                  (Z.to_nat timesteps) SD_keeps_layout 0%Z
                  (reset_graph_state G) [] links rng) as HL1.
    rewrite Ht.
    assert (HL : same_layout G
                   (to_graph (timestep_loop _SD_protocol (s :: ds) true cf
                                (Z.to_nat timesteps) 0%Z (reset_graph_state G) []
                                links rng)))
      by (eapply same_layout_trans; eauto).
    apply IH.
    + apply (same_layout_closed G _ HL HC).
    + apply (same_layout_has_edges G _ HL Hne).
    + rewrite (same_layout_node_ids G _ HL). exact Hus.
Qed.

Lemma counts_add_up (times : list Z) :
  (success_count times + failure_count times)%Z = Z.of_nat (length times).
Proof.
  unfold success_count, failure_count.
  pose proof (filter_complement_length (fun t => (t =? -1)%Z) times). lia.
Qed.

Lemma rate_total (timesteps : Z) (times : list Z) :
  (0 < timesteps)%Z -> times <> [] ->
  Forall (time_entry timesteps) times ->
  exists rate, _multipartite_rate times timesteps = Ok rate.
Proof.
  intros Hts Hne Hall. rewrite rate_cases.
  destruct (time_entries_count timesteps times Hall) as [[H0 H1] _].
  pose proof (failure_count_nonneg times) as Hf.
  pose proof (counts_add_up times) as Hsum.
  assert (Hlen : (0 < Z.of_nat (length times))%Z)
    by (destruct times; [congruence|cbn [length]; lia]).
  assert (Hden : (0 < denominator times timesteps)%Z).
  { unfold denominator.
    destruct (Z.eq_dec (success_count times) 0) as [E|E].
    - assert (0 < failure_count times)%Z by lia. nia.
    - assert (0 <= failure_count times * timesteps)%Z by nia. lia. }
  assert (E : (denominator times timesteps =? 0)%Z = false)
    by (apply Z.eqb_neq; lia).
  rewrite E. eexists. reflexivity.
Qed.
Lemma run_total (sp : Strategy) (G : Topology) users timesteps reps nodes cf rng :
  (0 < reps)%Z -> (0 < timesteps)%Z ->
  (exists times,
      snd (trial_loop sp users timesteps nodes cf (Z.to_nat reps)
                      (reset_graph_usage G) 0%Z [] rng) = Ok times) ->
  exists rate times avg,
    ro_result (_run_protocol G users timesteps reps sp nodes cf rng)
    = Ok (rate, times, avg).
Proof.
  intros Hreps Hts [times Ht]. unfold _run_protocol.
  destruct (reps <? 0)%Z eqn:E; [apply Z.ltb_lt in E; lia|].
  pose proof (trial_loop_times sp users timesteps nodes cf (Z.to_nat reps)
                (reset_graph_usage G) 0%Z [] rng times Ht) as [new [E1 [E2 E3]]].
  cbn [app] in E1. subst new.
  destruct (trial_loop _ _ _ _ _ _ _ _ _ _) as [[[G1 rng1] links] res].
  cbn [snd] in Ht. subst res.
  destruct (rate_total timesteps times Hts) as [rate Hr]; auto.
  { intros Enil. rewrite Enil in E2. cbn in E2. lia. }
  rewrite Hr.
  pose proof (update_graph_usage_ok G1 reps) as Hu.
  destruct (update_graph_usage G1 reps) as [G2 err]. cbn [snd] in Hu.
  rewrite Hu by lia.
  assert (E0 : (reps =? 0)%Z = false) by (apply Z.eqb_neq; lia).
  rewrite E0. cbn [ro_result]. eauto.
Qed.

Lemma node_ids_reset_usage (G : Topology) :
  node_ids (reset_graph_usage G) = node_ids G.
Proof. apply same_layout_node_ids, same_layout_reset_usage. Qed.

Lemma SD_run_total (G : Topology) s ds timesteps reps cf rng :
  (0 < reps)%Z -> (0 < timesteps)%Z ->
  closed G -> g_edges G <> [] ->
  (forall u, In u (s :: ds) -> In u (node_ids G)) ->
  exists rate times avg,
    ro_result (_run_protocol G (s :: ds) timesteps reps _SD_protocol true cf rng)
    = Ok (rate, times, avg).
Proof.
  intros Hreps Hts HC Hne Hus. apply run_total; auto.
  pose proof (same_layout_reset_usage G) as HL.
  apply MPG_trial_total.
  - apply (same_layout_closed G _ HL HC).
  - apply (same_layout_has_edges G _ HL Hne).
  - rewrite node_ids_reset_usage. exact Hus.
Qed.

(** X16.  The greedy protocol returns.  On a graph with at least one
    edge, whose edges join nodes of the graph, with a source and
    destinations that are nodes of the graph and positive [reps] and
    [timesteps], [MPG_protocol] raises nothing: it returns a rate, the
    times and the average number of links used. *)
Theorem MPG_protocol_returns :
  forall (G : Topology) (s : node) (ds : list node) (timesteps reps : Z)
         (count_fusion : bool) (rng : RandomSource),
    (0 < reps)%Z -> (0 < timesteps)%Z ->
    closed G -> g_edges G <> [] ->
    (forall u, In u (s :: ds) -> In u (node_ids G)) ->
    exists rate times avg,
      ro_result (MPG_protocol G (s :: ds) timesteps reps count_fusion rng)
      = Ok (rate, times, avg).
Proof.
  intros G s ds timesteps reps cf rng. unfold MPG_protocol. apply SD_run_total.
Qed.

Lemma demo_square_closed : closed demo_square.
Proof.
  intros e He. cbn in He.
  repeat (destruct He as [<-|He]; [cbn; auto 10|]). destruct He.
Defined.

Lemma MPG_protocol_returns_witness :
  exists rate times avg,
    ro_result (MPG_protocol demo_square [0; 2] 4 2 false half)
    = Ok (rate, times, avg).
Proof.
  apply (MPG_protocol_returns demo_square 0 [2] 4 2 false half).
  - lia.
  - lia.
  - exact demo_square_closed.
  - discriminate.
  - intros u [<-|[<-|[]]]; cbn; auto.
Defined.

(** X17.  The shortest-path protocol returns.  On a graph whose edges
    join nodes of the graph, with a source and destinations that are nodes
    of the graph, every destination reachable from the source and at least
    one of them different from it, and positive [reps] and [timesteps],
    [SP_protocol] raises nothing. *)
Theorem SP_protocol_returns :
  forall (G : Topology) (s : node) (ds : list node) (timesteps reps : Z)
         (count_fusion : bool) (rng : RandomSource),
    (0 < reps)%Z -> (0 < timesteps)%Z ->
    closed G ->
    (forall u, In u (s :: ds) -> In u (node_ids G)) ->
    (forall d, In d ds -> connected G s d) ->
    (exists d, In d ds /\ d <> s) ->
    exists rate times avg,
      ro_result (SP_protocol G (s :: ds) timesteps reps count_fusion rng)
      = Ok (rate, times, avg).
Proof.
  intros G s ds timesteps reps cf rng Hreps Hts HC Hus Hconn [d [Hd Hds]].
  destruct (get_star_cases G s ds) as [[J [E [A1 [A2 A3]]]]|[_ [d' [Hd' Hbad]]]].
  - apply Hus. left. reflexivity.
  - intros x Hx. apply Hus. right. exact Hx.
  - destruct (SP_protocol_cases G (s :: ds) timesteps reps cf rng)
      as [_ [_ [_ H]]].
    destruct (H J E) as [H1 _]. rewrite H1.
    assert (Hids : node_ids J = node_ids G) by (unfold node_ids; rewrite A1; reflexivity).
    apply SD_run_total; auto.
    + intros e He. rewrite Hids. specialize (A2 e He).
      unfold find_edge in A2.
      destruct (find (same_edge (eu e) (ev e)) (g_edges G)) as [e0|] eqn:F;
        [|discriminate].
      apply find_some in F. destruct F as [He0 Hs0].
      apply same_edge_iff in Hs0. destruct (HC e0 He0) as [H2 H3].
      destruct Hs0 as [[<- <-]|[<- <-]]; auto.
    + destruct (A3 d Hd) as [p Hp].
      destruct (path_first_hop J s d p (not_eq_sym Hds) Hp) as [x Hx].
      intros Enil. unfold has_edge in Hx. rewrite Enil in Hx. discriminate.
    + rewrite Hids. exact Hus.
  - exfalso. apply Hbad, Hconn, Hd'.
Qed.

Lemma SP_protocol_returns_witness :
  exists rate times avg,
    ro_result (SP_protocol demo_square [0; 2] 4 2 false half)
    = Ok (rate, times, avg).
Proof.
  apply (SP_protocol_returns demo_square 0 [2] 4 2 false half).
  - lia.
  - lia.
  - exact demo_square_closed.
  - intros u [<-|[<-|[]]]; cbn; auto.
  - intros d [<-|[]]. exists [0; 1; 2].
    split; [reflexivity|]. split; [reflexivity|]. repeat constructor.
  - exists 2. split; [left; reflexivity|discriminate].
Defined.

(** ** The cooperative protocol returns *)

Lemma step_plain (G : Topology) used (rng : RandomSource) :
  so_exn (run_entanglement_step G used false rng) = None
  /\ so_used (run_entanglement_step G used false rng) = used.
Proof.
  unfold run_entanglement_step. cbn [np_random_rand].
  destruct (edge_loop _ (g_edges G) None) as [es edge]. cbn. auto.
Qed.

Lemma subgraph_node_ids {NA EA : Type} (G : Graph NA EA) nbunch :
  incl (node_ids (subgraph G nbunch)) (node_ids G).
Proof.
  unfold node_ids, subgraph. cbn [g_nodes]. intros x Hx.
  apply in_map_iff in Hx. destruct Hx as [y [E Hy]].
  apply filter_In in Hy. apply in_map_iff. exists y. tauto.
Qed.

Lemma CC_call steiner_tree (G : Topology) u0 rest used cf :
  steiner_within steiner_tree ->
  In u0 (node_ids G) ->
  Forall (fun p => incl (up_nodes p) (node_ids G)) used ->
  exists used1 b,
    _CC_protocol steiner_tree G (get_entangled_subgraph G) (u0 :: rest) used cf
    = (G, used1, Ok b)
    /\ Forall (fun p => incl (up_nodes p) (node_ids G)) used1.
Proof.
  intros Hst Hu Hused. unfold _CC_protocol, node_connected_component, has_node.
  rewrite entangled_subgraph_nodes, (proj2 (mem_In u0 (node_ids G)) Hu).
  destruct (negb _).
  - exists used, false. auto.
  - eexists. exists true. split; [reflexivity|].
    apply Forall_app. split; [exact Hused|]. constructor; [|constructor].
    cbn [up_nodes]. intros x Hx. apply filter_In in Hx. destruct Hx as [Hx _].
    apply Hst in Hx. apply subgraph_node_ids in Hx.
    rewrite entangled_subgraph_nodes in Hx. exact Hx.
Qed.

Lemma MPC_timestep_total steiner_tree u0 rest cf n :
  steiner_within steiner_tree ->
  forall t (G : Topology) used links rng,
    In u0 (node_ids G) ->
    Forall (fun p => incl (up_nodes p) (node_ids G)) used ->
    exists t',
      to_time (timestep_loop (_CC_protocol steiner_tree) (u0 :: rest) false cf n t
                             G used links rng)
      = Ok t'.
Proof.
  intros Hst. induction n as [|n IH]; intros t G used links rng Hu Hused;
    cbn [timestep_loop]; [eexists; reflexivity|].
  destruct (step_plain G used rng) as [E1 E2]. rewrite E1, E2.
  pose proof (same_layout_node_ids _ _ (step_same_layout G used false rng))
    as Hids.
  set (G' := so_graph (run_entanglement_step G used false rng)) in *.
  destruct (CC_call steiner_tree G' u0 rest used cf Hst) as [used1 [b [E H1]]].
  - rewrite Hids. exact Hu.
  - rewrite Hids. exact Hused.
  - rewrite E. destruct b.
    + pose proof (add_usage_total used1 G' links H1) as Ha.
      destruct (add_usage used1 G' links) as [[G2 links'] err]. cbn [snd] in Ha.
      rewrite Ha. eexists. reflexivity.
    + apply IH; [rewrite Hids; exact Hu|exact H1].
Qed.

Lemma MPC_trial_total steiner_tree u0 rest timesteps cf n :
  steiner_within steiner_tree ->
  forall (G : Topology) links times rng,
    In u0 (node_ids G) ->
    exists times',
      snd (trial_loop (_CC_protocol steiner_tree) (u0 :: rest) timesteps false cf
                      n G links times rng)
      = Ok times'.
Proof.
  intros Hst. induction n as [|n IH]; intros G links times rng Hu;
    cbn [trial_loop]; [eexists; reflexivity|].
  destruct (MPC_timestep_total steiner_tree u0 rest cf (Z.to_nat timesteps) Hst
              0%Z (reset_graph_state G) [] links rng) as [t Ht].
  - rewrite reset_graph_state_node_ids. exact Hu.
  - constructor.
  - rewrite Ht. apply IH.
    rewrite (same_layout_node_ids _ _
               (same_layout_timestep_loop (_CC_protocol steiner_tree) (u0 :: rest)
                  false cf (Z.to_nat timesteps) (CC_keeps_layout steiner_tree)
                  0%Z (reset_graph_state G) [] links rng)).
    rewrite reset_graph_state_node_ids. exact Hu.
Qed.

(** X18.  The cooperative protocol returns.  If the first user is a node
    of the graph, [reps] and [timesteps] are positive, and the Steiner
    routine returns trees within the graph it is given, [MPC_protocol]
    raises nothing, whatever the other users are. *)
Theorem MPC_protocol_returns :
  forall (steiner_tree : LinkGraph -> list node -> LinkGraph)
         (G : Topology) (u0 : node) (others : list node) (timesteps reps : Z)
         (count_fusion : bool) (rng : RandomSource),
    steiner_within steiner_tree ->
    (0 < reps)%Z -> (0 < timesteps)%Z ->
    In u0 (node_ids G) ->
    exists rate times avg,
      ro_result (MPC_protocol steiner_tree G (u0 :: others) timesteps reps
                              count_fusion rng)
      = Ok (rate, times, avg).
Proof.
  intros st G u0 others timesteps reps cf rng Hst Hreps Hts Hu.
  unfold MPC_protocol. apply run_total; auto.
  apply MPC_trial_total; auto. rewrite node_ids_reset_usage. exact Hu.
Qed.

Lemma MPC_protocol_returns_witness :
  exists rate times avg,
    ro_result (MPC_protocol (fun H _ => H) demo_square [0; 7] 4 2 false half)
    = Ok (rate, times, avg).
Proof.
  apply (MPC_protocol_returns (fun H _ => H) demo_square 0 [7] 4 2 false half).
  - intros H ts. apply incl_refl.
  - lia.
  - lia.
  - cbn. auto.
Defined.
(** ** Loss: [set_p_edge] and [set_edge_length] *)

Lemma simple_unique {EA : Type} (es : list (Edge EA)) u v e1 e2 :
  ForallOrdPairs (fun a b : Edge EA => same_edge (eu a) (ev a) b = false) es ->
  In e1 es -> In e2 es ->
  same_edge u v e1 = true -> same_edge u v e2 = true -> e1 = e2.
Proof.
  intros Hs H1 H2 M1 M2.
  destruct (ForallOrdPairs_In Hs e1 e2 H1 H2) as [E|[R|R]]; [exact E| |].
  - exfalso. apply same_edge_iff in M1. rewrite <- not_true_iff_false in R.
    apply R. destruct M1 as [[-> ->]|[-> ->]]; [exact M2|].
    rewrite <- M2. unfold same_edge. apply orb_comm.
  - exfalso. apply same_edge_iff in M2. rewrite <- not_true_iff_false in R.
    apply R. destruct M2 as [[-> ->]|[-> ->]]; [exact M1|].
    rewrite <- M1. unfold same_edge. apply orb_comm.
Qed.
Lemma find_edge_set_edge_length (G : Topology) u v p x y :
  option_map e_length (find_edge (set_edge G u v (set_e_p_edge p)) x y)
  = option_map e_length (find_edge G x y).
Proof.
  unfold find_edge, set_edge. cbn [g_edges].
  induction (g_edges G) as [|e es IH]; [reflexivity|]. cbn [map find].
  destruct (same_edge u v e).
  - rewrite same_edge_on_attr. destruct (same_edge x y e); [reflexivity|exact IH].
  - destruct (same_edge x y e); [reflexivity|exact IH].
Qed.

Lemma in_range_set_edge (pow10 : Q -> option Q) l (G : Topology) u v p w :
  in_range pow10 l (set_edge G u v (set_e_p_edge p)) w = in_range pow10 l G w.
Proof.
  unfold in_range.
  pose proof (find_edge_set_edge_length G u v p (eu w) (ev w)) as H.
  destruct (find_edge (set_edge G u v (set_e_p_edge p)) (eu w) (ev w)) as [a1|],
           (find_edge G (eu w) (ev w)) as [a0|]; cbn in H;
    try discriminate; [|reflexivity].
  inversion H as [E]. rewrite E. reflexivity.
Qed.

Lemma in_range_cases (pow10 : Q -> option Q) l (G : Topology) w :
  has_edge G (eu w) (ev w) = true ->
  exists a, find_edge G (eu w) (ev w) = Some a
            /\ (if in_range pow10 l G w
                then exists y, pow10 (- (l * e_length a / 10))%Q = Some y
                else pow10 (- (l * e_length a / 10))%Q = None).
Proof.
  intros Hw. destruct (has_edge_find_edge G (eu w) (ev w) Hw) as [a Ha].
  exists a. split; [exact Ha|]. unfold in_range. rewrite Ha.
  destruct (pow10 _) as [y|]; eauto.
Qed.

Lemma set_edge_repriced (pow10 : Q -> option Q) (G : Topology) u v a y p_op l :
  simple_graph G ->
  find_edge G u v = Some a ->
  pow10 (- (l * e_length a / 10))%Q = Some y ->
  set_edge G u v (set_e_p_edge (p_op * y)%Q)
  = mkGraph (g_nodes G)
            (map (fun e => if same_edge u v e
                           then on_attr (reprice pow10 p_op l) e
                           else e)
                 (g_edges G)).
Proof.
  intros Hs Hf Hy. unfold set_edge. f_equal. apply map_ext_in. intros e He.
  destruct (same_edge u v e) eqn:M; [|reflexivity].
  unfold find_edge in Hf.
  destruct (find (same_edge u v) (g_edges G)) as [e0|] eqn:F; [|discriminate].
  cbn in Hf. inversion Hf; subst a. apply find_some in F. destruct F as [He0 M0].
  rewrite (simple_unique (g_edges G) u v e e0 Hs He He0 M M0).
  unfold on_attr, reprice. rewrite Hy. reflexivity.
Qed.

Lemma simple_graph_map {NA EA : Type} (G : Graph NA EA) (g : Edge EA -> Edge EA) :
  (forall e, eu (g e) = eu e /\ ev (g e) = ev e) ->
  simple_graph G -> simple_graph (mkGraph (g_nodes G) (map g (g_edges G))).
Proof.
  intros Hg. unfold simple_graph. cbn [g_edges].
  induction 1 as [|e es Hall _ IH]; cbn [map]; constructor; [|exact IH].
  apply Forall_map. eapply Forall_impl; [|exact Hall].
  intros e' H. destruct (Hg e) as [E1 E2]. destruct (Hg e') as [E3 E4].
  unfold same_edge in *. rewrite E1, E2, E3, E4. exact H.
Qed.

Lemma repriced_twice (pow10 : Q -> option Q) p_op l (e : Edge EdgeAttr) :
  on_attr (reprice pow10 p_op l) (on_attr (reprice pow10 p_op l) e)
  = on_attr (reprice pow10 p_op l) e.
Proof.
  destruct e as [[u v] a]. unfold on_attr, eu, ev, eattr. cbn [fst snd].
  f_equal. unfold reprice.
  destruct (pow10 (- (l * e_length a / 10))%Q) as [y|] eqn:E.
  - cbn [set_e_p_edge e_length]. rewrite E. reflexivity.
  - rewrite E. reflexivity.
Qed.

Lemma matched_on_attr {EA : Type} (f : EA -> EA) (e : Edge EA)
      (view : list (Edge EA)) :
  existsb (fun w => same_edge (eu w) (ev w) (on_attr f e)) view
  = existsb (fun w => same_edge (eu w) (ev w) e) view.
Proof.
  induction view as [|x xs IH]; [reflexivity|]. cbn [existsb].
  rewrite same_edge_on_attr, IH. reflexivity.
Qed.

(** The loop in closed form: [pre] holds the edges it reaches before the
    power overflows, [post] starts with the edge at which it does. *)
Lemma p_edge_loop_spec (pow10 : Q -> option Q) p_op l pre :
  forall (G : Topology) post,
    simple_graph G ->
    (forall w, In w (pre ++ post) -> has_edge G (eu w) (ev w) = true) ->
    Forall (fun w => in_range pow10 l G w = true) pre ->
    match post with
    | [] => True
    | w :: _ => in_range pow10 l G w = false
    end ->
    p_edge_loop pow10 (pre ++ post) G p_op l
    = (mkGraph (g_nodes G)
               (map (fun e => if existsb (fun w => same_edge (eu w) (ev w) e) pre
                              then on_attr (reprice pow10 p_op l) e
                              else e)
                    (g_edges G)),
       match post with
       | [] => None
       | _ :: _ => Some OverflowError
       end).
Proof.
  induction pre as [|w pre IH]; intros G post Hs Hview Hpre Hpost;
    cbn [app existsb].
  - rewrite map_id.
    destruct post as [|w post]; cbn [p_edge_loop]; [destruct G; reflexivity|].
    destruct (in_range_cases pow10 l G w (Hview w (or_introl eq_refl)))
      as [a [Ha Hr]].
    rewrite Hpost in Hr. rewrite Ha, Hr. destruct G; reflexivity.
  - cbn [p_edge_loop]. inversion Hpre as [|w' pre' Hw Hpre']; subst.
    destruct (in_range_cases pow10 l G w (Hview w (or_introl eq_refl)))
      as [a [Ha Hr]].
    rewrite Hw in Hr. destruct Hr as [y Hy]. rewrite Ha, Hy.
    pose proof (set_edge_repriced pow10 G (eu w) (ev w) a y p_op l Hs Ha Hy)
      as HG1.
    rewrite IH.
    + rewrite HG1. cbn [g_nodes g_edges]. f_equal. f_equal. rewrite map_map.
      apply map_ext. intros e.
      destruct (same_edge (eu w) (ev w) e) eqn:M; cbn [orb].
      * rewrite matched_on_attr.
        destruct (existsb _ pre); [apply repriced_twice|reflexivity].
      * reflexivity.
    + rewrite HG1. apply simple_graph_map; [|exact Hs]. intros e.
      destruct (same_edge (eu w) (ev w) e); [|auto].
      destruct e as [[x0 y0] b]. unfold on_attr, eu, ev. cbn. auto.
    + intros w0 Hw0. rewrite has_edge_set_edge. apply Hview. right. exact Hw0.
    + eapply Forall_impl; [|exact Hpre']. intros w0 Hw0.
      rewrite in_range_set_edge. exact Hw0.
    + destruct post as [|w0 post]; [exact I|].
      rewrite in_range_set_edge. exact Hpost.
Qed.

Lemma first_failure {A : Type} (P : A -> bool) (l : list A) :
  exists pre post,
    l = pre ++ post
    /\ Forall (fun x => P x = true) pre
    /\ match post with
       | [] => True
       | x :: _ => P x = false
       end.
Proof.
  induction l as [|x l [pre [post [E [Hpre Hpost]]]]].
  - exists [], []. split; [reflexivity|]. split; [constructor|exact I].
  - destruct (P x) eqn:Px.
    + exists (x :: pre), post. split; [cbn; rewrite E; reflexivity|].
      split; [constructor; assumption|exact Hpost].
    + exists [], (x :: l). split; [reflexivity|]. split; [constructor|exact Px].
Qed.

Lemma edge_view_covers {NA EA : Type} (G : Graph NA EA) :
  closed G ->
  (forall w, In w (edges G) -> has_edge G (eu w) (ev w) = true)
  /\ (forall e, In e (g_edges G) ->
                existsb (fun w => same_edge (eu w) (ev w) e) (edges G) = true).
Proof.
  intros HC. split.
  - intros w Hw. destruct (edges_sound G w Hw) as [e0 [He0 [Hs _]]].
    unfold has_edge. apply existsb_exists. exists e0. auto.
  - intros e He. destruct (edges_complete G e He (proj1 (HC e He)))
      as [w [Hw [Hs _]]].
    apply existsb_exists. exists w. split; [exact Hw|].
    apply (same_edge_sym e w Hs).
Qed.

(** Whether the power is in range for the edge a view entry names, read
    off the attributes of that edge. *)
Lemma in_range_attr (pow10 : Q -> option Q) l (G : Topology) w :
  has_edge G (eu w) (ev w) = true ->
  exists e, In e (g_edges G) /\ same_edge (eu w) (ev w) e = true
            /\ in_range pow10 l G w
               = match pow10 (- (l * e_length (eattr e) / 10))%Q with
                 | Some _ => true
                 | None => false
                 end.
Proof.
  intros Hw. unfold in_range, find_edge.
  destruct (find (same_edge (eu w) (ev w)) (g_edges G)) as [e|] eqn:F.
  - destruct (find_some _ _ F) as [He M]. exists e. cbn. auto.
  - exfalso. unfold has_edge in Hw. apply existsb_exists in Hw.
    destruct Hw as [e [He M]]. pose proof (find_none _ _ F e He). congruence.
Qed.

Lemma repriced_cases (pow10 : Q -> option Q) p_op l (e : Edge EdgeAttr) :
  match pow10 (- (l * e_length (eattr e) / 10))%Q with
  | Some _ => priced pow10 p_op (Some l) e (on_attr (reprice pow10 p_op l) e)
  | None => on_attr (reprice pow10 p_op l) e = e
  end.
Proof.
  destruct e as [[u v] a]. unfold priced, price, on_attr, reprice, eu, ev, eattr.
  cbn [fst snd].
  destruct (pow10 (- (l * e_length a / 10))%Q) as [y|]; [|reflexivity].
  exists (p_op * y)%Q. split; reflexivity.
Qed.

(** [set_p_edge] with a loss figure, in closed form: the edge view splits
    into the edges priced and, when the power overflows, the rest. *)
Lemma set_p_edge_closed_form (pow10 : Q -> option Q) (G : Topology) p_op l :
  simple_graph G -> closed G ->
  exists pre post,
    edges G = pre ++ post
    /\ Forall (fun w => in_range pow10 l G w = true) pre
    /\ match post with
       | [] => True
       | w :: _ => in_range pow10 l G w = false
       end
    /\ set_p_edge pow10 G p_op (Some l)
       = (mkGraph (g_nodes G)
                  (map (fun e => if existsb (fun w => same_edge (eu w) (ev w) e)
                                            pre
                                 then on_attr (reprice pow10 p_op l) e
                                 else e)
                       (g_edges G)),
          match post with
          | [] => None
          | _ :: _ => Some OverflowError
          end).
Proof.
  intros Hs HC.
  destruct (first_failure (in_range pow10 l G) (edges G))
    as [pre [post [E [Hpre Hpost]]]].
  exists pre, post. split; [exact E|]. split; [exact Hpre|].
  split; [exact Hpost|].
  unfold set_p_edge. rewrite E. apply p_edge_loop_spec; auto.
  rewrite <- E. apply (proj1 (edge_view_covers G HC)).
Qed.

Lemma set_p_edge_frame (pow10 : Q -> option Q) (G : Topology) p_op loss_dB :
  simple_graph G -> closed G ->
  g_nodes (fst (set_p_edge pow10 G p_op loss_dB)) = g_nodes G
  /\ Forall2 (fun e e' => e' = e \/ priced pow10 p_op loss_dB e e')
             (g_edges G) (g_edges (fst (set_p_edge pow10 G p_op loss_dB)))
  /\ (snd (set_p_edge pow10 G p_op loss_dB) = None
      \/ snd (set_p_edge pow10 G p_op loss_dB) = Some OverflowError).
Proof.
  intros Hs HC. destruct loss_dB as [l|].
  - destruct (set_p_edge_closed_form pow10 G p_op l Hs HC)
      as [pre [post [_ [_ [_ E]]]]].
    rewrite E. cbn [fst snd g_nodes g_edges]. split; [reflexivity|]. split.
    + apply Forall2_map_same. intros e.
      destruct (existsb _ pre); [|left; reflexivity].
      pose proof (repriced_cases pow10 p_op l e) as Hc.
      destruct (pow10 _); [right; exact Hc|left; exact Hc].
    + destruct post; auto.
  - cbn [set_p_edge fst snd update_graph_params map_edges g_nodes g_edges].
    split; [reflexivity|]. split; [|auto].
    apply Forall2_map_same. intros e. right. exists p_op. split; reflexivity.
Qed.

Lemma Forall2_map_in {A : Type} (R : A -> A -> Prop) (f : A -> A) (l : list A) :
  (forall x, In x l -> R x (f x)) -> Forall2 R l (map f l).
Proof.
  induction l as [|x l IH]; intros H; cbn [map]; constructor.
  - apply H. left. reflexivity.
  - apply IH. intros y Hy. apply H. right. exact Hy.
Qed.

Lemma set_p_edge_in_range (pow10 : Q -> option Q) (G : Topology) p_op loss_dB :
  simple_graph G -> closed G ->
  (forall e, In e (g_edges G) -> price pow10 p_op loss_dB (eattr e) <> None) ->
  snd (set_p_edge pow10 G p_op loss_dB) = None
  /\ Forall2 (priced pow10 p_op loss_dB)
             (g_edges G) (g_edges (fst (set_p_edge pow10 G p_op loss_dB))).
Proof.
  intros Hs HC Hall. destruct loss_dB as [l|].
  - destruct (set_p_edge_closed_form pow10 G p_op l Hs HC)
      as [pre [post [Ev [_ [Hpost E]]]]].
    destruct (edge_view_covers G HC) as [Hin Hcov].
    assert (Hrange : forall e, In e (g_edges G) ->
                               exists y, pow10 (- (l * e_length (eattr e) / 10))%Q
                                         = Some y).
    { intros e He. specialize (Hall e He). unfold price in Hall.
      destruct (pow10 _) as [y|]; [eauto|]. exfalso. apply Hall. reflexivity. }
    destruct post as [|w post].
    + rewrite app_nil_r in Ev. subst pre. rewrite E.
      cbn [fst snd g_edges]. split; [reflexivity|].
      apply Forall2_map_in. intros e He. rewrite (Hcov e He).
      pose proof (repriced_cases pow10 p_op l e) as Hc.
      destruct (Hrange e He) as [y Hy]. rewrite Hy in Hc. exact Hc.
    + exfalso.
      assert (Hw : In w (edges G)) by (rewrite Ev; apply in_elt).
      destruct (in_range_attr pow10 l G w (Hin w Hw)) as [e [He [_ Hr]]].
      destruct (Hrange e He) as [y Hy]. rewrite Hy in Hr. congruence.
  - cbn [set_p_edge fst snd update_graph_params map_edges g_edges].
    split; [reflexivity|].
    apply Forall2_map_same. intros e. exists p_op. split; reflexivity.
Qed.

Lemma set_p_edge_overflows (pow10 : Q -> option Q) (G : Topology) p_op loss_dB :
  simple_graph G -> closed G ->
  (exists e, In e (g_edges G) /\ price pow10 p_op loss_dB (eattr e) = None) ->
  snd (set_p_edge pow10 G p_op loss_dB) = Some OverflowError.
Proof.
  intros Hs HC [e [He Hnone]]. destruct loss_dB as [l|]; [|discriminate].
  destruct (set_p_edge_closed_form pow10 G p_op l Hs HC)
    as [pre [post [Ev [Hpre [_ E]]]]].
  rewrite E. cbn [snd]. destruct post as [|w post]; [|reflexivity].
  exfalso. rewrite app_nil_r in Ev. subst pre.
  destruct (edge_view_covers G HC) as [Hin Hcov].
  pose proof (Hcov e He) as Hex. apply existsb_exists in Hex.
  destruct Hex as [w [Hw M]].
  rewrite Forall_forall in Hpre. specialize (Hpre w Hw).
  destruct (in_range_attr pow10 l G w (Hin w Hw)) as [e1 [He1 [M1 Hr]]].
  rewrite (simple_unique (g_edges G) (eu w) (ev w) e e1 Hs He He1 M M1)
    in Hnone.
  unfold price in Hnone. destruct (pow10 _); [discriminate|congruence].
Qed.

Lemma price_is_probability (pow10 : Q -> option Q) p_op loss_dB a :
  damping pow10 -> is_probability p_op ->
  (forall l, loss_dB = Some l -> (0 <= l)%Q) -> (0 <= e_length a)%Q ->
  exists p, price pow10 p_op loss_dB a = Some p /\ is_probability p.
Proof.
  intros Hd [Hp0 Hp1] Hl Ha. unfold price. destruct loss_dB as [l|];
    [|exists p_op; split; [reflexivity|split; assumption]].
  specialize (Hl l eq_refl).
  assert (Hx : (- (l * e_length a / 10) <= 0)%Q).
  { assert (0 <= l * e_length a / 10)%Q.
    { unfold Qdiv. apply Qmult_le_0_compat; [apply Qmult_le_0_compat; assumption|].
      unfold Qle. cbn. lia. }
    lra. }
  destruct (Hd _ Hx) as [y [Ey [H0 H1]]]. rewrite Ey. cbn [option_map].
  exists (p_op * y)%Q. split; [reflexivity|]. split.
  - apply Qmult_le_0_compat; assumption.
  - assert (p_op * y <= 1 * 1)%Q.
    { apply Qle_trans with (p_op * 1)%Q.
      - rewrite (Qmult_comm p_op), (Qmult_comm p_op).
        apply Qmult_le_compat_r; assumption.
      - apply Qmult_le_compat_r; [exact Hp1|]. unfold Qle. cbn. lia. }
    lra.
Qed.

(** X19.  [set_p_edge] prices every edge, only prices, and stops where
    the power overflows.  On a simple graph whose edges join nodes of the
    graph, [set_p_edge] raises nothing or [OverflowError], leaves the
    nodes alone, and leaves every edge as it was or with its price for
    [p_edge] and nothing else changed; the price is [p_op] without a loss
    figure, and [p_op] times [10 ** -(loss_dB * length / 10)], from the
    edge's own length, with one.  When the power is in range for every
    edge, it raises nothing and every edge has its price.  When it is out
    of range for some edge, it raises [OverflowError].  When [p_op] is a
    probability, loss and lengths are not negative and the power does not
    overflow below 1, it raises nothing and every [p_edge] it sets is a
    probability. *)
Theorem set_p_edge_prices_every_edge :
  forall (pow10 : Q -> option Q) (G : Topology) (p_op : Q) (loss_dB : option Q),
    simple_graph G -> closed G ->
    g_nodes (fst (set_p_edge pow10 G p_op loss_dB)) = g_nodes G
    /\ Forall2 (fun e e' => e' = e \/ priced pow10 p_op loss_dB e e')
               (g_edges G) (g_edges (fst (set_p_edge pow10 G p_op loss_dB)))
    /\ (snd (set_p_edge pow10 G p_op loss_dB) = None
        \/ snd (set_p_edge pow10 G p_op loss_dB) = Some OverflowError)
    /\ ((forall e, In e (g_edges G) ->
                   price pow10 p_op loss_dB (eattr e) <> None) ->
        snd (set_p_edge pow10 G p_op loss_dB) = None
        /\ Forall2 (priced pow10 p_op loss_dB)
                   (g_edges G)
                   (g_edges (fst (set_p_edge pow10 G p_op loss_dB))))
    /\ ((exists e, In e (g_edges G)
                   /\ price pow10 p_op loss_dB (eattr e) = None) ->
        snd (set_p_edge pow10 G p_op loss_dB) = Some OverflowError)
    /\ (damping pow10 -> is_probability p_op ->
        (forall l, loss_dB = Some l -> (0 <= l)%Q) ->
        Forall (fun e => (0 <= e_length (eattr e))%Q) (g_edges G) ->
        snd (set_p_edge pow10 G p_op loss_dB) = None
        /\ Forall (fun e => is_probability (e_p_edge (eattr e)))
                  (g_edges (fst (set_p_edge pow10 G p_op loss_dB)))).
Proof.
  intros pow10 G p_op loss_dB Hs HC.
  destruct (set_p_edge_frame pow10 G p_op loss_dB Hs HC) as [H1 [H2 H3]].
  split; [exact H1|]. split; [exact H2|]. split; [exact H3|].
  split; [apply set_p_edge_in_range; assumption|].
  split; [apply set_p_edge_overflows; assumption|].
  intros Hd Hp Hl Hlen. rewrite Forall_forall in Hlen.
  destruct (set_p_edge_in_range pow10 G p_op loss_dB Hs HC) as [Hok Hpriced].
  - intros e He.
    destruct (price_is_probability pow10 p_op loss_dB (eattr e) Hd Hp Hl
                (Hlen e He)) as [p [Ep _]].
    congruence.
  - split; [exact Hok|]. apply Forall_forall. intros e' He'.
    destruct (Forall2_In_r _ _ _ e' Hpriced He') as [e [He [p [Ep ->]]]].
    destruct (price_is_probability pow10 p_op loss_dB (eattr e) Hd Hp Hl
                (Hlen e He)) as [p' [Ep' Hprob]].
    assert (p' = p) by congruence. subst p'. exact Hprob.
Qed.

Lemma demo_square_simple : simple_graph demo_square.
Proof. unfold simple_graph. cbn. repeat constructor. Defined.

Lemma set_p_edge_prices_every_edge_witness :
  snd (set_p_edge demo_pow demo_square (4 # 5)%Q (Some (1 # 5)%Q)) = None
  /\ snd (set_p_edge demo_pow demo_square (4 # 5)%Q (Some (- (1))%Q))
     = Some OverflowError.
Proof.
  split.
  - destruct (set_p_edge_prices_every_edge demo_pow demo_square (4 # 5)%Q
                (Some (1 # 5)%Q) demo_square_simple demo_square_closed)
      as [_ [_ [_ [Hok _]]]].
    apply Hok. intros e He. cbn in He.
    repeat (destruct He as [<-|He]; [vm_compute; discriminate|]).
    destruct He.
  - destruct (set_p_edge_prices_every_edge demo_pow demo_square (4 # 5)%Q
                (Some (- (1))%Q) demo_square_simple demo_square_closed)
      as [_ [_ [_ [_ [Hbad _]]]]].
    apply Hbad. exists (0, 1, demo_edge false 1%Q). split.
    + cbn. auto.
    + vm_compute. reflexivity.
Defined.

Lemma closed_map_edges {NA EA EB : Type} (f : EA -> EB) (G : Graph NA EA) :
  closed G -> closed (map_edges f G).
Proof.
  intros HC e He. unfold map_edges in He. cbn [g_edges] in He.
  apply in_map_iff in He. destruct He as [e0 [<- He0]].
  unfold node_ids, map_edges, eu, ev. cbn. apply HC, He0.
Qed.

Lemma simple_map_edges {NA EA : Type} (f : EA -> EA) (G : Graph NA EA) :
  simple_graph G -> simple_graph (map_edges f G).
Proof.
  intros Hs. apply (simple_graph_map G (fun e => (eu e, ev e, f (eattr e)))); auto.
Qed.

Lemma edges_nonempty {NA EA : Type} (G : Graph NA EA) :
  closed G -> g_edges G <> [] -> edges G <> [].
Proof.
  intros HC Hne E. apply (edge_order_nonempty G HC Hne).
  unfold edge_order. unfold edges in E.
  destruct (edge_view G); [reflexivity|discriminate].
Qed.

Lemma edges_empty {NA EA : Type} (G : Graph NA EA) :
  g_edges G = [] -> edges G = [].
Proof.
  intros E. destruct (edges G) as [|w r] eqn:Ew; [reflexivity|].
  destruct (edges_sound G w) as [e0 [He0 _]]; [rewrite Ew; left; reflexivity|].
  rewrite E in He0. destruct He0.
Qed.

Lemma in_range_uniform (pow10 : Q -> option Q) l length (G : Topology) w :
  Forall (fun e => e_length (eattr e) = length) (g_edges G) ->
  has_edge G (eu w) (ev w) = true ->
  in_range pow10 l G w
  = match pow10 (- (l * length / 10))%Q with
    | Some _ => true
    | None => false
    end.
Proof.
  intros Hlen Hw.
  destruct (in_range_attr pow10 l G w Hw) as [e [He [_ Hr]]].
  rewrite Forall_forall in Hlen. rewrite (Hlen e He) in Hr. exact Hr.
Qed.

Lemma set_p_edge_uniform (pow10 : Q -> option Q) (G : Topology) length p_op l :
  simple_graph G -> closed G ->
  Forall (fun e => e_length (eattr e) = length) (g_edges G) ->
  set_p_edge pow10 G p_op (Some l)
  = match pow10 (- (l * length / 10))%Q with
    | Some y => (map_edges (set_e_p_edge (p_op * y)%Q) G, None)
    | None => (G, match g_edges G with
                  | [] => None
                  | _ :: _ => Some OverflowError
                  end)
    end.
Proof.
  intros Hs HC Hlen.
  destruct (set_p_edge_closed_form pow10 G p_op l Hs HC)
    as [pre [post [Ev [Hpre [Hpost E]]]]].
  destruct (edge_view_covers G HC) as [Hin Hcov].
  rewrite E.
  destruct (pow10 (- (l * length / 10))%Q) as [y|] eqn:Ey.
  - destruct post as [|w post].
    + rewrite app_nil_r in Ev. subst pre. unfold map_edges. f_equal. f_equal.
      apply map_ext_in. intros e He. rewrite (Hcov e He).
      rewrite Forall_forall in Hlen.
      unfold on_attr, reprice. rewrite (Hlen e He), Ey. reflexivity.
    + exfalso.
      assert (Hw : In w (edges G)) by (rewrite Ev; apply in_elt).
      rewrite (in_range_uniform pow10 l length G w Hlen (Hin w Hw)), Ey in Hpost.
      discriminate.
  - destruct pre as [|w pre].
    + cbn [existsb]. rewrite map_id. cbn [app] in Ev.
      destruct (g_edges G) as [|e es] eqn:Ee.
      * assert (Ez : edges G = []) by (apply edges_empty; exact Ee).
        rewrite Ez in Ev. subst post. destruct G; cbn in *; subst; reflexivity.
      * assert (Hne : edges G <> [])
          by (apply edges_nonempty; [exact HC|rewrite Ee; discriminate]).
        destruct post as [|w post]; [congruence|].
        destruct G; cbn in *; subst; reflexivity.
    + exfalso. inversion Hpre as [|w' pre' Hw Hpre']; subst.
      assert (Hwin : In w (edges G)) by (rewrite Ev; left; reflexivity).
      rewrite (in_range_uniform pow10 l length G w Hlen (Hin w Hwin)), Ey in Hw.
      discriminate.
Qed.

(** X20.  [set_edge_length] makes the links uniform, or fails at the
    first edge.  On a simple graph whose edges join nodes of the graph,
    it gives every edge the given length and leaves [Qc], the link state
    and the nodes as they were.  Without a loss figure it raises nothing
    and every [p_edge] is [p_op].  With one, when the power
    [10 ** -(loss_dB * length / 10)] is in range it raises nothing and
    every [p_edge] is [p_op] times that power; when it is out of range,
    every [p_edge] is left as it was, and [OverflowError] is raised
    unless the graph has no edge. *)
Theorem set_edge_length_is_uniform :
  forall (pow10 : Q -> option Q) (G : Topology) (length p_op : Q)
         (loss_dB : option Q),
    simple_graph G -> closed G ->
    (loss_dB = None ->
     set_edge_length pow10 G length p_op loss_dB
     = (relength length (fun _ => p_op) G, None))
    /\ (forall l y,
           loss_dB = Some l ->
           pow10 (- (l * length / 10))%Q = Some y ->
           set_edge_length pow10 G length p_op loss_dB
           = (relength length (fun _ => (p_op * y)%Q) G, None))
    /\ (forall l,
           loss_dB = Some l ->
           pow10 (- (l * length / 10))%Q = None ->
           set_edge_length pow10 G length p_op loss_dB
           = (relength length e_p_edge G,
              match g_edges G with
              | [] => None
              | _ :: _ => Some OverflowError
              end)).
Proof.
  intros pow10 G length p_op loss_dB Hs HC.
  assert (Hlen : Forall (fun e => e_length (eattr e) = length)
                        (g_edges (relength length e_p_edge G))).
  { unfold relength, map_edges. cbn [g_edges]. apply Forall_map.
    apply Forall_forall. intros e _. reflexivity. }
  assert (Hs' : simple_graph (relength length e_p_edge G))
    by (apply simple_map_edges, Hs).
  assert (HC' : closed (relength length e_p_edge G))
    by (apply closed_map_edges, HC).
  split; [|split].
  - intros ->. unfold set_edge_length, set_p_edge, update_graph_params, relength,
      map_edges. cbn [g_nodes g_edges]. rewrite map_map. reflexivity.
  - intros l y -> Ey. unfold set_edge_length.
    change (map_edges _ G) with (relength length e_p_edge G).
    rewrite (set_p_edge_uniform pow10 _ length p_op l Hs' HC' Hlen), Ey.
    unfold relength, map_edges. cbn [g_nodes g_edges]. rewrite map_map.
    reflexivity.
  - intros l -> Ey. unfold set_edge_length.
    change (map_edges _ G) with (relength length e_p_edge G).
    rewrite (set_p_edge_uniform pow10 _ length p_op l Hs' HC' Hlen), Ey.
    f_equal. unfold relength, map_edges. cbn [g_edges].
    destruct (g_edges G); reflexivity.
Qed.

Lemma set_edge_length_is_uniform_witness :
  set_edge_length demo_pow demo_square 2%Q (4 # 5)%Q (Some (1 # 5)%Q)
  = (relength 2%Q (fun _ => ((4 # 5) * 1)%Q) demo_square, None)
  /\ set_edge_length demo_pow demo_square 4000%Q (4 # 5)%Q (Some (- (1))%Q)
     = (relength 4000%Q e_p_edge demo_square, Some OverflowError).
Proof.
  split.
  - destruct (set_edge_length_is_uniform demo_pow demo_square 2%Q (4 # 5)%Q
                (Some (1 # 5)%Q) demo_square_simple demo_square_closed)
      as [_ [Hok _]].
    apply (Hok (1 # 5)%Q 1%Q); reflexivity.
  - destruct (set_edge_length_is_uniform demo_pow demo_square 4000%Q (4 # 5)%Q
                (Some (- (1))%Q) demo_square_simple demo_square_closed)
      as [_ [_ Hbad]].
    apply (Hbad (- (1))%Q); reflexivity.
Defined.
(** ** Accounting for links *)

Lemma filter_match_unique {EA : Type} (es : list (Edge EA)) u v e0 :
  ForallOrdPairs (fun a b : Edge EA => same_edge (eu a) (ev a) b = false) es ->
  In e0 es -> same_edge u v e0 = true ->
  filter (same_edge u v) es = [e0].
Proof.
  intros Hs. induction Hs as [|a l Hal Hl IH]; intros Hin M; [destruct Hin|].
  cbn [filter]. destruct (same_edge u v a) eqn:Ma.
  - assert (Hrest : filter (same_edge u v) l = []).
    { destruct (filter (same_edge u v) l) as [|e r] eqn:F; [reflexivity|].
      assert (He : In e (filter (same_edge u v) l)) by (rewrite F; left; reflexivity).
      apply filter_In in He. destruct He as [He Me].
      pose proof (proj1 (Forall_forall _ _) Hal e He) as R.
      exfalso. apply same_edge_iff in Ma. rewrite <- not_true_iff_false in R.
      apply R. destruct Ma as [[-> ->]|[-> ->]]; [exact Me|].
      rewrite <- Me. unfold same_edge. apply orb_comm. }
    rewrite Hrest. destruct Hin as [->|Hin]; [reflexivity|].
    exfalso. assert (He : In e0 (filter (same_edge u v) l))
      by (apply filter_In; auto).
    rewrite Hrest in He. destruct He.
  - destruct Hin as [->|Hin]; [congruence|]. apply IH; assumption.
Qed.

Lemma count_split {A : Type} (P Q : A -> bool) (l : list A) :
  length (filter P l)
  = length (filter (fun x => P x && Q x) l)
    + length (filter (fun x => P x && negb (Q x)) l).
Proof.
  induction l as [|x l IH]; [reflexivity|]. cbn [filter].
  destruct (P x), (Q x); cbn [andb negb length]; lia.
Qed.

Lemma consumed_entangled hs (e : Edge EdgeAttr) :
  e_entangled (eattr (consumed hs e))
  = e_entangled (eattr e) && negb (on_hops hs e).
Proof.
  unfold consumed. destruct (on_hops hs e); cbn [negb].
  - destruct e as [[u v] a]. cbn. rewrite andb_false_r. reflexivity.
  - rewrite andb_true_r. reflexivity.
Qed.

Lemma consumed_links hs (G : Topology) (H : LinkGraph) :
  simple_graph G ->
  links_entangled G H ->
  hops_available hs G H ->
  length (filter (fun e => e_entangled (eattr e) && negb (on_hops hs e))
                 (g_edges G))
  + length hs
  = entangled_links G.
Proof.
  intros Hs Hent. unfold entangled_links.
  induction hs as [|[u v] hs IH]; intros Hav.
  - cbn [length]. rewrite Nat.add_0_r. f_equal. apply filter_ext. intros e.
    cbn. apply andb_true_r.
  - destruct Hav as [Huv [_ [Hnot Hav]]]. rewrite <- (IH Hav).
    rewrite (count_split (fun e => e_entangled (eattr e) && negb (on_hops hs e))
                         (same_edge u v) (g_edges G)).
    destruct (Hent u v Huv) as [e0 [He0 [M0 E0]]].
    assert (Hone : filter (fun e => (e_entangled (eattr e) && negb (on_hops hs e))
                                    && same_edge u v e) (g_edges G) = [e0]).
    { rewrite (filter_ext _ (fun e => same_edge u v e
                                       && (e_entangled (eattr e)
                                           && negb (on_hops hs e))))
        by (intros e; apply andb_comm).
      rewrite <- filter_filter.
      rewrite (filter_match_unique (g_edges G) u v e0 Hs He0 M0).
      cbn [filter]. rewrite E0.
      assert (Hoff : on_hops hs e0 = false).
      { destruct (on_hops hs e0) eqn:On; [|reflexivity]. exfalso.
        unfold on_hops in On. apply existsb_exists in On.
        destruct On as [[x y] [Hin Mxy]]. cbn [fst snd] in Mxy.
        assert (Hxy : ((x =? u) && (y =? v)) || ((x =? v) && (y =? u)) = false).
        { destruct (((x =? u) && (y =? v)) || ((x =? v) && (y =? u))) eqn:B;
            [|reflexivity].
          assert (Hex : existsb (fun h => ((fst h =? u) && (snd h =? v))
                                          || ((fst h =? v) && (snd h =? u))) hs
                        = true)
            by (apply existsb_exists; exists (x, y); auto).
          congruence. }
        rewrite (same_edge_other u v x y e0 Mxy Hxy) in M0. discriminate. }
      rewrite Hoff. reflexivity. }
    rewrite Hone. cbn [length].
    rewrite (filter_ext
               (fun e => e_entangled (eattr e)
                         && negb (on_hops ((u, v) :: hs) e))
               (fun e => (e_entangled (eattr e) && negb (on_hops hs e))
                         && negb (same_edge u v e))).
    + lia.
    + intros e. unfold on_hops. cbn [existsb fst snd].
      destruct (e_entangled (eattr e)), (same_edge u v e),
        (existsb (fun h => same_edge (fst h) (snd h) e) hs); reflexivity.
Qed.

Lemma entangled_links_consumed hs (ns : list (node * NodeAttr)) (G : Topology) :
  entangled_links (mkGraph ns (map (consumed hs) (g_edges G)))
  = length (filter (fun e => e_entangled (eattr e) && negb (on_hops hs e))
                   (g_edges G)).
Proof.
  unfold entangled_links. cbn [g_edges].
  induction (g_edges G) as [|e es IH]; [reflexivity|]. cbn [map filter].
  rewrite consumed_entangled.
  destruct (e_entangled (eattr e) && negb (on_hops hs e)); cbn [length];
    rewrite IH; reflexivity.
Qed.

Lemma links_recorded_app used p :
  links_recorded (used ++ [p]) = (links_recorded used + up_edge_count p)%Z.
Proof.
  unfold links_recorded. induction used as [|q used IH]; cbn [app fold_right].
  - lia.
  - rewrite IH. lia.
Qed.

Lemma consumed_ends hs (e : Edge EdgeAttr) :
  eu (consumed hs e) = eu e /\ ev (consumed hs e) = ev e.
Proof.
  unfold consumed. destruct (on_hops hs e); [|auto].
  destruct e as [[u v] a]. cbn. auto.
Qed.

Lemma sd_loop_conserves s ds :
  forall (G : Topology) (H : LinkGraph) used,
    simple_graph G ->
    links_of G H ->
    links_entangled G H ->
    In s (node_ids G) ->
    incl ds (node_ids G) ->
    (Z.of_nat (entangled_links (po_graph (sd_loop s ds G H used)))
     + links_recorded (po_used (sd_loop s ds G H used))
     = Z.of_nat (entangled_links G) + links_recorded used)%Z.
Proof.
  induction ds as [|d ds IH]; intros G H used Hsimple Hlinks Hent Hs Hds;
    cbn [sd_loop]; [reflexivity|].
  assert (Hd : In d (node_ids G)) by (apply Hds; left; reflexivity).
  assert (Hds' : incl ds (node_ids G))
    by (intros x Hx; apply Hds; right; exact Hx).
  destruct (proj1 (lookup_node_some (g_nodes G) d) Hd) as [nd Hnd].
  rewrite Hnd.
  destruct (n_entangled nd); [apply IH; assumption|].
  pose proof Hlinks as [Hids Hsub].
  assert (HsH : has_node H s = true)
    by (unfold has_node; rewrite Hids; apply mem_In; exact Hs).
  assert (HdH : has_node H d = true)
    by (unfold has_node; rewrite Hids; apply mem_In; exact Hd).
  unfold has_path.
  destruct (shortest_path H s d) as [p|x] eqn:Esp.
  - pose proof (shortest_path_simple H s d p Esp) as Hnodup.
    destruct (shortest_path_sound H s d p Esp) as [_ [_ [[Hhd [Hlast Hwalk]] _]]].
    pose proof (hops_available_simple p G H Hnodup Hwalk Hsub) as Hav.
    rewrite (create_bell_pair_succeeds G H p used d Hav Hlast).
    + cbn [po_exn po_graph po_links po_used].
      set (G' := mkGraph (map (marked d) (g_nodes G))
                         (map (consumed (hops p)) (g_edges G))).
      assert (Hids' : node_ids G' = node_ids G)
        by (unfold node_ids, G'; cbn [g_nodes]; apply map_fst_marked).
      rewrite IH.
      * unfold G'. rewrite entangled_links_consumed, links_recorded_app.
        cbn [up_edge_count].
        pose proof (consumed_links (hops p) G H Hsimple Hent Hav) as Hc.
        rewrite hops_length in Hc.
        destruct p as [|a p]; [discriminate|]. cbn [length pred] in *. lia.
      * apply (simple_graph_map G (consumed (hops p))); [|exact Hsimple].
        intros e. apply consumed_ends.
      * split.
        -- rewrite Hids'. exact Hids.
        -- intros u v Huv. apply has_edge_filtered in Huv.
           unfold G'. rewrite has_edge_consumed with (ns' := g_nodes G).
           apply Hsub in Huv. destruct G. exact Huv.
      * intros u v Huv.
        assert (Hoff : forall e : Edge EdgeAttr,
                   same_edge u v e = true -> on_hops (hops p) e = false).
        { intros e Me. destruct (on_hops (hops p) e) eqn:On; [|reflexivity].
          exfalso. unfold on_hops in On. apply existsb_exists in On.
          destruct On as [[x y] [Hin Mxy]]. cbn [fst snd] in Mxy.
          pose proof (has_edge_filtered_out H (hops p) x y Hin) as Hgone.
          assert (Huv' : has_edge (mkGraph (g_nodes H)
                                    (filter (fun e => negb (on_hops (hops p) e))
                                            (g_edges H))) x y = true).
          { rewrite (has_edge_same _ x y e Mxy).
            rewrite <- (has_edge_same _ u v e Me). exact Huv. }
          congruence. }
        pose proof (has_edge_filtered H _ u v Huv) as HuvH.
        destruct (Hent u v HuvH) as [e [He [Me Ee]]].
        exists (consumed (hops p) e). unfold G'. cbn [g_edges].
        split; [apply in_map; exact He|].
        unfold consumed. rewrite (Hoff e Me). auto.
      * rewrite Hids'. exact Hs.
      * rewrite Hids'. exact Hds'.
    + unfold has_node. apply mem_In. exact Hd.
  - rewrite (shortest_path_raises H s d x HsH HdH Esp).
    apply IH; assumption.
Qed.
Lemma links_entangled_subgraph (G : Topology) :
  links_entangled G (get_entangled_subgraph G).
Proof.
  intros u v Huv. unfold has_edge in Huv. apply existsb_exists in Huv.
  destruct Huv as [e [He Hs]].
  destruct (entangled_subgraph_data G e He) as [e0 [He0 [Hs0 [_ Hent]]]].
  exists e0. split; [exact He0|]. split; [|exact Hent].
  apply (same_edge_trans u v e e0 Hs Hs0).
Qed.

(** X21.  The shortest-path strategy records what it consumes.  Called
    with the entangled subgraph of a simple topology and users that are
    nodes, [_SD_protocol] takes out of the topology exactly the links its
    new used-path entries count: the number of entangled edges goes down
    by what the sum of [edge_count] over the used paths goes up. *)
Theorem SD_protocol_records_what_it_consumes :
  forall (G : Topology) (s : node) (ds : list node) (used_nodes : list UsedPath)
         (count_fusion : bool),
    simple_graph G ->
    (forall u, In u (s :: ds) -> In u (node_ids G)) ->
    (Z.of_nat (entangled_links
                 (fst (fst (_SD_protocol G (get_entangled_subgraph G) (s :: ds)
                                         used_nodes count_fusion))))
     + links_recorded (snd (fst (_SD_protocol G (get_entangled_subgraph G)
                                              (s :: ds) used_nodes count_fusion)))
     = Z.of_nat (entangled_links G) + links_recorded used_nodes)%Z.
Proof.
  intros G s ds used cf Hsimple Hus.
  pose proof (sd_loop_conserves s ds G (get_entangled_subgraph G) used Hsimple
                (links_of_entangled_subgraph G) (links_entangled_subgraph G)
                (Hus s (or_introl eq_refl))
                (fun x Hx => Hus x (or_intror Hx))) as H.
  unfold _SD_protocol.
  destruct (po_exn (sd_loop s ds G (get_entangled_subgraph G) used));
    cbn [fst snd]; exact H.
Qed.

Lemma SD_protocol_records_what_it_consumes_witness :
  Z.add (Z.of_nat (entangled_links
                     (fst (fst (_SD_protocol demo_chain
                                             (get_entangled_subgraph demo_chain)
                                             [0; 2] [] false)))))
        (links_recorded (snd (fst (_SD_protocol demo_chain
                                                (get_entangled_subgraph demo_chain)
                                                [0; 2] [] false))))
  = 2%Z.
Proof.
  apply (SD_protocol_records_what_it_consumes demo_chain 0 [2] [] false).
  - unfold simple_graph. cbn. repeat constructor.
  - intros u [<-|[<-|[]]]; cbn; auto.
Defined.
(** ** What the shortest-path strategy does *)

Lemma node_marked_refl ds x : node_marked ds x x.
Proof. left. reflexivity. Qed.

Lemma node_marked_trans ds x1 x2 x3 :
  node_marked ds x1 x2 -> node_marked ds x2 x3 -> node_marked ds x1 x3.
Proof.
  intros [ -> | [H1 ->] ] [ -> | [H2 ->] ]; cbn [fst snd] in *.
  - left. reflexivity.
  - right. auto.
  - right. auto.
  - right. split; [exact H1|]. destruct x1 as [n a]. reflexivity.
Qed.

Lemma edge_consumed_refl e : edge_consumed e e.
Proof. left. reflexivity. Qed.

Lemma edge_consumed_trans e1 e2 e3 :
  edge_consumed e1 e2 -> edge_consumed e2 e3 -> edge_consumed e1 e3.
Proof.
  intros [ -> | -> ] [ -> | -> ].
  - left. reflexivity.
  - right. reflexivity.
  - right. reflexivity.
  - right. apply on_attr_consume_twice.
Qed.

Lemma swap_along_consumes hs :
  forall (G : Topology) (H : LinkGraph),
    g_nodes (fst (fst (swap_along hs G H))) = g_nodes G
    /\ Forall2 edge_consumed (g_edges G) (g_edges (fst (fst (swap_along hs G H)))).
Proof.
  induction hs as [|[u v] hs IH]; intros G H; cbn [swap_along].
  - split; [reflexivity|]. apply Forall2_refl_on, edge_consumed_refl.
  - destruct (remove_edge H u v) as [H1|x];
      [|split; [reflexivity|apply Forall2_refl_on, edge_consumed_refl]].
    destruct (find_edge G u v) as [a|];
      [|split; [reflexivity|apply Forall2_refl_on, edge_consumed_refl]].
    destruct (IH (set_edge G u v consume) H1) as [I1 I2].
    split; [rewrite I1; reflexivity|].
    eapply Forall2_trans; [apply edge_consumed_trans| |exact I2].
    cbn [set_edge g_edges]. apply Forall2_map_same. intros e.
    destruct (same_edge u v e); [right|left]; reflexivity.
Qed.

Lemma create_bell_pair_marks (G : Topology) (H : LinkGraph) path used d ds :
  path_last path = Some d -> In d ds ->
  Forall2 (node_marked ds) (g_nodes G)
          (g_nodes (po_graph (_create_bell_pair G H path used)))
  /\ Forall2 edge_consumed (g_edges G)
             (g_edges (po_graph (_create_bell_pair G H path used)))
  /\ (po_used (_create_bell_pair G H path used) = used
      \/ exists p, po_used (_create_bell_pair G H path used) = used ++ [p]
                   /\ bell_record ds p).
Proof.
  intros Hlast Hd. unfold _create_bell_pair.
  destruct (swap_along_consumes (hops path) G H) as [S1 S2].
  destruct (swap_along (hops path) G H) as [[G1 H1] [x|]]; cbn [fst] in S1, S2.
  - cbn. rewrite S1. split; [apply Forall2_refl_on, node_marked_refl|]. auto.
  - rewrite Hlast. destruct (has_node G1 d).
    + cbn [po_graph po_used set_node g_nodes g_edges]. rewrite S1.
      split; [|split; [exact S2|]].
      * apply Forall2_map_same. intros [n a]. cbn [fst snd].
        destruct (n =? d) eqn:E; [|left; reflexivity].
        apply Nat.eqb_eq in E. subst n. right. split; [exact Hd|reflexivity].
      * right. eexists. split; [reflexivity|]. unfold bell_record. cbn.
        split; [reflexivity|]. split; [eauto|].
        destruct path; [discriminate|]. cbn [length]. lia.
    + cbn. rewrite S1. split; [apply Forall2_refl_on, node_marked_refl|]. auto.
Qed.

Lemma sd_loop_effect s ds0 ds :
  incl ds ds0 ->
  forall (G : Topology) (H : LinkGraph) used,
    Forall2 (node_marked ds0) (g_nodes G) (g_nodes (po_graph (sd_loop s ds G H used)))
    /\ Forall2 edge_consumed (g_edges G)
               (g_edges (po_graph (sd_loop s ds G H used)))
    /\ exists new, po_used (sd_loop s ds G H used) = used ++ new
                   /\ Forall (bell_record ds0) new.
Proof.
  induction ds as [|d ds IH]; intros Hincl G H used; cbn [sd_loop].
  - split; [apply Forall2_refl_on, node_marked_refl|].
    split; [apply Forall2_refl_on, edge_consumed_refl|].
    exists []. rewrite app_nil_r. auto.
  - assert (Hd : In d ds0) by (apply Hincl; left; reflexivity).
    assert (Hincl' : incl ds ds0) by (intros x Hx; apply Hincl; right; exact Hx).
    assert (Hstay : Forall2 (node_marked ds0) (g_nodes G) (g_nodes G)
                    /\ Forall2 edge_consumed (g_edges G) (g_edges G)
                    /\ exists new, used = used ++ new /\ Forall (bell_record ds0) new).
    { split; [apply Forall2_refl_on, node_marked_refl|].
      split; [apply Forall2_refl_on, edge_consumed_refl|].
      exists []. rewrite app_nil_r. auto. }
    destruct (lookup_node (g_nodes G) d) as [nd|]; [|exact Hstay].
    destruct (n_entangled nd); [apply IH; exact Hincl'|].
    unfold has_path.
    destruct (shortest_path H s d) as [p|x] eqn:Esp.
    + destruct (shortest_path_sound H s d p Esp) as [_ [_ [[_ [Hlast _]] _]]].
      destruct (create_bell_pair_marks G H p used d ds0 Hlast Hd) as [C1 [C2 C3]].
      destruct (po_exn (_create_bell_pair G H p used)).
      * split; [exact C1|]. split; [exact C2|].
        destruct C3 as [ -> | [q [ -> Hq]] ].
        -- exists []. rewrite app_nil_r. auto.
        -- exists [q]. auto.
      * destruct (IH Hincl' (po_graph (_create_bell_pair G H p used))
                     (po_links (_create_bell_pair G H p used))
                     (po_used (_create_bell_pair G H p used)))
          as [I1 [I2 [new [I3 I4]]]].
        split; [eapply Forall2_trans; [apply node_marked_trans|exact C1|exact I1]|].
        split; [eapply Forall2_trans; [apply edge_consumed_trans|exact C2|exact I2]|].
        rewrite I3. destruct C3 as [ -> | [q [ -> Hq]] ].
        -- exists new. auto.
        -- exists (q :: new). rewrite <- app_assoc. split; [reflexivity|].
           constructor; assumption.
    + destruct x; try exact Hstay. apply IH. exact Hincl'.
Qed.

Lemma all_entangled_spec (G : Topology) ds b :
  all_entangled G ds = Ok b ->
  (b = true <-> forall d, In d ds ->
                          exists nd, lookup_node (g_nodes G) d = Some nd
                                     /\ n_entangled nd = true).
Proof.
  revert b. induction ds as [|d ds IH]; intros b; cbn [all_entangled].
  - intros E. inversion E. split; [intros _ d []|reflexivity].
  - destruct (lookup_node (g_nodes G) d) as [nd|] eqn:L; [|discriminate].
    destruct (all_entangled G ds) as [b'|x]; cbn [bind]; [|discriminate].
    intros E. inversion E; subst b. specialize (IH b' eq_refl).
    rewrite andb_true_iff, IH. split.
    + intros [H1 H2] d' [<-|Hd']; [eauto|apply H2, Hd'].
    + intros Hall. split.
      * destruct (Hall d (or_introl eq_refl)) as [nd' [L' E']]. congruence.
      * intros d' Hd'. apply Hall. right. exact Hd'.
Qed.

(** X22.  What the shortest-path strategy does, whatever it is given.
    It leaves every node as it was or marks it as the end of a Bell pair
    ([entangled], age 0), and only destinations are marked; it leaves
    every edge as it was or consumes its link ([entangled] off, age 0);
    it only appends to the used paths, entries of age 0 whose destination
    is a destination user; and when it returns, it returns [True] exactly
    when every destination is entangled in the graph it leaves. *)
Theorem SD_protocol_effect :
  forall (G : Topology) (H : LinkGraph) (s : node) (ds : list node)
         (used_nodes : list UsedPath) (count_fusion : bool),
    Forall2 (node_marked ds) (g_nodes G)
            (g_nodes (fst (fst (_SD_protocol G H (s :: ds) used_nodes
                                             count_fusion))))
    /\ Forall2 edge_consumed (g_edges G)
               (g_edges (fst (fst (_SD_protocol G H (s :: ds) used_nodes
                                                count_fusion))))
    /\ (exists new,
           snd (fst (_SD_protocol G H (s :: ds) used_nodes count_fusion))
           = used_nodes ++ new
           /\ Forall (bell_record ds) new)
    /\ (forall b,
           snd (_SD_protocol G H (s :: ds) used_nodes count_fusion) = Ok b ->
           (b = true
            <-> forall d, In d ds ->
                          exists nd,
                            lookup_node
                              (g_nodes (fst (fst (_SD_protocol G H (s :: ds)
                                                               used_nodes
                                                               count_fusion)))) d
                            = Some nd
                            /\ n_entangled nd = true)).
Proof.
  intros G H s ds used cf.
  destruct (sd_loop_effect s ds ds (incl_refl ds) G H used) as [E1 [E2 E3]].
  unfold _SD_protocol.
  destruct (po_exn (sd_loop s ds G H used)); cbn [fst snd].
  - split; [exact E1|]. split; [exact E2|]. split; [exact E3|].
    intros b Hb. discriminate.
  - split; [exact E1|]. split; [exact E2|]. split; [exact E3|].
    intros b Hb. apply all_entangled_spec. exact Hb.
Qed.
(** ** Usage counters of the cooperative protocol *)

Lemma bumped_refl x : bumped 0 x x.
Proof. unfold bumped. lia. Qed.

Lemma bumped_trans a b x1 x2 x3 :
  bumped a x1 x2 -> bumped b x2 x3 -> bumped (a + b) x1 x3.
Proof. unfold bumped. lia. Qed.

Lemma bumped_weaken a b x x' : (a <= b)%Z -> bumped a x x' -> bumped b x x'.
Proof. unfold bumped. lia. Qed.

Lemma Forall2_compose {A : Type} (R1 R2 R3 : A -> A -> Prop) :
  (forall x y z, R1 x y -> R2 y z -> R3 x z) ->
  forall l1 l2 l3, Forall2 R1 l1 l2 -> Forall2 R2 l2 l3 -> Forall2 R3 l1 l3.
Proof.
  intros HR l1 l2 l3 H. revert l3.
  induction H; intros l3 H3; inversion H3; subst; constructor; eauto.
Qed.

Lemma bumped_step (G : Topology) used nodes rng :
  Forall2 (bumped 0) (g_nodes G)
          (g_nodes (so_graph (run_entanglement_step G used nodes rng))).
Proof.
  eapply Forall2_impl; [|apply step_nodes_settle].
  intros x y [_ [H _]]. unfold bumped. rewrite H. lia.
Qed.

Lemma bumped_reset_state (G : Topology) :
  Forall2 (bumped 0) (g_nodes G) (g_nodes (reset_graph_state G)).
Proof.
  unfold reset_graph_state, map_nodes. cbn [g_nodes]. apply Forall2_map_same.
  intros [n a]. unfold bumped. cbn. lia.
Qed.

Lemma count_nodes_bumped ns :
  NoDup ns ->
  forall G : Topology,
    Forall2 (fun x x' => (n_usage_count (snd x) <= n_usage_count (snd x')
                          <= n_usage_count (snd x)
                             + (if mem (fst x) ns then 1 else 0))%Z
                         /\ fst x' = fst x)
            (g_nodes G) (g_nodes (fst (count_nodes ns G))).
Proof.
  induction 1 as [|n ns Hn Hnd IH]; intros G; cbn [count_nodes].
  - apply Forall2_refl_on. intros x. cbn. split; [lia|reflexivity].
  - destruct (has_node G n).
    + eapply Forall2_compose;
        [|apply (Forall2_map_same
                   (fun x x' : node * NodeAttr =>
                      x' = (if fst x =? n
                            then (fst x,
                                  set_n_usage_count (n_usage_count (snd x) + 1)%Z
                                                    (snd x))
                            else x)))
         |apply (IH (set_node G n (fun a => set_n_usage_count
                                              (n_usage_count a + 1)%Z a)))].
      * intros x y z -> [H1 H2]. unfold mem in *. cbn [existsb].
        destruct (fst x =? n) eqn:E; cbn [fst snd orb] in *.
        -- apply Nat.eqb_eq in E.
           assert (Hm : existsb (Nat.eqb (fst x)) ns = false).
           { destruct (existsb (Nat.eqb (fst x)) ns) eqn:M; [|reflexivity].
             exfalso. apply Hn. apply existsb_exists in M.
             destruct M as [y [Hy Ey]]. apply Nat.eqb_eq in Ey.
             rewrite <- E, Ey. exact Hy. }
           rewrite Hm in H1. cbn [n_usage_count set_n_usage_count] in H1.
           split; [lia|exact H2].
        -- split; [|exact H2].
           destruct (existsb (Nat.eqb (fst x)) ns); lia.
      * intros x. reflexivity.
    + apply Forall2_refl_on. intros x. cbn [fst snd]. split; [|reflexivity].
      destruct (mem (fst x) (n :: ns)); lia.
Qed.

Lemma CC_timestep_bumped steiner_tree users cf n :
  steiner_nodes_distinct steiner_tree ->
  forall t (G : Topology) links rng,
    Forall2 (bumped 1) (g_nodes G)
            (g_nodes (to_graph (timestep_loop (_CC_protocol steiner_tree) users
                                              false cf n t G [] links rng))).
Proof.
  intros Hst. induction n as [|n IH]; intros t G links rng; cbn [timestep_loop].
  - apply Forall2_refl_on. intros x. unfold bumped. lia.
  - destruct (step_plain G [] rng) as [E1 E2]. rewrite E1, E2.
    pose proof (bumped_step G [] false rng) as Hs.
    set (G' := so_graph (run_entanglement_step G [] false rng)) in *.
    unfold _CC_protocol.
    destruct users as [|u0 rest].
    { cbn. eapply Forall2_impl; [|exact Hs]. intros x y. apply bumped_weaken. lia. }
    destruct (node_connected_component (get_entangled_subgraph G') u0) as [CC|x].
    2:{ cbn. eapply Forall2_impl; [|exact Hs]. intros x0 y. apply bumped_weaken. lia. }
    destruct (negb _).
    + eapply Forall2_compose; [|exact Hs|apply IH].
      intros x y z H1 H2. apply (bumped_trans 0 1 x y z H1 H2).
    + cbn [app add_usage up_nodes up_edge_count].
      match goal with
      | |- context [count_nodes ?ns G'] =>
          pose proof (count_nodes_bumped ns) as Hc;
          destruct (count_nodes ns G') as [G2 err] eqn:Ec
      end.
      assert (Hb : Forall2 (bumped 1) (g_nodes G') (g_nodes G2)).
      { specialize (Hc (NoDup_filter _ (Hst _ _)) G'). rewrite Ec in Hc.
        cbn [fst] in Hc. eapply Forall2_impl; [|exact Hc].
        intros x y [H _]. unfold bumped.
        destruct (mem (fst x) _); lia. }
      destruct err; cbn [to_graph];
        (eapply Forall2_compose; [|exact Hs|exact Hb]);
        intros x y z H1 H2; apply (bumped_trans 0 1 x y z H1 H2).
Qed.

Lemma CC_trial_bumped steiner_tree users timesteps cf n :
  steiner_nodes_distinct steiner_tree ->
  forall (G : Topology) links times rng,
    Forall2 (bumped (Z.of_nat n)) (g_nodes G)
            (g_nodes (fst (fst (fst (trial_loop (_CC_protocol steiner_tree) users
                                                timesteps false cf n G links
                                                times rng))))).
Proof.
  intros Hst. induction n as [|n IH]; intros G links times rng; cbn [trial_loop].
  - apply Forall2_refl_on. intros x. unfold bumped. cbn. lia.
  - pose proof (CC_timestep_bumped steiner_tree users cf (Z.to_nat timesteps) Hst
                  0%Z (reset_graph_state G) links rng) as Ht.
    assert (Ht' : Forall2 (bumped 1) (g_nodes G)
                    (g_nodes (to_graph (timestep_loop (_CC_protocol steiner_tree)
                                          users false cf (Z.to_nat timesteps) 0%Z
                                          (reset_graph_state G) [] links rng)))).
    { eapply Forall2_compose; [|apply bumped_reset_state|exact Ht].
      intros x y z H1 H2. apply (bumped_trans 0 1 x y z H1 H2). }
    destruct (to_time _) as [t|x]; cbn [fst].
    + eapply Forall2_compose; [|exact Ht'|apply IH].
      intros x y z H1 H2.
      apply (bumped_weaken (1 + Z.of_nat n)); [lia|].
      apply (bumped_trans 1 (Z.of_nat n) x y z H1 H2).
    + eapply Forall2_impl; [|exact Ht']. intros x0 y. apply bumped_weaken. lia.
Qed.

(** X23.  The usage fractions of the cooperative protocol are fractions.
    When [MPC_protocol] returns, and the Steiner routine returns graphs
    (distinct nodes), every node of the graph has a [usage_count] between
    0 and [reps], counted from 0 whatever it was before, and a
    [usage_fraction] equal to [usage_count / reps], so between 0 and 1:
    a repetition counts a node at most once. *)
Theorem MPC_usage_fractions :
  forall (steiner_tree : LinkGraph -> list node -> LinkGraph)
         (G : Topology) (users : list node) (timesteps reps : Z)
         (count_fusion : bool) (rng : RandomSource)
         (r : pyfloat * list Z * Q),
    steiner_nodes_distinct steiner_tree ->
    ro_result (MPC_protocol steiner_tree G users timesteps reps count_fusion rng)
    = Ok r ->
    Forall (fun x =>
              (0 <= n_usage_count (snd x) <= reps)%Z
              /\ n_usage_fraction (snd x)
                 = (inject_Z (n_usage_count (snd x)) / inject_Z reps)%Q
              /\ (0 <= n_usage_fraction (snd x))%Q
              /\ (n_usage_fraction (snd x) <= 1)%Q)
           (g_nodes (ro_graph (MPC_protocol steiner_tree G users timesteps reps
                                            count_fusion rng))).
Proof.
  intros st G users timesteps reps cf rng r Hst.
  unfold MPC_protocol, _run_protocol.
  destruct (reps <? 0)%Z eqn:Eneg; [discriminate|]. apply Z.ltb_ge in Eneg.
  pose proof (CC_trial_bumped st users timesteps cf (Z.to_nat reps) Hst
                (reset_graph_usage G) 0%Z [] rng) as Hb.
  destruct (trial_loop _ _ _ _ _ _ _ _ _ _) as [[[G1 rng1] links] [ts|x]];
    [|discriminate].
  cbn [fst] in Hb.
  destruct (_multipartite_rate ts timesteps) as [rate|x]; [|discriminate].
  unfold update_graph_usage.
  destruct (reps =? 0)%Z eqn:E0.
  { destruct (g_nodes G1); discriminate. }
  apply Z.eqb_neq in E0. intros _.
  assert (Hcount : Forall (fun x => (0 <= n_usage_count (snd x) <= reps)%Z)
                          (g_nodes G1)).
  { unfold reset_graph_usage, map_nodes in Hb. cbn [g_nodes] in Hb.
    apply Forall_forall. intros y Hy.
    destruct (Forall2_In_r _ _ _ y Hb Hy) as [x [Hx Hxy]].
    apply in_map_iff in Hx. destruct Hx as [x0 [<- _]].
    unfold bumped in Hxy. cbn in Hxy. lia. }
  assert (Hnodes : Forall (fun x =>
              (0 <= n_usage_count (snd x) <= reps)%Z
              /\ n_usage_fraction (snd x)
                 = (inject_Z (n_usage_count (snd x)) / inject_Z reps)%Q
              /\ (0 <= n_usage_fraction (snd x))%Q
              /\ (n_usage_fraction (snd x) <= 1)%Q)
           (map (fun x : node * NodeAttr =>
                   (fst x, set_n_usage_fraction
                             (inject_Z (n_usage_count (snd x)) / inject_Z reps)%Q
                             (snd x))) (g_nodes G1))).
  { apply Forall_map. eapply Forall_impl; [|exact Hcount].
    intros [n a] Ha. cbn [fst snd set_n_usage_fraction n_usage_count
                          n_usage_fraction] in *.
    split; [exact Ha|]. split; [reflexivity|].
    assert (Hpos : (0 < inject_Z reps)%Q) by (rewrite <- (Zlt_Qlt 0); lia).
    split.
    - apply Qle_shift_div_l; [exact Hpos|]. rewrite Qmult_0_l.
      rewrite <- (Zle_Qle 0). lia.
    - apply Qle_shift_div_r; [exact Hpos|]. rewrite Qmult_1_l.
      rewrite <- Zle_Qle. lia. }
  destruct (g_nodes G1) as [|x0 l] eqn:EG; cbn [ro_graph].
  - rewrite EG. constructor.
  - cbn [map_nodes g_nodes]. rewrite EG. exact Hnodes.
Qed.

Lemma distinct_nodes_steiner :
  steiner_nodes_distinct (fun H _ => distinct_nodes H).
Proof.
  intros H ts. unfold distinct_nodes, node_ids. cbn [g_nodes].
  rewrite map_map. cbn [fst]. rewrite map_id. apply NoDup_nodup.
Defined.

Lemma MPC_usage_fractions_witness :
  Forall (fun x => (0 <= n_usage_fraction (snd x))%Q
                   /\ (n_usage_fraction (snd x) <= 1)%Q)
         (g_nodes (ro_graph (MPC_protocol (fun H _ => distinct_nodes H) demo_chain
                                          [0; 2] 3 2 false half))).
Proof.
  eapply Forall_impl;
    [|apply (MPC_usage_fractions (fun H _ => distinct_nodes H) demo_chain [0; 2]
               3 2 false half (Finite (2 # 2)%Q, [1; 1]%Z, (4 # 2)%Q)
               distinct_nodes_steiner)].
  - intros x [_ [_ H]]. exact H.
  - vm_compute. reflexivity.
Defined.
(** ** The cooperative strategy and connectivity *)

Lemma connected_reach {NA EA : Type} (G : Graph NA EA) s v :
  connected G s v <-> exists k, reach G s k v.
Proof.
  unfold connected, reach. split.
  - intros [p Hp]. exists (hop_count p), p. auto.
  - intros [k [p [Hp _]]]. exists p. exact Hp.
Qed.

Lemma connected_step {NA EA : Type} (G : Graph NA EA) s v w :
  connected G s v -> has_edge G v w = true -> connected G s w.
Proof.
  intros Hv Hvw. apply connected_reach in Hv. destruct Hv as [k Hk].
  apply connected_reach. exists (S k). apply (reach_step G s k v w Hk Hvw).
Qed.

Lemma comp_inv_step {NA EA : Type} (G : Graph NA EA) s frontier visited next vis :
  comp_inv G s frontier visited ->
  expand G frontier visited = (next, vis) ->
  comp_inv G s next vis.
Proof.
  intros [If Is Ic] He.
  destruct (expand_spec G _ _ _ _ He) as [E1 [E2 [E3 [E4 _]]]].
  assert (Hf : forall p, In p next -> connected G s (fst p)).
  { intros p' Hp'. destruct (E2 p' Hp') as [p [Hp [_ [Hedge _]]]].
    apply (connected_step G s (fst p) (fst p') (If p Hp) Hedge). }
  constructor.
  - exact Hf.
  - intros v Hv. destruct (E4 v Hv) as [Hold|[Hnew _]]; [apply Is, Hold|].
    apply in_map_iff in Hnew. destruct Hnew as [p [<- Hp]]. apply Hf, Hp.
  - intros v Hv. destruct (E4 v Hv) as [Hold|[Hnew _]]; [|left; exact Hnew].
    right. intros w Hw. destruct (Ic v Hold) as [Hfr|Hcl].
    + apply in_map_iff in Hfr. destruct Hfr as [p [<- Hp]]. apply (E3 p w Hp Hw).
    + apply E1. apply Hcl, Hw.
Qed.

Lemma comp_closed_all {NA EA : Type} (G : Graph NA EA) s visited :
  comp_inv G s [] visited -> In s visited ->
  forall v, connected G s v -> In v visited.
Proof.
  intros Hinv Hs v Hv. apply connected_reach in Hv. destruct Hv as [k Hk].
  revert v Hk. induction k as [|k IH]; intros v Hk.
  - destruct Hk as [p [[Hhd [Hl Hw]] Hc]].
    destruct p as [|x [|y p]]; try discriminate.
    cbn in Hhd, Hl. congruence.
  - apply reach_inv in Hk. destruct Hk as [u [Hu Huv]].
    destruct (comp_closed G s _ _ Hinv u (IH u Hu)) as [[]|Hcl]. apply Hcl, Huv.
Qed.

Lemma component_spec {NA EA : Type} (G : Graph NA EA) s fuel :
  forall frontier visited,
    comp_inv G s frontier visited ->
    bfs_bound G s fuel frontier visited ->
    forall v, In v (component G fuel frontier visited) <-> connected G s v.
Proof.
  induction fuel as [|fuel IH]; intros frontier visited Hinv Hb v.
  - exfalso. destruct Hb as [_ Hnd Hincl Hf].
    pose proof (NoDup_incl_length Hnd Hincl). lia.
  - cbn [component]. destruct frontier as [|p0 frontier].
    + split; [apply (comp_sound G s _ _ Hinv)|].
      apply (comp_closed_all G s visited Hinv (bound_source G s _ _ _ Hb)).
    + destruct (expand G (p0 :: frontier) visited) as [next vis] eqn:E.
      destruct (expand_spec G _ _ _ _ E) as [E1 [_ [_ [E4 [E5 E6]]]]].
      destruct Hb as [Hs Hnd Hincl Hf].
      apply IH; [apply (comp_inv_step G s _ _ _ _ Hinv E)|].
      constructor.
      * apply E1, Hs.
      * apply E5, Hnd.
      * intros w Hw. destruct (E4 w Hw) as [Hold|[_ [u Hu]]]; auto.
        apply (has_edge_in_universe G s u w Hu).
      * change (length (p0 :: frontier)) with (S (length frontier)) in Hf. lia.
Qed.

Lemma connected_self {NA EA : Type} (G : Graph NA EA) s : connected G s s.
Proof.
  exists [s]. split; [reflexivity|]. split; [reflexivity|]. constructor.
Qed.

Lemma node_connected_component_spec {NA EA : Type} (G : Graph NA EA) n CC :
  node_connected_component G n = Ok CC ->
  forall v, In v CC <-> connected G n v.
Proof.
  unfold node_connected_component. destruct (has_node G n); [|discriminate].
  intros E. inversion E; subst CC. apply component_spec.
  - constructor.
    + intros p [<-|[]]. apply connected_self.
    + intros v [<-|[]]. apply connected_self.
    + intros v [<-|[]]. left. left. reflexivity.
  - constructor.
    + left; reflexivity.
    + constructor; [intros []|constructor].
    + intros x [<-|[]]. left. reflexivity.
    + rewrite universe_length. unfold bfs_fuel. cbn [length]. lia.
Qed.

Lemma CC_protocol_cases steiner_tree (G : Topology) (H : LinkGraph) u0 rest used cf :
  In u0 (node_ids H) ->
  exists b,
    snd (_CC_protocol steiner_tree G H (u0 :: rest) used cf) = Ok b
    /\ (b = true <-> forall u, In u rest -> connected H u0 u).
Proof.
  intros Hu. unfold _CC_protocol.
  destruct (node_connected_component H u0) as [CC|x] eqn:E.
  - pose proof (node_connected_component_spec H u0 CC E) as Hcc.
    destruct (forallb (fun u => mem u CC) (u0 :: rest)) eqn:F; cbn [negb snd].
    + exists true. split; [reflexivity|]. split; [|reflexivity].
      intros _ u Hin. rewrite forallb_forall in F.
      apply Hcc, mem_In, F. right. exact Hin.
    + exists false. split; [reflexivity|]. split; [discriminate|].
      intros Hall. rewrite <- F. apply forallb_forall.
      intros u [<-|Hin]; apply mem_In, Hcc; [apply connected_self|apply Hall, Hin].
  - exfalso. unfold node_connected_component, has_node in E.
    rewrite (proj2 (mem_In u0 (node_ids H)) Hu) in E. discriminate.
Qed.

(** X24.  The cooperative strategy succeeds exactly when the users are
    connected.  Given link graph [H] with the first user among its nodes,
    [_CC_protocol] raises nothing and returns [True] if and only if every
    other user can be reached from the first by a path of links of [H];
    it never changes the topology. *)
Theorem CC_protocol_succeeds_iff_connected :
  forall (steiner_tree : LinkGraph -> list node -> LinkGraph)
         (G : Topology) (H : LinkGraph) (u0 : node) (others : list node)
         (used_nodes : list UsedPath) (count_fusion : bool),
    In u0 (node_ids H) ->
    exists b,
      snd (_CC_protocol steiner_tree G H (u0 :: others) used_nodes count_fusion)
      = Ok b
      /\ (b = true <-> forall u, In u others -> connected H u0 u)
      /\ fst (fst (_CC_protocol steiner_tree G H (u0 :: others) used_nodes
                                count_fusion)) = G.
Proof.
  intros st G H u0 others used cf Hu.
  destruct (CC_protocol_cases st G H u0 others used cf Hu) as [b [H1 H2]].
  exists b. split; [exact H1|]. split; [exact H2|].
  unfold _CC_protocol.
  destruct (node_connected_component H u0); [|reflexivity].
  destruct (negb _); reflexivity.
Qed.

Lemma CC_protocol_succeeds_iff_connected_witness :
  snd (_CC_protocol (fun H _ => H) demo_chain demo_links [0; 2] [] false)
  = Ok true.
Proof.
  destruct (CC_protocol_succeeds_iff_connected (fun H _ => H) demo_chain
              demo_links 0 [2] [] false) as [b [H1 [H2 _]]].
  - cbn. auto.
  - assert (Hb : b = true).
    { apply H2. intros u [<-|[]].
      exists [0; 1; 2]. split; [reflexivity|]. split; [reflexivity|].
      repeat constructor. }
    subst b. exact H1.
Defined.
Lemma swap_along_links hs :
  forall (G : Topology) (H : LinkGraph) u v,
    has_edge (snd (fst (swap_along hs G H))) u v = true -> has_edge H u v = true.
Proof.
  induction hs as [|[x y] hs IH]; intros G H u v; cbn [swap_along]; [auto|].
  unfold remove_edge. destruct (has_edge H x y); cbn [fst snd]; [|auto].
  destruct (find_edge G x y) as [a|]; cbn [fst snd].
  - intros Huv. apply IH in Huv. apply (has_edge_filtered H _ u v Huv).
  - apply (has_edge_filtered H _ u v).
Qed.

Lemma create_bell_pair_links (G : Topology) (H : LinkGraph) path used u v :
  has_edge (po_links (_create_bell_pair G H path used)) u v = true ->
  has_edge H u v = true.
Proof.
  unfold _create_bell_pair.
  pose proof (swap_along_links (hops path) G H u v) as Hs.
  destruct (swap_along (hops path) G H) as [[G1 H1] [x|]]; cbn [fst snd] in Hs;
    [exact Hs|].
  destruct (path_last path) as [d|]; [|exact Hs].
  destruct (has_node G1 d); exact Hs.
Qed.

Lemma reached_or_kept_refl H s x : reached_or_kept H s x x.
Proof. split; auto. Qed.

Lemma sd_loop_reaches s ds :
  forall (G : Topology) (H : LinkGraph) used,
    Forall2 (reached_or_kept H s) (g_nodes G)
            (g_nodes (po_graph (sd_loop s ds G H used))).
Proof.
  induction ds as [|d ds IH]; intros G H used; cbn [sd_loop].
  - apply Forall2_refl_on, reached_or_kept_refl.
  - destruct (lookup_node (g_nodes G) d) as [nd|];
      [|apply Forall2_refl_on, reached_or_kept_refl].
    destruct (n_entangled nd); [apply IH|].
    unfold has_path.
    destruct (shortest_path H s d) as [p|x] eqn:Esp.
    + destruct (shortest_path_sound H s d p Esp) as [_ [_ [Hpb _]]].
      pose proof Hpb as [_ [Hlast _]].
      destruct (create_bell_pair_marks G H p used d [d] Hlast
                  (or_introl eq_refl)) as [C1 _].
      assert (C : Forall2 (reached_or_kept H s) (g_nodes G)
                          (g_nodes (po_graph (_create_bell_pair G H p used)))).
      { eapply Forall2_impl; [|exact C1].
        intros x y [ -> | [[E|[]] ->] ]; [apply reached_or_kept_refl|].
        split; [reflexivity|]. intros _. right. rewrite <- E. exists p. exact Hpb. }
      destruct (po_exn (_create_bell_pair G H p used)); [exact C|].
      eapply Forall2_compose; [|exact C|apply IH].
      intros x y z [E1 K1] [E2 K2]. split; [congruence|].
      intros Hz. destruct (K2 Hz) as [Hy|Hy]; [apply K1, Hy|].
      right. rewrite <- E1.
      apply (connected_mono (po_links (_create_bell_pair G H p used)) H s (fst y));
        [|exact Hy].
      intros u v. apply create_bell_pair_links.
    + destruct x; try apply Forall2_refl_on, reached_or_kept_refl. apply IH.
Qed.

Lemma lookup_node_Forall2 {NA : Type} (R : node * NA -> node * NA -> Prop)
      (ns ns' : list (node * NA)) d a' :
  Forall2 (fun x x' => fst x' = fst x /\ R x x') ns ns' ->
  lookup_node ns' d = Some a' ->
  exists a, lookup_node ns d = Some a /\ R (d, a) (d, a').
Proof.
  unfold lookup_node.
  induction 1 as [|[n a] [n' b] l l' [E HR] _ IH]; cbn [find]; [discriminate|].
  cbn [fst] in *. subst n'.
  destruct (n =? d) eqn:En.
  - apply Nat.eqb_eq in En. subst n. cbn. intros H. inversion H; subst.
    exists a. auto.
  - exact IH.
Qed.

(** X25.  Where the greedy strategy succeeds from scratch, the
    cooperative one does.  On a topology in which no node is entangled
    and link graph [H] containing the source, if [_SD_protocol]
    returns [True] then [_CC_protocol] returns [True] on the same links
    and users: every destination was reached from the source over
    links of [H]. *)
Theorem SD_success_implies_CC_success :
  forall (steiner_tree : LinkGraph -> list node -> LinkGraph)
         (G : Topology) (H : LinkGraph) (s : node) (ds : list node)
         (used_nodes used_nodes' : list UsedPath) (count_fusion : bool),
    Forall (fun x => n_entangled (snd x) = false) (g_nodes G) ->
    In s (node_ids H) ->
    snd (_SD_protocol G H (s :: ds) used_nodes count_fusion) = Ok true ->
    snd (_CC_protocol steiner_tree G H (s :: ds) used_nodes' count_fusion)
    = Ok true
    /\ forall d, In d ds -> connected H s d.
Proof.
  intros st G H s ds used used' cf Hfresh Hs Hsd.
  assert (Hconn : forall d, In d ds -> connected H s d).
  { pose proof (sd_loop_reaches s ds G H used) as Hr.
    unfold _SD_protocol in Hsd.
    destruct (po_exn (sd_loop s ds G H used)); [discriminate|].
    cbn [snd] in Hsd.
    pose proof (proj1 (all_entangled_spec _ ds true Hsd) eq_refl) as Hall.
    intros d Hd. destruct (Hall d Hd) as [nd' [L' E']].
    destruct (lookup_node_Forall2
                (fun x x' => n_entangled (snd x') = true ->
                             n_entangled (snd x) = true \/ connected H s (fst x))
                _ _ d nd' Hr L') as [nd [L K]].
    cbn [fst snd] in K. destruct (K E') as [Hent|Hc]; [|exact Hc].
    apply lookup_node_In in L.
    pose proof (proj1 (Forall_forall _ _) Hfresh (d, nd) L) as Hf.
    cbn [snd] in Hf. congruence. }
  split; [|exact Hconn].
  destruct (CC_protocol_cases st G H s ds used' cf Hs) as [b [H1 H2]].
  rewrite H1. f_equal. apply H2. exact Hconn.
Qed.

Lemma SD_success_implies_CC_success_witness :
  snd (_CC_protocol (fun H _ => H) demo_chain demo_links [0; 2] [] false)
  = Ok true
  /\ connected demo_links 0 2.
Proof.
  destruct (SD_success_implies_CC_success (fun H _ => H) demo_chain demo_links
              0 [2] [] [] false) as [H1 H2].
  - repeat constructor.
  - cbn. auto.
  - vm_compute. reflexivity.
  - split; [exact H1|]. apply H2. left. reflexivity.
Defined.
(** ** A network whose links always succeed *)

Lemma edge_view_from_position {EA : Type} (ies : list (nat * Edge EA)) i
      (e0 : Edge EA) ns :
  In (i, e0) ies ->
  forall seen,
    In (eu e0) ns \/ In (ev e0) ns ->
    ~ In (eu e0) seen -> ~ In (ev e0) seen ->
    In i (map fst (edge_view_from ns seen ies)).
Proof.
  intros Hin. induction ns as [|n ns IH]; intros seen Hns Hu Hv;
    [cbn in Hns; tauto|].
  cbn [edge_view_from]. rewrite map_app, in_app_iff.
  destruct (incident n e0) eqn:Hi.
  - left. rewrite map_map. apply in_map_iff. exists (i, e0).
    split; [reflexivity|]. apply filter_In. split; [exact Hin|].
    cbn [snd]. rewrite Hi. cbn [andb]. apply negb_true_iff.
    destruct (mem (other_end n e0) seen) eqn:M; [|reflexivity].
    apply mem_In in M. unfold other_end in M.
    destruct (eu e0 =? n); contradiction.
  - right. unfold incident in Hi. apply orb_false_iff in Hi.
    rewrite !Nat.eqb_neq in Hi. apply IH.
    + cbn in Hns. destruct Hns as [[H|H]|[H|H]]; auto; lia.
    + cbn. intros [H|H]; [lia|contradiction].
    + cbn. intros [H|H]; [lia|contradiction].
Qed.

Lemma edge_order_covers {NA EA : Type} (G : Graph NA EA) i e0 :
  closed G -> nth_error (g_edges G) i = Some e0 -> In i (edge_order G).
Proof.
  intros HC Hi. unfold edge_order, edge_view.
  apply (edge_view_from_position (indexed (g_edges G)) i e0 (node_ids G)).
  - apply In_indexed. exact Hi.
  - left. apply (HC e0). apply (nth_error_In _ _ Hi).
  - intros [].
  - intros [].
Qed.

Lemma edge_loop_length ks :
  forall es edge, length (fst (edge_loop ks es edge)) = length es.
Proof.
  induction ks as [|[i r] ks IH]; intros es edge; cbn [edge_loop]; [reflexivity|].
  rewrite IH. apply update_nth_length.
Qed.

Lemma perfect_edge_update (r : Q) (e : Edge EdgeAttr) :
  (1 <= e_p_edge (eattr e))%Q -> (r < 1)%Q ->
  e_entangled (eattr (on_attr (edge_update r) e)) = true
  /\ (1 <= e_p_edge (eattr (on_attr (edge_update r) e)))%Q.
Proof.
  destruct e as [[u v] a]. unfold on_attr, eu, ev, eattr. cbn [fst snd].
  intros Hp Hr.
  destruct a as [len p qc ent age]. cbn in Hp.
  assert (Hq : Qgt_bool p r = true).
  { unfold Qgt_bool. apply negb_true_iff.
    destruct (Qle_bool p r) eqn:E; [|reflexivity].
    apply Qle_bool_iff in E. exfalso.
    apply (Qlt_irrefl r). eapply Qlt_le_trans; [exact Hr|].
    eapply Qle_trans; [exact Hp|exact E]. }
  unfold edge_update, edge_decohere, edge_generate. cbn.
  destruct ent; cbn.
  - destruct (Qle_bool qc (inject_Z (age + 1))); cbn.
    + rewrite Hq. cbn. auto.
    + auto.
  - rewrite Hq. cbn. auto.
Qed.

Lemma perfect_edge_loop ks :
  Forall (fun k => (snd k < 1)%Q) ks ->
  forall es edge,
    Forall (fun e => (1 <= e_p_edge (eattr e))%Q) es ->
    forall i e,
      nth_error (fst (edge_loop ks es edge)) i = Some e ->
      In i (map fst ks)
      \/ (exists e0, nth_error es i = Some e0 /\ e_entangled (eattr e0) = true) ->
      e_entangled (eattr e) = true.
Proof.
  induction 1 as [|[j r] ks Hr Hks IH]; intros es edge Hes i e Hi Hor.
  - cbn in Hi. destruct Hor as [[]|[e0 [E0 He0]]]. congruence.
  - cbn [edge_loop] in Hi. cbn [snd] in Hr.
    assert (Hes1 : Forall (fun e => (1 <= e_p_edge (eattr e))%Q)
                          (update_nth j (on_attr (edge_update r)) es)).
    { apply Forall_update_nth; [|exact Hes].
      intros x Hx. apply (perfect_edge_update r x Hx Hr). }
    apply (IH _ _ Hes1 i e Hi).
    destruct (Nat.eq_dec j i) as [->|Hne].
    + right.
      assert (Hlen : i < length es).
      { assert (H1 : i < length (fst (edge_loop ks
                         (update_nth i (on_attr (edge_update r)) es) (Some i))))
          by (apply nth_error_Some; congruence).
        rewrite edge_loop_length, update_nth_length in H1. exact H1. }
      destruct (nth_error es i) as [e0|] eqn:E0;
        [|apply nth_error_None in E0; lia].
      exists (on_attr (edge_update r) e0). split.
      * rewrite nth_error_update_nth_eq, E0. reflexivity.
      * apply perfect_edge_update; [|exact Hr].
        rewrite Forall_forall in Hes. apply Hes. apply (nth_error_In _ _ E0).
    + destruct Hor as [[E|Hin]|[e0 [E0 He0]]].
      * cbn in E. contradiction.
      * left. exact Hin.
      * right. exists e0. split; [|exact He0].
        rewrite nth_error_update_nth_ne by exact Hne. exact E0.
Qed.

Lemma In_combine_fst {A B : Type} (l1 : list A) (l2 : list B) a :
  In a l1 -> length l1 <= length l2 -> In a (map fst (combine l1 l2)).
Proof.
  revert l2. induction l1 as [|x l1 IH]; intros l2 Hin Hlen; [destruct Hin|].
  destruct l2 as [|y l2]; [cbn in Hlen; lia|].
  cbn in Hin, Hlen |- *. destruct Hin as [->|Hin]; [left; reflexivity|].
  right. apply IH; [exact Hin|lia].
Qed.

Lemma step_rng (G : Topology) used nodes (rng : RandomSource) :
  so_rng (run_entanglement_step G used nodes rng)
  = (fun i => rng (number_of_edges G + i)).
Proof.
  unfold run_entanglement_step. cbn [np_random_rand].
  destruct (edge_loop _ (g_edges G) None) as [es edge].
  destruct nodes; [|reflexivity].
  destruct (node_loop edge (g_nodes G) es) as [[ns es'] err].
  destruct err; cbn; auto.
  destruct (age_paths used) as [used1 [x|]]; cbn; auto.
  destruct (live_paths ns used1); cbn; auto.
Qed.

Lemma step_edges_after_loop (G : Topology) used nodes (rng : RandomSource) :
  Forall2 (fun e e' => e_entangled (eattr e') = e_entangled (eattr e))
          (fst (edge_loop (combine (edge_order G)
                                   (map rng (seq 0 (number_of_edges G))))
                          (g_edges G) None))
          (g_edges (so_graph (run_entanglement_step G used nodes rng))).
Proof.
  unfold run_entanglement_step. cbn [np_random_rand].
  destruct (edge_loop _ (g_edges G) None) as [es edge]. cbn [fst].
  assert (Hrefl : Forall2 (fun e e' : Edge EdgeAttr =>
                             e_entangled (eattr e') = e_entangled (eattr e))
                          es es)
    by (apply Forall2_refl_on; reflexivity).
  destruct nodes; [|exact Hrefl].
  pose proof (node_loop_Forall2
                (fun e e' => e_entangled (eattr e') = e_entangled (eattr e))
                edge (g_nodes G)
                (fun x y (Hxy : e_entangled (eattr y) = e_entangled (eattr x)) =>
                   Hxy)
                es es Hrefl) as Hn.
  destruct (node_loop edge (g_nodes G) es) as [[ns es'] err]. cbn [fst snd] in Hn.
  destruct err; cbn; auto.
  destruct (age_paths used) as [used1 [x|]]; cbn; auto.
  destruct (live_paths ns used1); cbn; auto.
Qed.

Lemma same_layout_has_edge (G G' : Topology) u v :
  same_layout G G' -> has_edge G' u v = has_edge G u v.
Proof.
  intros [_ HE]. unfold has_edge.
  induction HE as [|e e' es es' [E1 [E2 _]] _ IH]; [reflexivity|].
  cbn [existsb]. rewrite IH. unfold same_edge. rewrite E1, E2. reflexivity.
Qed.

Lemma same_layout_perfect (G G' : Topology) :
  same_layout G G' -> perfect G -> perfect G'.
Proof.
  intros [_ HE] HP. unfold perfect in *. apply Forall_forall. intros e' He'.
  destruct (Forall2_In_r _ _ _ e' HE He') as [e [He [_ [_ [_ [Ep _]]]]]].
  rewrite Ep. rewrite Forall_forall in HP. apply HP, He.
Qed.

Lemma perfect_step (G : Topology) used nodes (rng : RandomSource) u v :
  perfect G -> closed G -> NoDup (node_ids G) ->
  (forall i, (rng i < 1)%Q) ->
  has_edge G u v = true ->
  has_edge (get_entangled_subgraph
              (so_graph (run_entanglement_step G used nodes rng))) u v = true.
Proof.
  intros HP HC HN Hrng Huv.
  pose proof (step_same_layout G used nodes rng) as HL.
  pose proof (same_layout_closed _ _ HL HC) as HC'.
  pose proof (step_edges_after_loop G used nodes rng) as Hafter.
  set (G' := so_graph (run_entanglement_step G used nodes rng)) in *.
  apply entangled_subgraph_edges; [intros e He; apply (HC' e He)|].
  rewrite <- (same_layout_has_edge G G' u v HL) in Huv.
  unfold has_edge in Huv. apply existsb_exists in Huv.
  destruct Huv as [e' [He' Hsame]]. exists e'. split; [exact He'|].
  split; [exact Hsame|].
  destruct (In_nth_error _ _ He') as [i Hi].
  assert (Hlen : i < length (g_edges G)).
  { assert (i < length (g_edges G')) by (apply nth_error_Some; congruence).
    destruct HL as [_ HE]. apply Forall2_length in HE. lia. }
  destruct (nth_error (g_edges G) i) as [e0|] eqn:Hi0;
    [|apply nth_error_None in Hi0; lia].
  set (ks := combine (edge_order G) (map rng (seq 0 (number_of_edges G)))) in *.
  destruct (nth_error (fst (edge_loop ks (g_edges G) None)) i) as [e1|] eqn:Hi1;
    [|apply nth_error_None in Hi1; rewrite edge_loop_length in Hi1; lia].
  destruct (Forall2_nth_error _ _ _ _ _ Hafter Hi1) as [y [Hy Hent]].
  assert (y = e') by congruence. subst y. rewrite Hent.
  apply (perfect_edge_loop ks) with (es := g_edges G) (edge := @None nat) (i := i);
    [| exact HP | exact Hi1 |].
  - apply Forall_forall. intros [j r] Hjr. cbn [snd].
    apply in_combine_r in Hjr. apply in_map_iff in Hjr.
    destruct Hjr as [k [<- _]]. apply Hrng.
  - left. apply In_combine_fst.
    + apply (edge_order_covers G i e0 HC Hi0).
    + rewrite length_map, length_seq. apply edge_order_length, HN.
Qed.

(** What the runner makes of a strategy that wins the first timestep of
    every repetition, for topologies kept within [P]. *)
Lemma trial_loop_all_at_once (sp : Strategy) users timesteps nodes cf
      (P : Topology -> Prop) :
  (0 < timesteps)%Z ->
  (forall m (G : Topology) links (rng : RandomSource),
      P G -> (forall i, (rng i < 1)%Q) ->
      exists G' links',
        timestep_loop sp users nodes cf (S m) 0%Z (reset_graph_state G) []
                      links rng
        = mkTrialOut G' (fun i => rng (number_of_edges (reset_graph_state G) + i))
                     links' (Ok 1%Z)
        /\ P G') ->
  forall n (G : Topology) links times (rng : RandomSource),
    P G -> (forall i, (rng i < 1)%Q) ->
    exists G' rng' links',
      trial_loop sp users timesteps nodes cf n G links times rng
      = (G', rng', links', Ok (times ++ repeat 1%Z n)).
Proof.
  intros Hts Hstep.
  induction n as [|n IH]; intros G links times rng HP Hrng; cbn [trial_loop].
  - exists G, rng, links. rewrite app_nil_r. reflexivity.
  - destruct (Z.to_nat timesteps) as [|m] eqn:Em; [lia|].
    destruct (Hstep m G links rng HP Hrng) as [G1 [links1 [E HP1]]].
    rewrite E. cbn [to_time to_graph to_links to_rng].
    destruct (IH G1 links1 (times ++ [1%Z])
                 (fun i => rng (number_of_edges (reset_graph_state G) + i))
                 HP1 (fun i => Hrng _))
      as [G' [rng' [links' E']]].
    exists G', rng', links'. rewrite E', <- app_assoc. reflexivity.
Qed.

Lemma rate_all_at_once (n : nat) (timesteps : Z) :
  n <> 0 ->
  exists rate, _multipartite_rate (repeat 1%Z n) timesteps = Ok (Finite rate)
               /\ (rate == 1)%Q.
Proof.
  intros Hn. rewrite rate_cases.
  assert (Hf : forall k, filter (fun t => negb (t =? -1)%Z) (repeat 1%Z k)
                         = repeat 1%Z k)
    by (induction k as [|k IH]; cbn; [|rewrite IH]; reflexivity).
  assert (Hg : forall k, filter (fun t => (t =? -1)%Z) (repeat 1%Z k) = [])
    by (induction k as [|k IH]; cbn; auto).
  assert (Hs : forall k, fold_right Z.add 0%Z (repeat 1%Z k) = Z.of_nat k)
    by (induction k as [|k IH]; [reflexivity|cbn [repeat fold_right]; rewrite IH; lia]).
  unfold denominator, success_count, success_sum, failure_count.
  rewrite Hf, Hg, Hs, repeat_length. cbn [length]. rewrite Z.mul_0_l, Z.add_0_r.
  destruct (Z.of_nat n =? 0)%Z eqn:E; [apply Z.eqb_eq in E; lia|].
  eexists. split; [reflexivity|].
  apply Qmult_inv_r. unfold Qeq. cbn. lia.
Qed.

Lemma run_all_at_once (sp : Strategy) (G : Topology) users timesteps reps nodes
      cf (rng : RandomSource) :
  (0 < reps)%Z ->
  (forall i, (rng i < 1)%Q) ->
  (forall n links times (rng : RandomSource),
      (forall i, (rng i < 1)%Q) ->
      exists G' rng' links',
        trial_loop sp users timesteps nodes cf n (reset_graph_usage G) links
                   times rng
        = (G', rng', links', Ok (times ++ repeat 1%Z n))) ->
  all_at_once reps (_run_protocol G users timesteps reps sp nodes cf rng).
Proof.
  intros Hreps Hrng Htrials. unfold all_at_once, _run_protocol.
  destruct (reps <? 0)%Z eqn:E; [apply Z.ltb_lt in E; lia|].
  destruct (Htrials (Z.to_nat reps) 0%Z [] rng Hrng) as [G1 [rng1 [links1 E1]]].
  rewrite E1. cbn [app].
  destruct (rate_all_at_once (Z.to_nat reps) timesteps) as [rate [Er Hr]];
    [lia|].
  rewrite Er.
  pose proof (update_graph_usage_ok G1 reps) as Hu.
  destruct (update_graph_usage G1 reps) as [G2 err].
  cbn [snd] in Hu. rewrite Hu by lia.
  assert (Hz : (reps =? 0)%Z = false) by (apply Z.eqb_neq; lia).
  rewrite Hz. cbn [ro_result]. exists rate. eexists. split; [reflexivity|].
  exact Hr.
Qed.

Lemma perfect_timestep steiner_tree u0 rest cf m (G : Topology) links
      (rng : RandomSource) :
  steiner_within steiner_tree ->
  perfect G -> closed G -> NoDup (node_ids G) ->
  In u0 (node_ids G) ->
  (forall u, In u rest -> connected G u0 u) ->
  (forall i, (rng i < 1)%Q) ->
  exists G' links',
    timestep_loop (_CC_protocol steiner_tree) (u0 :: rest) false cf (S m) 0%Z
                  G [] links rng
    = mkTrialOut G' (fun i => rng (number_of_edges G + i)) links' (Ok 1%Z).
Proof.
  intros Hst HP HC HN Hu0 Hcon Hrng. cbn [timestep_loop].
  destruct (step_plain G [] rng) as [E1 E2].
  pose proof (step_rng G [] false rng) as E3.
  pose proof (step_same_layout G [] false rng) as HL.
  pose proof (fun u v => perfect_step G [] false rng u v HP HC HN Hrng) as Hlinks.
  set (s := run_entanglement_step G [] false rng) in *.
  rewrite E1, E2, E3.
  assert (Hu0' : In u0 (node_ids (so_graph s)))
    by (rewrite (same_layout_node_ids _ _ HL); exact Hu0).
  destruct (CC_call steiner_tree (so_graph s) u0 rest [] cf Hst Hu0'
              (Forall_nil _)) as [used1 [b [E Hused]]].
  assert (Hu0'' : In u0 (node_ids (get_entangled_subgraph (so_graph s))))
    by (rewrite entangled_subgraph_nodes; exact Hu0').
  destruct (CC_protocol_cases steiner_tree (so_graph s)
              (get_entangled_subgraph (so_graph s)) u0 rest [] cf Hu0'')
    as [b' [Eb Hb]].
  rewrite E in Eb |- *. cbn [snd] in Eb.
  assert (b = true).
  { assert (b' = true).
    { apply Hb. intros u Hu.
      apply (connected_mono G _ u0 u Hlinks). apply Hcon, Hu. }
    congruence. }
  subst b.
  pose proof (add_usage_total used1 (so_graph s) links Hused) as Hadd.
  destruct (add_usage used1 (so_graph s) links) as [[G2 links2] err].
  cbn [snd] in Hadd. subst err. exists G2, links2. reflexivity.
Qed.

(** X26.  A network whose links always succeed serves connected users at
    once under the cooperative protocol.  Let every edge of the graph have
    [p_edge >= 1] and every random draw be below 1; let the graph be a
    networkx graph (distinct nodes, edges between its nodes), let the
    first user be a node of it and every other user be connected to the
    first in it, and let the Steiner routine return no node its input
    lacks.  Then for positive [timesteps] and [reps], [MPC_protocol]
    returns, every entry of the time list is 1, and the rate is 1:
    whatever the memory times are, and whatever state the links are in
    when the run starts. *)
Theorem perfect_network_succeeds_at_once :
  forall (steiner_tree : LinkGraph -> list node -> LinkGraph)
         (G : Topology) (u0 : node) (others : list node) (timesteps reps : Z)
         (count_fusion : bool) (rng : RandomSource),
    steiner_within steiner_tree ->
    (0 < reps)%Z -> (0 < timesteps)%Z ->
    perfect G -> closed G -> NoDup (node_ids G) ->
    In u0 (node_ids G) ->
    (forall u, In u others -> connected G u0 u) ->
    (forall i, (rng i < 1)%Q) ->
    all_at_once reps (MPC_protocol steiner_tree G (u0 :: others) timesteps reps
                                   count_fusion rng).
Proof.
  intros st G u0 others timesteps reps cf rng Hst Hreps Hts HP HC HN Hu0 Hcon
         Hrng.
  unfold MPC_protocol. apply run_all_at_once; [exact Hreps|exact Hrng|].
  intros n links times rng' Hrng'.
  apply (trial_loop_all_at_once (_CC_protocol st) (u0 :: others) timesteps false
           cf (same_layout G) Hts); [|apply same_layout_reset_usage|exact Hrng'].
  intros m G1 links1 rng1 HL Hrng1.
  assert (HL1 : same_layout G (reset_graph_state G1))
    by (eapply same_layout_trans; [exact HL|apply same_layout_reset_state]).
  destruct (perfect_timestep st u0 others cf m (reset_graph_state G1) links1 rng1
              Hst) as [G2 [links2 E]].
  - apply (same_layout_perfect _ _ HL1 HP).
  - apply (same_layout_closed _ _ HL1 HC).
  - rewrite (same_layout_node_ids _ _ HL1). exact HN.
  - rewrite (same_layout_node_ids _ _ HL1). exact Hu0.
  - intros u Hu. apply (connected_mono G _ u0 u); [|apply Hcon, Hu].
    intros x y Hxy. rewrite (same_layout_has_edge _ _ x y HL1). exact Hxy.
  - exact Hrng1.
  - exists G2, links2. split; [exact E|].
    pose proof (same_layout_timestep_loop (_CC_protocol st) (u0 :: others) false
                  cf (S m) (CC_keeps_layout st) 0%Z (reset_graph_state G1) []
                  links1 rng1) as HL2.
    rewrite E in HL2. cbn [to_graph] in HL2.
    eapply same_layout_trans; [exact HL1|exact HL2].
Qed.

Lemma perfect_network_succeeds_at_once_witness :
  all_at_once 2 (MPC_protocol (fun H _ => H) demo_square [0; 2; 3] 3 2 false half).
Proof.
  apply (perfect_network_succeeds_at_once (fun H _ => H) demo_square 0 [2; 3] 3 2
           false half).
  - intros H ts. apply incl_refl.
  - lia.
  - lia.
  - repeat constructor; cbn; unfold Qle; cbn; lia.
  - exact demo_square_closed.
  - cbn. repeat constructor; cbn; intuition lia.
  - cbn. auto.
  - intros u [<-|[<-|[]]].
    + exists [0; 1; 2]. vm_compute. intuition.
    + exists [0; 3]. vm_compute. intuition.
  - intros i. unfold half, Qlt. cbn. lia.
Defined.

(** ** Copying usage back *)

Lemma copy_usage_errors js :
  forall G : Topology,
    (snd (copy_usage js G) = None <-> incl (map fst js) (node_ids G))
    /\ (snd (copy_usage js G) = None \/ snd (copy_usage js G) = Some KeyError).
Proof.
  induction js as [|[n a] js IH]; intros G; cbn [copy_usage map fst].
  - cbn. split; [|auto]. split; [intros _ x []|reflexivity].
  - unfold has_node. destruct (mem n (node_ids G)) eqn:M.
    + apply mem_In in M.
      match goal with
      | |- context [copy_usage js ?g] => destruct (IH g) as [H1 H2]
      end.
      rewrite set_node_node_ids in H1. split; [|exact H2].
      rewrite H1. split.
      * intros Hi x [<-|Hx]; [exact M|apply Hi, Hx].
      * intros Hi x Hx. apply Hi. right. exact Hx.
    + cbn [snd]. split; [|auto]. split; [discriminate|].
      intros Hi. assert (Hn : In n (node_ids G)) by (apply Hi; left; reflexivity).
      apply mem_In in Hn. congruence.
Qed.

(** X27.  What [update_usage_from_subgraph] copies, and when it fails.
    For graphs [G] and [J], [J] with distinct node ids: the call raises
    nothing exactly when every node of [J] is a node of [G], and otherwise
    it raises [KeyError].  In both cases the edges of [G] are as they
    were, its nodes keep their place, [entangled], [age] and [Qc], and a
    node that [J] does not have is as it was.  When nothing is raised,
    every node of [G] that [J] has ends with the [usage_count] and
    [usage_fraction] it has in [J]. *)
Theorem update_usage_from_subgraph_copies :
  forall (G J : Topology),
    NoDup (node_ids J) ->
    let out := update_usage_from_subgraph G J in
    (snd out = None <-> incl (node_ids J) (node_ids G))
    /\ (snd out = None \/ snd out = Some KeyError)
    /\ g_edges (fst out) = g_edges G
    /\ Forall2 same_state (g_nodes G) (g_nodes (fst out))
    /\ (forall n x, ~ In n (node_ids J) ->
                    (In (n, x) (g_nodes (fst out)) <-> In (n, x) (g_nodes G)))
    /\ (snd out = None ->
        forall n a x,
          In (n, a) (g_nodes J) -> In (n, x) (g_nodes (fst out)) ->
          n_usage_count x = n_usage_count a
          /\ n_usage_fraction x = n_usage_fraction a).
Proof.
  intros G J HN out. subst out. unfold update_usage_from_subgraph.
  destruct (copy_usage_errors (g_nodes J) G) as [H1 H2].
  destruct (copy_usage_frame (g_nodes J) G) as [H3 H4].
  repeat match goal with |- _ /\ _ => split end; auto.
  - intros n x Hn. apply copy_usage_untouched. exact Hn.
  - intros Hok n a x Ha Hx.
    apply (copy_usage_copies (g_nodes J) HN G n a x Ha Hx Hok).
Qed.

Lemma update_usage_from_subgraph_copies_witness :
  snd (update_usage_from_subgraph demo_apart demo_usage) = Some KeyError.
Proof.
  destruct (update_usage_from_subgraph_copies demo_apart demo_usage)
    as [H1 [[H2|H2] _]].
  - cbn. repeat constructor; cbn; intuition lia.
  - exfalso. apply H1 in H2. specialize (H2 2). cbn in H2. intuition lia.
  - exact H2.
Defined.
(** ** Two users *)

Lemma lookup_node_marked (ns : list (node * NodeAttr)) d nd :
  lookup_node ns d = Some nd ->
  lookup_node (map (marked d) ns) d
  = Some (set_n_age 0%Z (set_n_entangled true nd)).
Proof.
  unfold lookup_node. induction ns as [|[n a] ns IH]; cbn [find map];
    [discriminate|].
  cbn [fst]. destruct (n =? d) eqn:E.
  - assert (Em : marked d (n, a)
                 = (n, set_n_age 0%Z (set_n_entangled true a)))
      by (unfold marked; cbn [fst snd]; rewrite E; reflexivity).
    rewrite Em. cbn [fst]. rewrite E. cbn [option_map snd].
    intros H. inversion H. reflexivity.
  - assert (Em : marked d (n, a) = (n, a))
      by (unfold marked; cbn [fst snd]; rewrite E; reflexivity).
    rewrite Em. cbn [fst]. rewrite E. exact IH.
Qed.

Lemma SD_one_destination (G : Topology) (H : LinkGraph) s d nd used cf :
  links_of G H -> In s (node_ids G) ->
  lookup_node (g_nodes G) d = Some nd -> n_entangled nd = false ->
  exists b,
    snd (_SD_protocol G H [s; d] used cf) = Ok b
    /\ (b = true <-> connected H s d).
Proof.
  intros [Hids Hsub] Hs Hnd Hent.
  assert (Hd : In d (node_ids G))
    by (apply lookup_node_some; exists nd; exact Hnd).
  assert (HsH : has_node H s = true)
    by (unfold has_node; rewrite Hids; apply mem_In; exact Hs).
  assert (HdH : has_node H d = true)
    by (unfold has_node; rewrite Hids; apply mem_In; exact Hd).
  unfold _SD_protocol. cbn [sd_loop]. rewrite Hnd, Hent. unfold has_path.
  destruct (shortest_path H s d) as [p|x] eqn:Esp.
  - pose proof (shortest_path_simple H s d p Esp) as Hnodup.
    destruct (shortest_path_sound H s d p Esp) as [_ [_ [Hpb _]]].
    pose proof Hpb as [Hhd [Hlast Hwalk]].
    rewrite (create_bell_pair_succeeds G H p used d).
    + cbn [po_exn po_graph po_links po_used all_entangled g_nodes].
      rewrite (lookup_node_marked (g_nodes G) d nd Hnd). cbn.
      exists true. split; [reflexivity|]. split; [|reflexivity].
      intros _. exists p. exact Hpb.
    + apply hops_available_simple; assumption.
    + exact Hlast.
    + unfold has_node. apply mem_In. exact Hd.
  - rewrite (shortest_path_raises H s d x HsH HdH Esp).
    cbn [po_exn po_graph all_entangled]. rewrite Hnd, Hent. cbn.
    exists false. split; [reflexivity|]. split; [discriminate|].
    intros [q Hq].
    destruct (shortest_path_found H s d q HsH HdH Hq) as [p [Hp _]].
    congruence.
Qed.

(** X28.  With two users the greedy and the cooperative strategy agree.
    Let [H] hold links of the topology [G] (the same nodes, only edges of
    [G]), let the source be a node and the destination a node that is not
    entangled.  Then [_SD_protocol] and [_CC_protocol], called on the
    users [[s; d]], raise nothing and return the same boolean, which is
    [True] exactly when [d] can be reached from [s] over links of [H]. *)
Theorem two_users_strategies_agree :
  forall (steiner_tree : LinkGraph -> list node -> LinkGraph)
         (G : Topology) (H : LinkGraph) (s d : node) (nd : NodeAttr)
         (used_nodes used_nodes' : list UsedPath) (count_fusion : bool),
    links_of G H ->
    In s (node_ids G) ->
    lookup_node (g_nodes G) d = Some nd ->
    n_entangled nd = false ->
    exists b,
      snd (_SD_protocol G H [s; d] used_nodes count_fusion) = Ok b
      /\ snd (_CC_protocol steiner_tree G H [s; d] used_nodes' count_fusion)
         = Ok b
      /\ (b = true <-> connected H s d).
Proof.
  intros st G H s d nd used used' cf Hlinks Hs Hnd Hent.
  destruct (SD_one_destination G H s d nd used cf Hlinks Hs Hnd Hent)
    as [b [E1 Hb]].
  assert (HsH : In s (node_ids H)) by (destruct Hlinks as [-> _]; exact Hs).
  destruct (CC_protocol_cases st G H s [d] used' cf HsH) as [b' [E2 Hb']].
  exists b. split; [exact E1|]. split; [|exact Hb].
  rewrite E2. f_equal.
  assert (Hiff : b' = true <-> b = true).
  { rewrite Hb, Hb'. split.
    - intros Hall. apply Hall. left. reflexivity.
    - intros Hc u [<-|[]]. exact Hc. }
  destruct b, b'; try reflexivity.
  - apply (proj2 Hiff). reflexivity.
  - symmetry. apply (proj1 Hiff). reflexivity.
Qed.

Lemma two_users_strategies_agree_witness :
  exists b,
    snd (_SD_protocol demo_chain (get_entangled_subgraph demo_chain) [0; 2] []
                      false) = Ok b
    /\ snd (_CC_protocol (fun H _ => H) demo_chain
                         (get_entangled_subgraph demo_chain) [0; 2] [] false)
       = Ok b
    /\ (b = true <-> connected (get_entangled_subgraph demo_chain) 0 2).
Proof.
  apply (two_users_strategies_agree (fun H _ => H) demo_chain
           (get_entangled_subgraph demo_chain) 0 2
           (demo_node false) [] [] false).
  - apply links_of_entangled_subgraph.
  - cbn. auto.
  - vm_compute. reflexivity.
  - reflexivity.
Defined.
(** ** Two users on a network whose links always succeed *)

Lemma perfect_timestep_SD s d cf m (G : Topology) links (rng : RandomSource) :
  perfect G -> closed G -> NoDup (node_ids G) -> g_edges G <> [] ->
  In s (node_ids G) -> In d (node_ids G) ->
  connected G s d ->
  Forall (fun x => n_entangled (snd x) = false) (g_nodes G) ->
  (forall i, (rng i < 1)%Q) ->
  exists G' links',
    timestep_loop _SD_protocol [s; d] true cf (S m) 0%Z G [] links rng
    = mkTrialOut G' (fun i => rng (number_of_edges G + i)) links' (Ok 1%Z).
Proof.
  intros HP HC HN Hne Hs Hd Hcon Hfree Hrng. cbn [timestep_loop].
  destruct (step_good_paths G [] rng HC Hne (Forall_nil _)) as [E1 Hgood].
  pose proof (step_rng G [] true rng) as E3.
  pose proof (step_same_layout G [] true rng) as HL.
  pose proof (step_nodes_settle G [] true rng) as Hsettle.
  pose proof (fun u v => perfect_step G [] true rng u v HP HC HN Hrng) as Hlinks.
  set (st := run_entanglement_step G [] true rng) in *.
  rewrite E1, E3.
  assert (HC' : closed (so_graph st)) by (apply (same_layout_closed _ _ HL HC)).
  assert (Hus : incl [s; d] (node_ids (so_graph st))).
  { rewrite (same_layout_node_ids _ _ HL). intros x [<-|[<-|[]]]; assumption. }
  destruct (SD_call (so_graph st) s [d] (so_used st) cf HC' Hus Hgood)
    as [G1 [used1 [b [E [HL1 Hgood1]]]]].
  assert (Hnd : exists nd, lookup_node (g_nodes (so_graph st)) d = Some nd
                           /\ n_entangled nd = false).
  { destruct (proj1 (lookup_node_some (g_nodes (so_graph st)) d))
      as [nd Hnd]; [apply Hus; right; left; reflexivity|].
    exists nd. split; [exact Hnd|].
    apply lookup_node_In in Hnd.
    destruct (Forall2_In_r _ _ _ _ Hsettle Hnd) as [x [Hx [_ [_ [_ Himp]]]]].
    rewrite Forall_forall in Hfree. specialize (Hfree x Hx).
    cbn [snd] in Himp. destruct (n_entangled nd); [|reflexivity].
    rewrite Himp in Hfree by reflexivity. discriminate. }
  destruct Hnd as [nd [Hnd Hent]].
  destruct (SD_one_destination (so_graph st)
              (get_entangled_subgraph (so_graph st)) s d nd (so_used st) cf
              (links_of_entangled_subgraph _)
              (Hus s (or_introl eq_refl)) Hnd Hent) as [b' [Eb Hb]].
  rewrite E in Eb |- *. cbn [snd] in Eb.
  assert (b = true).
  { assert (b' = true)
      by (apply Hb; apply (connected_mono G _ s d Hlinks); exact Hcon).
    congruence. }
  subst b.
  pose proof (add_usage_total used1 G1 links) as Hadd.
  destruct (add_usage used1 G1 links) as [[G2 links2] err].
  cbn [snd] in Hadd. rewrite Hadd.
  - exists G2, links2. reflexivity.
  - eapply Forall_impl; [|exact Hgood1]. intros p Hp. apply Hp.
Qed.

(** X29.  A network whose links always succeed serves two connected users
    at once under the greedy protocol too.  Let every edge of the graph
    have [p_edge >= 1] and every random draw be below 1; let the graph be
    a networkx graph with at least one edge, and let source and
    destination be nodes of it joined by a path.  Then for positive
    [timesteps] and [reps], [MPG_protocol] returns, every entry of the
    time list is 1, and the rate is 1, whatever the memory times of edges
    and nodes are. *)
Theorem perfect_network_two_users :
  forall (G : Topology) (s d : node) (timesteps reps : Z)
         (count_fusion : bool) (rng : RandomSource),
    (0 < reps)%Z -> (0 < timesteps)%Z ->
    perfect G -> closed G -> NoDup (node_ids G) -> g_edges G <> [] ->
    In s (node_ids G) -> In d (node_ids G) ->
    connected G s d ->
    (forall i, (rng i < 1)%Q) ->
    all_at_once reps (MPG_protocol G [s; d] timesteps reps count_fusion rng).
Proof.
  intros G s d timesteps reps cf rng Hreps Hts HP HC HN Hne Hs Hd Hcon Hrng.
  unfold MPG_protocol. apply run_all_at_once; [exact Hreps|exact Hrng|].
  intros n links times rng' Hrng'.
  apply (trial_loop_all_at_once _SD_protocol [s; d] timesteps true cf
           (same_layout G) Hts); [|apply same_layout_reset_usage|exact Hrng'].
  intros m G1 links1 rng1 HL Hrng1.
  assert (HL1 : same_layout G (reset_graph_state G1))
    by (eapply same_layout_trans; [exact HL|apply same_layout_reset_state]).
  destruct (perfect_timestep_SD s d cf m (reset_graph_state G1) links1 rng1)
    as [G2 [links2 E]].
  - apply (same_layout_perfect _ _ HL1 HP).
  - apply (same_layout_closed _ _ HL1 HC).
  - rewrite (same_layout_node_ids _ _ HL1). exact HN.
  - apply (same_layout_has_edges _ _ HL1 Hne).
  - rewrite (same_layout_node_ids _ _ HL1). exact Hs.
  - rewrite (same_layout_node_ids _ _ HL1). exact Hd.
  - apply (connected_mono G _ s d); [|exact Hcon].
    intros x y Hxy. rewrite (same_layout_has_edge _ _ x y HL1). exact Hxy.
  - destruct (rested_reset G1) as [_ Hnodes].
    eapply Forall_impl; [|exact Hnodes]. intros x [Hx _]. exact Hx.
  - exact Hrng1.
  - exists G2, links2. split; [exact E|].
    pose proof (same_layout_timestep_loop _SD_protocol [s; d] true cf (S m)
                  SD_keeps_layout 0%Z (reset_graph_state G1) [] links1 rng1)
      as HL2.
    rewrite E in HL2. cbn [to_graph] in HL2.
    eapply same_layout_trans; [exact HL1|exact HL2].
Qed.

Lemma perfect_network_two_users_witness :
  all_at_once 2 (MPG_protocol demo_square [0; 2] 3 2 false half).
Proof.
  apply (perfect_network_two_users demo_square 0 2 3 2 false half).
  - lia.
  - lia.
  - repeat constructor; cbn; unfold Qle; cbn; lia.
  - exact demo_square_closed.
  - cbn. repeat constructor; cbn; intuition lia.
  - discriminate.
  - cbn. auto.
  - cbn. auto.
  - exists [0; 1; 2]. vm_compute. intuition.
  - intros i. unfold half, Qlt. cbn. lia.
Defined.
